(** * Catmull-Clark subdivision: a shallow embedding of [catmull_clark.cpp]

    The development follows the source file top to bottom:

    - the records [VertexRecord], [EdgeRecord], [FaceRecord] and [Model]
      with the three member functions [moveVertex], [getVertexIndex] and
      [getEdgeIndex];
    - [meshToModel], which builds the adjacency model of a flat mesh;
    - [applyCatmullClarkSubdivisionOnce], one refinement pass;
    - [applyCatmullClarkSubdivision], the driver.

    C++ [int] and [uint32_t] values are integers of [Z] with the conversions
    written out ([to_int], [to_u32]).  A [std::vector] is a list, a
    [std::unordered_map] is a [gmap].  The code of a member function that
    mutates the model is a state transformer that also reports how the call
    ended ([ModelM]); an access outside a vector or an array, which the
    source does not check, ends the computation with [OutOfBounds]. *)

From Stdlib Require Import ZArith Floats.SpecFloat.
From stdpp Require Import gmap list.

Local Open Scope Z_scope.

(** ** Machine integers *)

(** [static_cast<int>] of a size: the value modulo 2^32, read as signed. *)
Definition to_int (z : Z) : Z := (z + 2 ^ 31) mod 2 ^ 32 - 2 ^ 31.

(** [static_cast<Face::Index>] and [Face::Index] arithmetic ([uint32_t]). *)
Definition to_u32 (z : Z) : Z := z mod 2 ^ 32.

Definition int_min : Z := - 2 ^ 31.

(** ** How a computation ends *)

Inductive failure : Type :=
| RuntimeError      (* the [std::runtime_error] thrown by [moveVertex] *)
| AssertionFailed   (* a failed [assert]: the process is aborted *)
| OutOfBounds.      (* an unchecked access outside a vector or an array *)

Inductive outcome (A : Type) : Type :=
| Done (a : A)
| Fail (e : failure).
Arguments Done {A} a.
Arguments Fail {A} e.

Global Instance failure_eq_dec : EqDecision failure.
Proof. solve_decision. Defined.

Global Instance outcome_eq_dec {A} `{EqDecision A} : EqDecision (outcome A).
Proof. solve_decision. Defined.

Definition obind {A B} (x : outcome A) (k : A → outcome B) : outcome B :=
  match x with
  | Done a => k a
  | Fail e => Fail e
  end.

Global Instance outcome_ret : MRet outcome := @Done.
Global Instance outcome_bind : MBind outcome := λ A B k x, obind x k.

(** [v[i]] for a vector or array [v] and a C++ integer [i]. *)
Definition at_index {A} (l : list A) (i : Z) : outcome A :=
  if decide (0 ≤ i) then
    match l !! Z.to_nat i with
    | Some a => Done a
    | None => Fail OutOfBounds
    end
  else Fail OutOfBounds.

(** A read-only loop that collects one result per element. *)
Fixpoint collect {A B} (body : A → outcome B) (l : list A) : outcome (list B) :=
  match l with
  | [] => Done []
  | a :: l' => b ← body a; bs ← collect body l'; mret (b :: bs)
  end.

(** A loop with an accumulator; [acc] is the value after the iterations
    done so far. *)
Fixpoint accumulate {A S} (body : S → A → outcome S) (acc : S) (l : list A)
  : outcome S :=
  match l with
  | [] => Done acc
  | a :: l' => acc' ← body acc a; accumulate body acc' l'
  end.

(** ** The arithmetic of [common.h]

    [Vec3] is [agz::math::vec3f], which is not part of the repository.  The
    embedding takes the vector type and the operators that the subdivision
    code applies to it as an interface; no law is assumed of them, so every
    statement below holds for rounding arithmetic as well as for exact
    arithmetic.  The two hash maps of [Model] compare their keys with the
    equality of the key type. *)

Class VecArith : Type := {
  scalar : Type;                       (* float *)
  Vec3 : Type;
  Vec3_eq_dec :: EqDecision Vec3;
  Vec3_countable :: Countable Vec3;
  of_Z : Z → scalar;                   (* static_cast<float>(integer) *)
  fdiv : scalar → scalar → scalar;     (* float / float *)
  half : scalar;                       (* 0.5f *)
  quarter : scalar;                    (* 0.25f *)
  vzero : Vec3;                        (* Vec3() *)
  vadd : Vec3 → Vec3 → Vec3;           (* a + b, a += b *)
  smul : scalar → Vec3 → Vec3;         (* s * a *)
  vdiv : Vec3 → scalar → Vec3;         (* a / s, a /= s *)
}.

Section CatmullClark.

Context {VA : VecArith}.

(** ** The mesh of [common.h] *)

Record Vertex : Type := { position : Vec3 }.

(** [indices] is the array [Index indices[4]]; a triangle uses the first
    three entries. *)
Record Face : Type := { isQuad : bool; indices : list Z }.

Record Mesh : Type := { mesh_vertices : list Vertex; mesh_faces : list Face }.

(** ** The records of the adjacency model *)

Record VertexRecord : Type := {
  vr_position : Vec3;
  vr_edges : list Z;
  vr_faces : list Z;
}.

Record EdgeRecord : Type := {
  low_vertex : Z;
  high_vertex : Z;
  face_count : Z;
  er_faces : list Z;         (* int faces[2] *)
}.

Record FaceRecord : Type := {
  fr_isQuad : bool;
  fr_vertices : list Z;      (* int vertices[4] *)
  fr_edges : list Z;         (* int edges[4] *)
}.

Record Model : Type := {
  vertices : list VertexRecord;
  edges : list EdgeRecord;
  faces : list FaceRecord;
  positionToVertex : gmap Vec3 Z;
  vertexPairToEdge : gmap (Z * Z) Z;
}.

Definition emptyModel : Model :=
  {| vertices := []; edges := []; faces := [];
     positionToVertex := ∅; vertexPairToEdge := ∅ |}.

Definition set_vertices (vs : list VertexRecord) (m : Model) : Model :=
  {| vertices := vs; edges := edges m; faces := faces m;
     positionToVertex := positionToVertex m;
     vertexPairToEdge := vertexPairToEdge m |}.

Definition set_edges (es : list EdgeRecord) (m : Model) : Model :=
  {| vertices := vertices m; edges := es; faces := faces m;
     positionToVertex := positionToVertex m;
     vertexPairToEdge := vertexPairToEdge m |}.

Definition set_faces (fs : list FaceRecord) (m : Model) : Model :=
  {| vertices := vertices m; edges := edges m; faces := fs;
     positionToVertex := positionToVertex m;
     vertexPairToEdge := vertexPairToEdge m |}.

Definition set_positionToVertex (pv : gmap Vec3 Z) (m : Model) : Model :=
  {| vertices := vertices m; edges := edges m; faces := faces m;
     positionToVertex := pv;
     vertexPairToEdge := vertexPairToEdge m |}.

Definition set_vertexPairToEdge (pe : gmap (Z * Z) Z) (m : Model) : Model :=
  {| vertices := vertices m; edges := edges m; faces := faces m;
     positionToVertex := positionToVertex m;
     vertexPairToEdge := pe |}.

(** ** Code that mutates a model

    A computation takes the model and gives back how it ended together with
    the model at that point: when it fails, the second component is the
    model as the failure found it. *)

Definition ModelM (A : Type) : Type := Model → outcome A * Model.

Definition mpure {A} (a : A) : ModelM A := λ m, (Done a, m).

Definition mthen {A B} (x : ModelM A) (k : A → ModelM B) : ModelM B :=
  λ m, match x m with
       | (Done a, m') => k a m'
       | (Fail e, m') => (Fail e, m')
       end.

(** A read-only computation on the current model. *)
Definition inspect {A} (f : Model → outcome A) : ModelM A := λ m, (f m, m).

Global Instance ModelM_ret : MRet ModelM := @mpure.
Global Instance ModelM_bind : MBind ModelM := λ A B k x, mthen x k.

Fixpoint for_each {A} (body : A → ModelM unit) (l : list A) : ModelM unit :=
  match l with
  | [] => mpure ()
  | a :: l' => mthen (body a) (λ _, for_each body l')
  end.

Fixpoint for_collect {A B} (body : A → ModelM B) (l : list A)
  : ModelM (list B) :=
  match l with
  | [] => mpure []
  | a :: l' =>
      mthen (body a) (λ b, mthen (for_collect body l') (λ bs, mpure (b :: bs)))
  end.

Fixpoint for_accumulate {A S} (body : S → A → ModelM S) (acc : S) (l : list A)
  : ModelM S :=
  match l with
  | [] => mpure acc
  | a :: l' => mthen (body acc a) (λ acc', for_accumulate body acc' l')
  end.

(** [model.vertices[i]] and [model.edges[i]] as lvalues. *)
Definition updateVertex (i : Z) (f : VertexRecord → VertexRecord)
  : ModelM unit :=
  λ m, match at_index (vertices m) i with
       | Done v => (Done (), set_vertices (<[Z.to_nat i := f v]> (vertices m)) m)
       | Fail e => (Fail e, m)
       end.

Definition push_edge (edgeIndex : Z) (v : VertexRecord) : VertexRecord :=
  {| vr_position := vr_position v;
     vr_edges := vr_edges v ++ [edgeIndex];
     vr_faces := vr_faces v |}.

Definition push_face (faceIndex : Z) (v : VertexRecord) : VertexRecord :=
  {| vr_position := vr_position v;
     vr_edges := vr_edges v;
     vr_faces := vr_faces v ++ [faceIndex] |}.

Definition set_position (p : Vec3) (v : VertexRecord) : VertexRecord :=
  {| vr_position := p; vr_edges := vr_edges v; vr_faces := vr_faces v |}.

(** *** [Model::moveVertex] *)
Definition moveVertex (vertexIndex : Z) (newPosition : Vec3) : ModelM unit :=
  λ m,
    match at_index (vertices m) vertexIndex with
    | Fail e => (Fail e, m)
    | Done v =>
        let oldPosition := vr_position v in
        let m1 := set_positionToVertex (delete oldPosition (positionToVertex m)) m in
        match positionToVertex m1 !! newPosition with
        | Some _ => (Fail RuntimeError, m1)
        | None =>
            let m2 :=
              set_positionToVertex
                (<[newPosition := vertexIndex]> (positionToVertex m1)) m1 in
            (Done (),
             set_vertices
               (<[Z.to_nat vertexIndex := set_position newPosition v]> (vertices m2))
               m2)
        end
    end.

(** *** [Model::getVertexIndex] *)
Definition getVertexIndex (pos : Vec3) : ModelM Z :=
  λ m,
    match positionToVertex m !! pos with
    | Some i => (Done i, m)
    | None =>
        let ret := to_int (Z.of_nat (length (vertices m))) in
        let newVertexRecord :=
          {| vr_position := pos; vr_edges := []; vr_faces := [] |} in
        (Done ret,
         set_positionToVertex (<[pos := ret]> (positionToVertex m))
           (set_vertices (vertices m ++ [newVertexRecord]) m))
    end.

(** *** [Model::getEdgeIndex] *)
Definition sortPair (vertexPair : Z * Z) : Z * Z :=
  if decide (vertexPair.1 < vertexPair.2) then vertexPair
  else (vertexPair.2, vertexPair.1).

Definition getEdgeIndex (vertexPair : Z * Z) : ModelM Z :=
  λ m,
    let sortedVertexPair := sortPair vertexPair in
    match vertexPairToEdge m !! sortedVertexPair with
    | Some i => (Done i, m)
    | None =>
        let ret := to_int (Z.of_nat (length (edges m))) in
        let newEdgeRecord :=
          {| low_vertex := sortedVertexPair.1;
             high_vertex := sortedVertexPair.2;
             face_count := 0;
             er_faces := [-1; -1] |} in
        (Done ret,
         set_vertexPairToEdge (<[sortedVertexPair := ret]> (vertexPairToEdge m))
           (set_edges (edges m ++ [newEdgeRecord]) m))
    end.

(** ** [meshToModel] *)

Definition cornerCount (quad : bool) : nat := if quad then 4%nat else 3%nat.

(** A local array [int a[4] = { -1, -1, -1, -1 }] whose first entries have
    been assigned. *)
Definition array4 (assigned : list Z) : list Z :=
  assigned ++ replicate (4 - length assigned) (-1).

(** The last loop of the face body: the face enters the edge's list unless
    the edge already has two faces. *)
Definition recordFaceOnEdge (faceIndex : Z) (edgeIndex : Z) : ModelM unit :=
  λ m,
    match at_index (edges m) edgeIndex with
    | Fail e => (Fail e, m)
    | Done edgeRecord =>
        if decide (2 ≤ face_count edgeRecord) then (Done (), m)
        else if decide (0 ≤ face_count edgeRecord) then
          (Done (),
           set_edges
             (<[Z.to_nat edgeIndex :=
                  {| low_vertex := low_vertex edgeRecord;
                     high_vertex := high_vertex edgeRecord;
                     face_count := face_count edgeRecord + 1;
                     er_faces :=
                       <[Z.to_nat (face_count edgeRecord) := faceIndex]>
                         (er_faces edgeRecord) |}]> (edges m))
             m)
        else (Fail OutOfBounds, m)
    end.

Definition pushFaceRecord (r : FaceRecord) : ModelM Z :=
  λ m, (Done (to_int (Z.of_nat (length (faces m)))),
        set_faces (faces m ++ [r]) m).

(** The four loops of the face body, by their bodies. *)

(** [vertexIndices[i] = model.getVertexIndex(mesh.vertices[f.indices[i]].position)] *)
Definition meshCornerPosition (mesh : Mesh) (f : Face) (i : nat)
  : outcome Vec3 :=
  idx ← at_index (indices f) (Z.of_nat i);
  v ← at_index (mesh_vertices mesh) idx;
  mret (position v).

Definition resolveCorner (mesh : Mesh) (f : Face) (i : nat) : ModelM Z :=
  p ← inspect (λ _, meshCornerPosition mesh f i);
  getVertexIndex p.

Definition resolveEdge (vertexCount : nat) (vertexIndices : list Z) (i : nat)
  : ModelM Z :=
  startVertex ← inspect (λ _, at_index vertexIndices (Z.of_nat i));
  endVertex ←
    inspect (λ _, at_index vertexIndices (Z.of_nat ((i + 1) mod vertexCount)));
  edgeIndex ← getEdgeIndex (startVertex, endVertex);
  updateVertex startVertex (push_edge edgeIndex);;
  updateVertex endVertex (push_edge edgeIndex);;
  mret edgeIndex.

Definition noteFaceOnVertex (vertexIndices : list Z) (faceIndex : Z) (i : nat)
  : ModelM unit :=
  vi ← inspect (λ _, at_index vertexIndices (Z.of_nat i));
  updateVertex vi (push_face faceIndex).

Definition noteFaceOnEdge (edgeIndices : list Z) (faceIndex : Z) (i : nat)
  : ModelM unit :=
  ei ← inspect (λ _, at_index edgeIndices (Z.of_nat i));
  recordFaceOnEdge faceIndex ei.

(** The body of the loop over [mesh.faces]. *)
Definition addFace (mesh : Mesh) (f : Face) : ModelM unit :=
  let vertexCount := cornerCount (isQuad f) in
  vertexIndices ← for_collect (resolveCorner mesh f) (seq 0 vertexCount);
  let edgeCount := vertexCount in
  edgeIndices ←
    for_collect (resolveEdge vertexCount vertexIndices) (seq 0 edgeCount);
  let newFaceRecord :=
    {| fr_isQuad := isQuad f;
       fr_vertices := array4 vertexIndices;
       fr_edges := array4 edgeIndices |} in
  faceIndex ← pushFaceRecord newFaceRecord;
  for_each (noteFaceOnVertex vertexIndices faceIndex) (seq 0 vertexCount);;
  for_each (noteFaceOnEdge edgeIndices faceIndex) (seq 0 edgeCount).

Definition buildModel (mesh : Mesh) : ModelM unit :=
  for_each (addFace mesh) (mesh_faces mesh).

Definition meshToModel (mesh : Mesh) : outcome Model :=
  match buildModel mesh emptyModel with
  | (Done _, model) => Done model
  | (Fail e, _) => Fail e
  end.

(** ** [applyCatmullClarkSubdivisionOnce] *)

Definition vertexPosition (m : Model) (i : Z) : outcome Vec3 :=
  v ← at_index (vertices m) i; mret (vr_position v).

(** *** Face points *)

Definition facePoint (m : Model) (f : FaceRecord) : outcome Vec3 :=
  let vertexCount := cornerCount (fr_isQuad f) in
  vertexSum ←
    accumulate
      (λ (sum : Vec3) (j : nat),
         vj ← at_index (fr_vertices f) (Z.of_nat j);
         p ← vertexPosition m vj;
         mret (vadd sum p))
      vzero (seq 0 vertexCount);
  mret (vdiv vertexSum (of_Z (Z.of_nat vertexCount))).

Definition computeFacePoints (m : Model) : outcome (list Vec3) :=
  collect (facePoint m) (faces m).

(** *** Edge points *)

Definition edgePoint (m : Model) (facePoints : list Vec3) (e : EdgeRecord)
  : outcome Vec3 :=
  if decide (face_count e ≠ 2) then
    p0 ← vertexPosition m (low_vertex e);
    p1 ← vertexPosition m (high_vertex e);
    mret (smul half (vadd p0 p1))
  else
    p0 ← vertexPosition m (low_vertex e);
    p1 ← vertexPosition m (high_vertex e);
    f0 ← at_index (er_faces e) 0;
    fp0 ← at_index facePoints f0;
    f1 ← at_index (er_faces e) 1;
    fp1 ← at_index facePoints f1;
    mret (smul quarter (vadd (vadd (vadd p0 p1) fp0) fp1)).

Definition computeEdgePoints (m : Model) (facePoints : list Vec3)
  : outcome (list Vec3) :=
  collect (edgePoint m facePoints) (edges m).

(** *** Vertex repositioning *)

Definition snapshotPositions (m : Model) : list Vec3 :=
  vr_position <$> vertices m.

(** The sum of the face points named by the first [n] entries of [fs]. *)
Definition sumFacePoints (facePoints : list Vec3) (fs : list Z) (n : Z)
  : outcome Vec3 :=
  accumulate
    (λ (sum : Vec3) (j : nat),
       fj ← at_index fs (Z.of_nat j);
       fp ← at_index facePoints fj;
       mret (vadd sum fp))
    vzero (seq 0 (Z.to_nat n)).

(** The sum, over the entries of [es], of the midpoint of the edge's end
    points in [oldPositions]. *)
Definition sumEdgeMids (es : list EdgeRecord) (oldPositions : list Vec3)
    (edgeIndices : list Z) : outcome Vec3 :=
  accumulate
    (λ (sum : Vec3) (edgeIndex : Z),
       edge ← at_index es edgeIndex;
       pl ← at_index oldPositions (low_vertex edge);
       ph ← at_index oldPositions (high_vertex edge);
       mret (vadd sum (smul half (vadd pl ph))))
    vzero edgeIndices.

(** The value of [newPosition] in iteration [i] of the loop, computed on the
    model [m] of that iteration. *)
Definition newPositionOf (facePoints oldPositions : list Vec3) (i : nat)
    (m : Model) : outcome Vec3 :=
  v ← at_index (vertices m) (Z.of_nat i);
  let n := to_int (Z.of_nat (length (vr_faces v))) in
  if decide (n - 3 < int_min) then Fail OutOfBounds else
  let m1 := fdiv (of_Z (n - 3)) (of_Z n) in
  let m2 := fdiv (of_Z 1) (of_Z n) in
  let m3 := fdiv (of_Z 2) (of_Z n) in
  faceSum ← sumFacePoints facePoints (vr_faces v) n;
  let avgFacePosition := vdiv faceSum (of_Z n) in
  edgeSum ← sumEdgeMids (edges m) oldPositions (vr_edges v);
  let avgEdgeMid := vdiv edgeSum (of_Z (Z.of_nat (length (vr_edges v)))) in
  old ← at_index oldPositions (Z.of_nat i);
  mret (vadd (vadd (smul m1 old) (smul m2 avgFacePosition))
             (smul m3 avgEdgeMid)).

Definition repositionVertex (facePoints oldPositions : list Vec3) (i : nat)
  : ModelM unit :=
  newPosition ← inspect (newPositionOf facePoints oldPositions i);
  moveVertex (to_int (Z.of_nat i)) newPosition.

Definition repositionVertices (facePoints oldPositions : list Vec3)
  : ModelM unit :=
  λ m, for_each (repositionVertex facePoints oldPositions)
         (seq 0 (length (vertices m))) m.

(** *** The new mesh *)

Definition mkQuad (a b c d : Z) : Face :=
  {| isQuad := true; indices := [a; b; c; d] |}.

Definition pushMesh (newMesh : Mesh) (vs : list Vec3) (fs : list Face) : Mesh :=
  {| mesh_vertices := mesh_vertices newMesh ++ (Build_Vertex <$> vs);
     mesh_faces := mesh_faces newMesh ++ fs |}.

(** [oldModel.vertices[f.vertices[k]].position] *)
Definition cornerPosition (f : FaceRecord) (k : Z) : ModelM Vec3 :=
  inspect (λ m, vk ← at_index (fr_vertices f) k; vertexPosition m vk).

(** [edgePoints[oldModel.getEdgeIndex({ f.vertices[a], f.vertices[b] })]] *)
Definition edgePointBetween (edgePoints : list Vec3) (f : FaceRecord)
    (a b : Z) : ModelM Vec3 :=
  va ← inspect (λ _, at_index (fr_vertices f) a);
  vb ← inspect (λ _, at_index (fr_vertices f) b);
  ei ← getEdgeIndex (va, vb);
  inspect (λ _, at_index edgePoints ei).

(** The body of the loop over the faces of the old model. *)
Definition emitFace (facePoints edgePoints : list Vec3) (newMesh : Mesh)
    (fi : nat) : ModelM Mesh :=
  f ← inspect (λ m, at_index (faces m) (Z.of_nat fi));
  if fr_isQuad f then
    va ← cornerPosition f 0;
    vb ← cornerPosition f 1;
    vc ← cornerPosition f 2;
    vd ← cornerPosition f 3;
    eab ← edgePointBetween edgePoints f 0 1;
    ebc ← edgePointBetween edgePoints f 1 2;
    ecd ← edgePointBetween edgePoints f 2 3;
    eda ← edgePointBetween edgePoints f 3 0;
    fabcd ← inspect (λ _, at_index facePoints (Z.of_nat fi));
    let aIndex := to_u32 (Z.of_nat (length (mesh_vertices newMesh))) in
    let bIndex := to_u32 (aIndex + 1) in
    let cIndex := to_u32 (aIndex + 2) in
    let dIndex := to_u32 (aIndex + 3) in
    let eabIndex := to_u32 (aIndex + 4) in
    let ebcIndex := to_u32 (aIndex + 5) in
    let ecdIndex := to_u32 (aIndex + 6) in
    let edaIndex := to_u32 (aIndex + 7) in
    let fabcdIndex := to_u32 (aIndex + 8) in
    mret (pushMesh newMesh
            [va; vb; vc; vd; eab; ebc; ecd; eda; fabcd]
            [mkQuad edaIndex aIndex eabIndex fabcdIndex;
             mkQuad eabIndex bIndex ebcIndex fabcdIndex;
             mkQuad ebcIndex cIndex ecdIndex fabcdIndex;
             mkQuad ecdIndex dIndex edaIndex fabcdIndex])
  else
    va ← cornerPosition f 0;
    vb ← cornerPosition f 1;
    vc ← cornerPosition f 2;
    eab ← edgePointBetween edgePoints f 0 1;
    ebc ← edgePointBetween edgePoints f 1 2;
    eca ← edgePointBetween edgePoints f 2 0;
    fabc ← inspect (λ _, at_index facePoints (Z.of_nat fi));
    let aIndex := to_u32 (Z.of_nat (length (mesh_vertices newMesh))) in
    let bIndex := to_u32 (aIndex + 1) in
    let cIndex := to_u32 (aIndex + 2) in
    let eabIndex := to_u32 (aIndex + 3) in
    let ebcIndex := to_u32 (aIndex + 4) in
    let ecaIndex := to_u32 (aIndex + 5) in
    let fabcIndex := to_u32 (aIndex + 6) in
    mret (pushMesh newMesh
            [va; vb; vc; eab; ebc; eca; fabc]
            [mkQuad ecaIndex aIndex eabIndex fabcIndex;
             mkQuad eabIndex bIndex ebcIndex fabcIndex;
             mkQuad ebcIndex cIndex ecaIndex fabcIndex]).

Definition emptyMesh : Mesh := {| mesh_vertices := []; mesh_faces := [] |}.

Definition buildNewMesh (facePoints edgePoints : list Vec3) : ModelM Mesh :=
  λ m, for_accumulate (emitFace facePoints edgePoints) emptyMesh
         (seq 0 (length (faces m))) m.

(** The three statement groups of the function that mutate [oldModel]. *)
Definition subdivideModel (facePoints edgePoints oldPositions : list Vec3)
  : ModelM Mesh :=
  repositionVertices facePoints oldPositions;;
  buildNewMesh facePoints edgePoints.

Definition applyCatmullClarkSubdivisionOnce (oldModel : Model) : outcome Mesh :=
  facePoints ← computeFacePoints oldModel;
  edgePoints ← computeEdgePoints oldModel facePoints;
  let oldPositions := snapshotPositions oldModel in
  (subdivideModel facePoints edgePoints oldPositions oldModel).1.

(** ** [applyCatmullClarkSubdivision]

    [assert] is a macro of the build: with [NDEBUG] defined it expands to
    nothing.  [ndebug] says which build is modelled. *)

Fixpoint iterateOutcome {A} (n : nat) (step : A → outcome A) (a : A)
  : outcome A :=
  match n with
  | O => Done a
  | S n' => a' ← step a; iterateOutcome n' step a'
  end.

Definition subdivisionStep (mesh : Mesh) : outcome Mesh :=
  model ← meshToModel mesh; applyCatmullClarkSubdivisionOnce model.

Definition applyCatmullClarkSubdivision (ndebug : bool) (originalMesh : Mesh)
    (iterationCount : Z) : outcome Mesh :=
  if negb ndebug && bool_decide (iterationCount < 0) then Fail AssertionFailed
  else
    let mesh := originalMesh in
    iterateOutcome (Z.to_nat iterationCount) subdivisionStep mesh.

(** *** The call seen from the caller

    [originalMesh] is a const reference to an object of the caller; the
    local [mesh], initialised by copy, is the object that is returned.
    Objects live in a store; the call reads the object at [originalMesh]
    and allocates the result. *)

Definition callOnObject (ndebug : bool) (store : gmap positive Mesh)
    (originalMesh : positive) (iterationCount : Z)
  : outcome (positive * gmap positive Mesh) :=
  match store !! originalMesh with
  | None => Fail OutOfBounds
  | Some original =>
      result ← applyCatmullClarkSubdivision ndebug original iterationCount;
      let mesh := fresh (dom store) in
      mret (mesh, <[mesh := result]> store)
  end.

End CatmullClark.

(** ** An instance: IEEE 754 binary32

    [float] as the standard library's specification of binary floating
    point at precision 24 and maximal exponent 128, with round to nearest
    even; vectors are triples with component-wise operators. *)

Module Binary32.

Definition prec : Z := 24.
Definition emax : Z := 128.

Definition float : Type := spec_float.

Definition add : float → float → float := SFadd prec emax.
Definition mul : float → float → float := SFmul prec emax.
Definition div : float → float → float := SFdiv prec emax.
Definition of_int (z : Z) : float := binary_normalize prec emax z 0 false.

Global Instance float_eq_dec : EqDecision float.
Proof. solve_decision. Defined.

Definition float_code (f : float) : bool + bool + (unit + bool * positive * Z) :=
  match f with
  | S754_zero s => inl (inl s)
  | S754_infinity s => inl (inr s)
  | S754_nan => inr (inl ())
  | S754_finite s m e => inr (inr (s, m, e))
  end.

Definition float_decode (c : bool + bool + (unit + bool * positive * Z)) : float :=
  match c with
  | inl (inl s) => S754_zero s
  | inl (inr s) => S754_infinity s
  | inr (inl _) => S754_nan
  | inr (inr (s, m, e)) => S754_finite s m e
  end.

Global Instance float_countable : Countable float.
Proof.
  refine (inj_countable' float_code float_decode _).
  intros []; reflexivity.
Defined.

Definition vec3 : Type := float * float * float.

Definition vec (x y z : Z) : vec3 := (of_int x, of_int y, of_int z).

Global Instance arith : VecArith := {|
  scalar := float;
  Vec3 := vec3;
  of_Z := of_int;
  fdiv := div;
  half := div (of_int 1) (of_int 2);
  quarter := div (of_int 1) (of_int 4);
  vzero := vec 0 0 0;
  vadd := λ a b, (add a.1.1 b.1.1, add a.1.2 b.1.2, add a.2 b.2);
  smul := λ s a, (mul s a.1.1, mul s a.1.2, mul s a.2);
  vdiv := λ a s, (div a.1.1 s, div a.1.2 s, div a.2 s);
|}.

End Binary32.

(** ** Sample meshes *)

Module Samples.
Import Binary32.

Definition V (x y z : Z) : Vertex := {| position := vec x y z |}.
Definition tri (a b c : Z) : Face := {| isQuad := false; indices := [a; b; c; 0] |}.
Definition quad (a b c d : Z) : Face := {| isQuad := true; indices := [a; b; c; d] |}.

(** A square cut into two triangles along a diagonal. *)
Definition twoTriangles : Mesh :=
  {| mesh_vertices := [V 0 0 0; V 4 0 0; V 4 4 0; V 0 4 0];
     mesh_faces := [tri 0 1 2; tri 0 2 3] |}.

(** One square. *)
Definition oneQuad : Mesh :=
  {| mesh_vertices := [V 0 0 0; V 4 0 0; V 4 4 0; V 0 4 0];
     mesh_faces := [quad 0 1 2 3] |}.

(** The unit cube. *)
Definition cube : Mesh :=
  {| mesh_vertices :=
       [V 0 0 0; V 1 0 0; V 1 1 0; V 0 1 0;
        V 0 0 1; V 1 0 1; V 1 1 1; V 0 1 1];
     mesh_faces :=
       [quad 0 3 2 1; quad 4 5 6 7; quad 0 1 5 4;
        quad 1 2 6 5; quad 2 3 7 6; quad 3 0 4 7] |}.

(** A triangle with its corners on a line: the new position of its first
    vertex is the position of the second. *)
Definition sliver : Mesh :=
  {| mesh_vertices := [V 0 0 0; V 5 0 0; V 1 0 0];
     mesh_faces := [tri 0 1 2] |}.

(** Three triangles around one edge. *)
Definition fan : Mesh :=
  {| mesh_vertices := [V 0 0 0; V 4 0 0; V 0 4 0; V 0 0 4; V 0 (-4) 0];
     mesh_faces := [tri 0 1 2; tri 0 1 3; tri 0 1 4] |}.

(** A triangle whose last corner names no vertex. *)
Definition dangling : Mesh :=
  {| mesh_vertices := [V 0 0 0; V 4 0 0];
     mesh_faces := [tri 0 1 2] |}.

(** [twoTriangles] with every corner in a vertex entry of its own. *)
Definition twoTrianglesUnshared : Mesh :=
  {| mesh_vertices :=
       [V 0 0 0; V 4 0 0; V 4 4 0; V 0 0 0; V 4 4 0; V 0 4 0];
     mesh_faces := [tri 0 1 2; tri 3 4 5] |}.

Definition modelOf (mesh : Mesh) : Model :=
  match meshToModel mesh with Done m => m | Fail _ => emptyModel end.

Definition facePointsOf (m : Model) : list Vec3 :=
  match computeFacePoints m with Done l => l | Fail _ => [] end.

Definition edgePointsOf (m : Model) : list Vec3 :=
  match computeEdgePoints m (facePointsOf m) with Done l => l | Fail _ => [] end.

Definition movedOf (m : Model) : Model :=
  (repositionVertices (facePointsOf m) (snapshotPositions m) m).2.

Definition twoTrianglesModel : Model := Eval vm_compute in modelOf twoTriangles.
Definition twoTrianglesFacePoints : list Vec3 :=
  Eval vm_compute in facePointsOf twoTrianglesModel.
Definition twoTrianglesEdgePoints : list Vec3 :=
  Eval vm_compute in edgePointsOf twoTrianglesModel.
Definition twoTrianglesMoved : Model :=
  Eval vm_compute in movedOf twoTrianglesModel.
Definition twoTrianglesNewMesh : Mesh :=
  Eval vm_compute in
    match (buildNewMesh twoTrianglesFacePoints twoTrianglesEdgePoints
             twoTrianglesMoved).1 with
    | Done mesh => mesh
    | Fail _ => emptyMesh
    end.

Definition sliverModel : Model := Eval vm_compute in modelOf sliver.
Definition sliverFacePoints : list Vec3 :=
  Eval vm_compute in facePointsOf sliverModel.
Definition sliverEdgePoints : list Vec3 :=
  Eval vm_compute in edgePointsOf sliverModel.

Definition fanModel : Model := Eval vm_compute in modelOf fan.

End Samples.

(** ** Vocabulary of the statements *)

Section Vocabulary.

Context {VA : VecArith}.

(** The map of positions is the graph of the position of the vertices. *)
Definition positionsIndexed (m : Model) : Prop :=
  ∀ (p : Vec3) (i : Z),
    positionToVertex m !! p = Some i ↔
    ∃ v, at_index (vertices m) i = Done v ∧ vr_position v = p.

(** The same with the index as [getVertexIndex] computes it from the place
    of the vertex in the vector. *)
Definition positionsNumbered (m : Model) : Prop :=
  ∀ (p : Vec3) (i : Z),
    positionToVertex m !! p = Some i ↔
    ∃ k : nat, i = to_int (Z.of_nat k) ∧ snapshotPositions m !! k = Some p.

(** A vertex record with no incidence yet. *)
Definition isolated (v : VertexRecord) : Prop :=
  vr_edges v = [] ∧ vr_faces v = [].

(** The number of entries of [l] that name the vertex at place [k]. *)
Definition occ (k : nat) (l : list Z) : nat :=
  length (filter (λ z, z = Z.of_nat k) l).

(** The entries of the array [a] at the places listed in [l]. *)
Definition picks (a : list Z) (l : list nat) : list Z :=
  omap (λ i, a !! i) l.

(** The incidence lists of a vertex are balanced when it has two edge
    entries for each face entry. *)
Definition balanced (v : VertexRecord) : Prop :=
  length (vr_edges v) = (2 * length (vr_faces v))%nat.

(** The entries of the edge array of a face that the face uses. *)
Definition faceEdges (r : FaceRecord) : list Z :=
  take (cornerCount (fr_isQuad r)) (fr_edges r).

Definition faceVertices (r : FaceRecord) : list Z :=
  take (cornerCount (fr_isQuad r)) (fr_vertices r).

(** The faces that list the edge at place [k] in their edge array, in the
    order of the scan and once for each entry, under the number that
    [meshToModel] gives to a face. *)
Definition touching (k : nat) (fs : list FaceRecord) : list Z :=
  concat (imap (λ j r, replicate (occ k (faceEdges r)) (to_int (Z.of_nat j))) fs).

(** [face_count] and [faces] of an edge that has met the faces [inc]. *)
Definition cappedCount (inc : list Z) : Z := Z.of_nat (length inc `min` 2).
Definition cappedFaces (inc : list Z) : list Z :=
  take 2 inc ++ replicate (2 - length inc) (-1).

(** An edge record as [getEdgeIndex] makes it. *)
Definition freshEdge (e : EdgeRecord) : Prop :=
  face_count e = 0 ∧ er_faces e = [-1; -1].

(** One pass of the last loop of the face body on the record of an edge. *)
Definition bump (faceIndex : Z) (e : EdgeRecord) : EdgeRecord :=
  if decide (2 ≤ face_count e) then e
  else {| low_vertex := low_vertex e;
          high_vertex := high_vertex e;
          face_count := face_count e + 1;
          er_faces := <[Z.to_nat (face_count e) := faceIndex]> (er_faces e) |}.

(** What the second loop of a face body appends to the edge list of the
    vertex at place [k]: going through the places of the face in order, the
    edge of the place if it starts at the vertex, and the same edge again
    if it ends there. *)
Fixpoint edgeEntries (k : nat) (starts ends es : list Z) : list Z :=
  match starts, ends, es with
  | a :: starts', b :: ends', e :: es' =>
      (if decide (a = Z.of_nat k) then [e] else [])
      ++ (if decide (b = Z.of_nat k) then [e] else [])
      ++ edgeEntries k starts' ends' es'
  | _, _, _ => []
  end.

(** The end of the edge at each place of a face: the corner one place
    further, cyclically. *)
Definition nextCorners (n : nat) (vi : list Z) : list Z :=
  picks vi ((λ i, (i + 1) mod n)%nat <$> seq 0 n).

Definition faceEdgeEntries (k : nat) (r : FaceRecord) : list Z :=
  edgeEntries k (faceVertices r)
    (nextCorners (cornerCount (fr_isQuad r)) (faceVertices r)) (faceEdges r).

(** The edge list and the face list of the vertex at place [k], as the
    faces [fs] build them. *)
Definition vertexEdgeEntries (k : nat) (fs : list FaceRecord) : list Z :=
  concat (faceEdgeEntries k <$> fs).

Definition vertexFaceEntries (k : nat) (fs : list FaceRecord) : list Z :=
  concat (imap (λ j r, replicate (occ k (faceVertices r)) (to_int (Z.of_nat j)))
               fs).

Definition incidenceListed (m : Model) : Prop :=
  ∀ k v, vertices m !! k = Some v →
    vr_edges v = vertexEdgeEntries k (faces m) ∧
    vr_faces v = vertexFaceEntries k (faces m).

(** The vertex entries of the faces name vertices of the model. *)
Definition faceVerticesInRange (m : Model) : Prop :=
  Forall (λ r, Forall (λ x, 0 ≤ x < Z.of_nat (length (vertices m)))
                      (faceVertices r))
         (faces m).

(** The face uses as many vertex entries and edge entries as it has
    corners. *)
Definition faceShaped (r : FaceRecord) : Prop :=
  length (faceVertices r) = cornerCount (fr_isQuad r) ∧
  length (faceEdges r) = cornerCount (fr_isQuad r).

(** The corners of a face of the mesh lie at pairwise distinct positions. *)
Definition distinctCorners (mesh : Mesh) (f : Face) : Prop :=
  ∀ i j p, (i < cornerCount (isQuad f))%nat → (j < cornerCount (isQuad f))%nat →
           meshCornerPosition mesh f i = Done p →
           meshCornerPosition mesh f j = Done p → i = j.

(** The faces that have the edge at place [k] in their edge array, in the
    order of the scan, each once. *)
Definition facesHaving (k : nat) (fs : list FaceRecord) : list Z :=
  concat (imap (λ j r, if decide (Z.of_nat k ∈ faceEdges r)
                       then [to_int (Z.of_nat j)] else []) fs).

(** The end points of the edges, in the order of the edge vector. *)
Definition endpoints (m : Model) : list (Z * Z) :=
  (λ e, (low_vertex e, high_vertex e)) <$> edges m.

(** The map of vertex pairs is the graph of the end points of the edges,
    with the index as [getEdgeIndex] computes it. *)
Definition pairsNumbered (m : Model) : Prop :=
  ∀ (pr : Z * Z) (i : Z),
    vertexPairToEdge m !! pr = Some i ↔
    ∃ k : nat, i = to_int (Z.of_nat k) ∧ endpoints m !! k = Some pr.

(** Every edge record tells the first two faces that touch the edge, and
    has met one at least. *)
Definition edgesRecorded (m : Model) : Prop :=
  ∀ k e, edges m !! k = Some e →
    touching k (faces m) ≠ [] ∧
    face_count e = cappedCount (touching k (faces m)) ∧
    er_faces e = cappedFaces (touching k (faces m)).

(** The edge entries of the faces name edges of the model. *)
Definition faceEdgesInRange (m : Model) : Prop :=
  Forall (λ r, Forall (λ x, 0 ≤ x < Z.of_nat (length (edges m))) (faceEdges r))
         (faces m).

(** Two meshes show the same corners: the faces agree one by one in kind
    and in the position read at each corner. *)
Definition sameCorners (mesh mesh' : Mesh) : Prop :=
  Forall2
    (λ f f', isQuad f = isQuad f' ∧
             ∀ i, (i < cornerCount (isQuad f))%nat →
                  meshCornerPosition mesh f i = meshCornerPosition mesh' f' i)
    (mesh_faces mesh) (mesh_faces mesh').

Global Instance Vertex_eq_dec : EqDecision Vertex.
Proof. solve_decision. Defined.
Global Instance Face_eq_dec : EqDecision Face.
Proof. solve_decision. Defined.
Global Instance Mesh_eq_dec : EqDecision Mesh.
Proof. solve_decision. Defined.
Global Instance VertexRecord_eq_dec : EqDecision VertexRecord.
Proof. solve_decision. Defined.
Global Instance EdgeRecord_eq_dec : EqDecision EdgeRecord.
Proof. solve_decision. Defined.
Global Instance FaceRecord_eq_dec : EqDecision FaceRecord.
Proof. solve_decision. Defined.
Global Instance Model_eq_dec : EqDecision Model.
Proof. solve_decision. Defined.

(** The mesh with the vertices of equal position merged into one entry:
    the vertex list without repetition, and every index replaced by the
    place of its vertex in that list.  An index that names no vertex is
    sent past the end of the new list. *)
Definition mergedIndex (vs : list Vertex) (idx : Z) : Z :=
  match at_index vs idx with
  | Done v =>
      match list_find (λ w, w = v) (remove_dups vs) with
      | Some (j, _) => Z.of_nat j
      | None => Z.of_nat (length (remove_dups vs))
      end
  | Fail _ => Z.of_nat (length (remove_dups vs))
  end.

Definition mergeCoincident (mesh : Mesh) : Mesh :=
  {| mesh_vertices := remove_dups (mesh_vertices mesh);
     mesh_faces :=
       (λ f, {| isQuad := isQuad f;
                indices := mergedIndex (mesh_vertices mesh) <$> indices f |})
         <$> mesh_faces mesh |}.

(** A computation that can fail only by an unchecked access. *)
Definition unchecked {A} (x : ModelM A) : Prop :=
  ∀ m e m', x m = (Fail e, m') → e = OutOfBounds.

(** The sum of a list of vectors as the loops of the code form it: from
    [Vec3()], adding the entries from left to right. *)
Definition vsum (ps : list Vec3) : Vec3 := foldl vadd vzero ps.

(** The new position of vertex [i] as C1 words it: as [newPositionOf], but
    with every incident edge counted once in the mean of the midpoints. *)
Definition claimedNewPositionOf (facePoints oldPositions : list Vec3) (i : nat)
    (m : Model) : outcome Vec3 :=
  v ← at_index (vertices m) (Z.of_nat i);
  let n := to_int (Z.of_nat (length (vr_faces v))) in
  let m1 := fdiv (of_Z (n - 3)) (of_Z n) in
  let m2 := fdiv (of_Z 1) (of_Z n) in
  let m3 := fdiv (of_Z 2) (of_Z n) in
  faceSum ← sumFacePoints facePoints (vr_faces v) n;
  let avgFace := vdiv faceSum (of_Z n) in
  let incident := remove_dups (vr_edges v) in
  edgeSum ← sumEdgeMids (edges m) oldPositions incident;
  let avgEdgeMidpoint := vdiv edgeSum (of_Z (Z.of_nat (length incident))) in
  old ← at_index oldPositions (Z.of_nat i);
  mret (vadd (vadd (smul m1 old) (smul m2 avgFace))
             (smul m3 avgEdgeMidpoint)).

(** The position of vertex [i] of the model of [mesh] after the loop that
    moves the vertices, and the position that C1 gives it. *)
Definition positionAfterMoves (mesh : Mesh) (i : nat) : outcome Vec3 :=
  model ← meshToModel mesh;
  facePoints ← computeFacePoints model;
  let oldPositions := snapshotPositions model in
  let run := repositionVertices facePoints oldPositions model in
  _ ← run.1;
  vertexPosition run.2 (Z.of_nat i).

Definition claimedPositionAfterMoves (mesh : Mesh) (i : nat) : outcome Vec3 :=
  model ← meshToModel mesh;
  facePoints ← computeFacePoints model;
  claimedNewPositionOf facePoints (snapshotPositions model) i model.

(** The new vertices of one face as C3 words them: the corners, then the
    edge points in cyclic order (the edge point at place [c] is that of the
    edge the model has for corners [c] and [c + 1]), then the face point. *)
Definition claimedFaceVertices (m : Model) (facePoints edgePoints : list Vec3)
    (fi : nat) (r : FaceRecord) : outcome (list Vec3) :=
  let n := cornerCount (fr_isQuad r) in
  corners ←
    collect (λ c : nat,
               vc ← at_index (fr_vertices r) (Z.of_nat c);
               vertexPosition m vc)
            (seq 0 n);
  edgePts ←
    collect (λ c : nat,
               va ← at_index (fr_vertices r) (Z.of_nat c);
               vb ← at_index (fr_vertices r) (Z.of_nat ((c + 1) mod n));
               match vertexPairToEdge m !! sortPair (va, vb) with
               | Some e => at_index edgePoints e
               | None => Fail OutOfBounds
               end)
            (seq 0 n);
  facePt ← at_index facePoints (Z.of_nat fi);
  mret (corners ++ edgePts ++ [facePt]).

(** The new faces of a face with [n] corners whose new vertices start at
    place [base]: for each corner [c] the quad (previous edge point, corner,
    next edge point, face point). *)
Definition claimedFaceQuads (base : Z) (n : nat) : list Face :=
  (λ c : nat,
     mkQuad (to_u32 (base + Z.of_nat n + Z.of_nat ((c + n - 1) mod n)))
            (to_u32 (base + Z.of_nat c))
            (to_u32 (base + Z.of_nat n + Z.of_nat c))
            (to_u32 (base + 2 * Z.of_nat n)))
    <$> seq 0 n.

(** [m'] is [m] with more edges registered at most. *)
Definition extends (m m' : Model) : Prop :=
  vertices m' = vertices m ∧ faces m' = faces m ∧
  vertexPairToEdge m ⊆ vertexPairToEdge m'.

End Vocabulary.

(** ** Vocabulary of the statements on whole meshes *)

Section MeshVocabulary.

Context {VA : VecArith}.

(** The corners of the face name vertices of the mesh. *)
Definition faceIndexed (mesh : Mesh) (f : Face) : Prop :=
  (cornerCount (isQuad f) ≤ length (indices f))%nat ∧
  Forall (λ idx, 0 ≤ idx < Z.of_nat (length (mesh_vertices mesh)))
         (take (cornerCount (isQuad f)) (indices f)).

Definition wellIndexed (mesh : Mesh) : Prop :=
  Forall (faceIndexed mesh) (mesh_faces mesh).

(** The positions read at the corners of a face, and at the corners of
    all faces in the order of the scan. *)
Definition faceCorners (mesh : Mesh) (f : Face) : outcome (list Vec3) :=
  collect (meshCornerPosition mesh f) (seq 0 (cornerCount (isQuad f))).

Definition cornerPositions (mesh : Mesh) : outcome (list Vec3) :=
  css ← collect (faceCorners mesh) (mesh_faces mesh); mret (concat css).

(** A list without the entries that repeat an earlier one. *)
Definition noteFirst {A} `{EqDecision A} (seen : list A) (x : A) : list A :=
  if decide (x ∈ seen) then seen else seen ++ [x].

Definition firsts {A} `{EqDecision A} (l : list A) : list A :=
  foldl noteFirst [] l.

(** The end points of every edge name vertices, the smaller index first. *)
Definition edgeEndsInRange (m : Model) : Prop :=
  Forall (λ e, 0 ≤ low_vertex e ∧ low_vertex e ≤ high_vertex e ∧
               high_vertex e < Z.of_nat (length (vertices m)))
         (edges m).

(** Side [i] of a face: its corners [i] and [i + 1], cyclically, as the
    key of [vertexPairToEdge]. *)
Definition faceSide (r : FaceRecord) (i : nat) : option (Z * Z) :=
  a ← faceVertices r !! i;
  b ← faceVertices r !! ((i + 1) mod cornerCount (fr_isQuad r))%nat;
  Some (sortPair (a, b)).

(** Every side of every face is registered, under the edge that the face
    lists at the place of the side. *)
Definition sidesRegistered (m : Model) : Prop :=
  ∀ j r i, faces m !! j = Some r → (i < cornerCount (fr_isQuad r))%nat →
    ∃ pr e, faceSide r i = Some pr ∧
            vertexPairToEdge m !! pr = Some e ∧
            faceEdges r !! i = Some e.

(** Every vertex is a corner of a face. *)
Definition verticesUsed (m : Model) : Prop :=
  ∀ k : nat, (k < length (vertices m))%nat →
    ∃ r, r ∈ faces m ∧ Z.of_nat k ∈ faceVertices r.

(** The faces of the model are the faces of the mesh, each with its
    corners resolved to the vertex at the position of the corner. *)
Definition facesPlaced (mesh : Mesh) (fs : list Face) (m : Model) : Prop :=
  Forall2
    (λ f r, fr_isQuad r = isQuad f ∧
            ∀ i, (i < cornerCount (isQuad f))%nat →
                 ∃ p x, meshCornerPosition mesh f i = Done p ∧
                        faceVertices r !! i = Some x ∧
                        positionToVertex m !! p = Some x)
    fs (faces m).

(** The sum of the corner counts of the faces. *)
Definition cornerTotal (fs : list Face) : nat :=
  sum_list ((λ f, cornerCount (isQuad f)) <$> fs).

(** The invariant of the loop of [meshToModel] over the faces: [m] is the
    model after the faces [pre]. *)
Definition wellBuilt (mesh : Mesh) (pre : list Face) (m : Model) : Prop :=
  (Z.of_nat (length (vertices m)) ≤ 2 ^ 31 ∧
   positionsNumbered m ∧ Forall balanced (vertices m)) ∧
  (Z.of_nat (length (edges m)) ≤ 2 ^ 31 ∧
   faceEdgesInRange m ∧ edgesRecorded m) ∧
  (faceVerticesInRange m ∧ incidenceListed m ∧ Forall faceShaped (faces m)) ∧
  pairsNumbered m ∧
  edgeEndsInRange m ∧ sidesRegistered m ∧ verticesUsed m ∧
  facesPlaced mesh pre m ∧
  (∃ css, collect (faceCorners mesh) pre = Done css ∧
          snapshotPositions m = firsts (concat css)) ∧
  (length (vertices m) ≤ cornerTotal pre)%nat ∧
  (length (edges m) ≤ cornerTotal pre)%nat.

(** The model as the loop over the faces of [applyCatmullClarkSubdivisionOnce]
    finds it: the built model with its vertices moved. *)
Definition movedFrom (m moved : Model) : Prop :=
  edges moved = edges m ∧ faces moved = faces m ∧
  vertexPairToEdge moved = vertexPairToEdge m ∧
  length (vertices moved) = length (vertices m).

(** An index of a new face is the [uint32_t] of a place below [total]. *)
Definition placedBelow (total : nat) (q : Face) : Prop :=
  isQuad q = true ∧ length (indices q) = 4%nat ∧
  Forall (λ idx, ∃ x, idx = to_u32 x ∧ 0 ≤ x < Z.of_nat total) (indices q).

End MeshVocabulary.

(** * [main.cpp]: [loadMesh]

    [agz::mesh::load_from_obj] reads the file and is not part of the
    repository; the embedding starts at the vector of faces it returns.
    Of a loaded face the function reads [is_quad] and the positions of
    [vertices[0]] to [vertices[3]]. *)

Section Loader.

Context {VA : VecArith}.

Record LoadedFace : Type := {
  is_quad : bool;
  lf_vertices : Vec3 * Vec3 * Vec3 * Vec3;   (* vertices[0..3].position *)
}.

Definition lf_position (f : LoadedFace) (k : nat) : Vec3 :=
  match k with
  | 0%nat => (lf_vertices f).1.1.1
  | 1%nat => (lf_vertices f).1.1.2
  | 2%nat => (lf_vertices f).1.2
  | _ => (lf_vertices f).2
  end.

(** The body of the loop over the loaded faces.  The braces
    [{ index, index + 1, index + 2 }] leave the fourth entry of the index
    array of a triangle zero. *)
Definition loadFace (mesh : Mesh) (f : LoadedFace) : Mesh :=
  let index := to_u32 (Z.of_nat (length (mesh_vertices mesh))) in
  let vs3 := mesh_vertices mesh
             ++ [ {| position := lf_position f 0 |};
                  {| position := lf_position f 1 |};
                  {| position := lf_position f 2 |} ] in
  if is_quad f then
    {| mesh_vertices := vs3 ++ [ {| position := lf_position f 3 |} ];
       mesh_faces :=
         mesh_faces mesh
         ++ [ {| isQuad := true;
                 indices := [index; to_u32 (index + 1); to_u32 (index + 2);
                             to_u32 (index + 3)] |} ] |}
  else
    {| mesh_vertices := vs3;
       mesh_faces :=
         mesh_faces mesh
         ++ [ {| isQuad := false;
                 indices := [index; to_u32 (index + 1); to_u32 (index + 2);
                             0] |} ] |}.

Definition loadMesh (faces : list LoadedFace) : Mesh :=
  foldl loadFace emptyMesh faces.

(** The positions of the corners of the loaded faces, in order. *)
Definition loadedCorners (f : LoadedFace) : list Vec3 :=
  lf_position f <$> seq 0 (cornerCount (is_quad f)).

End Loader.

(** * [renderer.cpp]

    The arithmetic of the renderer: the vector operators of
    [agz::math] that [setMesh] applies, and the matrices.  As for
    [VecArith], no law is assumed of them. *)

Class RenderArith `{VA : VecArith} : Type := {
  vsub : Vec3 → Vec3 → Vec3;           (* a - b *)
  cross : Vec3 → Vec3 → Vec3;          (* cross(a, b) *)
  normalize : Vec3 → Vec3;             (* a.normalize() *)
  Mat4 : Type;
  mmul : Mat4 → Mat4 → Mat4;           (* a * b *)
}.

Module Renderer.

Section Renderer.

Context `{RA : RenderArith}.

Record SolidVertex : Type := { sv_position : Vec3; sv_normal : Vec3 }.

(** The members of [Renderer] that the functions below assign.  A vertex
    buffer is the array it was last initialised from, a constant buffer is
    the value last set; the calls into Direct3D are taken to return. *)
Record Renderer : Type := {
  solidBuffer_ : list SolidVertex;
  wireframeBuffer_ : list Vec3;
  solidVSTransform_ : Mat4 * Mat4;     (* { WVP, world } *)
  wireframeVSTransform_ : Mat4;        (* { WVP } *)
  wireframe_ : bool;
  world_ : Mat4;
  viewProj_ : Mat4;
  vertexCount_ : Z;
  edgeCount_ : Z;
  triangleCount_ : Z;
  quadCount_ : Z;
}.

(** [++c] on an [int]: at the largest [int] the behaviour is undefined,
    and the computation ends as for an unchecked access. *)
Definition increment (c : Z) : outcome Z :=
  if decide (c < 2 ^ 31 - 1) then Done (c + 1) else Fail OutOfBounds.

(** ** [setMesh]: the triangles *)

(** [vertex_data] and the two counters during the first loop. *)
Record SolidPass : Type := {
  vertex_data : list SolidVertex;
  triangles : Z;
  quads : Z;
}.

Definition solidFace (mesh : Mesh) (s : SolidPass) (f : Face)
  : outcome SolidPass :=
  if isQuad f then
    v0 ← meshCornerPosition mesh f 0;
    v1 ← meshCornerPosition mesh f 1;
    v2 ← meshCornerPosition mesh f 2;
    v3 ← meshCornerPosition mesh f 3;
    let nor0 := normalize (cross (vsub v1 v0) (vsub v2 v1)) in
    let nor1 := normalize (cross (vsub v2 v0) (vsub v3 v2)) in
    let nor := normalize (vadd nor0 nor1) in
    let pushed :=
      vertex_data s
      ++ [ {| sv_position := v0; sv_normal := nor |};
           {| sv_position := v1; sv_normal := nor |};
           {| sv_position := v2; sv_normal := nor |};
           {| sv_position := v0; sv_normal := nor |};
           {| sv_position := v2; sv_normal := nor |};
           {| sv_position := v3; sv_normal := nor |} ] in
    q ← increment (quads s);
    mret {| vertex_data := pushed; triangles := triangles s; quads := q |}
  else
    v0 ← meshCornerPosition mesh f 0;
    v1 ← meshCornerPosition mesh f 1;
    v2 ← meshCornerPosition mesh f 2;
    let nor := normalize (cross (vsub v1 v0) (vsub v2 v1)) in
    let pushed :=
      vertex_data s
      ++ [ {| sv_position := v0; sv_normal := nor |};
           {| sv_position := v1; sv_normal := nor |};
           {| sv_position := v2; sv_normal := nor |} ] in
    t ← increment (triangles s);
    mret {| vertex_data := pushed; triangles := t; quads := quads s |}.

(** ** [setMesh]: the wireframe *)

(** The four locals that the lambdas capture. *)
Record WirePass : Type := {
  wp_vertices : list Vec3;
  wp_positionToVertex : gmap Vec3 Z;
  isEdgeAdded : gset (Z * Z);
  wireframeData : list Vec3;
}.

Definition emptyWire : WirePass :=
  {| wp_vertices := []; wp_positionToVertex := ∅; isEdgeAdded := ∅;
     wireframeData := [] |}.

(** The lambda [getVertexIndex]. *)
Definition getVertexIndex (pos : Vec3) (w : WirePass) : Z * WirePass :=
  match wp_positionToVertex w !! pos with
  | Some i => (i, w)
  | None =>
      let ret := to_int (Z.of_nat (length (wp_vertices w))) in
      (ret,
       {| wp_vertices := wp_vertices w ++ [pos];
          wp_positionToVertex := <[pos := ret]> (wp_positionToVertex w);
          isEdgeAdded := isEdgeAdded w;
          wireframeData := wireframeData w |})
  end.

(** The lambda [addEdge]. *)
Definition addEdge (v0 v1 : Z) (w : WirePass) : outcome WirePass :=
  let swapped := if decide (v0 > v1) then (v1, v0) else (v0, v1) in
  let v0 := swapped.1 in
  let v1 := swapped.2 in
  if decide ((v0, v1) ∈ isEdgeAdded w) then Done w
  else
    p0 ← at_index (wp_vertices w) v0;
    p1 ← at_index (wp_vertices w) v1;
    mret {| wp_vertices := wp_vertices w;
            wp_positionToVertex := wp_positionToVertex w;
            isEdgeAdded := {[ (v0, v1) ]} ∪ isEdgeAdded w;
            wireframeData := wireframeData w ++ [p0; p1] |}.

Definition wireFace (mesh : Mesh) (w : WirePass) (f : Face)
  : outcome WirePass :=
  if isQuad f then
    p ← meshCornerPosition mesh f 0; let '(a, w) := getVertexIndex p w in
    p ← meshCornerPosition mesh f 1; let '(b, w) := getVertexIndex p w in
    p ← meshCornerPosition mesh f 2; let '(c, w) := getVertexIndex p w in
    p ← meshCornerPosition mesh f 3; let '(d, w) := getVertexIndex p w in
    w ← addEdge a b w;
    w ← addEdge b c w;
    w ← addEdge c d w;
    addEdge d a w
  else
    p ← meshCornerPosition mesh f 0; let '(a, w) := getVertexIndex p w in
    p ← meshCornerPosition mesh f 1; let '(b, w) := getVertexIndex p w in
    p ← meshCornerPosition mesh f 2; let '(c, w) := getVertexIndex p w in
    w ← addEdge a b w;
    w ← addEdge b c w;
    addEdge c a w.

(** ** [Renderer::setMesh] *)
Definition setMesh (mesh : Mesh) (r : Renderer) : outcome Renderer :=
  s ← accumulate (solidFace mesh)
        {| vertex_data := []; triangles := 0; quads := 0 |} (mesh_faces mesh);
  w ← accumulate (wireFace mesh) emptyWire (mesh_faces mesh);
  mret {| solidBuffer_ := vertex_data s;
          wireframeBuffer_ := wireframeData w;
          solidVSTransform_ := solidVSTransform_ r;
          wireframeVSTransform_ := wireframeVSTransform_ r;
          wireframe_ := wireframe_ r;
          world_ := world_ r;
          viewProj_ := viewProj_ r;
          vertexCount_ := to_int (Z.of_nat (length (wp_vertices w)));
          edgeCount_ := to_int (Z.of_nat (size (isEdgeAdded w)));
          triangleCount_ := triangles s;
          quadCount_ := quads s |}.

(** ** The transforms *)

Definition withTransforms (world viewProj : Mat4) (uploaded : Mat4 * Mat4)
    (r : Renderer) : Renderer :=
  {| solidBuffer_ := solidBuffer_ r;
     wireframeBuffer_ := wireframeBuffer_ r;
     solidVSTransform_ := uploaded;
     wireframeVSTransform_ := uploaded.1;
     wireframe_ := wireframe_ r;
     world_ := world;
     viewProj_ := viewProj;
     vertexCount_ := vertexCount_ r;
     edgeCount_ := edgeCount_ r;
     triangleCount_ := triangleCount_ r;
     quadCount_ := quadCount_ r |}.

Definition setWorldTransform (world : Mat4) (r : Renderer) : Renderer :=
  let wvp := mmul world (viewProj_ r) in
  withTransforms world (viewProj_ r) (wvp, world) r.

Definition setCameraViewProj (viewProj : Mat4) (r : Renderer) : Renderer :=
  let wvp := mmul (world_ r) viewProj in
  withTransforms (world_ r) viewProj (wvp, world_ r) r.

Definition setWireframe (wireframe : bool) (r : Renderer) : Renderer :=
  {| solidBuffer_ := solidBuffer_ r;
     wireframeBuffer_ := wireframeBuffer_ r;
     solidVSTransform_ := solidVSTransform_ r;
     wireframeVSTransform_ := wireframeVSTransform_ r;
     wireframe_ := wireframe;
     world_ := world_ r;
     viewProj_ := viewProj_ r;
     vertexCount_ := vertexCount_ r;
     edgeCount_ := edgeCount_ r;
     triangleCount_ := triangleCount_ r;
     quadCount_ := quadCount_ r |}.

Definition getVertexCount (r : Renderer) : Z := vertexCount_ r.
Definition getEdgeCount (r : Renderer) : Z := edgeCount_ r.
Definition getTriangleCount (r : Renderer) : Z := triangleCount_ r.
Definition getQuadCount (r : Renderer) : Z := quadCount_ r.

End Renderer.

End Renderer.

(** ** Vocabulary of the statements on the renderer *)

Section RendererVocabulary.

Context `{RA : RenderArith}.

(** The two end points of an edge as positions. *)
Definition pairSegment (ps : list Vec3) (pr : Z * Z) : list Vec3 :=
  match at_index ps pr.1, at_index ps pr.2 with
  | Done a, Done b => [a; b]
  | _, _ => []
  end.

(** The line list of the edges of a model: for each edge in order, the
    position of its vertex of smaller index and that of the other. *)
Definition segments (m : Model) : list Vec3 :=
  concat (pairSegment (snapshotPositions m) <$> endpoints m).

(** The wireframe locals agree with the model. *)
Definition wireOf (m : Model) (w : Renderer.WirePass) : Prop :=
  Renderer.wp_vertices w = snapshotPositions m ∧
  Renderer.wp_positionToVertex w = positionToVertex m ∧
  Renderer.isEdgeAdded w = dom (vertexPairToEdge m) ∧
  Renderer.wireframeData w = segments m.

(** The corners of a face resolved one after the other. *)
Definition resolveAll (ps : list Vec3) (w : Renderer.WirePass)
  : list Z * Renderer.WirePass :=
  foldl (λ acc p, let '(i, w') := Renderer.getVertexIndex p acc.2 in
                  (acc.1 ++ [i], w'))
        ([], w) ps.

(** The sides of a face with the corners [vi]. *)
Definition sidePairs (vi : list Z) (l : list nat) : list (Z * Z) :=
  omap (λ i, a ← vi !! i; b ← vi !! ((i + 1) mod length vi)%nat; Some (a, b)) l.

Definition addEdges (prs : list (Z * Z)) (w : Renderer.WirePass)
  : outcome Renderer.WirePass :=
  accumulate (λ w pr, Renderer.addEdge pr.1 pr.2 w) w prs.

(** The numbers of quads and of triangles of a list of faces. *)
Definition quadsOf (fs : list Face) : nat :=
  length (filter (λ f, isQuad f = true) fs).
Definition trianglesOf (fs : list Face) : nat :=
  length (filter (λ f, isQuad f = false) fs).

End RendererVocabulary.

(** ** The arithmetic of the renderer in binary32 *)

Module Binary32Render.
Import Binary32.

Definition sub : float → float → float := SFsub prec emax.
Definition sqrt : float → float := SFsqrt prec emax.

Definition dot (a b : vec3) : float :=
  add (add (mul a.1.1 b.1.1) (mul a.1.2 b.1.2)) (mul a.2 b.2).

(** A matrix as its sixteen entries, row by row. *)
Definition mat4 : Type := list float.

Definition entry (a : mat4) (i j : nat) : float :=
  nth (4 * i + j) a (of_int 0).

Definition mat_mul (a b : mat4) : mat4 :=
  (λ ij : nat * nat,
     foldl add (of_int 0)
       ((λ k, mul (entry a ij.1 k) (entry b k ij.2)) <$> seq 0 4))
    <$> (i ← seq 0 4; j ← seq 0 4; [(i, j)]).

Global Instance render : RenderArith := {|
  vsub := λ a b, (sub a.1.1 b.1.1, sub a.1.2 b.1.2, sub a.2 b.2);
  cross := λ a b,
    (sub (mul a.1.2 b.2) (mul a.2 b.1.2),
     sub (mul a.2 b.1.1) (mul a.1.1 b.2),
     sub (mul a.1.1 b.1.2) (mul a.1.2 b.1.1));
  normalize := λ a,
    let len := sqrt (dot a a) in (div a.1.1 len, div a.1.2 len, div a.2 len);
  Mat4 := mat4;
  mmul := mat_mul;
|}.

End Binary32Render.

(** ** Samples for the loader and the renderer *)

Module MoreSamples.
Import Binary32 Binary32Render Samples.

(** Vertices that no face uses. *)
Definition looseVertices : Mesh :=
  {| mesh_vertices := [V 0 0 0; V 1 0 0; V 0 1 0]; mesh_faces := [] |}.

(** The two triangles of [twoTriangles] as an obj file gives them. *)
Definition loadedTriangles : list LoadedFace :=
  [ {| is_quad := false;
       lf_vertices := (vec 0 0 0, vec 4 0 0, vec 4 4 0, vec 0 0 0) |};
    {| is_quad := false;
       lf_vertices := (vec 0 0 0, vec 4 4 0, vec 0 4 0, vec 0 0 0) |} ].

Definition identity : mat4 :=
  of_int <$> [1; 0; 0; 0;  0; 1; 0; 0;  0; 0; 1; 0;  0; 0; 0; 1].

(** A renderer before the first call of [setMesh]. *)
Definition freshRenderer : Renderer.Renderer :=
  {| Renderer.solidBuffer_ := [];
     Renderer.wireframeBuffer_ := [];
     Renderer.solidVSTransform_ := (identity, identity);
     Renderer.wireframeVSTransform_ := identity;
     Renderer.wireframe_ := false;
     Renderer.world_ := identity;
     Renderer.viewProj_ := identity;
     Renderer.vertexCount_ := 0;
     Renderer.edgeCount_ := 0;
     Renderer.triangleCount_ := 0;
     Renderer.quadCount_ := 0 |}.

(** Vertex 0 of the two triangles moved off the plane. *)
Definition twoTrianglesLifted : Model :=
  Eval vm_compute in (moveVertex 0 (vec 0 0 7) twoTrianglesModel).2.

End MoreSamples.

(* ================================================================== *)
(** * Properties *)

Section Basics.

Context {VA : VecArith}.

Lemma at_index_Done {A} (l : list A) (i : Z) (a : A) :
  at_index l i = Done a ↔ 0 ≤ i ∧ l !! Z.to_nat i = Some a.
Proof.
  unfold at_index. case_decide; [|split; [done | lia]].
  destruct (l !! Z.to_nat i); split; try done.
  - intros [= ->]. done.
  - intros [_ [= ->]]. done.
  - intros [_ ?]. done.
Qed.

Lemma at_index_nat {A} (l : list A) (i : nat) (a : A) :
  at_index l (Z.of_nat i) = Done a ↔ l !! i = Some a.
Proof. rewrite at_index_Done, Nat2Z.id. split; [tauto | split; [lia | done]]. Qed.

Lemma at_index_fail {A} (l : list A) (i : Z) (e : failure) :
  at_index l i = Fail e → e = OutOfBounds.
Proof.
  unfold at_index. case_decide; [destruct (l !! Z.to_nat i)|]; congruence.
Qed.

Lemma obind_Done {A B} (x : outcome A) (k : A → outcome B) (b : B) :
  x ≫= k = Done b ↔ ∃ a, x = Done a ∧ k a = Done b.
Proof.
  destruct x as [a|e]; simpl; split.
  - intros H. exists a. done.
  - intros (a' & [= <-] & H). done.
  - intros [=].
  - intros (a' & [=] & _).
Qed.

Lemma mthen_Done {A B} (x : ModelM A) (k : A → ModelM B) m b m' :
  mthen x k m = (Done b, m') ↔
  ∃ a m1, x m = (Done a, m1) ∧ k a m1 = (Done b, m').
Proof.
  unfold mthen. destruct (x m) as [[a|e] m1]; split.
  - intros H. exists a, m1. done.
  - intros (a' & m1' & [= <- <-] & H). done.
  - intros [=].
  - intros (a' & m1' & [=] & _).
Qed.

Lemma mbind_Done {A B} (x : ModelM A) (k : A → ModelM B) m b m' :
  (x ≫= k) m = (Done b, m') ↔
  ∃ a m1, x m = (Done a, m1) ∧ k a m1 = (Done b, m').
Proof. apply mthen_Done. Qed.

Lemma inspect_Done {A} (f : Model → outcome A) m a m' :
  inspect f m = (Done a, m') ↔ f m = Done a ∧ m' = m.
Proof. unfold inspect. split; [intros [= -> ->] | intros [-> ->]]; done. Qed.

Lemma mret_Done {A} (a b : A) (m m' : Model) :
  (mret a : ModelM A) m = (Done b, m') ↔ b = a ∧ m' = m.
Proof. split; [intros [= -> ->] | intros [-> ->]]; done. Qed.

End Basics.

Section Driver.

Context {VA : VecArith}.

(** C4. With iteration count 0 the driver returns a mesh equal to its
    input, in either build; seen from the caller, the result is a new
    object, distinct from the argument, and the argument still holds the
    mesh it held before the call. *)
Theorem zero_iterations_copy (ndebug : bool) (store : gmap positive Mesh)
    (original : positive) (mesh : Mesh) :
  applyCatmullClarkSubdivision ndebug mesh 0 = Done mesh ∧
  ∃ result store',
    callOnObject ndebug (<[original := mesh]> store) original 0
      = Done (result, store') ∧
    result ≠ original ∧
    store' !! result = Some mesh ∧
    store' !! original = Some mesh.
Proof.
  assert (Hrun : applyCatmullClarkSubdivision ndebug mesh 0 = Done mesh).
  { unfold applyCatmullClarkSubdivision.
    rewrite bool_decide_eq_false_2 by lia. by rewrite andb_false_r. }
  split; [done|].
  set (σ := <[original := mesh]> store).
  assert (Hfresh : fresh (dom σ) ≠ original).
  { intros Heq. apply (is_fresh (dom σ)). rewrite Heq.
    apply elem_of_dom. exists mesh. apply lookup_insert_eq. }
  exists (fresh (dom σ)), (<[fresh (dom σ) := mesh]> σ).
  split; [|split; [done | split]].
  - unfold callOnObject. fold σ.
    replace (σ !! original) with (Some mesh)
      by (symmetry; apply lookup_insert_eq).
    rewrite Hrun. done.
  - apply lookup_insert_eq.
  - rewrite lookup_insert_ne by done. apply lookup_insert_eq.
Qed.

End Driver.

(** ** [Model::moveVertex] *)

Section MoveVertex.

Context {VA : VecArith}.

(** What a call of [moveVertex] does, by the three ways it can end. *)
Lemma moveVertex_cases (i : Z) (p : Vec3) (m : Model) :
  (∃ e, at_index (vertices m) i = Fail e ∧ moveVertex i p m = (Fail e, m)) ∨
  (∃ v, at_index (vertices m) i = Done v ∧
     let erased := delete (vr_position v) (positionToVertex m) in
     (is_Some (erased !! p) ∧
      moveVertex i p m = (Fail RuntimeError, set_positionToVertex erased m)) ∨
     (erased !! p = None ∧
      moveVertex i p m =
        (Done (),
         set_vertices (<[Z.to_nat i := set_position p v]> (vertices m))
           (set_positionToVertex (<[p := i]> erased) m)))).
Proof.
  unfold moveVertex.
  destruct (at_index (vertices m) i) as [v|e]; [right | left; eauto].
  exists v. split; [done|]. simpl.
  destruct (delete (vr_position v) (positionToVertex m) !! p) eqn:E.
  - left. eauto.
  - right. done.
Qed.

(** C10. The old position leaves the map before the collision test.  So a
    vertex can always be moved to the position it already has; and when a
    move of vertex [i] ends with the exception, the model at the throw has
    the map without the key of the old position, which is the only change
    made to the model. *)
Theorem moveVertex_erases_first (m : Model) (i : Z) (v : VertexRecord)
    (p : Vec3) :
  at_index (vertices m) i = Done v →
  (moveVertex i (vr_position v) m).1 = Done () ∧
  ((moveVertex i p m).1 = Fail RuntimeError →
     (moveVertex i p m).2
       = set_positionToVertex (delete (vr_position v) (positionToVertex m)) m ∧
     positionToVertex (moveVertex i p m).2 !! vr_position v = None).
Proof.
  intros Hv. split.
  - destruct (moveVertex_cases i (vr_position v) m)
      as [(e & He & _) | (v' & Hv' & [[Hin _] | [_ ->]])].
    + congruence.
    + assert (v' = v) as -> by congruence.
      simpl in Hin. rewrite lookup_delete_eq in Hin. by destruct Hin.
    + done.
  - destruct (moveVertex_cases i p m)
      as [(e & He & _) | (v' & Hv' & [[_ ->] | [_ ->]])]; [congruence| |done].
    assert (v' = v) as -> by congruence.
    intros _. split; [done|]. simpl. apply lookup_delete_eq.
Qed.

Lemma moveVertex_throws_iff (m : Model) (i : Z) (v : VertexRecord) (p : Vec3) :
  positionsIndexed m →
  at_index (vertices m) i = Done v →
  (moveVertex i p m).1 = Fail RuntimeError ↔
  ∃ j w, j ≠ i ∧ at_index (vertices m) j = Done w ∧ vr_position w = p.
Proof.
  intros Hix Hv.
  destruct (moveVertex_cases i p m)
    as [(e & He & _) | (v' & Hv' & [[[j Hin] ->] | [Hout ->]])];
    [congruence | |]; assert (v' = v) as -> by congruence; simpl in *.
  - split; [intros _ | done].
    apply lookup_delete_Some in Hin as [Hne Hj].
    apply Hix in Hj as (w & Hw & Hp).
    exists j, w. split; [|done]. intros ->. congruence.
  - split; [done|]. intros (j & w & Hne & Hw & Hp).
    assert (positionToVertex m !! p = Some j) as Hj by (apply Hix; eauto).
    assert (vr_position v ≠ p).
    { intros Heq. assert (positionToVertex m !! p = Some i) by (apply Hix; eauto).
      congruence. }
    rewrite lookup_delete_ne in Hout by done. congruence.
Qed.

Lemma moveVertex_keeps_indexed (m m' : Model) (i : Z) (p : Vec3) :
  positionsIndexed m →
  moveVertex i p m = (Done (), m') →
  positionsIndexed m'.
Proof.
  intros Hix Hmove.
  destruct (moveVertex_cases i p m)
    as [(e & He & Hrun) | (v & Hv & [[_ Hrun] | [Hout Hrun]])];
    rewrite Hrun in Hmove; [done | done |].
  injection Hmove as <-. clear Hrun. simpl in Hout.
  apply at_index_Done in Hv as [Hi Hv].
  intros q j. simpl. setoid_rewrite at_index_Done.
  destruct (decide (j = i)) as [-> | Hne].
  - rewrite list_lookup_insert_eq by (by eapply lookup_lt_Some).
    destruct (decide (q = p)) as [-> | Hqp].
    + rewrite lookup_insert_eq. split; [|done].
      intros _. eexists. split; [split; [lia | done] | done].
    + rewrite lookup_insert_ne by done. split.
      * intros Hq. apply lookup_delete_Some in Hq as [Hold Hq].
        apply Hix in Hq as (w & Hw & Hp).
        apply at_index_Done in Hw as [_ Hw]. congruence.
      * intros (w & [_ [= <-]] & Hp). simpl in Hp. congruence.
  - destruct (decide (0 ≤ j)) as [Hj | Hj].
    + rewrite list_lookup_insert_ne by lia.
      destruct (decide (q = p)) as [-> | Hqp].
      * rewrite lookup_insert_eq. split; [congruence|].
        intros (w & [_ Hw] & Hp).
        assert (positionToVertex m !! p = Some j) as Hpj.
        { apply Hix. exists w. rewrite at_index_Done. done. }
        assert (vr_position v ≠ p).
        { intros Heq. assert (positionToVertex m !! p = Some i).
          { apply Hix. exists v. rewrite at_index_Done. done. }
          congruence. }
        rewrite lookup_delete_ne in Hout by done. congruence.
      * rewrite lookup_insert_ne by done. split.
        -- intros Hq. apply lookup_delete_Some in Hq as [Hold Hq].
           apply Hix in Hq as (w & Hw & Hp).
           apply at_index_Done in Hw. eauto.
        -- intros (w & [_ Hw] & Hp).
           assert (positionToVertex m !! q = Some j) as Hqj.
           { apply Hix. exists w. rewrite at_index_Done. done. }
           assert (vr_position v ≠ q).
           { intros Heq. assert (positionToVertex m !! q = Some i).
             { apply Hix. exists v. rewrite at_index_Done. done. }
             congruence. }
           by rewrite lookup_delete_ne.
    + split.
      * intros Hq. exfalso.
        destruct (decide (q = p)) as [-> | Hqp].
        -- rewrite lookup_insert_eq in Hq. congruence.
        -- rewrite lookup_insert_ne in Hq by done.
           apply lookup_delete_Some in Hq as [_ Hq].
           apply Hix in Hq as (w & Hw & _).
           apply at_index_Done in Hw. lia.
      * intros (w & [? _] & _). lia.
Qed.

End MoveVertex.

(** ** Loops *)

Section Loops.

Context {VA : VecArith}.

(** A loop that ends normally has run its body on every element; [I] is
    stated on the elements done so far. *)
Lemma for_each_ind {A} (body : A → ModelM unit) (I : list A → Model → Prop)
    (l : list A) (m m' : Model) :
  I [] m →
  (∀ pre a suf m1 m2,
     l = pre ++ a :: suf → I pre m1 → body a m1 = (Done (), m2) →
     I (pre ++ [a]) m2) →
  for_each body l m = (Done (), m') →
  I l m'.
Proof.
  revert I m. induction l as [|a l IH]; intros I m H0 Hstep Hrun.
  - injection Hrun as <-. done.
  - simpl in Hrun. apply mthen_Done in Hrun as ([] & m1 & Ha & Hrest).
    apply (IH (λ pre, I (a :: pre)) m1); [| |done].
    + apply (Hstep [] a l m m1); done.
    + intros pre b suf m2 m3 -> Hpre Hb.
      apply (Hstep (a :: pre) b suf m2 m3); done.
Qed.

Lemma for_collect_ind {A B} (body : A → ModelM B)
    (I : list A → list B → Model → Prop) (l : list A) (m m' : Model)
    (bs : list B) :
  I [] [] m →
  (∀ pre rs a suf m1 b m2,
     l = pre ++ a :: suf → I pre rs m1 → body a m1 = (Done b, m2) →
     I (pre ++ [a]) (rs ++ [b]) m2) →
  for_collect body l m = (Done bs, m') →
  I l bs m'.
Proof.
  revert I m bs. induction l as [|a l IH]; intros I m bs H0 Hstep Hrun.
  - injection Hrun as <- <-. done.
  - simpl in Hrun. apply mthen_Done in Hrun as (b & m1 & Ha & Hrest).
    apply mthen_Done in Hrest as (bs' & m2 & Hrest & Hret).
    injection Hret as <- <-.
    apply (IH (λ pre rs, I (a :: pre) (b :: rs)) m1); [| |done].
    + apply (Hstep [] [] a l m b m1); done.
    + intros pre rs c suf m3 d m4 -> Hpre Hc.
      apply (Hstep (a :: pre) (b :: rs) c suf m3 d m4); done.
Qed.

Lemma for_accumulate_ind {A S} (body : S → A → ModelM S)
    (I : list A → S → Model → Prop) (l : list A) (acc acc' : S)
    (m m' : Model) :
  I [] acc m →
  (∀ pre s a suf m1 s' m2,
     l = pre ++ a :: suf → I pre s m1 → body s a m1 = (Done s', m2) →
     I (pre ++ [a]) s' m2) →
  for_accumulate body acc l m = (Done acc', m') →
  I l acc' m'.
Proof.
  revert I acc m. induction l as [|a l IH]; intros I acc m H0 Hstep Hrun.
  - injection Hrun as <- <-. done.
  - simpl in Hrun. apply mthen_Done in Hrun as (s & m1 & Ha & Hrest).
    apply (IH (λ pre, I (a :: pre)) s m1); [| |done].
    + apply (Hstep [] acc a l m s m1); done.
    + intros pre t b suf m2 t' m3 -> Hpre Hb.
      apply (Hstep (a :: pre) t b suf m2 t' m3); done.
Qed.

(** The same for the read-only loops. *)
Lemma collect_Done {A B} (body : A → outcome B) (l : list A) (bs : list B) :
  collect body l = Done bs ↔ Forall2 (λ a b, body a = Done b) l bs.
Proof.
  revert bs. induction l as [|a l IH]; intros bs; simpl.
  - split; [intros [= <-]; constructor | by inversion 1].
  - split.
    + intros H. apply obind_Done in H as (b & Hb & H).
      apply obind_Done in H as (bs' & Hbs & [= <-]).
      constructor; [done | by apply IH].
    + inversion 1 as [|? b ? bs' Hb Hbs]; subst.
      apply IH in Hbs. change (body a ≫= (λ b, collect body l ≫= λ bs, mret (b :: bs)) = Done (b :: bs')).
      rewrite Hb. simpl. change (collect body l ≫= (λ bs, mret (b :: bs)) = Done (b :: bs')).
      rewrite Hbs. done.
Qed.

End Loops.

(** ** [meshToModel]: the steps of the face body *)

Section Builder.

Context {VA : VecArith}.

Lemma to_int_small (z : Z) : 0 ≤ z < 2 ^ 31 → to_int z = z.
Proof. intros H. unfold to_int. rewrite Z.mod_small by lia. lia. Qed.

Lemma to_int_negative (z : Z) : 2 ^ 31 ≤ z < 2 ^ 32 → to_int z < 0.
Proof.
  intros H. unfold to_int.
  replace (z + 2 ^ 31) with (z - 2 ^ 31 + 1 * 2 ^ 32) by lia.
  rewrite Z.mod_add by lia. rewrite Z.mod_small by lia. lia.
Qed.

Lemma updateVertex_Done (i : Z) (f : VertexRecord → VertexRecord) (m m' : Model) :
  updateVertex i f m = (Done (), m') ↔
  ∃ v, at_index (vertices m) i = Done v ∧
       m' = set_vertices (<[Z.to_nat i := f v]> (vertices m)) m.
Proof.
  unfold updateVertex. destruct (at_index (vertices m) i) as [v|e]; split.
  - intros [= <-]. eauto.
  - intros (v' & [= <-] & ->). done.
  - intros [=].
  - intros (v' & [=] & _).
Qed.

Lemma getVertexIndex_cases (p : Vec3) (m : Model) :
  (∃ i, positionToVertex m !! p = Some i ∧ getVertexIndex p m = (Done i, m)) ∨
  (positionToVertex m !! p = None ∧
   getVertexIndex p m =
     (Done (to_int (Z.of_nat (length (vertices m)))),
      set_positionToVertex
        (<[p := to_int (Z.of_nat (length (vertices m)))]> (positionToVertex m))
        (set_vertices
           (vertices m ++ [{| vr_position := p; vr_edges := []; vr_faces := [] |}])
           m))).
Proof.
  unfold getVertexIndex. destruct (positionToVertex m !! p); [left | right]; eauto.
Qed.

Lemma getEdgeIndex_cases (pr : Z * Z) (m : Model) :
  (∃ i, vertexPairToEdge m !! sortPair pr = Some i ∧
        getEdgeIndex pr m = (Done i, m)) ∨
  (vertexPairToEdge m !! sortPair pr = None ∧
   getEdgeIndex pr m =
     (Done (to_int (Z.of_nat (length (edges m)))),
      set_vertexPairToEdge
        (<[sortPair pr := to_int (Z.of_nat (length (edges m)))]>
           (vertexPairToEdge m))
        (set_edges
           (edges m ++ [{| low_vertex := (sortPair pr).1;
                           high_vertex := (sortPair pr).2;
                           face_count := 0;
                           er_faces := [-1; -1] |}])
           m))).
Proof.
  unfold getEdgeIndex. simpl.
  destruct (vertexPairToEdge m !! sortPair pr); [left | right]; eauto.
Qed.

Lemma resolveCorner_Done (mesh : Mesh) (f : Face) (i : nat) (m m' : Model)
    (r : Z) :
  resolveCorner mesh f i m = (Done r, m') ↔
  ∃ idx v,
    at_index (indices f) (Z.of_nat i) = Done idx ∧
    at_index (mesh_vertices mesh) idx = Done v ∧
    getVertexIndex (position v) m = (Done r, m').
Proof.
  unfold resolveCorner. rewrite mbind_Done. split.
  - intros (p & m1 & Hp & Hget). apply inspect_Done in Hp as [Hp ->].
    unfold meshCornerPosition in Hp.
    apply obind_Done in Hp as (idx & Hidx & Hp).
    apply obind_Done in Hp as (v & Hv & [= <-]). eauto.
  - intros (idx & v & Hidx & Hv & Hget). exists (position v), m.
    split; [|done]. apply inspect_Done. split; [|done].
    unfold meshCornerPosition.
    apply obind_Done. exists idx. split; [done|].
    apply obind_Done. exists v. done.
Qed.

Lemma resolveEdge_Done (n : nat) (vi : list Z) (i : nat) (m m' : Model) (r : Z) :
  resolveEdge n vi i m = (Done r, m') ↔
  ∃ a b m1 va vb,
    at_index vi (Z.of_nat i) = Done a ∧
    at_index vi (Z.of_nat ((i + 1) mod n)) = Done b ∧
    getEdgeIndex (a, b) m = (Done r, m1) ∧
    at_index (vertices m1) a = Done va ∧
    let vs1 := <[Z.to_nat a := push_edge r va]> (vertices m1) in
    at_index vs1 b = Done vb ∧
    m' = set_vertices (<[Z.to_nat b := push_edge r vb]> vs1) m1.
Proof.
  unfold resolveEdge. rewrite mbind_Done. split.
  - intros (a & m0 & Ha & H). apply inspect_Done in Ha as [Ha ->].
    apply mbind_Done in H as (b & m0 & Hb & H).
    apply inspect_Done in Hb as [Hb ->].
    apply mbind_Done in H as (e & m1 & He & H).
    apply mbind_Done in H as ([] & m2 & Hu1 & H).
    apply mbind_Done in H as ([] & m3 & Hu2 & H).
    apply mret_Done in H as [-> ->].
    apply updateVertex_Done in Hu1 as (va & Hva & ->).
    apply updateVertex_Done in Hu2 as (vb & Hvb & ->).
    exists a, b, m1, va, vb. done.
  - intros (a & b & m1 & va & vb & Ha & Hb & He & Hva & Hvb & ->).
    exists a, m. split; [by apply inspect_Done|].
    apply mbind_Done. exists b, m. split; [by apply inspect_Done|].
    apply mbind_Done. exists r, m1. split; [done|].
    apply mbind_Done. eexists (), _. split.
    { apply updateVertex_Done. eauto. }
    apply mbind_Done. eexists (), _. split.
    { apply updateVertex_Done. exists vb. split; [apply Hvb | done]. }
    done.
Qed.

Lemma recordFaceOnEdge_Done (fi ei : Z) (m m' : Model) :
  recordFaceOnEdge fi ei m = (Done (), m') ↔
  ∃ e, at_index (edges m) ei = Done e ∧
    ((2 ≤ face_count e ∧ m' = m) ∨
     (0 ≤ face_count e < 2 ∧
      m' = set_edges
             (<[Z.to_nat ei :=
                  {| low_vertex := low_vertex e;
                     high_vertex := high_vertex e;
                     face_count := face_count e + 1;
                     er_faces := <[Z.to_nat (face_count e) := fi]> (er_faces e) |}]>
                (edges m)) m)).
Proof.
  unfold recordFaceOnEdge. destruct (at_index (edges m) ei) as [e|err].
  - repeat case_decide; split.
    + intros [= <-]. exists e. split; [done | left; done].
    + intros (e' & [= <-] & [[_ ->] | [? _]]); [done | lia].
    + intros [= <-]. exists e. split; [done | right]. split; [lia | done].
    + intros (e' & [= <-] & [[? _] | [_ ->]]); [lia | done].
    + intros [=].
    + intros (e' & [= <-] & [[? _] | [? _]]); lia.
  - split; [intros [=] | intros (e' & [=] & _)].
Qed.

(** The face body, phase by phase. *)
Lemma addFace_Done (mesh : Mesh) (f : Face) (m m' : Model) :
  addFace mesh f m = (Done (), m') →
  let n := cornerCount (isQuad f) in
  ∃ vi m1 ei m2 m3,
    for_collect (resolveCorner mesh f) (seq 0 n) m = (Done vi, m1) ∧
    for_collect (resolveEdge n vi) (seq 0 n) m1 = (Done ei, m2) ∧
    let r := {| fr_isQuad := isQuad f;
                fr_vertices := array4 vi;
                fr_edges := array4 ei |} in
    let fi := to_int (Z.of_nat (length (faces m2))) in
    for_each (noteFaceOnVertex vi fi) (seq 0 n) (set_faces (faces m2 ++ [r]) m2)
      = (Done (), m3) ∧
    for_each (noteFaceOnEdge ei fi) (seq 0 n) m3 = (Done (), m').
Proof.
  intros H n. unfold addFace in H. fold n in H.
  apply mbind_Done in H as (vi & m1 & H1 & H).
  apply mbind_Done in H as (ei & m2 & H2 & H).
  apply mbind_Done in H as (fi & m2' & Hpush & H).
  injection Hpush as <- <-.
  apply mbind_Done in H as ([] & m3 & H3 & H4).
  exists vi, m1, ei, m2, m3. done.
Qed.

Lemma for_each_preserves {A} (P : Model → Prop) (body : A → ModelM unit)
    (l : list A) (m m' : Model) :
  (∀ a m1 m2, P m1 → body a m1 = (Done (), m2) → P m2) →
  P m → for_each body l m = (Done (), m') → P m'.
Proof.
  intros Hstep H0 Hrun.
  apply (for_each_ind body (λ _, P) l m m'); eauto.
Qed.

Lemma for_collect_length {A B} (body : A → ModelM B) (l : list A)
    (m m' : Model) (bs : list B) :
  for_collect body l m = (Done bs, m') → length bs = length l.
Proof.
  intros Hrun.
  apply (for_collect_ind body (λ pre rs _, length rs = length pre) l m m' bs);
    [done | | done].
  intros. rewrite !length_app. simpl. lia.
Qed.

End Builder.

(** ** [meshToModel]: vertices are numbered by position *)

Section BuilderVertices.

Context {VA : VecArith}.

Lemma snapshot_lookup (m : Model) (k : nat) (p : Vec3) :
  snapshotPositions m !! k = Some p ↔
  ∃ v, vertices m !! k = Some v ∧ vr_position v = p.
Proof.
  unfold snapshotPositions. rewrite list_lookup_fmap.
  destruct (vertices m !! k) as [v|]; simpl; split.
  - intros [= <-]. eauto.
  - intros (v' & [= <-] & <-). done.
  - done.
  - intros (v' & [=] & _).
Qed.

Lemma getVertexIndex_numbered (p : Vec3) (m m' : Model) (r : Z) :
  getVertexIndex p m = (Done r, m') →
  positionsNumbered m → positionsNumbered m'.
Proof.
  intros Hget Hnum.
  destruct (getVertexIndex_cases p m) as [(i & Hi & Heq) | [Hnone Heq]];
    rewrite Heq in Hget; injection Hget as <- <-; [done|].
  intros q i. unfold snapshotPositions. simpl. rewrite fmap_app. simpl.
  fold (snapshotPositions m).
  assert (Hlen : length (snapshotPositions m) = length (vertices m))
    by apply length_fmap.
  destruct (decide (q = p)) as [-> | Hqp].
  - rewrite lookup_insert_eq. split.
    + intros [= <-]. exists (length (vertices m)). split; [done|].
      rewrite lookup_app_r by lia. rewrite Hlen, Nat.sub_diag. done.
    + intros (k & -> & Hk). f_equal.
      destruct (decide (k < length (vertices m))%nat) as [Hlt | Hge].
      * rewrite lookup_app_l in Hk by lia.
        assert (positionToVertex m !! p = Some (to_int (Z.of_nat k)))
          by (apply Hnum; eauto).
        congruence.
      * rewrite lookup_app_r in Hk by lia.
        destruct (k - length (snapshotPositions m))%nat as [|k'] eqn:E;
          [|by destruct k'].
        do 2 f_equal. lia.
  - rewrite lookup_insert_ne by done. rewrite (Hnum q i).
    split; intros (k & -> & Hk); exists k; (split; [done|]).
    + rewrite lookup_app_l; [done|]. by eapply lookup_lt_Some.
    + destruct (decide (k < length (vertices m))%nat) as [Hlt | Hge].
      * by rewrite lookup_app_l in Hk by lia.
      * rewrite lookup_app_r in Hk by lia.
        destruct (k - length (snapshotPositions m))%nat as [|k'];
          [simpl in Hk; congruence | by destruct k'].
Qed.

(** The first loop of the face body. *)
Lemma resolveCorners_spec (mesh : Mesh) (f : Face) (l : list nat)
    (m m1 : Model) (vi : list Z) :
  for_collect (resolveCorner mesh f) l m = (Done vi, m1) →
  edges m1 = edges m ∧ faces m1 = faces m ∧
  vertexPairToEdge m1 = vertexPairToEdge m ∧
  (∃ news, vertices m1 = vertices m ++ news ∧
           (length news ≤ length l)%nat ∧ Forall isolated news) ∧
  (∀ k : nat, (length (vertices m) ≤ k < length (vertices m1))%nat →
              to_int (Z.of_nat k) ∈ vi) ∧
  (positionsNumbered m → positionsNumbered m1).
Proof.
  intros Hrun.
  apply (for_collect_ind (resolveCorner mesh f)
           (λ pre rs mm,
              edges mm = edges m ∧ faces mm = faces m ∧
              vertexPairToEdge mm = vertexPairToEdge m ∧
              (∃ news, vertices mm = vertices m ++ news ∧
                       (length news ≤ length pre)%nat ∧ Forall isolated news) ∧
              (∀ k : nat, (length (vertices m) ≤ k < length (vertices mm))%nat →
                          to_int (Z.of_nat k) ∈ rs) ∧
              (positionsNumbered m → positionsNumbered mm))
           l m m1 vi); [| |done].
  - split_and!; try done.
    + exists []. rewrite app_nil_r. split_and!; [done | simpl; lia | constructor].
    + intros k Hk. lia.
  - clear Hrun. intros pre rs a suf mm b mm' _
      (HE & HF & HP & (news & HV & Hlen & Hiso) & Hnew & Hnum) Hbody.
    apply resolveCorner_Done in Hbody as (idx & v & _ & _ & Hget).
    pose proof (getVertexIndex_numbered _ _ _ _ Hget) as Hnum'.
    destruct (getVertexIndex_cases (position v) mm)
      as [(i & Hi & Heq) | [Hnone Heq]];
      rewrite Heq in Hget; injection Hget as <- <-; simpl.
    + split_and!; try done.
      * exists news. rewrite length_app. simpl.
        split_and!; [done | lia | done].
      * intros k Hk. apply elem_of_app. left. by apply Hnew.
    + split_and!; try done.
      * exists (news ++ [{| vr_position := position v; vr_edges := [];
                            vr_faces := [] |}]).
        rewrite HV, <- app_assoc, !length_app. simpl.
        split_and!; [done | lia |].
        apply Forall_app. split; [done|]. repeat constructor.
      * intros k Hk. rewrite length_app in Hk. simpl in Hk.
        apply elem_of_app.
        destruct (decide (k = length (vertices mm))) as [-> | Hne].
        -- right. apply list_elem_of_singleton. done.
        -- left. apply Hnew. lia.
      * tauto.
Qed.

End BuilderVertices.

(** ** [meshToModel]: the incidence lists of the vertices *)

Section BuilderIncidence.

Context {VA : VecArith}.

Lemma occ_snoc (k : nat) (l : list Z) (a : Z) :
  occ k (l ++ [a]) = (occ k l + if decide (a = Z.of_nat k) then 1 else 0)%nat.
Proof.
  unfold occ. rewrite filter_app, length_app. f_equal.
  rewrite filter_cons. case_decide; done.
Qed.

Lemma picks_snoc (a : list Z) (l : list nat) (i : nat) (x : Z) :
  a !! i = Some x → picks a (l ++ [i]) = picks a l ++ [x].
Proof. intros H. unfold picks. rewrite omap_app. simpl. by rewrite H. Qed.

(** An assignment through [vertices[a]] changes the record at place [a]
    and no other. *)
Lemma update_lookup {A} (vs : list A) (a : Z) (va : A) (g : A → A) (k : nat) :
  at_index vs a = Done va →
  <[Z.to_nat a := g va]> vs !! k
    = (λ v, if decide (a = Z.of_nat k) then g v else v) <$> vs !! k.
Proof.
  intros Ha. apply at_index_Done in Ha as [Ha Hva].
  destruct (decide (a = Z.of_nat k)) as [-> | Hne].
  - rewrite Nat2Z.id in *. rewrite list_lookup_insert_eq by (by eapply lookup_lt_Some).
    rewrite Hva. simpl. done.
  - rewrite list_lookup_insert_ne by lia. by destruct (vs !! k).
Qed.

Lemma getEdgeIndex_vertices (pr : Z * Z) (m m' : Model) (r : Z) :
  getEdgeIndex pr m = (Done r, m') →
  vertices m' = vertices m ∧ faces m' = faces m ∧
  positionToVertex m' = positionToVertex m.
Proof.
  intros Hget.
  destruct (getEdgeIndex_cases pr m) as [(i & _ & Heq) | [_ Heq]];
    rewrite Heq in Hget; injection Hget as <- <-; done.
Qed.

(** The second loop of the face body, seen from the vertices: every pass
    adds the edge to the list of its start and to the list of its end. *)
Lemma resolveEdges_vertices (n : nat) (vi : list Z) (l : list nat)
    (m1 m2 : Model) (ei : list Z) :
  for_collect (resolveEdge n vi) l m1 = (Done ei, m2) →
  positionToVertex m2 = positionToVertex m1 ∧
  faces m2 = faces m1 ∧
  Forall (λ x, 0 ≤ x < Z.of_nat (length (vertices m1))) (picks vi l) ∧
  length (picks vi l) = length l ∧
  length (picks vi ((λ i, (i + 1) mod n)%nat <$> l)) = length l ∧
  length (vertices m2) = length (vertices m1) ∧
  ∀ k v, vertices m1 !! k = Some v →
    ∃ v', vertices m2 !! k = Some v' ∧
      vr_position v' = vr_position v ∧
      vr_faces v' = vr_faces v ∧
      length (vr_edges v') =
        (length (vr_edges v) + occ k (picks vi l)
         + occ k (picks vi ((λ i, (i + 1) mod n)%nat <$> l)))%nat.
Proof.
  intros Hrun.
  apply (for_collect_ind (resolveEdge n vi)
           (λ pre rs mm,
              positionToVertex mm = positionToVertex m1 ∧
              faces mm = faces m1 ∧
              Forall (λ x, 0 ≤ x < Z.of_nat (length (vertices m1))) (picks vi pre) ∧
              length (picks vi pre) = length pre ∧
              length (picks vi ((λ i, (i + 1) mod n)%nat <$> pre)) = length pre ∧
              length (vertices mm) = length (vertices m1) ∧
              ∀ k v, vertices m1 !! k = Some v →
                ∃ v', vertices mm !! k = Some v' ∧
                  vr_position v' = vr_position v ∧
                  vr_faces v' = vr_faces v ∧
                  length (vr_edges v') =
                    (length (vr_edges v) + occ k (picks vi pre)
                     + occ k (picks vi ((λ i, (i + 1) mod n)%nat <$> pre)))%nat)
           l m1 m2 ei); [| |done].
  - split_and!; try done. intros k v Hv. exists v.
    unfold occ, picks. simpl. split_and!; try done; lia.
  - clear Hrun. intros pre rs i suf mm r mm' _
      (HP & HF & Hpos & Hl1 & Hl2 & Hlen & Hvs) Hbody.
    apply resolveEdge_Done in Hbody
      as (a & b & mm1 & va & vb & Ha & Hb & Hget & Hva & Hvb & ->).
    apply getEdgeIndex_vertices in Hget as (HV1 & HF1 & HP1).
    rewrite HV1 in *. simpl.
    pose proof Ha as Ha'. apply at_index_nat in Ha'.
    pose proof Hb as Hb'. apply at_index_nat in Hb'.
    rewrite fmap_app. simpl.
    rewrite (picks_snoc vi pre i a Ha').
    rewrite (picks_snoc vi _ _ b Hb').
    rewrite !length_app, !length_insert. simpl.
    split_and!; try congruence; try lia.
    { apply Forall_app. split; [done|]. constructor; [|constructor].
      apply at_index_Done in Hva as [? Hva]. apply lookup_lt_Some in Hva. lia. }
    intros k v Hv. destruct (Hvs k v Hv) as (v' & Hv' & Hp' & Hf' & He').
    rewrite (update_lookup _ b vb _ k Hvb).
    rewrite (update_lookup _ a va _ k Hva).
    rewrite Hv'. simpl. eexists. split; [done|].
    rewrite !occ_snoc.
    repeat case_decide; simpl; rewrite ?length_app; simpl; split_and!; try done; lia.
Qed.

Lemma noteFaceOnVertex_Done (vi : list Z) (fi : Z) (i : nat) (m m' : Model) :
  noteFaceOnVertex vi fi i m = (Done (), m') ↔
  ∃ a va, vi !! i = Some a ∧ at_index (vertices m) a = Done va ∧
          m' = set_vertices (<[Z.to_nat a := push_face fi va]> (vertices m)) m.
Proof.
  unfold noteFaceOnVertex. rewrite mbind_Done. split.
  - intros (a & m0 & Ha & Hu). apply inspect_Done in Ha as [Ha ->].
    apply at_index_nat in Ha.
    apply updateVertex_Done in Hu as (va & Hva & ->). eauto.
  - intros (a & va & Ha & Hva & ->). exists a, m. split.
    + apply inspect_Done. split; [by apply at_index_nat | done].
    + apply updateVertex_Done. eauto.
Qed.

(** The third loop: every pass adds the face to the list of one corner. *)
Lemma noteFaceOnVertices_spec (vi : list Z) (fi : Z) (l : list nat)
    (m3 m4 : Model) :
  for_each (noteFaceOnVertex vi fi) l m3 = (Done (), m4) →
  positionToVertex m4 = positionToVertex m3 ∧
  faces m4 = faces m3 ∧ edges m4 = edges m3 ∧
  vertexPairToEdge m4 = vertexPairToEdge m3 ∧
  length (vertices m4) = length (vertices m3) ∧
  ∀ k v, vertices m3 !! k = Some v →
    ∃ v', vertices m4 !! k = Some v' ∧
      vr_position v' = vr_position v ∧
      vr_edges v' = vr_edges v ∧
      length (vr_faces v') = (length (vr_faces v) + occ k (picks vi l))%nat.
Proof.
  intros Hrun.
  apply (for_each_ind (noteFaceOnVertex vi fi)
           (λ pre mm,
              positionToVertex mm = positionToVertex m3 ∧
              faces mm = faces m3 ∧ edges mm = edges m3 ∧
              vertexPairToEdge mm = vertexPairToEdge m3 ∧
              length (vertices mm) = length (vertices m3) ∧
              ∀ k v, vertices m3 !! k = Some v →
                ∃ v', vertices mm !! k = Some v' ∧
                  vr_position v' = vr_position v ∧
                  vr_edges v' = vr_edges v ∧
                  length (vr_faces v') =
                    (length (vr_faces v) + occ k (picks vi pre))%nat)
           l m3 m4); [| |done].
  - split_and!; try done. intros k v Hv. exists v.
    unfold occ, picks. simpl. split_and!; try done; lia.
  - clear Hrun. intros pre i suf mm mm' _ (HP & HF & HE & HQ & Hlen & Hvs) Hbody.
    apply noteFaceOnVertex_Done in Hbody as (a & va & Ha & Hva & ->). simpl.
    rewrite (picks_snoc vi pre i a Ha), length_insert.
    split_and!; try done.
    intros k v Hv. destruct (Hvs k v Hv) as (v' & Hv' & Hp' & He' & Hf').
    rewrite (update_lookup _ a va _ k Hva), Hv'. simpl.
    eexists. split; [done|]. rewrite occ_snoc.
    case_decide; simpl; rewrite ?length_app; simpl; split_and!; try done; lia.
Qed.

End BuilderIncidence.

Section BuilderFace.

Context {VA : VecArith}.

Lemma noteFaceOnEdges_frame (ei : list Z) (fi : Z) (l : list nat) (m m' : Model) :
  for_each (noteFaceOnEdge ei fi) l m = (Done (), m') →
  vertices m' = vertices m ∧ faces m' = faces m ∧
  positionToVertex m' = positionToVertex m ∧
  vertexPairToEdge m' = vertexPairToEdge m ∧
  length (edges m') = length (edges m).
Proof.
  apply (for_each_preserves
           (λ mm, vertices mm = vertices m ∧ faces mm = faces m ∧
                  positionToVertex mm = positionToVertex m ∧
                  vertexPairToEdge mm = vertexPairToEdge m ∧
                  length (edges mm) = length (edges m))); [|done].
  intros i mm mm' (HV & HF & HP & HQ & HL) Hbody.
  unfold noteFaceOnEdge in Hbody.
  apply mbind_Done in Hbody as (e & m0 & He & Hrec).
  apply inspect_Done in He as [_ ->].
  apply recordFaceOnEdge_Done in Hrec as (er & _ & [[_ ->] | [_ ->]]);
    [done|]. simpl. rewrite length_insert. done.
Qed.

Lemma snapshot_same (m m' : Model) :
  length (vertices m') = length (vertices m) →
  (∀ k v, vertices m !! k = Some v →
     ∃ v', vertices m' !! k = Some v' ∧ vr_position v' = vr_position v) →
  snapshotPositions m' = snapshotPositions m.
Proof.
  intros Hlen Hvs. apply list_eq. intros k. unfold snapshotPositions.
  rewrite !list_lookup_fmap.
  destruct (vertices m !! k) as [v|] eqn:E.
  - destruct (Hvs k v E) as (v' & -> & Hp). simpl. by rewrite Hp.
  - apply lookup_ge_None in E. rewrite <- Hlen in E.
    apply lookup_ge_None in E. by rewrite E.
Qed.

Lemma picks_ext (a b : list Z) (l : list nat) :
  (∀ i, i ∈ l → a !! i = b !! i) → picks a l = picks b l.
Proof.
  induction l as [|i l IH]; intros Hext; [done|].
  assert (Hl : picks a l = picks b l).
  { apply IH. intros j Hj. apply Hext. by apply list_elem_of_further. }
  unfold picks in *. simpl. rewrite (Hext i) by apply list_elem_of_here.
  change (list_omap nat Z) with (@omap list _ nat Z). by rewrite Hl.
Qed.

Lemma picks_all (a : list Z) : picks a (seq 0 (length a)) = a.
Proof.
  induction a as [|x a IH] using rev_ind; [done|].
  rewrite length_app. simpl. rewrite Nat.add_1_r, seq_S. simpl.
  rewrite (picks_snoc _ _ _ x).
  - f_equal. transitivity (picks a (seq 0 (length a))); [|done].
    apply picks_ext.
    intros i Hi. apply elem_of_seq in Hi. by rewrite lookup_app_l by lia.
  - rewrite lookup_app_r by lia. by rewrite Nat.sub_diag.
Qed.

Lemma cornerCount_cases (q : bool) : cornerCount q = 3%nat ∨ cornerCount q = 4%nat.
Proof. destruct q; auto. Qed.

(** In a face, the ends of the edges are the corners again, one place
    further. *)
Lemma occ_ends (k n : nat) (vi : list Z) :
  length vi = n → n = 3%nat ∨ n = 4%nat →
  occ k (picks vi ((λ i, (i + 1) mod n)%nat <$> seq 0 n)) = occ k vi.
Proof.
  intros Hlen [-> | ->].
  - destruct vi as [|a [|b [|c [|]]]]; try done.
    unfold occ, picks. simpl. rewrite !filter_cons, !filter_nil.
    repeat case_decide; simpl; lia.
  - destruct vi as [|a [|b [|c [|d [|]]]]]; try done.
    unfold occ, picks. simpl. rewrite !filter_cons, !filter_nil.
    repeat case_decide; simpl; lia.
Qed.

(** What one pass of the loop over the faces keeps true of the vertices. *)
Lemma addFace_vertices (mesh : Mesh) (f : Face) (m m' : Model) :
  addFace mesh f m = (Done (), m') →
  Z.of_nat (length (vertices m)) ≤ 2 ^ 31 →
  positionsNumbered m →
  Forall balanced (vertices m) →
  Z.of_nat (length (vertices m')) ≤ 2 ^ 31 ∧
  positionsNumbered m' ∧
  Forall balanced (vertices m').
Proof.
  intros Hrun Hsize Hnum Hbal.
  apply addFace_Done in Hrun as (vi & m1 & ei & m2 & m3 & H1 & H2 & H3 & H4).
  set (n := cornerCount (isQuad f)) in *.
  assert (Hn : n = 3%nat ∨ n = 4%nat) by apply cornerCount_cases.
  pose proof (for_collect_length _ _ _ _ _ H1) as Hvi. rewrite length_seq in Hvi.
  apply resolveCorners_spec in H1
    as (HE1 & HF1 & HQ1 & (news & HV1 & Hnews & Hiso) & Hcreated & Hnum1).
  rewrite length_seq in Hnews.
  apply resolveEdges_vertices in H2
    as (HP2 & HF2 & Hpos & _ & _ & Hlen2 & Hvs2).
  apply noteFaceOnVertices_spec in H3
    as (HP3 & HF3 & HE3 & HQ3 & Hlen3 & Hvs3). simpl in *.
  apply noteFaceOnEdges_frame in H4 as (HV4 & HF4 & HP4 & HQ4 & HL4).
  rewrite <- Hvi, picks_all in Hpos.
  assert (Hsize1 : Z.of_nat (length (vertices m1)) ≤ 2 ^ 31).
  { destruct (decide (Z.of_nat (length (vertices m1)) ≤ 2 ^ 31)) as [|Hbig];
      [done | exfalso].
    assert (Hin : to_int (Z.of_nat (Z.to_nat (2 ^ 31))) ∈ vi).
    { apply Hcreated. lia. }
    rewrite Forall_forall in Hpos. apply Hpos in Hin as [Hin _].
    rewrite Z2Nat.id in Hin by lia.
    pose proof (to_int_negative (2 ^ 31)). lia. }
  assert (Hsnap : snapshotPositions m' = snapshotPositions m1).
  { unfold snapshotPositions. rewrite HV4.
    apply snapshot_same; [lia|].
    intros k v Hv. destruct (Hvs2 k v Hv) as (v2 & Hv2 & Hp2 & _).
    destruct (Hvs3 k v2 Hv2) as (v3 & Hv3 & Hp3 & _).
    exists v3. split; [done | congruence]. }
  split_and!.
  - rewrite HV4. lia.
  - specialize (Hnum1 Hnum). intros p i.
    rewrite Hsnap, HP4, HP3, HP2. apply Hnum1.
  - rewrite HV4. apply Forall_lookup. intros k v4 Hv4.
    assert (Hk : (k < length (vertices m1))%nat).
    { apply lookup_lt_Some in Hv4. lia. }
    destruct (lookup_lt_is_Some_2 _ _ Hk) as [v1 Hv1].
    destruct (Hvs2 k v1 Hv1) as (v2 & Hv2 & _ & Hf2 & He2).
    destruct (Hvs3 k v2 Hv2) as (v3 & Hv3 & _ & He3 & Hf3).
    assert (v3 = v4) as -> by congruence.
    assert (Hb1 : balanced v1).
    { rewrite HV1 in Hv1. apply lookup_app_Some in Hv1 as [Hv1 | [_ Hv1]].
      - by eapply Forall_lookup_1 in Hbal.
      - eapply Forall_lookup_1 in Hiso as [He Hf]; [|done].
        unfold balanced. by rewrite He, Hf. }
    unfold balanced in *.
    rewrite <- Hvi in He2 at 1. rewrite picks_all in He2.
    rewrite (occ_ends k n vi Hvi Hn) in He2.
    rewrite <- Hvi, picks_all in Hf3.
    rewrite He3, He2, Hf3, Hf2. lia.
Qed.

End BuilderFace.

(** ** [meshToModel]: the faces of an edge *)

Section BuilderEdges.

Context {VA : VecArith}.

(** The second loop of the face body, seen from the edges. *)
Lemma resolveEdges_edges (n : nat) (vi : list Z) (l : list nat)
    (m1 m2 : Model) (ei : list Z) :
  for_collect (resolveEdge n vi) l m1 = (Done ei, m2) →
  ∃ news, edges m2 = edges m1 ++ news ∧
          (length news ≤ length l)%nat ∧ Forall freshEdge news ∧
          ∀ k : nat, (length (edges m1) ≤ k < length (edges m2))%nat →
                     to_int (Z.of_nat k) ∈ ei.
Proof.
  intros Hrun.
  apply (for_collect_ind (resolveEdge n vi)
           (λ pre rs mm,
              ∃ news, edges mm = edges m1 ++ news ∧
                (length news ≤ length pre)%nat ∧ Forall freshEdge news ∧
                ∀ k : nat, (length (edges m1) ≤ k < length (edges mm))%nat →
                           to_int (Z.of_nat k) ∈ rs)
           l m1 m2 ei); [| |done].
  - exists []. rewrite app_nil_r. split_and!; [done | simpl; lia | constructor |].
    intros k Hk. lia.
  - clear Hrun. intros pre rs i suf mm r mm' _ (news & HE & Hlen & Hfresh & Hnew) Hbody.
    apply resolveEdge_Done in Hbody
      as (a & b & mm1 & va & vb & _ & _ & Hget & _ & _ & ->). simpl.
    destruct (getEdgeIndex_cases (a, b) mm) as [(j & _ & Heq) | [_ Heq]];
      rewrite Heq in Hget; injection Hget as <- <-; simpl.
    + exists news. rewrite length_app. simpl. split_and!; [done | lia | done |].
      intros k Hk. apply elem_of_app. left. by apply Hnew.
    + eexists (news ++ [_]). rewrite HE, <- app_assoc, !length_app. simpl.
      split_and!; [done | lia | |].
      * apply Forall_app. split; [done|]. repeat constructor.
      * intros k Hk. apply elem_of_app.
        destruct (decide (k = length (edges m1) + length news)%nat)
          as [-> | Hne].
        -- right. by apply list_elem_of_singleton.
        -- left. apply Hnew. rewrite HE, length_app. lia.
Qed.

Lemma noteFaceOnEdge_Done (ei : list Z) (fi : Z) (i : nat) (m m' : Model) :
  noteFaceOnEdge ei fi i m = (Done (), m') →
  ∃ x e, ei !! i = Some x ∧ at_index (edges m) x = Done e ∧
         m' = set_edges (<[Z.to_nat x := bump fi e]> (edges m)) m.
Proof.
  unfold noteFaceOnEdge. rewrite mbind_Done.
  intros (x & m0 & Hx & Hrec). apply inspect_Done in Hx as [Hx ->].
  apply at_index_nat in Hx.
  apply recordFaceOnEdge_Done in Hrec as (e & He & [[Hfull ->] | [Hroom ->]]);
    exists x, e; (split_and!; [done | done |]).
  - unfold bump. rewrite decide_True by done.
    apply at_index_Done in He as [_ He]. rewrite list_insert_id by done.
    by destruct m.
  - unfold bump. rewrite decide_False by lia. done.
Qed.

(** The last loop of the face body: the record of an edge is bumped once
    for each entry of the face that names it. *)
Lemma noteFaceOnEdges_spec (ei : list Z) (fi : Z) (l : list nat) (m4 m5 : Model) :
  for_each (noteFaceOnEdge ei fi) l m4 = (Done (), m5) →
  length (picks ei l) = length l ∧
  Forall (λ x, 0 ≤ x < Z.of_nat (length (edges m4))) (picks ei l) ∧
  length (edges m5) = length (edges m4) ∧
  ∀ k e0, edges m4 !! k = Some e0 →
          edges m5 !! k = Some (Nat.iter (occ k (picks ei l)) (bump fi) e0).
Proof.
  intros Hrun.
  apply (for_each_ind (noteFaceOnEdge ei fi)
           (λ pre mm,
              length (picks ei pre) = length pre ∧
              Forall (λ x, 0 ≤ x < Z.of_nat (length (edges m4))) (picks ei pre) ∧
              length (edges mm) = length (edges m4) ∧
              ∀ k e0, edges m4 !! k = Some e0 →
                edges mm !! k = Some (Nat.iter (occ k (picks ei pre)) (bump fi) e0))
           l m4 m5); [| |done].
  - split_and!; try done.
  - clear Hrun. intros pre i suf mm mm' _ (Hl & Hrange & Hlen & Hes) Hbody.
    apply noteFaceOnEdge_Done in Hbody as (x & e & Hx & He & ->). simpl.
    rewrite (picks_snoc ei pre i x Hx), !length_app, length_insert. simpl.
    split_and!; [lia | | done |].
    + apply Forall_app. split; [done|]. constructor; [|constructor].
      apply at_index_Done in He as [? He]. apply lookup_lt_Some in He. lia.
    + intros k e0 He0. rewrite (update_lookup _ x e _ k He), (Hes k e0 He0).
      simpl. rewrite occ_snoc. case_decide.
      * by rewrite Nat.add_1_r.
      * by rewrite Nat.add_0_r.
Qed.

End BuilderEdges.

Section BuilderEdgeRecords.

Context {VA : VecArith}.

Lemma bump_capped (fi : Z) (e : EdgeRecord) (inc : list Z) :
  face_count e = cappedCount inc →
  er_faces e = cappedFaces inc →
  face_count (bump fi e) = cappedCount (inc ++ [fi]) ∧
  er_faces (bump fi e) = cappedFaces (inc ++ [fi]).
Proof.
  unfold bump, cappedCount, cappedFaces. intros Hc Hf.
  destruct inc as [|a [|b rest]]; simpl in *.
  - rewrite decide_False by lia. simpl. rewrite Hc, Hf. done.
  - rewrite decide_False by lia. simpl. rewrite Hc, Hf. done.
  - rewrite decide_True by lia. rewrite Hc, Hf. split.
    + rewrite length_app. simpl. f_equal. lia.
    + done.
Qed.

Lemma iter_bump_capped (fi : Z) (c : nat) (e : EdgeRecord) (inc : list Z) :
  face_count e = cappedCount inc →
  er_faces e = cappedFaces inc →
  face_count (Nat.iter c (bump fi) e) = cappedCount (inc ++ replicate c fi) ∧
  er_faces (Nat.iter c (bump fi) e) = cappedFaces (inc ++ replicate c fi).
Proof.
  intros Hc Hf. induction c as [|c [IHc IHf]]; simpl.
  - by rewrite app_nil_r.
  - replace (inc ++ fi :: replicate c fi) with ((inc ++ replicate c fi) ++ [fi]).
    + by apply bump_capped.
    + rewrite <- app_assoc. f_equal.
      change (replicate c fi ++ replicate 1 fi = replicate (S c) fi).
      rewrite <- replicate_add. f_equal. lia.
Qed.

Lemma touching_snoc (k : nat) (fs : list FaceRecord) (r : FaceRecord) :
  touching k (fs ++ [r])
    = touching k fs
      ++ replicate (occ k (faceEdges r)) (to_int (Z.of_nat (length fs))).
Proof.
  unfold touching. rewrite imap_app, concat_app. simpl.
  by rewrite app_nil_r, Nat.add_0_r.
Qed.

Lemma occ_zero (k : nat) (l : list Z) :
  Forall (λ x, x < Z.of_nat k) l → occ k l = 0%nat.
Proof.
  unfold occ. induction 1 as [|x l Hx _ IH]; [done|].
  rewrite filter_cons. case_decide; [lia | done].
Qed.

Lemma occ_pos (k : nat) (l : list Z) : Z.of_nat k ∈ l → (0 < occ k l)%nat.
Proof.
  unfold occ. induction l as [|x l IH]; [by intros ?%elem_of_nil|].
  intros [-> | Hin]%elem_of_cons; rewrite filter_cons.
  - rewrite decide_True by done. simpl. lia.
  - case_decide; simpl; [lia | by apply IH].
Qed.

Lemma touching_none (k : nat) (fs : list FaceRecord) :
  Forall (λ r, Forall (λ x, 0 ≤ x < Z.of_nat k) (faceEdges r)) fs →
  touching k fs = [].
Proof.
  induction fs as [|r fs IH] using rev_ind; [done|].
  intros [Hfs Hr]%Forall_app. rewrite touching_snoc, IH by done.
  apply Forall_inv in Hr. rewrite occ_zero; [done|].
  eapply Forall_impl; [exact Hr|]. intros x. simpl. lia.
Qed.

Lemma array4_take (a : list Z) (n : nat) : length a = n → take n (array4 a) = a.
Proof.
  intros <-. unfold array4. rewrite take_app_length. done.
Qed.

(** What one pass of the loop over the faces keeps true of the edges. *)
Lemma addFace_edges (mesh : Mesh) (f : Face) (m m' : Model) :
  addFace mesh f m = (Done (), m') →
  Z.of_nat (length (edges m)) ≤ 2 ^ 31 →
  faceEdgesInRange m →
  edgesRecorded m →
  Z.of_nat (length (edges m')) ≤ 2 ^ 31 ∧
  faceEdgesInRange m' ∧
  edgesRecorded m'.
Proof.
  intros Hrun Hsize Hrange Hrec.
  apply addFace_Done in Hrun as (vi & m1 & ei & m2 & m3 & H1 & H2 & H3 & H4).
  set (n := cornerCount (isQuad f)) in *.
  assert (Hn : n = 3%nat ∨ n = 4%nat) by apply cornerCount_cases.
  apply resolveCorners_spec in H1 as (HE1 & HF1 & _).
  pose proof (for_collect_length _ _ _ _ _ H2) as Hei. rewrite length_seq in Hei.
  pose proof (resolveEdges_vertices _ _ _ _ _ _ H2) as (_ & HF2 & _).
  apply resolveEdges_edges in H2 as (news & HE2 & Hnews & Hfresh & Hcreated).
  rewrite length_seq in Hnews.
  apply noteFaceOnVertices_spec in H3 as (_ & HF3 & HE3 & _). simpl in *.
  pose proof (noteFaceOnEdges_frame _ _ _ _ _ H4) as (_ & HF4 & _).
  apply noteFaceOnEdges_spec in H4 as (_ & Hpos & HL4 & Hes).
  rewrite <- Hei, picks_all in Hpos, Hes.
  rewrite HE3 in *. rewrite HE1 in *.
  set (r := {| fr_isQuad := isQuad f; fr_vertices := array4 vi;
               fr_edges := array4 ei |}) in *.
  assert (Hr : faceEdges r = ei) by (by apply array4_take).
  assert (Hsize2 : Z.of_nat (length (edges m2)) ≤ 2 ^ 31).
  { destruct (decide (Z.of_nat (length (edges m2)) ≤ 2 ^ 31)) as [|Hbig];
      [done | exfalso].
    assert (Hin : to_int (Z.of_nat (Z.to_nat (2 ^ 31))) ∈ ei).
    { apply Hcreated. rewrite HE2, length_app in *. lia. }
    rewrite Forall_forall in Hpos. apply Hpos in Hin.
    rewrite Z2Nat.id in Hin by lia.
    pose proof (to_int_negative (2 ^ 31)). lia. }
  assert (Hgrow : (length (edges m) ≤ length (edges m2))%nat).
  { rewrite HE2, length_app. lia. }
  split_and!.
  - lia.
  - unfold faceEdgesInRange in *. rewrite HL4, HF4, HF3, HF2, HF1.
    apply Forall_app. split.
    + eapply Forall_impl; [exact Hrange|]. intros r' Hr'. simpl in Hr'.
      eapply Forall_impl; [exact Hr'|]. intros x. simpl. lia.
    + constructor; [|constructor]. by rewrite Hr.
  - intros k e' He'.
    assert (Hk : (k < length (edges m2))%nat).
    { apply lookup_lt_Some in He'. lia. }
    destruct (lookup_lt_is_Some_2 _ _ Hk) as [e0 He0].
    rewrite (Hes k e0 He0) in He'. injection He' as <-.
    rewrite HF4, HF3, HF2, HF1, touching_snoc, Hr.
    rewrite HE2 in He0. apply lookup_app_Some in He0 as [He0 | [Hnew He0]].
    + destruct (Hrec k e0 He0) as (Hne & Hc & Hf).
      destruct (iter_bump_capped (to_int (Z.of_nat (length (faces m))))
                  (occ k ei) e0 _ Hc Hf) as [Hc' Hf'].
      split_and!; [|done|done].
      intros Hnil. apply app_eq_nil in Hnil as [? _]. done.
    + rewrite (touching_none k (faces m)).
      2:{ eapply Forall_impl; [exact Hrange|]. intros r' Hr'. simpl in Hr'.
          eapply Forall_impl; [exact Hr'|]. intros x. simpl. lia. }
      eapply Forall_lookup_1 in Hfresh as [Hc Hf]; [|done].
      destruct (iter_bump_capped (to_int (Z.of_nat (length (faces m))))
                  (occ k ei) e0 [] Hc Hf) as [Hc' Hf'].
      split_and!; [|done|done]. simpl.
      assert (Hin : to_int (Z.of_nat k) ∈ ei).
      { apply Hcreated. lia. }
      rewrite to_int_small in Hin by lia.
      apply occ_pos in Hin. destruct (occ k ei); [lia | done].
Qed.

End BuilderEdgeRecords.

(** ** [meshToModel]: the model it returns *)

Section BuiltModel.

Context {VA : VecArith}.

Lemma meshToModel_Done (mesh : Mesh) (model : Model) :
  meshToModel mesh = Done model ↔ buildModel mesh emptyModel = (Done (), model).
Proof.
  unfold meshToModel. destruct (buildModel mesh emptyModel) as [[[]|e] m']; split;
    intros [=]; subst; done.
Qed.

(** The invariants of the loop over the faces hold of the result. *)
Lemma meshToModel_invariants (mesh : Mesh) (model : Model) :
  meshToModel mesh = Done model →
  (Z.of_nat (length (vertices model)) ≤ 2 ^ 31 ∧
   positionsNumbered model ∧
   Forall balanced (vertices model)) ∧
  (Z.of_nat (length (edges model)) ≤ 2 ^ 31 ∧
   faceEdgesInRange model ∧
   edgesRecorded model).
Proof.
  intros Hrun%meshToModel_Done. unfold buildModel in Hrun.
  apply (for_each_preserves
           (λ m, (Z.of_nat (length (vertices m)) ≤ 2 ^ 31 ∧
                  positionsNumbered m ∧ Forall balanced (vertices m)) ∧
                 (Z.of_nat (length (edges m)) ≤ 2 ^ 31 ∧
                  faceEdgesInRange m ∧ edgesRecorded m))
           (addFace mesh) (mesh_faces mesh) emptyModel model); [| |done].
  - intros f m1 m2 [(HV & HN & HB) (HE & HR & HK)] Hface. split.
    + by apply (addFace_vertices mesh f m1 m2).
    + by apply (addFace_edges mesh f m1 m2).
  - split; split_and!; simpl; try lia; try by constructor.
    + intros p i. simpl. rewrite lookup_empty. split; [done|].
      intros (k & _ & Hk). unfold snapshotPositions in Hk. done.
Qed.

Lemma numbered_indexed (m : Model) :
  Z.of_nat (length (vertices m)) ≤ 2 ^ 31 →
  positionsNumbered m → positionsIndexed m.
Proof.
  intros Hsize Hnum p i. rewrite (Hnum p i). split.
  - intros (k & -> & Hk). apply snapshot_lookup in Hk as (v & Hv & Hp).
    exists v. split; [|done].
    pose proof (lookup_lt_Some _ _ _ Hv).
    rewrite to_int_small by lia. by apply at_index_nat.
  - intros (v & [Hi Hv]%at_index_Done & Hp). exists (Z.to_nat i).
    pose proof (lookup_lt_Some _ _ _ Hv).
    rewrite Z2Nat.id by done. split.
    + symmetry. apply to_int_small. lia.
    + apply snapshot_lookup. eauto.
Qed.

Lemma meshToModel_indexed (mesh : Mesh) (model : Model) :
  meshToModel mesh = Done model → positionsIndexed model.
Proof.
  intros [(HV & HN & _) _]%meshToModel_invariants. by apply numbered_indexed.
Qed.

Lemma touching_elem (k : nat) (fs : list FaceRecord) (x : Z) :
  x ∈ touching k fs ↔
  ∃ j r, fs !! j = Some r ∧ x = to_int (Z.of_nat j) ∧
         Z.of_nat k ∈ faceEdges r.
Proof.
  induction fs as [|r fs IH] using rev_ind.
  - split; [by intros ?%elem_of_nil | by intros (j & r & ? & _)].
  - rewrite touching_snoc, elem_of_app, IH. split.
    + intros [(j & r' & Hj & -> & Hin) | Hx].
      * exists j, r'. split; [|done]. apply lookup_app_l_Some. done.
      * apply elem_of_replicate in Hx as [-> Hocc].
        exists (length fs), r. split_and!; [|done|].
        -- rewrite lookup_app_r by lia. by rewrite Nat.sub_diag.
        -- unfold occ in Hocc.
           destruct (filter (λ z, z = Z.of_nat k) (faceEdges r)) as [|y ys] eqn:E;
             [done|].
           assert (Hy : y ∈ filter (λ z, z = Z.of_nat k) (faceEdges r)).
           { rewrite E. apply list_elem_of_here. }
           apply list_elem_of_filter in Hy as [-> Hy]. done.
    + intros (j & r' & Hj & -> & Hin).
      apply lookup_app_Some in Hj as [Hj | [Hge Hj]].
      * left. eauto.
      * right. destruct (j - length fs)%nat as [|j'] eqn:E; [|by destruct j'].
        injection Hj as <-. apply elem_of_replicate. split.
        -- do 2 f_equal. lia.
        -- apply occ_pos in Hin. lia.
Qed.

End BuiltModel.

Section BuilderClaims.

Context {VA : VecArith}.


End BuilderClaims.

(** ** [meshToModel] reads the mesh through its corners *)

Section Corners.

Context {VA : VecArith}.

Lemma for_collect_ext_in {A B} (body body' : A → ModelM B) (l : list A)
    (m : Model) :
  (∀ a m, a ∈ l → body a m = body' a m) →
  for_collect body l m = for_collect body' l m.
Proof.
  revert m. induction l as [|a l IH]; intros m Hext; simpl; [done|].
  unfold mthen. rewrite Hext by apply list_elem_of_here.
  destruct (body' a m) as [[b|e] m1]; [|done].
  rewrite IH; [done|]. intros c mm Hc. apply Hext. by apply list_elem_of_further.
Qed.

Lemma for_each_Forall2 {A} (body body' : A → ModelM unit) (l l' : list A)
    (m : Model) :
  Forall2 (λ a a', ∀ m, body a m = body' a' m) l l' →
  for_each body l m = for_each body' l' m.
Proof.
  intros H. revert m. induction H as [|a a' l l' Ha _ IH]; intros m; simpl;
    [done|].
  unfold mthen. rewrite Ha. destruct (body' a' m) as [[[]|e] m1]; [apply IH | done].
Qed.

Lemma addFace_corners (mesh mesh' : Mesh) (f f' : Face) (m : Model) :
  isQuad f = isQuad f' →
  (∀ i, (i < cornerCount (isQuad f))%nat →
        meshCornerPosition mesh f i = meshCornerPosition mesh' f' i) →
  addFace mesh f m = addFace mesh' f' m.
Proof.
  intros Hq Hc. unfold addFace. rewrite <- Hq.
  assert (Hfirst :
    for_collect (resolveCorner mesh f) (seq 0 (cornerCount (isQuad f))) m
    = for_collect (resolveCorner mesh' f') (seq 0 (cornerCount (isQuad f))) m).
  { apply for_collect_ext_in. intros i mm Hi. apply elem_of_seq in Hi.
    unfold resolveCorner. rewrite Hc by lia. done. }
  unfold mbind, ModelM_bind, mthen at 1 3. rewrite Hfirst. done.
Qed.

Lemma meshToModel_corners (mesh mesh' : Mesh) :
  sameCorners mesh mesh' → meshToModel mesh' = meshToModel mesh.
Proof.
  intros Hsame. unfold meshToModel, buildModel.
  rewrite (for_each_Forall2 (addFace mesh) (addFace mesh')
             (mesh_faces mesh) (mesh_faces mesh')); [done|].
  eapply Forall2_impl; [exact Hsame|]. simpl.
  intros f f' [Hq Hc] m. by apply addFace_corners.
Qed.

Lemma at_index_fmap {A B} (g : A → B) (l : list A) (i : Z) :
  at_index (g <$> l) i = x ← at_index l i; mret (g x).
Proof.
  unfold at_index. case_decide; [|done].
  rewrite list_lookup_fmap. by destruct (l !! Z.to_nat i).
Qed.

Lemma mergedIndex_position (vs : list Vertex) (idx : Z) :
  (v ← at_index (remove_dups vs) (mergedIndex vs idx); mret (position v))
  = (v ← at_index vs idx; mret (position v)).
Proof.
  unfold mergedIndex. destruct (at_index vs idx) as [v|e] eqn:E.
  - assert (Hin : v ∈ remove_dups vs).
    { apply elem_of_remove_dups. apply at_index_Done in E as [_ E].
      by eapply list_elem_of_lookup_2. }
    destruct (list_find (λ w, w = v) (remove_dups vs)) as [[j w]|] eqn:Hfind.
    + apply list_find_Some in Hfind as (Hj & -> & _).
      apply at_index_nat in Hj. rewrite Hj. done.
    + apply list_find_None in Hfind. rewrite Forall_forall in Hfind.
      by destruct (Hfind v Hin).
  - apply at_index_fail in E as ->.
    unfold at_index. rewrite decide_True by lia. rewrite Nat2Z.id.
    rewrite (lookup_ge_None_2 (remove_dups vs)) by lia. done.
Qed.

Lemma mergeCoincident_sameCorners (mesh : Mesh) :
  sameCorners mesh (mergeCoincident mesh).
Proof.
  unfold sameCorners, mergeCoincident. simpl.
  apply Forall2_fmap_r, Forall_Forall2_diag, Forall_forall.
  intros f _. split; [done|]. intros i _.
  unfold meshCornerPosition. simpl. rewrite at_index_fmap.
  destruct (at_index (indices f) (Z.of_nat i)) as [idx|e]; [|done].
  symmetry. apply mergedIndex_position.
Qed.

(** C7. The model of a mesh is the model of the mesh with its coincident
    vertices merged ([mergeCoincident]: one vertex entry for each position,
    the face indices rewritten): both calls end alike and, when they
    return, with equal vertex, edge and face records and equal maps.  More
    generally [meshToModel] ends alike on any two meshes that show the
    same corners, however the positions are spread over the vertex
    entries. *)
Theorem merged_mesh_same_model (mesh mesh' : Mesh) :
  sameCorners mesh mesh' →
  meshToModel mesh' = meshToModel mesh ∧
  NoDup (mesh_vertices (mergeCoincident mesh)) ∧
  sameCorners mesh (mergeCoincident mesh) ∧
  meshToModel (mergeCoincident mesh) = meshToModel mesh.
Proof.
  intros Hsame. split_and!.
  - by apply meshToModel_corners.
  - apply NoDup_remove_dups.
  - apply mergeCoincident_sameCorners.
  - apply meshToModel_corners, mergeCoincident_sameCorners.
Qed.

End Corners.

(** ** [meshToModel] checks nothing *)

Section Unchecked.

Context {VA : VecArith}.

Lemma unchecked_mthen {A B} (x : ModelM A) (k : A → ModelM B) :
  unchecked x → (∀ a, unchecked (k a)) → unchecked (mthen x k).
Proof.
  intros Hx Hk m e m'. unfold mthen.
  destruct (x m) as [[a|e1] m1] eqn:E.
  - apply Hk.
  - intros [= <- <-]. by eapply Hx.
Qed.

Lemma unchecked_bind {A B} (x : ModelM A) (k : A → ModelM B) :
  unchecked x → (∀ a, unchecked (k a)) → unchecked (x ≫= k).
Proof. apply unchecked_mthen. Qed.

Lemma unchecked_at_index {A} (f : Model → list A) (i : Z) :
  unchecked (inspect (λ m, at_index (f m) i)).
Proof. intros m e m' [= H _]. by eapply at_index_fail. Qed.

Lemma unchecked_ret {A} (a : A) : unchecked (mret a : ModelM A).
Proof. intros m e m' [=]. Qed.

Lemma unchecked_for_each {A} (body : A → ModelM unit) (l : list A) :
  (∀ a, unchecked (body a)) → unchecked (for_each body l).
Proof.
  intros Hbody. induction l as [|a l IH]; simpl.
  - intros m e m' [=].
  - apply unchecked_mthen; [apply Hbody | done].
Qed.

Lemma unchecked_for_collect {A B} (body : A → ModelM B) (l : list A) :
  (∀ a, unchecked (body a)) → unchecked (for_collect body l).
Proof.
  intros Hbody. induction l as [|a l IH]; simpl.
  - intros m e m' [=].
  - apply unchecked_mthen; [apply Hbody|]. intros b.
    apply unchecked_mthen; [done|]. intros bs m e m' [=].
Qed.

Lemma unchecked_updateVertex (i : Z) (g : VertexRecord → VertexRecord) :
  unchecked (updateVertex i g).
Proof.
  intros m e m'. unfold updateVertex.
  destruct (at_index (vertices m) i) eqn:E; intros [= <- <-].
  by eapply at_index_fail.
Qed.

Lemma unchecked_getVertexIndex (p : Vec3) : unchecked (getVertexIndex p).
Proof.
  intros m e m' H.
  destruct (getVertexIndex_cases p m) as [(i & _ & Heq) | [_ Heq]]; congruence.
Qed.

Lemma unchecked_getEdgeIndex (pr : Z * Z) : unchecked (getEdgeIndex pr).
Proof.
  intros m e m' H.
  destruct (getEdgeIndex_cases pr m) as [(i & _ & Heq) | [_ Heq]]; congruence.
Qed.

Lemma unchecked_recordFaceOnEdge (fi ei : Z) : unchecked (recordFaceOnEdge fi ei).
Proof.
  intros m e m'. unfold recordFaceOnEdge.
  destruct (at_index (edges m) ei) eqn:E.
  - repeat case_decide; intros [=]; done.
  - intros [= <- <-]. by eapply at_index_fail.
Qed.

Lemma unchecked_resolveCorner (mesh : Mesh) (f : Face) (i : nat) :
  unchecked (resolveCorner mesh f i).
Proof.
  apply unchecked_bind; [|intros p; apply unchecked_getVertexIndex].
  intros m e m' [= H _]. unfold meshCornerPosition in H.
  destruct (at_index (indices f) (Z.of_nat i)) as [idx|e1] eqn:E1; simpl in H.
  - destruct (at_index (mesh_vertices mesh) idx) as [v|e2] eqn:E2; simpl in H;
      [done|]. injection H as <-. by eapply at_index_fail.
  - injection H as <-. by eapply at_index_fail.
Qed.

Lemma unchecked_addFace (mesh : Mesh) (f : Face) : unchecked (addFace mesh f).
Proof.
  unfold addFace.
  apply unchecked_bind;
    [apply unchecked_for_collect, unchecked_resolveCorner | intros vi].
  apply unchecked_bind.
  { apply unchecked_for_collect. intros i. unfold resolveEdge.
    apply unchecked_bind; [apply (unchecked_at_index (λ _, vi)) | intros a].
    apply unchecked_bind; [apply (unchecked_at_index (λ _, vi)) | intros b].
    apply unchecked_bind; [apply unchecked_getEdgeIndex | intros r].
    apply unchecked_bind; [apply unchecked_updateVertex | intros _].
    apply unchecked_bind; [apply unchecked_updateVertex | intros _].
    apply unchecked_ret. }
  intros ei.
  apply unchecked_bind; [by intros m e m' [=] | intros fi].
  apply unchecked_bind.
  { apply unchecked_for_each. intros i. unfold noteFaceOnVertex.
    apply unchecked_bind; [apply (unchecked_at_index (λ _, vi)) | intros a].
    apply unchecked_updateVertex. }
  intros _. apply unchecked_for_each. intros i. unfold noteFaceOnEdge.
  apply unchecked_bind; [apply (unchecked_at_index (λ _, ei)) | intros a].
  apply unchecked_recordFaceOnEdge.
Qed.

Lemma meshToModel_unchecked (mesh : Mesh) (e : failure) :
  meshToModel mesh = Fail e → e = OutOfBounds.
Proof.
  unfold meshToModel.
  destruct (buildModel mesh emptyModel) as [[[]|e'] m'] eqn:E; intros [= <-].
  eapply (unchecked_for_each (addFace mesh)); [apply unchecked_addFace | exact E].
Qed.

(** Every element of a loop that ended normally had its body end
    normally. *)
Lemma for_each_bodies {A} (body : A → ModelM unit) (l : list A) (m m' : Model) :
  for_each body l m = (Done (), m') →
  Forall (λ a, ∃ m1 m2, body a m1 = (Done (), m2)) l.
Proof.
  intros Hrun.
  apply (for_each_ind body (λ pre _, Forall (λ a, ∃ m1 m2, body a m1 = (Done (), m2)) pre)
           l m m'); [constructor | | done].
  intros pre a suf m1 m2 _ Hpre Ha. apply Forall_app. split; [done|].
  constructor; [eauto | constructor].
Qed.

Lemma for_collect_bodies {A B} (body : A → ModelM B) (l : list A) (m m' : Model)
    (bs : list B) :
  for_collect body l m = (Done bs, m') →
  Forall (λ a, ∃ m1 b m2, body a m1 = (Done b, m2)) l.
Proof.
  intros Hrun.
  apply (for_collect_ind body
           (λ pre _ _, Forall (λ a, ∃ m1 b m2, body a m1 = (Done b, m2)) pre)
           l m m' bs); [constructor | | done].
  intros pre rs a suf m1 b m2 _ Hpre Ha. apply Forall_app. split; [done|].
  constructor; [eauto | constructor].
Qed.

(** When [meshToModel] returns, every corner index it read named a vertex
    of the mesh. *)
Lemma meshToModel_reads_in_range (mesh : Mesh) (model : Model) (f : Face)
    (i : nat) :
  meshToModel mesh = Done model →
  f ∈ mesh_faces mesh →
  (i < cornerCount (isQuad f))%nat →
  ∃ idx, indices f !! i = Some idx ∧
         0 ≤ idx < Z.of_nat (length (mesh_vertices mesh)).
Proof.
  intros Hrun%meshToModel_Done Hf Hi.
  apply for_each_bodies in Hrun. rewrite Forall_forall in Hrun.
  destruct (Hrun f Hf) as (m1 & m2 & Hface).
  apply addFace_Done in Hface as (vi & m3 & _ & _ & _ & Hfirst & _).
  apply for_collect_bodies in Hfirst. rewrite Forall_forall in Hfirst.
  destruct (Hfirst i) as (m4 & r & m5 & Hcorner).
  { apply elem_of_seq. lia. }
  apply resolveCorner_Done in Hcorner as (idx & v & Hidx & Hv & _).
  exists idx. apply at_index_nat in Hidx. split; [done|].
  apply at_index_Done in Hv as [? Hv]. apply lookup_lt_Some in Hv. lia.
Qed.

(** C6, as the code has it.  A negative iteration count is caught by the
    [assert] alone: a build with assertions aborts, which is not the
    exception of [moveVertex]; a build with [NDEBUG] runs no iteration and
    returns the input mesh, as it does for the count 0.  A corner index
    that names no vertex of the mesh is not looked at before it is used:
    [meshToModel] reads outside the vertex vector and reports nothing. *)
Theorem preconditions_unchecked (mesh : Mesh) (n : Z) (f : Face) (i : nat)
    (idx : Z) :
  (n < 0 →
   applyCatmullClarkSubdivision false mesh n = Fail AssertionFailed ∧
   applyCatmullClarkSubdivision true mesh n = Done mesh ∧
   applyCatmullClarkSubdivision true mesh n
     = applyCatmullClarkSubdivision true mesh 0) ∧
  (f ∈ mesh_faces mesh →
   (i < cornerCount (isQuad f))%nat →
   indices f !! i = Some idx →
   ¬ (0 ≤ idx < Z.of_nat (length (mesh_vertices mesh))) →
   meshToModel mesh = Fail OutOfBounds).
Proof.
  split.
  - intros Hn. unfold applyCatmullClarkSubdivision.
    rewrite bool_decide_eq_true_2 by done.
    rewrite bool_decide_eq_false_2 by lia. simpl.
    replace (Z.to_nat n) with 0%nat by lia. done.
  - intros Hf Hi Hidx Hout.
    destruct (meshToModel mesh) as [model|e] eqn:E.
    + destruct (meshToModel_reads_in_range mesh model f i E Hf Hi)
        as (idx' & Hidx' & Hin).
      congruence.
    + f_equal. by eapply meshToModel_unchecked.
Qed.

End Unchecked.

(** ** [applyCatmullClarkSubdivisionOnce]: the points *)

Section Points.

Context {VA : VecArith}.


End Points.

(** ** [applyCatmullClarkSubdivisionOnce]: the loop that moves the vertices *)

Section Reposition.

Context {VA : VecArith}.

Lemma accumulate_foldl {A} (body : Vec3 → A → outcome Vec3)
    (R : A → Vec3 → Prop) (l : list A) (acc r : Vec3) :
  (∀ s x r, body s x = Done r → ∃ y, R x y ∧ r = vadd s y) →
  accumulate body acc l = Done r →
  ∃ ys, Forall2 R l ys ∧ r = foldl vadd acc ys.
Proof.
  intros Hbody. revert acc. induction l as [|x l IH]; intros acc; simpl.
  - intros [= <-]. exists []. split; [constructor | done].
  - intros H. apply obind_Done in H as (s & Hs & H).
    apply Hbody in Hs as (y & Hy & ->).
    apply IH in H as (ys & Hys & ->).
    exists (y :: ys). split; [by constructor | done].
Qed.

Lemma seq_split (n : nat) (pre suf : list nat) (a : nat) :
  seq 0 n = pre ++ a :: suf → a = length pre ∧ (a < n)%nat.
Proof.
  intros H.
  assert (Ha : seq 0 n !! length pre = Some a).
  { rewrite H. rewrite lookup_app_r by lia. by rewrite Nat.sub_diag. }
  apply lookup_seq in Ha. simpl in Ha. lia.
Qed.

Lemma newPositionOf_frame (fp op : list Vec3) (i : nat) (m m' : Model) :
  vertices m' !! i = vertices m !! i →
  edges m' = edges m →
  newPositionOf fp op i m' = newPositionOf fp op i m.
Proof.
  intros Hv He.
  assert (Hat : at_index (vertices m') (Z.of_nat i)
                = at_index (vertices m) (Z.of_nat i)).
  { unfold at_index. by rewrite Nat2Z.id, Hv. }
  unfold newPositionOf. rewrite Hat, He. done.
Qed.

Lemma moveVertex_Done (i : Z) (p : Vec3) (m m' : Model) :
  moveVertex i p m = (Done (), m') →
  ∃ v, at_index (vertices m) i = Done v ∧
       vertices m' = <[Z.to_nat i := set_position p v]> (vertices m) ∧
       edges m' = edges m ∧ faces m' = faces m ∧
       vertexPairToEdge m' = vertexPairToEdge m.
Proof.
  intros Hmove.
  destruct (moveVertex_cases i p m)
    as [(e & He & Hrun) | (v & Hv & [[_ Hrun] | [_ Hrun]])];
    rewrite Hrun in Hmove; [done | done |].
  injection Hmove as <-. exists v. done.
Qed.

(** The loop, when it ends normally, has given every vertex the position
    that [newPositionOf] computes on the model as it was before the loop. *)
Lemma repositionVertices_spec (fp op : list Vec3) (m m' : Model) :
  Z.of_nat (length (vertices m)) ≤ 2 ^ 31 →
  repositionVertices fp op m = (Done (), m') →
  edges m' = edges m ∧ faces m' = faces m ∧
  vertexPairToEdge m' = vertexPairToEdge m ∧
  length (vertices m') = length (vertices m) ∧
  ∀ k v, vertices m !! k = Some v →
    ∃ p, newPositionOf fp op k m = Done p ∧
         vertices m' !! k = Some (set_position p v).
Proof.
  intros Hsize Hrun. unfold repositionVertices in Hrun.
  apply (for_each_ind (repositionVertex fp op)
           (λ pre mm,
              edges mm = edges m ∧ faces mm = faces m ∧
              vertexPairToEdge mm = vertexPairToEdge m ∧
              length (vertices mm) = length (vertices m) ∧
              ∀ k v, vertices m !! k = Some v →
                if decide (k < length pre)%nat then
                  ∃ p, newPositionOf fp op k m = Done p ∧
                       vertices mm !! k = Some (set_position p v)
                else vertices mm !! k = Some v)
           _ m m') in Hrun.
  - destruct Hrun as (HE & HF & HQ & HL & Hvs). split_and!; try done.
    intros k v Hv. specialize (Hvs k v Hv). rewrite length_seq in Hvs.
    rewrite decide_True in Hvs; [done|]. by eapply lookup_lt_Some.
  - split_and!; done.
  - clear Hrun. intros pre a suf m1 m2 Hl (HE & HF & HQ & HL & Hvs) Hbody.
    apply seq_split in Hl as [-> Ha].
    unfold repositionVertex in Hbody.
    apply mbind_Done in Hbody as (p & m0 & Hp & Hmove).
    apply inspect_Done in Hp as [Hp ->].
    rewrite to_int_small in Hmove by lia.
    apply moveVertex_Done in Hmove as (v1 & Hv1 & HV2 & HE2 & HF2 & HQ2).
    apply at_index_nat in Hv1. rewrite Nat2Z.id in HV2.
    destruct (lookup_lt_is_Some_2 (vertices m) (length pre)) as [v0 Hv0]; [lia|].
    pose proof (Hvs _ _ Hv0) as Hsame. rewrite decide_False in Hsame by lia.
    assert (v1 = v0) as -> by congruence.
    rewrite (newPositionOf_frame fp op (length pre) m m1) in Hp by congruence.
    rewrite HV2, length_insert, length_app. simpl.
    split_and!; try congruence.
    intros k v Hv. specialize (Hvs k v Hv).
    destruct (decide (k = length pre)) as [-> | Hne].
    + rewrite decide_True by lia. assert (v = v0) as -> by congruence.
      exists p. split; [done|].
      apply list_lookup_insert_eq. by eapply lookup_lt_Some.
    + rewrite list_lookup_insert_ne by done.
      destruct (decide (k < length pre)%nat).
      * rewrite decide_True by lia. done.
      * rewrite decide_False by lia. done.
Qed.

End Reposition.

Section RepositionClaim.

Context {VA : VecArith}.

Lemma Forall2_seq_take {A B} (l : list A) (n : nat) (P : A → B → Prop)
    (ys : list B) :
  Forall2 (λ j y, ∃ x, l !! j = Some x ∧ P x y) (seq 0 n) ys →
  Forall2 P (take n l) ys.
Proof.
  intros H. pose proof (Forall2_length _ _ _ H) as Hlen.
  rewrite length_seq in Hlen.
  assert (Hn : (n ≤ length l)%nat).
  { destruct n as [|n']; [lia|].
    assert (Hlast : seq 0 (S n') !! n' = Some n') by (apply lookup_seq; lia).
    destruct (Forall2_lookup_l _ _ _ _ _ H Hlast) as (y & _ & x & Hx & _).
    apply lookup_lt_Some in Hx. lia. }
  apply Forall2_same_length_lookup_2.
  - rewrite length_take. lia.
  - intros i x y Hx Hy.
    assert (Hi : (i < n)%nat) by (apply lookup_lt_Some in Hy; lia).
    rewrite lookup_take_lt in Hx by done.
    assert (Hseq : seq 0 n !! i = Some i) by (apply lookup_seq; lia).
    destruct (Forall2_lookup_lr _ _ _ _ _ _ H Hseq Hy) as (x' & Hx' & HP).
    congruence.
Qed.

Lemma snapshot_at_index (m : Model) (i : Z) (p : Vec3) :
  at_index (snapshotPositions m) i = Done p →
  ∃ v, at_index (vertices m) i = Done v ∧ vr_position v = p.
Proof.
  unfold snapshotPositions. rewrite at_index_fmap.
  intros (v & Hv & [= <-])%obind_Done. eauto.
Qed.

(** C1, as the code has it.  After the loop that moves the vertices, the
    position of every vertex is [m1 * old + m2 * avgFace + m3 * avgEdgeMid]
    with [n] the number of entries of its face list (as an [int]),
    [m1 = (n - 3) / n], [m2 = 1 / n], [m3 = 2 / n], [avgFace] the sum of the
    face points of the first [n] entries of the face list divided by [n],
    and [avgEdgeMid] the sum, over the entries of its edge list, of the
    midpoint of the two end points of the edge, divided by the length of
    the list: an edge counts as often as the list names it.  Every
    quantity is read from the model as it was before the loop. *)
Theorem vertex_reposition_rule (mesh : Mesh) (model m' : Model)
    (facePoints : list Vec3) (k : nat) (v : VertexRecord) :
  meshToModel mesh = Done model →
  computeFacePoints model = Done facePoints →
  repositionVertices facePoints (snapshotPositions model) model = (Done (), m') →
  vertices model !! k = Some v →
  let n := to_int (Z.of_nat (length (vr_faces v))) in
  let m1 := fdiv (of_Z (n - 3)) (of_Z n) in
  let m2 := fdiv (of_Z 1) (of_Z n) in
  let m3 := fdiv (of_Z 2) (of_Z n) in
  ∃ facePts mids v',
    Forall2
      (λ fi fp, ∃ r, at_index (faces model) fi = Done r ∧
                     facePoint model r = Done fp)
      (take (Z.to_nat n) (vr_faces v)) facePts ∧
    Forall2
      (λ ei mid, ∃ e v0 v1,
         at_index (edges model) ei = Done e ∧
         at_index (vertices model) (low_vertex e) = Done v0 ∧
         at_index (vertices model) (high_vertex e) = Done v1 ∧
         mid = smul half (vadd (vr_position v0) (vr_position v1)))
      (vr_edges v) mids ∧
    vertices m' !! k = Some v' ∧
    vr_edges v' = vr_edges v ∧
    vr_faces v' = vr_faces v ∧
    vr_position v' =
      vadd (vadd (smul m1 (vr_position v))
                 (smul m2 (vdiv (vsum facePts) (of_Z n))))
           (smul m3 (vdiv (vsum mids)
                          (of_Z (Z.of_nat (length (vr_edges v)))))).
Proof.
  intros Hmodel Hfp Hrun Hv n m1 m2 m3.
  apply meshToModel_invariants in Hmodel as [(Hsize & _) _].
  apply (repositionVertices_spec _ _ _ _ Hsize) in Hrun as (_ & _ & _ & _ & Hvs).
  destruct (Hvs k v Hv) as (p & Hp & Hv').
  unfold newPositionOf in Hp.
  apply obind_Done in Hp as (v0 & Hv0 & Hp).
  apply at_index_nat in Hv0. assert (v0 = v) as -> by congruence.
  fold n in Hp. case_decide; [done|].
  apply obind_Done in Hp as (faceSum & Hfs & Hp).
  apply obind_Done in Hp as (edgeSum & Hes & Hp).
  apply obind_Done in Hp as (old & Hold & [= <-]).
  apply collect_Done in Hfp.
  apply (accumulate_foldl _
           (λ j y, ∃ fi, vr_faces v !! j = Some fi ∧
                    ∃ r, at_index (faces model) fi = Done r ∧
                         facePoint model r = Done y)) in Hfs
    as (facePts & HfacePts & ->).
  2:{ intros s j r Hbody.
      apply obind_Done in Hbody as (fj & Hfj & Hbody).
      apply obind_Done in Hbody as (y & Hy & [= <-]).
      exists y. split; [|done]. exists fj. apply at_index_nat in Hfj.
      split; [done|]. apply at_index_Done in Hy as [Hpos Hy].
      destruct (Forall2_lookup_r _ _ _ _ _ Hfp Hy) as (r & Hr & Hrf).
      exists r. split; [by apply at_index_Done | done]. }
  apply (accumulate_foldl _
           (λ ei mid, ∃ e v0 v1,
              at_index (edges model) ei = Done e ∧
              at_index (vertices model) (low_vertex e) = Done v0 ∧
              at_index (vertices model) (high_vertex e) = Done v1 ∧
              mid = smul half (vadd (vr_position v0) (vr_position v1)))) in Hes
    as (mids & Hmids & ->).
  2:{ intros s ei r Hbody.
      apply obind_Done in Hbody as (e & He & Hbody).
      apply obind_Done in Hbody as (pl & Hpl & Hbody).
      apply obind_Done in Hbody as (ph & Hph & [= <-]).
      apply snapshot_at_index in Hpl as (w0 & Hw0 & <-).
      apply snapshot_at_index in Hph as (w1 & Hw1 & <-).
      eexists. split; [|done]. exists e, w0, w1. done. }
  apply at_index_nat in Hold. apply snapshot_lookup in Hold as (w & Hw & <-).
  assert (w = v) as -> by congruence.
  exists facePts, mids, (set_position
    (vadd (vadd (smul m1 (vr_position v))
                (smul m2 (vdiv (foldl vadd vzero facePts) (of_Z n))))
          (smul m3 (vdiv (foldl vadd vzero mids)
                         (of_Z (Z.of_nat (length (vr_edges v))))))) v).
  split_and!; try done.
  by apply Forall2_seq_take.
Qed.

End RepositionClaim.

(** ** The exception of [moveVertex] in a subdivision pass *)

Section Collision.

Context {VA : VecArith}.

Lemma for_each_fails {A} (body : A → ModelM unit) (pre suf : list A) (a : A)
    (m m1 m2 : Model) (e : failure) :
  for_each body pre m = (Done (), m1) →
  body a m1 = (Fail e, m2) →
  for_each body (pre ++ a :: suf) m = (Fail e, m2).
Proof.
  revert m. induction pre as [|b pre IH]; intros m; simpl.
  - intros [= ->] Ha. unfold mthen. by rewrite Ha.
  - intros Hpre Ha. apply mthen_Done in Hpre as ([] & m0 & Hb & Hpre).
    unfold mthen at 1. rewrite Hb. by apply IH.
Qed.

Lemma iterateOutcome_add {A} (step : A → outcome A) (a b : nat) (x y : A) :
  iterateOutcome a step x = Done y →
  iterateOutcome (a + b) step x = iterateOutcome b step y.
Proof.
  revert x. induction a as [|a IH]; intros x; simpl.
  - by intros [= ->].
  - intros H. apply obind_Done in H as (x' & Hx' & H).
    change (obind (step x) (λ a', iterateOutcome (a + b) step a')
            = iterateOutcome b step y).
    rewrite Hx'. simpl. by apply IH.
Qed.

Lemma repositionPrefix_keeps (fp op : list Vec3) (pre : list nat) (m mk : Model) :
  for_each (repositionVertex fp op) pre m = (Done (), mk) →
  positionsIndexed m →
  positionsIndexed mk ∧ length (vertices mk) = length (vertices m).
Proof.
  intros Hrun Hix.
  apply (for_each_preserves
           (λ mm, positionsIndexed mm ∧ length (vertices mm) = length (vertices m))
           (repositionVertex fp op) pre m mk); [| done | done].
  intros a m1 m2 [Hix1 Hlen1] Hbody. unfold repositionVertex in Hbody.
  apply mbind_Done in Hbody as (p & m0 & Hp & Hmove).
  apply inspect_Done in Hp as [_ ->]. split.
  - by eapply moveVertex_keeps_indexed.
  - apply moveVertex_Done in Hmove as (v & _ & -> & _).
    by rewrite length_insert.
Qed.

(** C5.  In a model whose map of positions is the graph of the positions
    of its vertices, [moveVertex] throws exactly when the new position is
    the position that another vertex has at that moment.  The models that
    the loop of a subdivision pass moves vertices in are such models; and
    when the move of a vertex throws there, the pass ends with the
    exception and returns no mesh, and so does the call of the driver that
    runs the pass. *)
Theorem collision_raises (mesh : Mesh) (model mk : Model) (fp ep : list Vec3)
    (pre suf : list nat) (k : nat) (p : Vec3) :
  meshToModel mesh = Done model →
  computeFacePoints model = Done fp →
  computeEdgePoints model fp = Done ep →
  seq 0 (length (vertices model)) = pre ++ k :: suf →
  for_each (repositionVertex fp (snapshotPositions model)) pre model
    = (Done (), mk) →
  newPositionOf fp (snapshotPositions model) k mk = Done p →
  let raised := (moveVertex (to_int (Z.of_nat k)) p mk).1 = Fail RuntimeError in
  positionsIndexed mk ∧
  (raised ↔ ∃ j w, j ≠ k ∧ vertices mk !! j = Some w ∧ vr_position w = p) ∧
  (raised →
     applyCatmullClarkSubdivisionOnce model = Fail RuntimeError ∧
     subdivisionStep mesh = Fail RuntimeError ∧
     ∀ ndebug mesh0 a b,
       iterateOutcome a subdivisionStep mesh0 = Done mesh →
       applyCatmullClarkSubdivision ndebug mesh0 (Z.of_nat (a + S b))
         = Fail RuntimeError).
Proof.
  intros Hmodel Hfp Hep Hl Hpre Hp raised.
  pose proof (meshToModel_indexed _ _ Hmodel) as Hix.
  pose proof (meshToModel_invariants _ _ Hmodel) as [(Hsize & _) _].
  destruct (repositionPrefix_keeps _ _ _ _ _ Hpre Hix) as [Hixk Hlenk].
  pose proof (seq_split _ _ _ _ Hl) as [Hk Hlt].
  assert (Hint : to_int (Z.of_nat k) = Z.of_nat k) by (apply to_int_small; lia).
  destruct (lookup_lt_is_Some_2 (vertices mk) k) as [v Hv]; [lia|].
  assert (Hat : at_index (vertices mk) (Z.of_nat k) = Done v)
    by (by apply at_index_nat).
  unfold raised. rewrite Hint. split_and!; [done | |].
  - rewrite (moveVertex_throws_iff mk (Z.of_nat k) v p Hixk Hat). split.
    + intros (j & w & Hne & [Hj Hw]%at_index_Done & Hpos).
      exists (Z.to_nat j), w. split_and!; [lia | done | done].
    + intros (j & w & Hne & Hw & Hpos).
      exists (Z.of_nat j), w. split_and!; [lia | by apply at_index_nat | done].
  - intros Hraised.
    assert (Hloop :
      (repositionVertices fp (snapshotPositions model) model).1
      = Fail RuntimeError).
    { unfold repositionVertices. rewrite Hl.
      destruct (moveVertex (Z.of_nat k) p mk) as [r m2] eqn:Hmove.
      simpl in Hraised. subst r.
      assert (Hbody : repositionVertex fp (snapshotPositions model) k mk
                      = (Fail RuntimeError, m2)).
      { unfold repositionVertex, mbind, ModelM_bind, mthen, inspect.
        rewrite Hp, Hint. exact Hmove. }
      by rewrite (for_each_fails _ pre suf k model mk m2 _ Hpre Hbody). }
    assert (Honce : applyCatmullClarkSubdivisionOnce model = Fail RuntimeError).
    { unfold applyCatmullClarkSubdivisionOnce. rewrite Hfp. simpl.
      rewrite Hep. simpl. unfold subdivideModel, mbind, ModelM_bind, mthen.
      destruct (repositionVertices fp (snapshotPositions model) model)
        as [r m2]. simpl in Hloop. by subst r. }
    assert (Hstep : subdivisionStep mesh = Fail RuntimeError).
    { unfold subdivisionStep. rewrite Hmodel. exact Honce. }
    split_and!; [done | done |].
    intros ndebug mesh0 a b Hbefore.
    unfold applyCatmullClarkSubdivision.
    rewrite bool_decide_eq_false_2 by lia. rewrite andb_false_r, Nat2Z.id.
    rewrite (iterateOutcome_add _ a (S b) mesh0 mesh Hbefore). simpl.
    change (obind (subdivisionStep mesh) (λ a', iterateOutcome b subdivisionStep a')
            = Fail RuntimeError).
    by rewrite Hstep.
Qed.

End Collision.

(** ** [applyCatmullClarkSubdivisionOnce]: the new mesh *)

Section NewMesh.

Context {VA : VecArith}.

Lemma extends_refl (m : Model) : extends m m.
Proof. by split_and!. Qed.

Lemma extends_trans (m1 m2 m3 : Model) :
  extends m1 m2 → extends m2 m3 → extends m1 m3.
Proof.
  intros (HV1 & HF1 & HM1) (HV2 & HF2 & HM2).
  split_and!; [congruence | congruence | by etrans].
Qed.

Lemma cornerPosition_Done (r : FaceRecord) (c : Z) (m m' : Model) (p : Vec3) :
  cornerPosition r c m = (Done p, m') →
  m' = m ∧ (vc ← at_index (fr_vertices r) c; vertexPosition m vc) = Done p.
Proof. intros [H ->]%inspect_Done. done. Qed.

Lemma edgePointBetween_Done (ep : list Vec3) (r : FaceRecord) (a b : Z)
    (m m' : Model) (p : Vec3) :
  edgePointBetween ep r a b m = (Done p, m') →
  extends m m' ∧
  ∃ va vb e,
    at_index (fr_vertices r) a = Done va ∧
    at_index (fr_vertices r) b = Done vb ∧
    vertexPairToEdge m' !! sortPair (va, vb) = Some e ∧
    at_index ep e = Done p.
Proof.
  unfold edgePointBetween. intros H.
  apply mbind_Done in H as (va & m0 & [Hva ->]%inspect_Done & H).
  apply mbind_Done in H as (vb & m0 & [Hvb ->]%inspect_Done & H).
  apply mbind_Done in H as (e & m1 & Hget & [He ->]%inspect_Done).
  destruct (getEdgeIndex_cases (va, vb) m) as [(i & Hi & Heq) | [Hnone Heq]];
    rewrite Heq in Hget; injection Hget as <- <-.
  - split; [apply extends_refl|]. exists va, vb, i. done.
  - split.
    + split_and!; [done | done |]. simpl. by apply insert_subseteq.
    + eexists va, vb, _. split_and!; [done | done | | exact He].
      simpl. apply lookup_insert_eq.
Qed.

Lemma corner_extends (r : FaceRecord) (c : Z) (m m' : Model) (p : Vec3) :
  extends m m' →
  (vc ← at_index (fr_vertices r) c; vertexPosition m vc) = Done p →
  (vc ← at_index (fr_vertices r) c; vertexPosition m' vc) = Done p.
Proof. intros (HV & _) H. unfold vertexPosition in *. by rewrite HV. Qed.

Lemma claimedEdge_here (ep : list Vec3) (r : FaceRecord) (a b : Z)
    (m m' : Model) (p : Vec3) :
  (∃ va vb e,
     at_index (fr_vertices r) a = Done va ∧
     at_index (fr_vertices r) b = Done vb ∧
     vertexPairToEdge m !! sortPair (va, vb) = Some e ∧
     at_index ep e = Done p) →
  extends m m' →
  (va ← at_index (fr_vertices r) a;
   vb ← at_index (fr_vertices r) b;
   match vertexPairToEdge m' !! sortPair (va, vb) with
   | Some e => at_index ep e
   | None => Fail OutOfBounds
   end) = Done p.
Proof.
  intros (va & vb & e & -> & -> & He & Hp) (_ & _ & Hsub). simpl.
  by rewrite (lookup_weaken _ _ _ _ He Hsub).
Qed.

Lemma to_u32_add (a k : Z) : to_u32 (to_u32 a + k) = to_u32 (a + k).
Proof. unfold to_u32. by rewrite Zplus_mod_idemp_l. Qed.

End NewMesh.

Section NewMeshFace.

Context {VA : VecArith}.

(** One pass of the loop over the faces of the old model. *)
Lemma emitFace_spec (fp ep : list Vec3) (acc acc' : Mesh) (fi : nat)
    (m m' : Model) :
  emitFace fp ep acc fi m = (Done acc', m') →
  ∃ r block,
    faces m !! fi = Some r ∧ extends m m' ∧
    claimedFaceVertices m' fp ep fi r = Done block ∧
    acc' = pushMesh acc block
             (claimedFaceQuads (Z.of_nat (length (mesh_vertices acc)))
                               (cornerCount (fr_isQuad r))).
Proof.
  unfold emitFace. intros H.
  apply mbind_Done in H as (r & m0 & [Hr ->]%inspect_Done & H).
  apply at_index_nat in Hr. exists r.
  destruct (fr_isQuad r) eqn:Hquad.
  - apply mbind_Done in H as (va & m0 & [-> Hva]%cornerPosition_Done & H).
    apply mbind_Done in H as (vb & m0 & [-> Hvb]%cornerPosition_Done & H).
    apply mbind_Done in H as (vc & m0 & [-> Hvc]%cornerPosition_Done & H).
    apply mbind_Done in H as (vd & m0 & [-> Hvd]%cornerPosition_Done & H).
    apply mbind_Done in H as (eab & m1 & [X1 Hab]%edgePointBetween_Done & H).
    apply mbind_Done in H as (ebc & m2 & [X2 Hbc]%edgePointBetween_Done & H).
    apply mbind_Done in H as (ecd & m3 & [X3 Hcd]%edgePointBetween_Done & H).
    apply mbind_Done in H as (eda & m4 & [X4 Hda]%edgePointBetween_Done & H).
    apply mbind_Done in H as (fabcd & m5 & [Hf ->]%inspect_Done & H).
    apply mret_Done in H as [-> ->].
    assert (X14 : extends m m4) by eauto using extends_trans.
    assert (X24 : extends m1 m4) by eauto using extends_trans.
    assert (X34 : extends m2 m4) by eauto using extends_trans.
    exists [va; vb; vc; vd; eab; ebc; ecd; eda; fabcd].
    split_and!; [done | done | |].
    + unfold claimedFaceVertices. rewrite Hquad. simpl.
      change (Z.of_nat 0) with 0. change (Z.of_nat 1) with 1.
      change (Z.of_nat 2) with 2. change (Z.of_nat 3) with 3.
      rewrite (corner_extends r 0 m m4 va X14 Hva). simpl.
      rewrite (corner_extends r 1 m m4 vb X14 Hvb). simpl.
      rewrite (corner_extends r 2 m m4 vc X14 Hvc). simpl.
      rewrite (corner_extends r 3 m m4 vd X14 Hvd). simpl.
      rewrite (claimedEdge_here ep r 0 1 m1 m4 eab Hab X24). simpl.
      rewrite (claimedEdge_here ep r 1 2 m2 m4 ebc Hbc X34). simpl.
      rewrite (claimedEdge_here ep r 2 3 m3 m4 ecd Hcd X4). simpl.
      rewrite (claimedEdge_here ep r 3 0 m4 m4 eda Hda (extends_refl m4)). simpl.
      rewrite Hf. done.
    + unfold pushMesh, claimedFaceQuads. simpl. rewrite !to_u32_add.
      change (Z.of_nat 0) with 0. change (Z.of_nat 1) with 1.
      change (Z.of_nat 2) with 2. change (Z.of_nat 3) with 3.
      change (Z.of_nat 4) with 4.
      rewrite <- ?Z.add_assoc, ?Z.add_0_r. simpl. done.
  - apply mbind_Done in H as (va & m0 & [-> Hva]%cornerPosition_Done & H).
    apply mbind_Done in H as (vb & m0 & [-> Hvb]%cornerPosition_Done & H).
    apply mbind_Done in H as (vc & m0 & [-> Hvc]%cornerPosition_Done & H).
    apply mbind_Done in H as (eab & m1 & [X1 Hab]%edgePointBetween_Done & H).
    apply mbind_Done in H as (ebc & m2 & [X2 Hbc]%edgePointBetween_Done & H).
    apply mbind_Done in H as (eca & m3 & [X3 Hca]%edgePointBetween_Done & H).
    apply mbind_Done in H as (fabc & m5 & [Hf ->]%inspect_Done & H).
    apply mret_Done in H as [-> ->].
    assert (X13 : extends m m3) by eauto using extends_trans.
    assert (X23 : extends m1 m3) by eauto using extends_trans.
    exists [va; vb; vc; eab; ebc; eca; fabc].
    split_and!; [done | done | |].
    + unfold claimedFaceVertices. rewrite Hquad. simpl.
      change (Z.of_nat 0) with 0. change (Z.of_nat 1) with 1.
      change (Z.of_nat 2) with 2. change (Z.of_nat 3) with 3.
      rewrite (corner_extends r 0 m m3 va X13 Hva). simpl.
      rewrite (corner_extends r 1 m m3 vb X13 Hvb). simpl.
      rewrite (corner_extends r 2 m m3 vc X13 Hvc). simpl.
      rewrite (claimedEdge_here ep r 0 1 m1 m3 eab Hab X23). simpl.
      rewrite (claimedEdge_here ep r 1 2 m2 m3 ebc Hbc X3). simpl.
      rewrite (claimedEdge_here ep r 2 0 m3 m3 eca Hca (extends_refl m3)). simpl.
      rewrite Hf. done.
    + unfold pushMesh, claimedFaceQuads. simpl. rewrite !to_u32_add.
      change (Z.of_nat 0) with 0. change (Z.of_nat 1) with 1.
      change (Z.of_nat 2) with 2. change (Z.of_nat 3) with 3.
      change (Z.of_nat 4) with 4.
      rewrite <- ?Z.add_assoc, ?Z.add_0_r. simpl. done.
Qed.

End NewMeshFace.

Section NewMeshClaim.

Context {VA : VecArith}.

Lemma collect_impl {A B} (body body' : A → outcome B) (l : list A) (bs : list B) :
  (∀ a b, body a = Done b → body' a = Done b) →
  collect body l = Done bs → collect body' l = Done bs.
Proof.
  intros Himpl H. apply collect_Done. apply collect_Done in H.
  eapply Forall2_impl; [exact H | exact Himpl].
Qed.

Lemma collect_length {A B} (body : A → outcome B) (l : list A) (bs : list B) :
  collect body l = Done bs → length bs = length l.
Proof. intros H%collect_Done. symmetry. by eapply Forall2_length. Qed.

Lemma claimedFaceVertices_extends (m m' : Model) (fp ep : list Vec3) (fi : nat)
    (r : FaceRecord) (block : list Vec3) :
  extends m m' →
  claimedFaceVertices m fp ep fi r = Done block →
  claimedFaceVertices m' fp ep fi r = Done block.
Proof.
  intros Hext H. pose proof Hext as (HV & _ & Hsub).
  unfold claimedFaceVertices in *.
  apply obind_Done in H as (corners & Hc & H).
  apply obind_Done in H as (eps & He & H).
  apply obind_Done. exists corners. split.
  { eapply collect_impl; [|exact Hc]. intros c p. by apply corner_extends. }
  apply obind_Done. exists eps. split; [|done].
  eapply collect_impl; [|exact He]. simpl. intros c p Hp.
  apply obind_Done in Hp as (va & Hva & Hp).
  apply obind_Done in Hp as (vb & Hvb & Hp).
  rewrite Hva. simpl. rewrite Hvb. simpl.
  destruct (vertexPairToEdge m !! sortPair (va, vb)) as [e|] eqn:E; [|done].
  by rewrite (lookup_weaken _ _ _ _ E Hsub).
Qed.

Lemma claimedFaceVertices_length (m : Model) (fp ep : list Vec3) (fi : nat)
    (r : FaceRecord) (block : list Vec3) :
  claimedFaceVertices m fp ep fi r = Done block →
  length block = (2 * cornerCount (fr_isQuad r) + 1)%nat.
Proof.
  unfold claimedFaceVertices. intros H.
  apply obind_Done in H as (corners & Hc%collect_length & H).
  apply obind_Done in H as (eps & He%collect_length & H).
  apply obind_Done in H as (f & _ & [= <-]).
  rewrite length_seq in Hc, He. rewrite !length_app. simpl. lia.
Qed.

(** The loop that makes the new mesh, on any model. *)
Lemma buildNewMesh_layout (fp ep : list Vec3) (m m' : Model) (newMesh : Mesh) :
  buildNewMesh fp ep m = (Done newMesh, m') →
  ∃ out : list (list Vec3 * list Face),
    length out = length (faces m) ∧
    mesh_vertices newMesh = Build_Vertex <$> concat (out.*1) ∧
    mesh_faces newMesh = concat (out.*2) ∧
    ∀ fi r block quads,
      faces m !! fi = Some r →
      out !! fi = Some (block, quads) →
      let n := cornerCount (fr_isQuad r) in
      claimedFaceVertices m' fp ep fi r = Done block ∧
      length block = (2 * n + 1)%nat ∧
      quads = claimedFaceQuads
                (Z.of_nat (length (concat ((take fi out).*1)))) n ∧
      length quads = n ∧
      Forall (λ q, isQuad q = true) quads.
Proof.
  intros Hrun. unfold buildNewMesh in Hrun.
  apply (for_accumulate_ind (emitFace fp ep)
           (λ pre acc mm,
              extends m mm ∧
              ∃ out : list (list Vec3 * list Face),
                length out = length pre ∧
                mesh_vertices acc = Build_Vertex <$> concat (out.*1) ∧
                mesh_faces acc = concat (out.*2) ∧
                ∀ fi r block quads,
                  faces m !! fi = Some r →
                  out !! fi = Some (block, quads) →
                  claimedFaceVertices mm fp ep fi r = Done block ∧
                  quads = claimedFaceQuads
                            (Z.of_nat (length (concat ((take fi out).*1))))
                            (cornerCount (fr_isQuad r)))
           _ emptyMesh newMesh m m') in Hrun.
  - destruct Hrun as (_ & out & Hlen & HV & HF & Hout).
    rewrite length_seq in Hlen. exists out. split_and!; try done.
    intros fi r block quads Hr Hfi n.
    destruct (Hout fi r block quads Hr Hfi) as [Hblock ->].
    split_and!; [done | by eapply claimedFaceVertices_length | done | |].
    + unfold claimedFaceQuads. by rewrite length_fmap, length_seq.
    + unfold claimedFaceQuads. apply Forall_fmap, Forall_forall. done.
  - split; [apply extends_refl|]. exists []. split_and!; try done.
  - clear Hrun. intros pre acc fi suf m1 acc' m2 Hl
      (Hext & out & Hlen & HV & HF & Hout) Hbody.
    apply seq_split in Hl as [-> Hfi].
    apply emitFace_spec in Hbody as (r & block & Hr & Hext2 & Hblock & ->).
    split; [by eapply extends_trans|].
    exists (out ++ [(block,
                     claimedFaceQuads (Z.of_nat (length (mesh_vertices acc)))
                                      (cornerCount (fr_isQuad r)))]).
    rewrite !fmap_app, !concat_app, !length_app. simpl.
    rewrite !app_nil_r, fmap_app, HV, HF.
    split_and!; try done; [lia|].
    intros fj r' block' quads' Hr' Hfj.
    apply lookup_app_Some in Hfj as [Hfj | [Hge Hfj]].
    + pose proof (lookup_lt_Some _ _ _ Hfj) as Hlt.
      destruct (Hout fj r' block' quads' Hr' Hfj) as [Hb ->].
      split; [by eapply claimedFaceVertices_extends|].
      rewrite take_app_le by lia. done.
    + destruct (fj - length out)%nat as [|d] eqn:E; [|by destruct d].
      injection Hfj as <- <-.
      assert (fj = length pre) as -> by lia.
      destruct Hext as (_ & HFm & _). rewrite HFm in Hr.
      assert (r' = r) as -> by congruence.
      split; [done|].
      rewrite <- Hlen, take_app_length. by rewrite length_fmap.
Qed.

(** The faces of the model are the faces of the mesh, in order. *)
Lemma meshToModel_faces (mesh : Mesh) (model : Model) :
  meshToModel mesh = Done model →
  Forall2 (λ f r, fr_isQuad r = isQuad f) (mesh_faces mesh) (faces model).
Proof.
  intros Hrun%meshToModel_Done. unfold buildModel in Hrun.
  apply (for_each_ind (addFace mesh)
           (λ pre mm, Forall2 (λ f r, fr_isQuad r = isQuad f) pre (faces mm))
           (mesh_faces mesh) emptyModel model); [constructor | | done].
  clear Hrun. intros pre f suf m1 m2 _ Hpre Hface.
  apply addFace_Done in Hface as (vi & m3 & ei & m4 & m5 & H1 & H2 & H3 & H4).
  apply resolveCorners_spec in H1 as (_ & HF1 & _).
  apply resolveEdges_vertices in H2 as (_ & HF2 & _).
  apply noteFaceOnVertices_spec in H3 as (_ & HF3 & _). simpl in HF3.
  apply noteFaceOnEdges_frame in H4 as (_ & HF4 & _).
  rewrite HF4, HF3, HF2, HF1.
  apply Forall2_app; [done|]. constructor; [done | constructor].
Qed.

Lemma subdivisionStep_Done (mesh newMesh : Mesh) :
  subdivisionStep mesh = Done newMesh →
  ∃ (model moved final : Model) (fp ep : list Vec3),
    meshToModel mesh = Done model ∧
    computeFacePoints model = Done fp ∧
    computeEdgePoints model fp = Done ep ∧
    repositionVertices fp (snapshotPositions model) model = (Done (), moved) ∧
    buildNewMesh fp ep moved = (Done newMesh, final).
Proof.
  unfold subdivisionStep, applyCatmullClarkSubdivisionOnce. intros H.
  apply obind_Done in H as (model & Hmodel & H).
  apply obind_Done in H as (fp & Hfp & H).
  apply obind_Done in H as (ep & Hep & H).
  destruct (subdivideModel fp ep (snapshotPositions model) model)
    as [r final] eqn:Hsub.
  simpl in H. subst r. unfold subdivideModel in Hsub.
  apply mbind_Done in Hsub as ([] & moved & Hmove & Hbuild).
  exists model, moved, final, fp, ep. done.
Qed.


End NewMeshClaim.

(** ** [meshToModel]: what the incidence lists of a vertex hold *)

Section IncidenceEntries.

Context {VA : VecArith}.

Lemma edgeEntries_snoc (k : nat) (sts ens es : list Z) (a b e : Z) :
  length sts = length ens → length sts = length es →
  edgeEntries k (sts ++ [a]) (ens ++ [b]) (es ++ [e])
  = edgeEntries k sts ens es
    ++ (if decide (a = Z.of_nat k) then [e] else [])
    ++ (if decide (b = Z.of_nat k) then [e] else []).
Proof.
  revert ens es. induction sts as [|a0 sts IH]; intros [|b0 ens] [|e0 es] H1 H2;
    simplify_eq/=.
  - by rewrite app_nil_r.
  - rewrite IH by done. by rewrite <- !app_assoc.
Qed.


Lemma edgeEntries_none (k : nat) (sts ens es : list Z) :
  Forall (λ x, x < Z.of_nat k) sts → Forall (λ x, x < Z.of_nat k) ens →
  edgeEntries k sts ens es = [].
Proof.
  intros Hs. revert ens es. induction Hs as [|a sts Ha _ IH];
    intros ens es He; [done|].
  destruct He as [|b ens Hb He]; [done|]. destruct es as [|e es]; [done|].
  simpl. rewrite !decide_False by lia. simpl. by apply IH.
Qed.

Lemma picks_Forall (P : Z → Prop) (a : list Z) (l : list nat) :
  Forall P a → Forall P (picks a l).
Proof.
  intros Ha. unfold picks. induction l as [|i l IH]; simpl; [constructor|].
  destruct (a !! i) as [x|] eqn:E; [|exact IH].
  constructor; [|exact IH]. rewrite Forall_lookup in Ha. by apply (Ha i).
Qed.

Lemma occ_absent (k : nat) (l : list Z) : Z.of_nat k ∉ l → occ k l = 0%nat.
Proof.
  unfold occ. induction l as [|x l IH]; [done|].
  intros Hnot. apply not_elem_of_cons in Hnot as [Hx Hl].
  rewrite filter_cons, decide_False by done. by apply IH.
Qed.

Lemma occ_NoDup (k : nat) (l : list Z) : NoDup l → (occ k l ≤ 1)%nat.
Proof.
  induction 1 as [|x l Hx _ IH]; [unfold occ; simpl; lia|].
  unfold occ in *. rewrite filter_cons. case_decide as Hk; [|done].
  subst x. simpl. pose proof (occ_absent k l Hx) as Hnone.
  unfold occ in Hnone. lia.
Qed.

(** The second loop, by what it appends. *)
Lemma resolveEdges_entries (n : nat) (vi : list Z) (l : list nat)
    (m1 m2 : Model) (ei : list Z) :
  for_collect (resolveEdge n vi) l m1 = (Done ei, m2) →
  ∀ k v, vertices m1 !! k = Some v →
    ∃ v', vertices m2 !! k = Some v' ∧
      vr_edges v' =
        vr_edges v
        ++ edgeEntries k (picks vi l)
             (picks vi ((λ i, (i + 1) mod n)%nat <$> l)) ei.
Proof.
  intros Hrun.
  apply (for_collect_ind (resolveEdge n vi)
           (λ pre rs mm,
              length (picks vi pre) = length pre ∧
              length (picks vi ((λ i, (i + 1) mod n)%nat <$> pre)) = length pre ∧
              length rs = length pre ∧
              ∀ k v, vertices m1 !! k = Some v →
                ∃ v', vertices mm !! k = Some v' ∧
                  vr_edges v' =
                    vr_edges v
                    ++ edgeEntries k (picks vi pre)
                         (picks vi ((λ i, (i + 1) mod n)%nat <$> pre)) rs)
           l m1 m2 ei) in Hrun; [by destruct Hrun as (_ & _ & _ & H) | |].
  - split_and!; try done. intros k v Hv. exists v. by rewrite app_nil_r.
  - clear Hrun. intros pre rs i suf mm r mm' _ (Hl1 & Hl2 & Hl3 & Hvs) Hbody.
    apply resolveEdge_Done in Hbody
      as (a & b & mm1 & va & vb & Ha & Hb & Hget & Hva & Hvb & ->).
    apply getEdgeIndex_vertices in Hget as (HV1 & _).
    rewrite HV1 in *. simpl.
    apply at_index_nat in Ha. apply at_index_nat in Hb.
    rewrite fmap_app. simpl.
    rewrite (picks_snoc vi pre i a Ha), (picks_snoc vi _ _ b Hb).
    rewrite !length_app. simpl.
    split_and!; try lia.
    intros k v Hv. destruct (Hvs k v Hv) as (v' & Hv' & He').
    rewrite (update_lookup _ b vb _ k Hvb), (update_lookup _ a va _ k Hva), Hv'.
    simpl. eexists. split; [done|].
    rewrite edgeEntries_snoc by congruence.
    repeat case_decide; simpl; rewrite He', <- ?app_assoc, ?app_nil_r; done.
Qed.

(** The third loop, by what it appends. *)
Lemma noteFaceOnVertices_entries (vi : list Z) (fi : Z) (l : list nat)
    (m3 m4 : Model) :
  for_each (noteFaceOnVertex vi fi) l m3 = (Done (), m4) →
  ∀ k v, vertices m3 !! k = Some v →
    ∃ v', vertices m4 !! k = Some v' ∧
      vr_edges v' = vr_edges v ∧
      vr_faces v' = vr_faces v ++ replicate (occ k (picks vi l)) fi.
Proof.
  intros Hrun.
  apply (for_each_ind (noteFaceOnVertex vi fi)
           (λ pre mm,
              ∀ k v, vertices m3 !! k = Some v →
                ∃ v', vertices mm !! k = Some v' ∧
                  vr_edges v' = vr_edges v ∧
                  vr_faces v' = vr_faces v ++ replicate (occ k (picks vi pre)) fi)
           l m3 m4); [| |done].
  - intros k v Hv. exists v. by rewrite app_nil_r.
  - clear Hrun. intros pre i suf mm mm' _ Hvs Hbody.
    apply noteFaceOnVertex_Done in Hbody as (a & va & Ha & Hva & ->). simpl.
    rewrite (picks_snoc vi pre i a Ha).
    intros k v Hv. destruct (Hvs k v Hv) as (v' & Hv' & He' & Hf').
    rewrite (update_lookup _ a va _ k Hva), Hv'. simpl.
    eexists. split; [done|]. rewrite occ_snoc.
    case_decide; simpl.
    + rewrite Nat.add_1_r, replicate_S_end, Hf', <- app_assoc. done.
    + rewrite Nat.add_0_r. done.
Qed.

(** The first loop: every result is what the map of positions holds, at
    the end of the loop, for the position of the corner. *)
Lemma resolveCorners_map (mesh : Mesh) (f : Face) (l : list nat)
    (m m1 : Model) (vi : list Z) :
  for_collect (resolveCorner mesh f) l m = (Done vi, m1) →
  Forall2 (λ i r, ∃ p, meshCornerPosition mesh f i = Done p ∧
                       positionToVertex m1 !! p = Some r) l vi.
Proof.
  intros Hrun.
  apply (for_collect_ind (resolveCorner mesh f)
           (λ pre rs mm,
              Forall2 (λ i r, ∃ p, meshCornerPosition mesh f i = Done p ∧
                                   positionToVertex mm !! p = Some r) pre rs)
           l m m1 vi); [constructor | | done].
  clear Hrun. intros pre rs i suf mm r mm' _ Hpre Hbody.
  unfold resolveCorner in Hbody.
  apply mbind_Done in Hbody as (p & m0 & [Hp ->]%inspect_Done & Hget).
  destruct (getVertexIndex_cases p mm) as [(x & Hx & Heq) | [Hnone Heq]];
    rewrite Heq in Hget; injection Hget as <- <-.
  - apply Forall2_app; [done|]. constructor; [eauto | constructor].
  - apply Forall2_app.
    + eapply Forall2_impl; [exact Hpre|]. simpl.
      intros j y (q & Hq & Hy). exists q. split; [done|].
      rewrite lookup_insert_ne; [done|]. intros ->. congruence.
    + constructor; [|constructor]. exists p. split; [done|]. simpl.
      apply lookup_insert_eq.
Qed.

Lemma vertexEdgeEntries_snoc (k : nat) (fs : list FaceRecord) (r : FaceRecord) :
  vertexEdgeEntries k (fs ++ [r]) = vertexEdgeEntries k fs ++ faceEdgeEntries k r.
Proof.
  unfold vertexEdgeEntries. rewrite fmap_app, concat_app. simpl.
  by rewrite app_nil_r.
Qed.

Lemma vertexFaceEntries_snoc (k : nat) (fs : list FaceRecord) (r : FaceRecord) :
  vertexFaceEntries k (fs ++ [r])
  = vertexFaceEntries k fs
    ++ replicate (occ k (faceVertices r)) (to_int (Z.of_nat (length fs))).
Proof.
  unfold vertexFaceEntries. rewrite imap_app, concat_app. simpl.
  by rewrite app_nil_r, Nat.add_0_r.
Qed.

Lemma entries_none (k : nat) (fs : list FaceRecord) :
  Forall (λ r, Forall (λ x, 0 ≤ x < Z.of_nat k) (faceVertices r)) fs →
  vertexEdgeEntries k fs = [] ∧ vertexFaceEntries k fs = [].
Proof.
  induction fs as [|r fs IH] using rev_ind; [done|].
  intros [Hfs Hr%Forall_inv]%Forall_app. destruct (IH Hfs) as [IHe IHf].
  assert (Hlt : Forall (λ x, x < Z.of_nat k) (faceVertices r)).
  { eapply Forall_impl; [exact Hr|]. intros x. simpl. lia. }
  rewrite vertexEdgeEntries_snoc, vertexFaceEntries_snoc, IHe, IHf. split.
  - unfold faceEdgeEntries, nextCorners.
    rewrite edgeEntries_none; [done | done | by apply picks_Forall].
  - by rewrite occ_zero.
Qed.

End IncidenceEntries.

Section IncidenceBuilt.

Context {VA : VecArith}.

(** What one pass of the loop over the faces keeps true of the incidence
    lists. *)
Lemma addFace_incidence (mesh : Mesh) (f : Face) (m m' : Model) :
  addFace mesh f m = (Done (), m') →
  Z.of_nat (length (vertices m)) ≤ 2 ^ 31 →
  positionsNumbered m →
  Forall balanced (vertices m) →
  faceVerticesInRange m →
  incidenceListed m →
  faceVerticesInRange m' ∧
  incidenceListed m' ∧
  ∃ r, faces m' = faces m ++ [r] ∧ faceShaped r ∧
       (distinctCorners mesh f → NoDup (faceVertices r)).
Proof.
  intros Hrun Hsize Hnum Hbal Hrange Hlisted.
  pose proof (addFace_vertices _ _ _ _ Hrun Hsize Hnum Hbal) as (Hsize' & _ & _).
  apply addFace_Done in Hrun as (vi & m1 & ei & m2 & m3 & H1 & H2 & H3 & H4).
  set (n := cornerCount (isQuad f)) in *.
  pose proof (for_collect_length _ _ _ _ _ H1) as Hvi. rewrite length_seq in Hvi.
  pose proof (for_collect_length _ _ _ _ _ H2) as Hei. rewrite length_seq in Hei.
  pose proof (resolveCorners_map _ _ _ _ _ _ H1) as Hmap.
  apply resolveCorners_spec in H1
    as (_ & HF1 & _ & (news & HV1 & _ & Hiso) & _ & Hnum1).
  pose proof (resolveEdges_entries _ _ _ _ _ _ H2) as Hent.
  apply resolveEdges_vertices in H2 as (_ & HF2 & Hpos & _ & _ & Hlen2 & Hvs2).
  pose proof (noteFaceOnVertices_entries _ _ _ _ _ H3) as Hfent.
  apply noteFaceOnVertices_spec in H3 as (_ & HF3 & _ & _ & Hlen3 & _).
  simpl in *.
  apply noteFaceOnEdges_frame in H4 as (HV4 & HF4 & _).
  rewrite <- Hvi, picks_all in Hpos.
  set (r := {| fr_isQuad := isQuad f; fr_vertices := array4 vi;
               fr_edges := array4 ei |}) in *.
  assert (Hrv : faceVertices r = vi) by (by apply array4_take).
  assert (Hre : faceEdges r = ei) by (by apply array4_take).
  assert (Hfaces : faces m' = faces m ++ [r]) by congruence.
  assert (Hlen : length (vertices m') = length (vertices m1)) by congruence.
  assert (Hgrow : (length (vertices m) ≤ length (vertices m1))%nat).
  { rewrite HV1, length_app. lia. }
  split_and!.
  - unfold faceVerticesInRange. rewrite Hfaces, Hlen. apply Forall_app. split.
    + eapply Forall_impl; [exact Hrange|]. intros r' Hr'. simpl in Hr'.
      eapply Forall_impl; [exact Hr'|]. intros x. simpl. lia.
    + constructor; [|constructor]. by rewrite Hrv.
  - intros k v' Hv'. rewrite HV4 in Hv'.
    assert (Hk : (k < length (vertices m1))%nat).
    { apply lookup_lt_Some in Hv'. lia. }
    destruct (lookup_lt_is_Some_2 _ _ Hk) as [v1 Hv1].
    destruct (Hent k v1 Hv1) as (v2 & Hv2 & He2).
    destruct (Hvs2 k v1 Hv1) as (v2' & Hv2' & _ & Hf2 & _).
    assert (v2' = v2) as -> by congruence.
    destruct (Hfent k v2 Hv2) as (v3 & Hv3 & He3 & Hf3).
    assert (v3 = v') as -> by congruence.
    rewrite <- Hvi in He2 at 1. rewrite picks_all in He2.
    rewrite <- Hvi, picks_all in Hf3.
    rewrite Hfaces, vertexEdgeEntries_snoc, vertexFaceEntries_snoc.
    unfold faceEdgeEntries, nextCorners. rewrite Hrv, Hre. simpl. fold n.
    rewrite He3, He2, Hf3, Hf2, HF2, HF1.
    rewrite HV1 in Hv1. apply lookup_app_Some in Hv1 as [Hv1 | [Hnew Hv1]].
    + destruct (Hlisted k v1 Hv1) as [-> ->]. done.
    + eapply Forall_lookup_1 in Hiso as [-> ->]; [|exact Hv1].
      destruct (entries_none k (faces m)) as [-> ->]; [|done].
      eapply Forall_impl; [exact Hrange|]. intros r' Hr'. simpl in Hr'.
      eapply Forall_impl; [exact Hr'|]. intros x. simpl. lia.
  - exists r. split; [done|]. split; [unfold faceShaped; by rewrite Hrv, Hre|].
    intros Hdistinct. rewrite Hrv.
    assert (Hix : positionsIndexed m1).
    { apply numbered_indexed; [lia | by apply Hnum1]. }
    apply NoDup_alt. intros i j x Hi Hj.
    destruct (Forall2_lookup_r _ _ _ _ _ Hmap Hi) as (i' & Hi' & p & Hp & Hpx).
    destruct (Forall2_lookup_r _ _ _ _ _ Hmap Hj) as (j' & Hj' & q & Hq & Hqx).
    apply lookup_seq in Hi' as [-> Hin]. apply lookup_seq in Hj' as [-> Hjn].
    simpl in *.
    apply Hix in Hpx as (v & Hv & <-). apply Hix in Hqx as (w & Hw & <-).
    assert (w = v) as -> by congruence.
    by eapply Hdistinct.
Qed.



End IncidenceBuilt.

(** ** [meshToModel]: the edges of a face *)

Section FaceEdges.

Context {VA : VecArith}.

Lemma getEdgeIndex_numbered (pr : Z * Z) (m m' : Model) (r : Z) :
  getEdgeIndex pr m = (Done r, m') →
  pairsNumbered m → pairsNumbered m'.
Proof.
  intros Hget Hnum.
  destruct (getEdgeIndex_cases pr m) as [(i & Hi & Heq) | [Hnone Heq]];
    rewrite Heq in Hget; injection Hget as <- <-; [done|].
  set (key := sortPair pr) in *.
  intros q i. unfold endpoints. simpl. rewrite fmap_app. simpl.
  fold (endpoints m). replace (key.1, key.2) with key by (by destruct key).
  assert (Hlen : length (endpoints m) = length (edges m)) by apply length_fmap.
  destruct (decide (q = key)) as [-> | Hq].
  - rewrite lookup_insert_eq. split.
    + intros [= <-]. exists (length (edges m)). split; [done|].
      rewrite lookup_app_r by lia. by rewrite Hlen, Nat.sub_diag.
    + intros (k & -> & Hk). f_equal.
      destruct (decide (k < length (edges m))%nat) as [Hlt | Hge].
      * rewrite lookup_app_l in Hk by lia.
        assert (vertexPairToEdge m !! key = Some (to_int (Z.of_nat k)))
          by (apply Hnum; eauto).
        congruence.
      * rewrite lookup_app_r in Hk by lia.
        destruct (k - length (endpoints m))%nat as [|k'] eqn:E;
          [|by destruct k'].
        do 2 f_equal. lia.
  - rewrite lookup_insert_ne by done. rewrite (Hnum q i).
    split; intros (k & -> & Hk); exists k; (split; [done|]).
    + rewrite lookup_app_l; [done|]. by eapply lookup_lt_Some.
    + destruct (decide (k < length (edges m))%nat) as [Hlt | Hge].
      * by rewrite lookup_app_l in Hk by lia.
      * rewrite lookup_app_r in Hk by lia.
        destruct (k - length (endpoints m))%nat as [|k'];
          [simpl in Hk; congruence | by destruct k'].
Qed.

(** The second loop: every result is what the map of pairs holds, at the
    end of the loop, for the two corners of the place. *)
Lemma resolveEdges_pairs (n : nat) (vi : list Z) (l : list nat)
    (m1 m2 : Model) (ei : list Z) :
  for_collect (resolveEdge n vi) l m1 = (Done ei, m2) →
  (pairsNumbered m1 → pairsNumbered m2) ∧
  Forall2 (λ i r, ∃ a b, vi !! i = Some a ∧ vi !! ((i + 1) mod n)%nat = Some b ∧
                         vertexPairToEdge m2 !! sortPair (a, b) = Some r) l ei.
Proof.
  intros Hrun.
  apply (for_collect_ind (resolveEdge n vi)
           (λ pre rs mm,
              (pairsNumbered m1 → pairsNumbered mm) ∧
              Forall2 (λ i r, ∃ a b, vi !! i = Some a ∧
                                     vi !! ((i + 1) mod n)%nat = Some b ∧
                                     vertexPairToEdge mm !! sortPair (a, b) = Some r)
                      pre rs)
           l m1 m2 ei); [by split; [|constructor] | | done].
  clear Hrun. intros pre rs i suf mm r mm' _ [Hnum Hpre] Hbody.
  apply resolveEdge_Done in Hbody
    as (a & b & mm1 & va & vb & Ha & Hb & Hget & _ & _ & ->).
  apply at_index_nat in Ha. apply at_index_nat in Hb.
  pose proof (getEdgeIndex_numbered _ _ _ _ Hget) as Hnum'.
  destruct (getEdgeIndex_cases (a, b) mm) as [(x & Hx & Heq) | [Hnone Heq]];
    rewrite Heq in Hget; injection Hget as <- <-.
  - split; [done|]. apply Forall2_app; [done|].
    constructor; [|constructor]. exists a, b. done.
  - split; [tauto|]. simpl. apply Forall2_app.
    + eapply Forall2_impl; [exact Hpre|]. simpl.
      intros j y (c & d & Hc & Hd & Hy). exists c, d. split_and!; [done | done |].
      rewrite lookup_insert_ne; [done|]. intros Heq'. congruence.
    + constructor; [|constructor]. exists a, b. split_and!; [done | done |].
      apply lookup_insert_eq.
Qed.

Lemma bump_endpoints (fi : Z) (e : EdgeRecord) :
  low_vertex (bump fi e) = low_vertex e ∧ high_vertex (bump fi e) = high_vertex e.
Proof. unfold bump. by case_decide. Qed.

Lemma iter_bump_endpoints (fi : Z) (c : nat) (e : EdgeRecord) :
  low_vertex (Nat.iter c (bump fi) e) = low_vertex e ∧
  high_vertex (Nat.iter c (bump fi) e) = high_vertex e.
Proof.
  induction c as [|c [IHl IHh]]; [done|]. simpl.
  destruct (bump_endpoints fi (Nat.iter c (bump fi) e)) as [-> ->]. done.
Qed.

Lemma sortPair_eq (a b c d : Z) :
  sortPair (a, b) = sortPair (c, d) → (a = c ∧ b = d) ∨ (a = d ∧ b = c).
Proof.
  unfold sortPair. simpl. repeat case_decide; intros [= -> ->]; auto.
Qed.

(** In a face with distinct corners the edges are distinct, when equal
    indices of edges mean equal pairs of end points. *)
Lemma faceEdges_NoDup (n : nat) (vi ei : list Z) (f : Z * Z → option Z) :
  n = 3%nat ∨ n = 4%nat →
  length vi = n →
  NoDup vi →
  Forall2 (λ i r, ∃ a b, vi !! i = Some a ∧ vi !! ((i + 1) mod n)%nat = Some b ∧
                         f (sortPair (a, b)) = Some r) (seq 0 n) ei →
  (∀ p q r, f p = Some r → f q = Some r → p = q) →
  NoDup ei.
Proof.
  intros Hn Hlen Hnodup Hpairs Hinj.
  apply NoDup_alt. intros i j r Hi Hj.
  destruct (Forall2_lookup_r _ _ _ _ _ Hpairs Hi)
    as (i' & Hi' & a & b & Ha & Hb & Hab).
  destruct (Forall2_lookup_r _ _ _ _ _ Hpairs Hj)
    as (j' & Hj' & c & d & Hc & Hd & Hcd).
  apply lookup_seq in Hi' as [-> Hin]. apply lookup_seq in Hj' as [-> Hjn].
  simpl in *.
  pose proof (Hinj _ _ _ Hab Hcd) as Heq. apply sortPair_eq in Heq.
  rewrite NoDup_alt in Hnodup.
  destruct Hn as [-> | ->].
  - destruct i as [|[|[|i]]]; [| | | lia];
      (destruct j as [|[|[|j]]]; [| | | lia]); try done; simpl in *;
      exfalso; destruct Heq as [[-> ->] | [-> ->]];
      first [ by pose proof (Hnodup _ _ _ Ha Hc)
            | by pose proof (Hnodup _ _ _ Hb Hd)
            | by pose proof (Hnodup _ _ _ Ha Hd)
            | by pose proof (Hnodup _ _ _ Hb Hc)
            | by pose proof (Hnodup _ _ _ Ha Hb) ].
  - destruct i as [|[|[|[|i]]]]; [| | | | lia];
      (destruct j as [|[|[|[|j]]]]; [| | | | lia]); try done; simpl in *;
      exfalso; destruct Heq as [[-> ->] | [-> ->]];
      first [ by pose proof (Hnodup _ _ _ Ha Hc)
            | by pose proof (Hnodup _ _ _ Hb Hd)
            | by pose proof (Hnodup _ _ _ Ha Hd)
            | by pose proof (Hnodup _ _ _ Hb Hc)
            | by pose proof (Hnodup _ _ _ Ha Hb) ].
Qed.

End FaceEdges.

Section FaceEdgesBuilt.

Context {VA : VecArith}.

Lemma pairs_injective (m : Model) (p q : Z * Z) (r : Z) :
  pairsNumbered m →
  Z.of_nat (length (edges m)) ≤ 2 ^ 31 →
  vertexPairToEdge m !! p = Some r →
  vertexPairToEdge m !! q = Some r →
  p = q.
Proof.
  intros Hnum Hsize Hp Hq.
  apply Hnum in Hp as (k & -> & Hk). apply Hnum in Hq as (k' & Heq & Hk').
  assert (Hlen : length (endpoints m) = length (edges m)) by apply length_fmap.
  pose proof (lookup_lt_Some _ _ _ Hk). pose proof (lookup_lt_Some _ _ _ Hk').
  rewrite !to_int_small in Heq by lia.
  assert (k = k') as -> by lia. congruence.
Qed.

(** What one pass of the loop over the faces keeps true of the map of
    pairs. *)
Lemma addFace_pairs (mesh : Mesh) (f : Face) (m m' : Model) :
  addFace mesh f m = (Done (), m') →
  pairsNumbered m →
  Z.of_nat (length (edges m')) ≤ 2 ^ 31 →
  pairsNumbered m' ∧
  ∃ r, faces m' = faces m ++ [r] ∧
       (NoDup (faceVertices r) → NoDup (faceEdges r)).
Proof.
  intros Hrun Hnum Hsize'.
  apply addFace_Done in Hrun as (vi & m1 & ei & m2 & m3 & H1 & H2 & H3 & H4).
  set (n := cornerCount (isQuad f)) in *.
  assert (Hn : n = 3%nat ∨ n = 4%nat) by apply cornerCount_cases.
  pose proof (for_collect_length _ _ _ _ _ H1) as Hvi. rewrite length_seq in Hvi.
  pose proof (for_collect_length _ _ _ _ _ H2) as Hei. rewrite length_seq in Hei.
  apply resolveCorners_spec in H1 as (HE1 & HF1 & HQ1 & _).
  pose proof (resolveEdges_pairs _ _ _ _ _ _ H2) as [Hnum2 Hpairs].
  apply resolveEdges_vertices in H2 as (_ & HF2 & _).
  apply noteFaceOnVertices_spec in H3 as (_ & HF3 & HE3 & HQ3 & _).
  simpl in *.
  pose proof (noteFaceOnEdges_frame _ _ _ _ _ H4) as (_ & HF4 & _ & HQ4 & HL4).
  apply noteFaceOnEdges_spec in H4 as (_ & _ & _ & Hes).
  assert (Hnum1 : pairsNumbered m1).
  { intros pr i. unfold endpoints. rewrite HE1, HQ1. apply Hnum. }
  specialize (Hnum2 Hnum1).
  assert (Hends : endpoints m' = endpoints m2).
  { unfold endpoints. rewrite <- HE3. apply list_eq. intros k.
    rewrite !list_lookup_fmap.
    destruct (edges m3 !! k) as [e0|] eqn:E.
    - rewrite (Hes k e0 E). simpl.
      destruct (iter_bump_endpoints (to_int (Z.of_nat (length (faces m2))))
                  (occ k (picks ei (seq 0 n))) e0) as [-> ->]. done.
    - apply lookup_ge_None in E. rewrite <- HL4 in E.
      apply lookup_ge_None in E. by rewrite E. }
  assert (Hnum' : pairsNumbered m').
  { intros pr i. rewrite Hends, HQ4, HQ3. apply Hnum2. }
  split; [done|].
  eexists. split; [by rewrite HF4, HF3, HF2, HF1|].
  unfold faceVertices, faceEdges. simpl. fold n.
  rewrite !array4_take by done. intros Hnodup.
  apply (faceEdges_NoDup n vi ei (λ p, vertexPairToEdge m2 !! p)); try done.
  intros p q r Hp Hq.
  apply (pairs_injective m' p q r); [done | done | |];
    by rewrite HQ4, HQ3.
Qed.

Lemma occ_member (k : nat) (l : list Z) :
  NoDup l →
  occ k l = if decide (Z.of_nat k ∈ l) then 1%nat else 0%nat.
Proof.
  intros Hnodup. case_decide as Hin.
  - pose proof (occ_NoDup k l Hnodup). pose proof (occ_pos k l Hin). lia.
  - by apply occ_absent.
Qed.

Lemma touching_distinct (k : nat) (fs : list FaceRecord) :
  Forall (λ r, NoDup (faceEdges r)) fs →
  touching k fs = facesHaving k fs.
Proof.
  intros Hfs. unfold touching, facesHaving. f_equal.
  apply imap_ext. intros j r Hr. rewrite Forall_lookup in Hfs.
  rewrite (occ_member k (faceEdges r)) by (by eapply Hfs).
  by case_decide.
Qed.

(** In the model of a mesh whose faces have corners at distinct places, no
    face has a vertex or an edge twice. *)
Lemma meshToModel_faces_distinct (mesh : Mesh) (model : Model) :
  meshToModel mesh = Done model →
  Forall (distinctCorners mesh) (mesh_faces mesh) →
  Forall (λ r, NoDup (faceVertices r) ∧ NoDup (faceEdges r)) (faces model).
Proof.
  intros Hrun%meshToModel_Done. unfold buildModel in Hrun.
  apply (for_each_ind (addFace mesh)
           (λ pre m,
              ((Z.of_nat (length (vertices m)) ≤ 2 ^ 31 ∧
                positionsNumbered m ∧ Forall balanced (vertices m)) ∧
               (Z.of_nat (length (edges m)) ≤ 2 ^ 31 ∧
                faceEdgesInRange m ∧ edgesRecorded m) ∧
               (faceVerticesInRange m ∧ incidenceListed m) ∧
               pairsNumbered m) ∧
              (Forall (distinctCorners mesh) pre →
               Forall (λ r, NoDup (faceVertices r) ∧ NoDup (faceEdges r))
                      (faces m)))
           (mesh_faces mesh) emptyModel model) in Hrun; [tauto | |].
  - split; [|by constructor].
    split_and!; simpl; try lia; try by constructor.
    + intros p i. simpl. rewrite lookup_empty. split; [done|].
      intros (k & _ & Hk). unfold snapshotPositions in Hk. done.
    + intros p i. simpl. rewrite lookup_empty. split; [done|].
      intros (k & _ & Hk). unfold endpoints in Hk. done.
  - clear Hrun. intros pre f suf m1 m2 _
      [((HS & HN & HB) & (HES & HER & HEK) & (HR & HL) & HP) HD] Hface.
    pose proof (addFace_vertices _ _ _ _ Hface HS HN HB) as (HS' & HN' & HB').
    pose proof (addFace_edges _ _ _ _ Hface HES HER HEK) as (HES' & HER' & HEK').
    destruct (addFace_incidence _ _ _ _ Hface HS HN HB HR HL)
      as (HR' & HL' & r & Hfs & _ & Hnodup).
    destruct (addFace_pairs _ _ _ _ Hface HP HES') as (HP' & r' & Hfs' & Hedges).
    assert (r' = r) as ->.
    { rewrite Hfs in Hfs'. by apply app_inj_tail in Hfs' as [_ ->]. }
    split; [done|].
    intros [Hpre Hf%Forall_inv]%Forall_app. rewrite Hfs.
    apply Forall_app. split; [by apply HD|].
    constructor; [|constructor]. split; [by apply Hnodup|].
    by apply Hedges, Hnodup.
Qed.

End FaceEdgesBuilt.

Section EdgeClaim.

Context {VA : VecArith}.

(** C8. In the model that [meshToModel] returns, [face_count] of every
    edge is 1 or 2.  With [inc] the faces that list the edge in their edge
    array, in scan order (a face counts once for each entry that names the
    edge), [face_count] is the length of [inc] capped at 2 and [faces]
    holds the first two entries of [inc], padded with -1; so when more than
    two faces share the edge, [faces] is exactly the first two and the
    others are left out.  Every face of [inc], kept or left out, is a face
    of the model that has the edge in its edge array, and [inc] misses no
    such face.  When the corners of every face of the mesh are at distinct
    positions no face names an edge twice, and [inc] is the list of the
    faces that have the edge, each once. *)
Theorem edge_keeps_first_two_faces (mesh : Mesh) (model : Model) (k : nat)
    (e : EdgeRecord) :
  meshToModel mesh = Done model →
  edges model !! k = Some e →
  let inc := touching k (faces model) in
  (face_count e = 1 ∨ face_count e = 2) ∧
  face_count e = Z.of_nat (length inc `min` 2) ∧
  er_faces e = take 2 inc ++ replicate (2 - length inc) (-1) ∧
  ((2 < length inc)%nat → er_faces e = take 2 inc) ∧
  (∀ x, x ∈ inc ↔
        ∃ j r, faces model !! j = Some r ∧ x = to_int (Z.of_nat j) ∧
               Z.of_nat k ∈ faceEdges r) ∧
  (Forall (distinctCorners mesh) (mesh_faces mesh) →
   inc = facesHaving k (faces model)).
Proof.
  intros Hmodel He inc.
  pose proof (meshToModel_invariants _ _ Hmodel) as [_ (_ & _ & Hrec)].
  destruct (Hrec k e He) as (Hne & Hc & Hf). fold inc in Hne, Hc, Hf.
  unfold cappedCount in Hc. unfold cappedFaces in Hf.
  split_and!; [|done|done| | |].
  - destruct inc as [|a [|b rest]]; [done | left | right];
      rewrite Hc; simpl; lia.
  - intros Hlong. rewrite Hf.
    replace (2 - length inc)%nat with 0%nat by lia. simpl. apply app_nil_r.
  - intros x. apply touching_elem.
  - intros Hdistinct. apply touching_distinct.
    eapply Forall_impl; [by apply (meshToModel_faces_distinct mesh)|].
    simpl. tauto.
Qed.

End EdgeClaim.

(* ================================================================== *)
(** * The statements on the sample meshes, in binary32 arithmetic *)

Module Examples.
Import Binary32 Samples.

(** A closed statement that is decidable, by evaluation. *)
Ltac by_computation := apply (bool_decide_unpack _); vm_compute; exact I.

(** [1/3 + 1/3 + ...]: the arithmetic rounds. *)
Example third_rounds : mul (div (of_int 1) (of_int 3)) (of_int 3) = of_int 1.
Proof. by_computation. Qed.

Example cube_twice :
  (λ mesh, (length (mesh_vertices mesh), length (mesh_faces mesh)))
    <$> (match applyCatmullClarkSubdivision false cube 2 with
         | Done mesh => Some mesh
         | Fail _ => None
         end)
  = Some (216%nat, 96%nat).
Proof. by_computation. Qed.

(** C4 on the cube. *)
Lemma zero_iterations_copy_witness :
  applyCatmullClarkSubdivision false cube 0 = Done cube.
Proof. exact (proj1 (zero_iterations_copy false ∅ 1%positive cube)). Defined.

(** C10 on the sliver: vertex 0 moved to where it is, and to where vertex
    1 is. *)
Lemma moveVertex_erases_first_witness :
  let v0 := {| vr_position := vec 0 0 0; vr_edges := [0; 2]; vr_faces := [0] |} in
  at_index (vertices sliverModel) 0 = Done v0 ∧
  (moveVertex 0 (vr_position v0) sliverModel).1 = Done () ∧
  (moveVertex 0 (vec 5 0 0) sliverModel).1 = Fail RuntimeError ∧
  positionToVertex (moveVertex 0 (vec 5 0 0) sliverModel).2 !! vr_position v0
    = None ∧
  positionToVertex sliverModel !! vr_position v0 = Some 0.
Proof.
  intros v0.
  assert (H0 : at_index (vertices sliverModel) 0 = Done v0)
    by by_computation.
  assert (Hraise : (moveVertex 0 (vec 5 0 0) sliverModel).1 = Fail RuntimeError)
    by by_computation.
  destruct (moveVertex_erases_first sliverModel 0 v0 (vec 5 0 0) H0)
    as [Hself Hthrow].
  destruct (Hthrow Hraise) as [_ Hgone].
  split_and!; [exact H0 | exact Hself | exact Hraise | exact Hgone |].
  by_computation.
Defined.


(** C1 on the two triangles: vertex 0 lies on the diagonal. *)
Lemma vertex_reposition_rule_witness :
  let v := {| vr_position := vec 0 0 0; vr_edges := [0; 2; 2; 4];
              vr_faces := [0; 1] |} in
  meshToModel twoTriangles = Done twoTrianglesModel ∧
  computeFacePoints twoTrianglesModel = Done twoTrianglesFacePoints ∧
  repositionVertices twoTrianglesFacePoints
    (snapshotPositions twoTrianglesModel) twoTrianglesModel
    = (Done (), twoTrianglesMoved) ∧
  vertices twoTrianglesModel !! 0%nat = Some v ∧
  ∃ v', vertices twoTrianglesMoved !! 0%nat = Some v' ∧
        vr_edges v' = [0; 2; 2; 4] ∧ vr_faces v' = [0; 1].
Proof.
  intros v.
  assert (H1 : meshToModel twoTriangles = Done twoTrianglesModel)
    by by_computation.
  assert (H2 : computeFacePoints twoTrianglesModel = Done twoTrianglesFacePoints)
    by by_computation.
  assert (H3 : repositionVertices twoTrianglesFacePoints
                 (snapshotPositions twoTrianglesModel) twoTrianglesModel
               = (Done (), twoTrianglesMoved)) by by_computation.
  assert (H4 : vertices twoTrianglesModel !! 0%nat = Some v)
    by by_computation.
  destruct (vertex_reposition_rule twoTriangles twoTrianglesModel
              twoTrianglesMoved twoTrianglesFacePoints 0 v H1 H2 H3 H4)
    as (facePts & mids & v' & _ & _ & Hv' & He & Hf & _).
  split_and!; [exact H1 | exact H2 | exact H3 | exact H4 |].
  exists v'. split_and!; [exact Hv' | exact He | exact Hf].
Defined.

(** C1 as worded fails on the two triangles: the diagonal is twice in the
    edge list of vertex 0, and counts twice in the mean. *)
Lemma edge_counted_once_fails :
  positionAfterMoves twoTriangles 0
    = Done (div (of_int 5) (of_int 2), div (of_int 5) (of_int 2), of_int 0) ∧
  claimedPositionAfterMoves twoTriangles 0
    = Done (S754_finite false 9786710 (-22), S754_finite false 9786710 (-22),
            of_int 0) ∧
  positionAfterMoves twoTriangles 0 ≠ claimedPositionAfterMoves twoTriangles 0.
Proof.
  split_and!; by_computation.
Qed.


Example new_mesh_of_two_triangles :
  length (mesh_vertices twoTrianglesNewMesh) = 14%nat ∧
  mesh_faces twoTrianglesNewMesh
    = [mkQuad 5 0 3 6; mkQuad 3 1 4 6; mkQuad 4 2 5 6;
       mkQuad 12 7 10 13; mkQuad 10 8 11 13; mkQuad 11 9 12 13].
Proof. split; by_computation. Qed.

(** C5 on the sliver: the move of vertex 0, the first of the loop, lands
    on vertex 1. *)
Lemma collision_raises_witness :
  meshToModel sliver = Done sliverModel ∧
  computeFacePoints sliverModel = Done sliverFacePoints ∧
  computeEdgePoints sliverModel sliverFacePoints = Done sliverEdgePoints ∧
  seq 0 (length (vertices sliverModel)) = [] ++ 0%nat :: [1%nat; 2%nat] ∧
  for_each (repositionVertex sliverFacePoints (snapshotPositions sliverModel))
     [] sliverModel = (Done (), sliverModel) ∧
  newPositionOf sliverFacePoints (snapshotPositions sliverModel) 0 sliverModel
    = Done (vec 5 0 0) ∧
  (moveVertex (to_int (Z.of_nat 0)) (vec 5 0 0) sliverModel).1
    = Fail RuntimeError ∧
  (∃ j w, j ≠ 0%nat ∧ vertices sliverModel !! j = Some w ∧
          vr_position w = vec 5 0 0) ∧
  subdivisionStep sliver = Fail RuntimeError ∧
  applyCatmullClarkSubdivision false sliver (Z.of_nat (0 + 1)) = Fail RuntimeError.
Proof.
  assert (H1 : meshToModel sliver = Done sliverModel) by by_computation.
  assert (H2 : computeFacePoints sliverModel = Done sliverFacePoints)
    by by_computation.
  assert (H3 : computeEdgePoints sliverModel sliverFacePoints
               = Done sliverEdgePoints) by by_computation.
  assert (H4 : seq 0 (length (vertices sliverModel))
               = [] ++ 0%nat :: [1%nat; 2%nat]) by by_computation.
  assert (H5 : for_each
                 (repositionVertex sliverFacePoints (snapshotPositions sliverModel))
                 [] sliverModel = (Done (), sliverModel)) by reflexivity.
  assert (H6 : newPositionOf sliverFacePoints (snapshotPositions sliverModel)
                 0 sliverModel = Done (vec 5 0 0)) by by_computation.
  assert (H7 : (moveVertex (to_int (Z.of_nat 0)) (vec 5 0 0) sliverModel).1
               = Fail RuntimeError) by by_computation.
  destruct (collision_raises sliver sliverModel sliverModel sliverFacePoints
              sliverEdgePoints [] [1%nat; 2%nat] 0 (vec 5 0 0)
              H1 H2 H3 H4 H5 H6) as (_ & Hiff & Hprop).
  destruct (Hprop H7) as (_ & Hstep & Hdriver).
  split_and!; [exact H1 | exact H2 | exact H3 | exact H4 | exact H5 | exact H6
              | exact H7 | exact (proj1 Hiff H7) | exact Hstep |].
  exact (Hdriver false sliver 0%nat 0%nat eq_refl).
Defined.

(** C6 on a negative count and on the triangle with a corner that names
    no vertex. *)
Lemma preconditions_unchecked_witness :
  applyCatmullClarkSubdivision false oneQuad (-1) = Fail AssertionFailed ∧
  applyCatmullClarkSubdivision true oneQuad (-1) = Done oneQuad ∧
  meshToModel dangling = Fail OutOfBounds.
Proof.
  destruct (preconditions_unchecked oneQuad (-1) (quad 0 1 2 3) 0 0)
    as [Hcount _].
  destruct (preconditions_unchecked dangling 0 (tri 0 1 2) 2 2)
    as [_ Hindex].
  destruct Hcount as (Habort & Hcopy & _); [lia|].
  split_and!; [exact Habort | exact Hcopy |].
  apply Hindex.
  - apply list_elem_of_here.
  - simpl. lia.
  - reflexivity.
  - simpl. lia.
Defined.

(** C6 as worded fails: without assertions the count -1 gives a mesh. *)
Lemma negative_count_accepted :
  applyCatmullClarkSubdivision true oneQuad (-1) = Done oneQuad ∧
  ¬ ∃ e, applyCatmullClarkSubdivision true oneQuad (-1) = Fail e.
Proof.
  assert (H : applyCatmullClarkSubdivision true oneQuad (-1) = Done oneQuad)
    by reflexivity.
  split; [exact H|]. intros [e He]. rewrite H in He. discriminate He.
Qed.

Lemma sameCorners_unshared : sameCorners twoTrianglesUnshared twoTriangles.
Proof.
  unfold sameCorners. simpl.
  constructor; [|constructor; [|constructor]];
    (split; [reflexivity|]); intros i Hi; simpl in Hi;
    (destruct i as [|[|[|i]]];
     [by_computation | by_computation | by_computation | lia]).
Qed.

(** C7 on the two triangles with unshared corners. *)
Lemma merged_mesh_same_model_witness :
  sameCorners twoTrianglesUnshared twoTriangles ∧
  meshToModel twoTriangles = meshToModel twoTrianglesUnshared ∧
  meshToModel (mergeCoincident twoTrianglesUnshared)
    = meshToModel twoTrianglesUnshared.
Proof.
  destruct (merged_mesh_same_model twoTrianglesUnshared twoTriangles
              sameCorners_unshared) as (Hsame & _ & _ & Hmerged).
  split_and!; [exact sameCorners_unshared | exact Hsame | exact Hmerged].
Defined.

Example merged_two_triangles :
  mergeCoincident twoTrianglesUnshared
  = {| mesh_vertices := [V 4 0 0; V 0 0 0; V 4 4 0; V 0 4 0];
       mesh_faces := [{| isQuad := false; indices := [1; 0; 2; 1] |};
                      {| isQuad := false; indices := [1; 2; 3; 1] |}] |}.
Proof. by_computation. Qed.

(** C8 on the fan: edge 0 is in the three faces and keeps faces 0 and 1. *)
Lemma edge_keeps_first_two_faces_witness :
  let e := {| low_vertex := 0; high_vertex := 1; face_count := 2;
              er_faces := [0; 1] |} in
  meshToModel fan = Done fanModel ∧
  edges fanModel !! 0%nat = Some e ∧
  touching 0 (faces fanModel) = [0; 1; 2] ∧
  er_faces e = take 2 (touching 0 (faces fanModel)).
Proof.
  intros e.
  assert (H1 : meshToModel fan = Done fanModel) by by_computation.
  assert (H2 : edges fanModel !! 0%nat = Some e) by by_computation.
  assert (H3 : touching 0 (faces fanModel) = [0; 1; 2]) by by_computation.
  destruct (edge_keeps_first_two_faces fan fanModel 0 e H1 H2)
    as (_ & _ & _ & Hlong & _).
  split_and!; [exact H1 | exact H2 | exact H3 |].
  apply Hlong. rewrite H3. simpl. lia.
Defined.



End Examples.

Section ModelMembers.

Context {VA : VecArith}.

Lemma positionsIndexed_grows (p : Vec3) (m : Model) :
  positionsIndexed m →
  Z.of_nat (length (vertices m)) < 2 ^ 31 →
  positionToVertex m !! p = None →
  positionsIndexed
    (set_positionToVertex
       (<[p := to_int (Z.of_nat (length (vertices m)))]> (positionToVertex m))
       (set_vertices
          (vertices m ++ [{| vr_position := p; vr_edges := []; vr_faces := [] |}])
          m)).
Proof.
  intros Hidx Hlen Hnone q j. simpl.
  rewrite to_int_small by lia.
  destruct (decide (q = p)) as [->|Hq].
  - rewrite lookup_insert_eq. split.
    + intros [= <-].
      exists {| vr_position := p; vr_edges := []; vr_faces := [] |}.
      split; [|reflexivity].
      apply at_index_nat. apply list_lookup_middle. done.
    + intros (v & Hv & Hp). f_equal.
      apply at_index_Done in Hv as [Hj Hv].
      destruct (decide (Z.to_nat j < length (vertices m))%nat) as [Hlt|Hge].
      * rewrite lookup_app_l in Hv by done.
        assert (positionToVertex m !! p = Some j) as Hc.
        { apply Hidx. exists v. split; [|done]. apply at_index_Done. done. }
        congruence.
      * apply lookup_lt_Some in Hv. rewrite length_app in Hv. simpl in Hv. lia.
  - rewrite lookup_insert_ne by done. rewrite (Hidx q j). split.
    + intros (v & Hv & Hp). exists v. split; [|done].
      apply at_index_Done in Hv as [Hj Hv]. apply at_index_Done. split; [done|].
      apply lookup_app_l_Some. done.
    + intros (v & Hv & Hp). exists v. split; [|done].
      apply at_index_Done in Hv as [Hj Hv]. apply at_index_Done. split; [done|].
      apply lookup_app_Some in Hv as [Hv|[Hge Hv]]; [done|].
      apply list_lookup_singleton_Some in Hv as [_ <-]. simpl in Hp. congruence.
Qed.

(** X1. [getVertexIndex] on a model whose map of positions is the graph of
    the vertex positions: the call returns, the index it returns names a
    vertex at the position asked for, the map is still the graph of the
    positions, a vertex that was there is found and nothing is changed,
    and a second call with the same position returns the same index and
    changes nothing. *)
Theorem getVertexIndex_finds_or_adds (p : Vec3) (m : Model) :
  positionsIndexed m →
  Z.of_nat (length (vertices m)) < 2 ^ 31 →
  ∃ i m',
    getVertexIndex p m = (Done i, m') ∧
    (∃ v, at_index (vertices m') i = Done v ∧ vr_position v = p) ∧
    positionsIndexed m' ∧
    getVertexIndex p m' = (Done i, m') ∧
    ((∃ j w, at_index (vertices m) j = Done w ∧ vr_position w = p) → m' = m) ∧
    ((∀ j w, at_index (vertices m) j = Done w → vr_position w ≠ p) →
       i = Z.of_nat (length (vertices m)) ∧
       vertices m' =
         vertices m ++ [{| vr_position := p; vr_edges := []; vr_faces := [] |}] ∧
       edges m' = edges m ∧ faces m' = faces m ∧
       vertexPairToEdge m' = vertexPairToEdge m).
Proof.
  intros Hidx Hlen.
  destruct (getVertexIndex_cases p m) as [(i & Hi & Hrun)|[Hnone Hrun]].
  - exists i, m. split_and!; try done.
    + apply Hidx. done.
    + intros Hno. exfalso. apply Hidx in Hi as (v & Hv & Hp).
      exact (Hno i v Hv Hp).
  - eexists _, _. split; [exact Hrun|].
    pose proof (positionsIndexed_grows p m Hidx Hlen Hnone) as Hidx'.
    split_and!.
    + apply Hidx'. simpl. apply lookup_insert_eq.
    + exact Hidx'.
    + unfold getVertexIndex at 1. simpl. rewrite lookup_insert_eq. done.
    + intros (j & w & Hw & Hp). exfalso.
      assert (positionToVertex m !! p = Some j) as Hc by (apply Hidx; eauto).
      congruence.
    + intros _. simpl. rewrite to_int_small by lia. done.
Qed.

Lemma sortPair_swap (a b : Z) : sortPair (a, b) = sortPair (b, a).
Proof.
  unfold sortPair. simpl. repeat case_decide; try done; try lia.
  f_equal; lia.
Qed.

Lemma sortPair_min_max (a b : Z) : sortPair (a, b) = (Z.min a b, Z.max a b).
Proof. unfold sortPair. simpl. case_decide; f_equal; lia. Qed.

(** X2. [getEdgeIndex] does not see the order of the two vertices: both
    orders give the same result and the same model.  The call returns;
    the edge is registered under the pair (smaller index, larger index);
    an edge that was not registered is appended with these end points, no
    face and the face entries -1; a second call, in either order, returns
    the same index and changes nothing. *)
Theorem getEdgeIndex_unordered (a b : Z) (m : Model) :
  getEdgeIndex (a, b) m = getEdgeIndex (b, a) m ∧
  ∃ i m',
    getEdgeIndex (a, b) m = (Done i, m') ∧
    vertexPairToEdge m' !! (Z.min a b, Z.max a b) = Some i ∧
    getEdgeIndex (a, b) m' = (Done i, m') ∧
    getEdgeIndex (b, a) m' = (Done i, m') ∧
    vertices m' = vertices m ∧ faces m' = faces m ∧
    positionToVertex m' = positionToVertex m ∧
    (is_Some (vertexPairToEdge m !! (Z.min a b, Z.max a b)) → m' = m) ∧
    (vertexPairToEdge m !! (Z.min a b, Z.max a b) = None →
       i = to_int (Z.of_nat (length (edges m))) ∧
       edges m' =
         edges m ++ [{| low_vertex := Z.min a b; high_vertex := Z.max a b;
                        face_count := 0; er_faces := [-1; -1] |}]).
Proof.
  assert (Hswap : getEdgeIndex (a, b) m = getEdgeIndex (b, a) m).
  { unfold getEdgeIndex. rewrite (sortPair_swap a b). done. }
  split; [exact Hswap|].
  assert (Hswap' : ∀ m0, getEdgeIndex (b, a) m0 = getEdgeIndex (a, b) m0).
  { intros m0. unfold getEdgeIndex. rewrite (sortPair_swap a b). done. }
  destruct (getEdgeIndex_cases (a, b) m) as [(i & Hi & Hrun)|[Hnone Hrun]];
    rewrite sortPair_min_max in *.
  - exists i, m. rewrite Hswap'. split_and!; try done.
    intros Hno. congruence.
  - eexists _, _. split; [exact Hrun|]. rewrite Hswap'.
    assert (Hagain : ∀ m0 i0,
              vertexPairToEdge m0 !! (Z.min a b, Z.max a b) = Some i0 →
              getEdgeIndex (a, b) m0 = (Done i0, m0)).
    { intros m0 i0 H0. unfold getEdgeIndex. rewrite sortPair_min_max, H0. done. }
    split_and!; try done.
    + simpl. apply lookup_insert_eq.
    + apply Hagain. simpl. apply lookup_insert_eq.
    + apply Hagain. simpl. apply lookup_insert_eq.
    + intros [x Hx]. congruence.
Qed.


(** X4. A move that returns is undone by the move back: on a model whose
    map of positions is the graph of the vertex positions, moving the
    vertex to its former position returns and gives the model from before
    the first move. *)
Theorem moveVertex_there_and_back (m m' : Model) (i : Z) (v : VertexRecord)
    (p : Vec3) :
  positionsIndexed m →
  at_index (vertices m) i = Done v →
  moveVertex i p m = (Done (), m') →
  moveVertex i (vr_position v) m' = (Done (), m).
Proof.
  intros Hidx Hv Hrun.
  assert (Hold : positionToVertex m !! vr_position v = Some i).
  { apply Hidx. eauto. }
  destruct (moveVertex_cases i p m) as [(e & _ & Hf)|(v0 & Hv0 & Hcase)];
    [congruence|].
  assert (v0 = v) as -> by congruence.
  destruct Hcase as [[_ Hthrow]|[Hfree Hdone]]; [congruence|].
  rewrite Hdone in Hrun. injection Hrun as <-.
  pose proof Hv as Hv'. apply at_index_Done in Hv' as [Hi Hlook].
  unfold moveVertex. simpl.
  assert (Hat : at_index (<[Z.to_nat i := set_position p v]> (vertices m)) i
                = Done (set_position p v)).
  { apply at_index_Done. split; [done|].
    rewrite list_lookup_insert_eq; [done|]. by eapply lookup_lt_Some. }
  rewrite Hat. simpl.
  rewrite delete_insert_eq.
  rewrite (delete_id _ p) by done.
  rewrite lookup_delete_eq.
  rewrite insert_delete_eq.
  rewrite insert_id by done.
  rewrite list_insert_insert_eq.
  assert (set_position (vr_position v) (set_position p v) = v) as ->
    by (destruct v; reflexivity).
  rewrite list_insert_id by done.
  destruct m; reflexivity.
Qed.

End ModelMembers.

Section DriverLaws.

Context {VA : VecArith}.

Lemma iterateOutcome_bind {A} (step : A → outcome A) (a b : nat) (x : A) :
  iterateOutcome (a + b) step x
  = y ← iterateOutcome a step x; iterateOutcome b step y.
Proof.
  revert x. induction a as [|a IH]; intros x; simpl; [done|].
  destruct (step x) as [x'|e]; simpl; [apply IH | done].
Qed.

Lemma iterateOutcome_S {A} (step : A → outcome A) (n : nat) (x : A) :
  iterateOutcome (S n) step x = x' ← step x; iterateOutcome n step x'.
Proof. reflexivity. Qed.

Lemma subdivisionStep_empty (mesh : Mesh) :
  mesh_faces mesh = [] → subdivisionStep mesh = Done emptyMesh.
Proof.
  intros Hf. unfold subdivisionStep, meshToModel, buildModel. rewrite Hf.
  reflexivity.
Qed.

Lemma iterate_empty (n : nat) :
  iterateOutcome n subdivisionStep emptyMesh = Done emptyMesh.
Proof.
  induction n as [|n IH]; [done|].
  rewrite iterateOutcome_S, subdivisionStep_empty by done. exact IH.
Qed.

(** X5. A mesh without faces: its model is the empty model, whatever its
    vertex list holds, and one pass or more returns the empty mesh, so the
    vertices are dropped. *)
Theorem no_faces_empty_mesh (ndebug : bool) (mesh : Mesh) (n : Z) :
  mesh_faces mesh = [] →
  1 ≤ n →
  meshToModel mesh = Done emptyModel ∧
  applyCatmullClarkSubdivisionOnce emptyModel = Done emptyMesh ∧
  applyCatmullClarkSubdivision ndebug mesh n = Done emptyMesh.
Proof.
  intros Hf Hn. split_and!.
  - unfold meshToModel, buildModel. rewrite Hf. reflexivity.
  - reflexivity.
  - unfold applyCatmullClarkSubdivision.
    rewrite bool_decide_eq_false_2 by lia. rewrite andb_false_r.
    replace (Z.to_nat n) with (S (Z.to_nat (n - 1))) by lia.
    rewrite iterateOutcome_S, subdivisionStep_empty by done.
    apply iterate_empty.
Qed.

(** X6. Passes compose: with counts that are not negative, [a + b] passes
    are [a] passes followed by [b] passes on their result, and end with
    the failure of the first part if that fails. *)
Theorem subdivision_composes (ndebug : bool) (mesh : Mesh) (a b : Z) :
  0 ≤ a → 0 ≤ b →
  applyCatmullClarkSubdivision ndebug mesh (a + b)
  = mid ← applyCatmullClarkSubdivision ndebug mesh a;
    applyCatmullClarkSubdivision ndebug mid b.
Proof.
  intros Ha Hb. unfold applyCatmullClarkSubdivision.
  rewrite !bool_decide_eq_false_2 by lia. rewrite !andb_false_r.
  rewrite Z2Nat.inj_add by lia. apply iterateOutcome_bind.
Qed.

(** X7. The passes read a mesh through the positions at the corners of its
    faces only: two meshes with the same corners (so a mesh and the mesh
    with coincident vertices merged, or with vertices that no face uses
    added) have the same result for every count of at least one. *)
Theorem subdivision_reads_corners (ndebug : bool) (mesh mesh' : Mesh) (n : Z) :
  sameCorners mesh mesh' →
  1 ≤ n →
  subdivisionStep mesh' = subdivisionStep mesh ∧
  applyCatmullClarkSubdivision ndebug mesh' n
  = applyCatmullClarkSubdivision ndebug mesh n ∧
  applyCatmullClarkSubdivision ndebug (mergeCoincident mesh) n
  = applyCatmullClarkSubdivision ndebug mesh n.
Proof.
  intros Hsame Hn.
  assert (Hstep : ∀ other, sameCorners mesh other →
            subdivisionStep other = subdivisionStep mesh).
  { intros other Ho. unfold subdivisionStep.
    rewrite (meshToModel_corners mesh other Ho). done. }
  assert (Hrun : ∀ other, sameCorners mesh other →
            applyCatmullClarkSubdivision ndebug other n
            = applyCatmullClarkSubdivision ndebug mesh n).
  { intros other Ho. unfold applyCatmullClarkSubdivision.
    replace (Z.to_nat n) with (S (Z.to_nat (n - 1))) by lia.
    rewrite !iterateOutcome_S, (Hstep other Ho). done. }
  split_and!; [apply Hstep | apply Hrun | apply Hrun]; try done.
  apply mergeCoincident_sameCorners.
Qed.

End DriverLaws.

Section BuildRuns.

Context {VA : VecArith}.

Lemma for_collect_succeeds {A B} (body : A → ModelM B) (J : Model → Prop)
    (l : list A) (m : Model) :
  J m →
  (∀ a m1, a ∈ l → J m1 → ∃ b m2, body a m1 = (Done b, m2) ∧ J m2) →
  ∃ bs m', for_collect body l m = (Done bs, m') ∧ J m'.
Proof.
  revert m. induction l as [|a l IH]; intros m HJ Hbody.
  - exists [], m. done.
  - destruct (Hbody a m) as (b & m2 & Hb & HJ2); [left | done |].
    destruct (IH m2 HJ2) as (bs & m' & Hrun & HJ').
    { intros a' m1 Ha'. apply Hbody. by right. }
    exists (b :: bs), m'. split; [|done].
    simpl. unfold mthen. rewrite Hb, Hrun. done.
Qed.

Lemma for_each_succeeds {A} (body : A → ModelM unit) (J : Model → Prop)
    (l : list A) (m : Model) :
  J m →
  (∀ a m1, a ∈ l → J m1 → ∃ m2, body a m1 = (Done (), m2) ∧ J m2) →
  ∃ m', for_each body l m = (Done (), m') ∧ J m'.
Proof.
  revert m. induction l as [|a l IH]; intros m HJ Hbody.
  - exists m. done.
  - destruct (Hbody a m) as (m2 & Hb & HJ2); [left | done |].
    destruct (IH m2 HJ2) as (m' & Hrun & HJ').
    { intros a' m1 Ha'. apply Hbody. by right. }
    exists m'. split; [|done].
    simpl. unfold mthen. rewrite Hb. done.
Qed.

Lemma collect_succeeds {A B} (body : A → outcome B) (l : list A) :
  (∀ a, a ∈ l → ∃ b, body a = Done b) → ∃ bs, collect body l = Done bs.
Proof.
  induction l as [|a l IH]; intros Hbody; [by exists []|].
  destruct (Hbody a) as [b Hb]; [left|].
  destruct IH as [bs Hbs]; [intros a' Ha'; apply Hbody; by right|].
  exists (b :: bs). simpl. rewrite Hb. simpl. rewrite Hbs. done.
Qed.

Lemma at_index_in_range {A} (l : list A) (i : Z) :
  0 ≤ i < Z.of_nat (length l) → ∃ a, at_index l i = Done a.
Proof.
  intros Hi. destruct (lookup_lt_is_Some_2 l (Z.to_nat i)) as [a Ha]; [lia|].
  exists a. apply at_index_Done. split; [lia | done].
Qed.

Lemma at_index_range {A} (l : list A) (i : Z) (a : A) :
  at_index l i = Done a → 0 ≤ i < Z.of_nat (length l).
Proof.
  intros H. apply at_index_Done in H as [Hi H].
  apply lookup_lt_Some in H. lia.
Qed.

(** A corner of an indexed face can be read. *)
Lemma faceIndexed_reads (mesh : Mesh) (f : Face) (i : nat) :
  faceIndexed mesh f → (i < cornerCount (isQuad f))%nat →
  ∃ p, meshCornerPosition mesh f i = Done p.
Proof.
  intros [Hlen Hall] Hi.
  destruct (lookup_lt_is_Some_2 (indices f) i) as [idx Hidx]; [lia|].
  assert (Hin : 0 ≤ idx < Z.of_nat (length (mesh_vertices mesh))).
  { rewrite Forall_lookup in Hall. apply (Hall i).
    rewrite lookup_take_lt by done. done. }
  destruct (at_index_in_range (mesh_vertices mesh) idx Hin) as [v Hv].
  exists (position v). unfold meshCornerPosition.
  apply obind_Done. exists idx. split; [by apply at_index_nat|].
  apply obind_Done. exists v. done.
Qed.

Lemma reads_faceIndexed (mesh : Mesh) (f : Face) :
  (∀ i, (i < cornerCount (isQuad f))%nat →
        ∃ p, meshCornerPosition mesh f i = Done p) →
  faceIndexed mesh f.
Proof.
  intros Hread.
  assert (Hidx : ∀ i, (i < cornerCount (isQuad f))%nat →
            ∃ idx, indices f !! i = Some idx ∧
                   0 ≤ idx < Z.of_nat (length (mesh_vertices mesh))).
  { intros i Hi. destruct (Hread i Hi) as [p Hp].
    unfold meshCornerPosition in Hp.
    apply obind_Done in Hp as (idx & Hidx & Hp).
    apply obind_Done in Hp as (v & Hv & _).
    exists idx. split; [by apply at_index_nat|]. by eapply at_index_range. }
  split.
  - destruct (cornerCount_cases (isQuad f)) as [E|E]; rewrite E in *.
    + destruct (Hidx 2%nat) as (idx & H & _); [lia|].
      apply lookup_lt_Some in H. lia.
    + destruct (Hidx 3%nat) as (idx & H & _); [lia|].
      apply lookup_lt_Some in H. lia.
  - apply Forall_lookup. intros i idx Hi.
    apply lookup_take_Some in Hi as [Hi Hlt].
    destruct (Hidx i Hlt) as (idx' & H' & Hr). congruence.
Qed.

(** An index that the map of a numbered model gives is in range. *)
Lemma numbered_in_range (m : Model) (p : Vec3) (r : Z) :
  positionsNumbered m →
  Z.of_nat (length (vertices m)) ≤ 2 ^ 31 →
  positionToVertex m !! p = Some r →
  0 ≤ r < Z.of_nat (length (vertices m)) ∧
  snapshotPositions m !! Z.to_nat r = Some p.
Proof.
  intros Hnum Hlen Hr. apply Hnum in Hr as (k & -> & Hk).
  pose proof (lookup_lt_Some _ _ _ Hk) as Hlt.
  unfold snapshotPositions in Hlt. rewrite length_fmap in Hlt.
  rewrite to_int_small by lia. rewrite Nat2Z.id. split; [lia | done].
Qed.

Lemma pairs_in_range (m : Model) (pr : Z * Z) (r : Z) :
  pairsNumbered m →
  Z.of_nat (length (edges m)) ≤ 2 ^ 31 →
  vertexPairToEdge m !! pr = Some r →
  0 ≤ r < Z.of_nat (length (edges m)) ∧
  endpoints m !! Z.to_nat r = Some pr.
Proof.
  intros Hnum Hlen Hr. apply Hnum in Hr as (k & -> & Hk).
  pose proof (lookup_lt_Some _ _ _ Hk) as Hlt.
  unfold endpoints in Hlt. rewrite length_fmap in Hlt.
  rewrite to_int_small by lia. rewrite Nat2Z.id. split; [lia | done].
Qed.

Lemma seq_elem (n i : nat) : i ∈ seq 0 n → (i < n)%nat.
Proof. intros H. apply elem_of_seq in H. lia. Qed.

(** The face body runs to its end on a model that is numbered and has
    room for four more vertices and edges, when the corners of the face
    can be read. *)
Lemma addFace_succeeds (mesh : Mesh) (f : Face) (m : Model) :
  faceIndexed mesh f →
  positionsNumbered m →
  pairsNumbered m →
  Z.of_nat (length (vertices m)) + 4 ≤ 2 ^ 31 →
  Z.of_nat (length (edges m)) + 4 ≤ 2 ^ 31 →
  Forall (λ e, 0 ≤ face_count e) (edges m) →
  ∃ m', addFace mesh f m = (Done (), m').
Proof.
  intros Hf Hnum Hpairs HV HE Hcount.
  set (n := cornerCount (isQuad f)).
  assert (Hn : (n ≤ 4)%nat).
  { subst n. destruct (isQuad f); simpl; lia. }
  (* the corners *)
  destruct (for_collect_succeeds (resolveCorner mesh f) (λ _, True)
              (seq 0 n) m I) as (vi & m1 & H1 & _).
  { intros i m0 Hi _. apply seq_elem in Hi.
    destruct (faceIndexed_reads mesh f i Hf Hi) as [p Hp].
    unfold meshCornerPosition in Hp.
    apply obind_Done in Hp as (idx & Hidx & Hp).
    apply obind_Done in Hp as (v & Hv & _).
    destruct (getVertexIndex_cases (position v) m0)
      as [(r & _ & Hget)|[_ Hget]];
      eexists _, _; (split; [|done]); apply resolveCorner_Done; eauto. }
  destruct (resolveCorners_spec _ _ _ _ _ _ H1)
    as (HE1 & HF1 & HP1 & (news & HV1 & Hlen1 & _) & _ & Hnum1).
  specialize (Hnum1 Hnum).
  pose proof (resolveCorners_map _ _ _ _ _ _ H1) as Hmap.
  pose proof (for_collect_length _ _ _ _ _ H1) as Hlvi.
  rewrite length_seq in Hlvi, Hlen1.
  assert (HL1 : Z.of_nat (length (vertices m1)) ≤ 2 ^ 31).
  { rewrite HV1, length_app. lia. }
  assert (Hvi : ∀ i a, vi !! i = Some a →
            0 ≤ a < Z.of_nat (length (vertices m1))).
  { intros i a Ha.
    destruct (Forall2_lookup_r _ _ _ _ _ Hmap Ha) as (i0 & _ & p & _ & Hp).
    by destruct (numbered_in_range m1 p a Hnum1 HL1 Hp). }
  (* the edges *)
  destruct (for_collect_succeeds (resolveEdge n vi)
              (λ mm, length (vertices mm) = length (vertices m1))
              (seq 0 n) m1 eq_refl) as (ei & m2 & H2 & HL2).
  { intros i m0 Hi HJ. apply seq_elem in Hi.
    destruct (lookup_lt_is_Some_2 vi i) as [a Ha]; [lia|].
    destruct (lookup_lt_is_Some_2 vi ((i + 1) mod n)) as [b Hb].
    { rewrite Hlvi. apply Nat.mod_upper_bound. lia. }
    pose proof (Hvi _ _ Ha) as Hra. pose proof (Hvi _ _ Hb) as Hrb.
    assert (∃ r mm, getEdgeIndex (a, b) m0 = (Done r, mm)) as (r & mm & Hget).
    { destruct (getEdgeIndex_cases (a, b) m0) as [(r & _ & Hg)|[_ Hg]]; eauto. }
    destruct (getEdgeIndex_vertices _ _ _ _ Hget) as (Hvmm & _ & _).
    destruct (at_index_in_range (vertices mm) a) as [va Hva];
      [rewrite Hvmm, HJ; lia|].
    destruct (at_index_in_range (<[Z.to_nat a := push_edge r va]> (vertices mm)) b)
      as [vb Hvb]; [rewrite length_insert, Hvmm, HJ; lia|].
    eexists r, _. split.
    - apply resolveEdge_Done. exists a, b, mm, va, vb.
      split_and!; try done; by apply at_index_nat.
    - simpl. rewrite !length_insert. congruence. }
  destruct (resolveEdges_vertices _ _ _ _ _ _ H2) as (HP2 & HF2 & _).
  destruct (resolveEdges_edges _ _ _ _ _ _ H2)
    as (news2 & HE2 & Hlen2 & Hfresh & _).
  destruct (resolveEdges_pairs _ _ _ _ _ _ H2) as (Hpairs2 & Hemap).
  rewrite length_seq in Hlen2.
  pose proof (for_collect_length _ _ _ _ _ H2) as Hlei.
  rewrite length_seq in Hlei.
  assert (Hpairs1 : pairsNumbered m1).
  { intros pr i. unfold endpoints. rewrite HP1, HE1. apply Hpairs. }
  specialize (Hpairs2 Hpairs1).
  assert (HLE2 : Z.of_nat (length (edges m2)) ≤ 2 ^ 31).
  { rewrite HE2, HE1, length_app. lia. }
  assert (Hei : ∀ i x, ei !! i = Some x →
            0 ≤ x < Z.of_nat (length (edges m2))).
  { intros i x Hx.
    destruct (Forall2_lookup_r _ _ _ _ _ Hemap Hx)
      as (i0 & _ & a & b & _ & _ & Hp).
    by destruct (pairs_in_range m2 _ x Hpairs2 HLE2 Hp). }
  assert (Hcount2 : Forall (λ e, 0 ≤ face_count e) (edges m2)).
  { rewrite HE2, HE1. apply Forall_app. split; [done|].
    eapply Forall_impl; [exact Hfresh|]. intros e [He _]. lia. }
  (* the face record *)
  set (r := {| fr_isQuad := isQuad f; fr_vertices := array4 vi;
               fr_edges := array4 ei |}).
  set (fi := to_int (Z.of_nat (length (faces m2)))).
  (* the face on its vertices *)
  destruct (for_each_succeeds (noteFaceOnVertex vi fi)
              (λ mm, length (vertices mm) = length (vertices m1) ∧
                     edges mm = edges m2)
              (seq 0 n) (set_faces (faces m2 ++ [r]) m2))
    as (m3 & H3 & HL3 & HE3).
  { simpl. done. }
  { intros i m0 Hi [HJ HJE]. apply seq_elem in Hi.
    destruct (lookup_lt_is_Some_2 vi i) as [a Ha]; [lia|].
    pose proof (Hvi _ _ Ha) as Hra.
    destruct (at_index_in_range (vertices m0) a) as [va Hva]; [lia|].
    eexists. split.
    - apply noteFaceOnVertex_Done. exists a, va. done.
    - simpl. rewrite length_insert. done. }
  (* the face on its edges *)
  destruct (for_each_succeeds (noteFaceOnEdge ei fi)
              (λ mm, length (edges mm) = length (edges m2) ∧
                     Forall (λ e, 0 ≤ face_count e) (edges mm))
              (seq 0 n) m3)
    as (m' & H4 & _).
  { rewrite HE3. done. }
  { intros i m0 Hi [HJ HJc]. apply seq_elem in Hi.
    destruct (lookup_lt_is_Some_2 ei i) as [x Hx]; [lia|].
    pose proof (Hei _ _ Hx) as Hrx.
    destruct (at_index_in_range (edges m0) x) as [e He]; [lia|].
    assert (Hce : 0 ≤ face_count e).
    { apply at_index_Done in He as [_ He].
      rewrite Forall_lookup in HJc. exact (HJc _ _ He). }
    destruct (decide (2 ≤ face_count e)) as [Hfull|Hroom].
    - exists m0. split; [|done].
      unfold noteFaceOnEdge. apply mbind_Done. exists x, m0.
      split; [apply inspect_Done; split; [by apply at_index_nat | done]|].
      apply recordFaceOnEdge_Done. exists e. split; [done|]. left. done.
    - eexists. split.
      + unfold noteFaceOnEdge. apply mbind_Done. exists x, m0.
        split; [apply inspect_Done; split; [by apply at_index_nat | done]|].
        apply recordFaceOnEdge_Done. exists e. split; [done|]. right.
        split; [lia | reflexivity].
      + simpl. rewrite length_insert. split; [done|].
        apply Forall_insert; [done|]. simpl. lia. }
  exists m'. unfold addFace. fold n.
  apply mbind_Done. exists vi, m1. split; [done|].
  apply mbind_Done. exists ei, m2. split; [done|].
  apply mbind_Done. eexists fi, _. split; [reflexivity|].
  apply mbind_Done. exists (), m3. split; done.
Qed.

End BuildRuns.

Section BuildKeeps.

Context {VA : VecArith}.

Lemma collect_snoc {A B} (body : A → outcome B) (l : list A) (a : A)
    (bs : list B) (b : B) :
  collect body l = Done bs → body a = Done b →
  collect body (l ++ [a]) = Done (bs ++ [b]).
Proof.
  revert bs. induction l as [|x l IH]; intros bs Hl Ha; simpl in *.
  - injection Hl as <-. rewrite Ha. done.
  - apply obind_Done in Hl as (y & Hy & Hl).
    apply obind_Done in Hl as (ys & Hys & [= <-]).
    rewrite Hy. simpl. rewrite (IH ys Hys Ha). done.
Qed.

Lemma numbered_member (m : Model) (p : Vec3) :
  positionsNumbered m →
  p ∈ snapshotPositions m ↔ is_Some (positionToVertex m !! p).
Proof.
  intros Hnum. rewrite list_elem_of_lookup. split.
  - intros [k Hk]. exists (to_int (Z.of_nat k)). apply Hnum. eauto.
  - intros [i Hi]. apply Hnum in Hi as (k & _ & Hk). eauto.
Qed.

(** The first loop of the face body lists the positions it has not met. *)
Lemma resolveCorners_firsts (mesh : Mesh) (f : Face) (l : list nat)
    (m m1 : Model) (vi : list Z) :
  for_collect (resolveCorner mesh f) l m = (Done vi, m1) →
  positionsNumbered m →
  ∃ cs, collect (meshCornerPosition mesh f) l = Done cs ∧
        snapshotPositions m1 = foldl noteFirst (snapshotPositions m) cs ∧
        positionToVertex m ⊆ positionToVertex m1.
Proof.
  intros Hrun Hnum.
  apply (for_collect_ind (resolveCorner mesh f)
           (λ pre rs mm,
              positionsNumbered mm ∧
              ∃ cs, collect (meshCornerPosition mesh f) pre = Done cs ∧
                    snapshotPositions mm = foldl noteFirst (snapshotPositions m) cs ∧
                    positionToVertex m ⊆ positionToVertex mm)
           l m m1 vi) in Hrun; [by destruct Hrun | |].
  - split; [done|]. exists []. done.
  - clear. intros pre rs a suf mm b mm' _ (Hnum & cs & Hcs & Hsnap & Hsub) Hbody.
    pose proof Hbody as Hb.
    apply resolveCorner_Done in Hb as (idx & v & Hidx & Hv & Hget).
    split; [by eapply getVertexIndex_numbered|].
    assert (Hp : meshCornerPosition mesh f a = Done (position v)).
    { unfold meshCornerPosition. rewrite Hidx. simpl. rewrite Hv. done. }
    exists (cs ++ [position v]). split; [by apply collect_snoc|].
    rewrite foldl_snoc, <- Hsnap. unfold noteFirst at 1.
    destruct (getVertexIndex_cases (position v) mm)
      as [(i & Hi & Heq) | [Hnone Heq]];
      rewrite Heq in Hget; injection Hget as <- <-.
    + rewrite decide_True; [done|]. apply numbered_member; eauto.
    + rewrite decide_False.
      2:{ rewrite numbered_member by done. rewrite Hnone. by intros [? ?]. }
      split.
      * unfold snapshotPositions. simpl. rewrite fmap_app. done.
      * simpl. etrans; [exact Hsub|]. by apply insert_subseteq.
Qed.

Lemma getEdgeIndex_more (pr : Z * Z) (m m' : Model) (r : Z) :
  getEdgeIndex pr m = (Done r, m') →
  vertexPairToEdge m ⊆ vertexPairToEdge m' ∧
  (edges m' = edges m ∨
   edges m' = edges m ++ [{| low_vertex := (sortPair pr).1;
                             high_vertex := (sortPair pr).2;
                             face_count := 0; er_faces := [-1; -1] |}]).
Proof.
  intros Hget.
  destruct (getEdgeIndex_cases pr m) as [(i & Hi & Heq) | [Hnone Heq]];
    rewrite Heq in Hget; injection Hget as <- <-; simpl.
  - split; [done | by left].
  - split; [by apply insert_subseteq | by right].
Qed.

Lemma sortPair_bounds (a b : Z) (n : Z) :
  0 ≤ a < n → 0 ≤ b < n →
  0 ≤ (sortPair (a, b)).1 ∧ (sortPair (a, b)).1 ≤ (sortPair (a, b)).2 ∧
  (sortPair (a, b)).2 < n.
Proof. intros Ha Hb. rewrite sortPair_min_max. simpl. lia. Qed.

Lemma resolveEdges_more (n : nat) (vi : list Z) (l : list nat)
    (m1 m2 : Model) (ei : list Z) :
  for_collect (resolveEdge n vi) l m1 = (Done ei, m2) →
  vertexPairToEdge m1 ⊆ vertexPairToEdge m2 ∧
  (edgeEndsInRange m1 → edgeEndsInRange m2).
Proof.
  intros Hrun.
  apply (for_collect_ind (resolveEdge n vi)
           (λ pre rs mm,
              vertexPairToEdge m1 ⊆ vertexPairToEdge mm ∧
              length (vertices mm) = length (vertices m1) ∧
              (edgeEndsInRange m1 → edgeEndsInRange mm))
           l m1 m2 ei) in Hrun; [tauto | done |].
  clear. intros pre rs i suf mm r mm' _ (Hsub & Hlen & Hends) Hbody.
  apply resolveEdge_Done in Hbody
    as (a & b & mg & va & vb & Ha & Hb & Hget & Hva & Hvb & ->).
  destruct (getEdgeIndex_vertices _ _ _ _ Hget) as (Hvg & _ & _).
  destruct (getEdgeIndex_more _ _ _ _ Hget) as [Hsubg Hedges].
  apply at_index_range in Hva, Hvb. rewrite length_insert in Hvb.
  simpl. rewrite !length_insert, Hvg. split_and!.
  - etrans; [exact Hsub | exact Hsubg].
  - done.
  - intros H1. specialize (Hends H1). unfold edgeEndsInRange in *. simpl.
    rewrite !length_insert.
    destruct Hedges as [-> | ->]; [done|].
    apply Forall_app. split; [done|]. constructor; [|constructor]. simpl.
    rewrite Hvg in Hva, Hvb. by apply sortPair_bounds.
Qed.

Lemma faceSide_built (q : bool) (vi ei : list Z) (i : nat) :
  length vi = cornerCount q →
  faceSide {| fr_isQuad := q; fr_vertices := array4 vi; fr_edges := array4 ei |} i
  = a ← vi !! i; b ← vi !! ((i + 1) mod cornerCount q)%nat; Some (sortPair (a, b)).
Proof.
  intros Hlen. unfold faceSide, faceVertices. simpl.
  rewrite array4_take by done. done.
Qed.

(** What the face body does to the model besides the incidence lists. *)
Lemma addFace_more (mesh : Mesh) (f : Face) (m m' : Model) :
  addFace mesh f m = (Done (), m') →
  positionsNumbered m →
  Z.of_nat (length (vertices m)) ≤ 2 ^ 31 →
  Forall balanced (vertices m) →
  let n := cornerCount (isQuad f) in
  (∃ cs, faceCorners mesh f = Done cs ∧
         snapshotPositions m' = foldl noteFirst (snapshotPositions m) cs) ∧
  positionToVertex m ⊆ positionToVertex m' ∧
  vertexPairToEdge m ⊆ vertexPairToEdge m' ∧
  (length (vertices m) ≤ length (vertices m') ≤ length (vertices m) + n)%nat ∧
  (length (edges m) ≤ length (edges m') ≤ length (edges m) + n)%nat ∧
  (edgeEndsInRange m → edgeEndsInRange m') ∧
  ∃ r, faces m' = faces m ++ [r] ∧ fr_isQuad r = isQuad f ∧
       (∀ i, (i < n)%nat →
             ∃ p x, meshCornerPosition mesh f i = Done p ∧
                    faceVertices r !! i = Some x ∧
                    positionToVertex m' !! p = Some x) ∧
       (∀ i, (i < n)%nat →
             ∃ pr e, faceSide r i = Some pr ∧
                     vertexPairToEdge m' !! pr = Some e ∧
                     faceEdges r !! i = Some e) ∧
       (∀ k : nat, (length (vertices m) ≤ k < length (vertices m'))%nat →
                   Z.of_nat k ∈ faceVertices r).
Proof.
  intros Hrun Hnum HL Hbal n.
  destruct (addFace_vertices _ _ _ _ Hrun HL Hnum Hbal) as (HL' & _ & _).
  apply addFace_Done in Hrun as (vi & m1 & ei & m2 & m3 & H1 & H2 & H3 & H4).
  fold n in H1, H2, H3, H4.
  destruct (resolveCorners_spec _ _ _ _ _ _ H1)
    as (HE1 & HF1 & HP1 & (news & HV1 & Hlen1 & _) & Hnew & _).
  destruct (resolveCorners_firsts _ _ _ _ _ _ H1 Hnum) as (cs & Hcs & Hsnap1 & Hsub1).
  pose proof (resolveCorners_map _ _ _ _ _ _ H1) as Hmap.
  pose proof (for_collect_length _ _ _ _ _ H1) as Hlvi.
  rewrite length_seq in Hlvi, Hlen1.
  destruct (resolveEdges_vertices _ _ _ _ _ _ H2)
    as (HP2 & HF2 & _ & _ & _ & HL2 & Hpos2).
  destruct (resolveEdges_edges _ _ _ _ _ _ H2) as (news2 & HE2 & Hlen2 & _ & _).
  destruct (resolveEdges_pairs _ _ _ _ _ _ H2) as (_ & Hemap).
  destruct (resolveEdges_more _ _ _ _ _ _ H2) as (Hsub2 & Hends2).
  pose proof (for_collect_length _ _ _ _ _ H2) as Hlei.
  rewrite length_seq in Hlei, Hlen2.
  destruct (noteFaceOnVertices_spec _ _ _ _ _ H3)
    as (HP3 & HF3 & HE3 & HM3 & HL3 & Hpos3).
  destruct (noteFaceOnEdges_frame _ _ _ _ _ H4) as (HV4 & HF4 & HP4 & HM4 & HL4).
  destruct (noteFaceOnEdges_spec _ _ _ _ _ H4) as (_ & _ & _ & Hbump).
  simpl in HP3, HF3, HE3, HM3, HL3, Hpos3.
  assert (Hsnap : snapshotPositions m' = snapshotPositions m1).
  { unfold snapshotPositions at 1. rewrite HV4. fold (snapshotPositions m3).
    transitivity (snapshotPositions m2).
    - apply snapshot_same; [done|]. intros k v Hk.
      destruct (Hpos3 k v Hk) as (v' & Hv' & Hp & _). eauto.
    - apply snapshot_same; [done|]. intros k v Hk.
      destruct (Hpos2 k v Hk) as (v' & Hv' & Hp & _). eauto. }
  assert (HLV : length (vertices m') = length (vertices m1)).
  { rewrite HV4, HL3, HL2. done. }
  split_and!.
  - exists cs. split; [exact Hcs|]. rewrite Hsnap. done.
  - rewrite HP4, HP3, HP2. done.
  - rewrite HM4, HM3, <- HP1. done.
  - rewrite HLV, HV1, length_app. lia.
  - rewrite HLV, HV1, length_app. lia.
  - rewrite HL4, HE3, HE2, HE1, length_app. lia.
  - rewrite HL4, HE3, HE2, HE1, length_app. lia.
  - intros Hends.
    assert (Hends1 : edgeEndsInRange m1).
    { unfold edgeEndsInRange in *. rewrite HE1, HV1, length_app.
      eapply Forall_impl; [exact Hends|]. simpl. intros e. lia. }
    specialize (Hends2 Hends1).
    unfold edgeEndsInRange in *. rewrite HLV, <- HL2.
    apply Forall_lookup. intros k e Hk.
    assert (∃ e0, edges m2 !! k = Some e0 ∧
                  low_vertex e = low_vertex e0 ∧ high_vertex e = high_vertex e0)
      as (e0 & He0 & Hlo & Hhi).
    { destruct (lookup_lt_is_Some_2 (edges m3) k) as [e0 He0].
      { rewrite <- HL4. by eapply lookup_lt_Some. }
      rewrite (Hbump k e0 He0) in Hk. injection Hk as <-.
      exists e0. rewrite <- HE3. split; [done|]. apply iter_bump_endpoints. }
    rewrite Hlo, Hhi. rewrite Forall_lookup in Hends2. exact (Hends2 k e0 He0).
  - eexists. split; [rewrite HF4, HF3, HF2, HF1; reflexivity|].
    split; [done|]. split_and!.
    + intros i Hi. unfold faceVertices. simpl. rewrite array4_take by done.
      destruct (lookup_lt_is_Some_2 vi i) as [x Hx]; [lia|].
      assert (seq 0 n !! i = Some i) as Hseq by (apply lookup_seq; lia).
      destruct (Forall2_lookup_lr _ _ _ _ _ _ Hmap Hseq Hx) as (p & Hp & Hpx).
      exists p, x. split_and!; try done.
      rewrite HP4, HP3, HP2. done.
    + intros i Hi. rewrite faceSide_built by done. fold n.
      unfold faceEdges. simpl. rewrite array4_take by done.
      destruct (lookup_lt_is_Some_2 ei i) as [e He]; [lia|].
      assert (seq 0 n !! i = Some i) as Hseq by (apply lookup_seq; lia).
      destruct (Forall2_lookup_lr _ _ _ _ _ _ Hemap Hseq He)
        as (a & b & Ha & Hb & Hab).
      exists (sortPair (a, b)), e. rewrite Ha. simpl. rewrite Hb. simpl.
      split_and!; try done. rewrite HM4, HM3. done.
    + intros k Hk. unfold faceVertices. simpl. rewrite array4_take by done.
      rewrite HLV in Hk.
      rewrite <- (to_int_small (Z.of_nat k)) by lia.
      apply Hnew. done.
Qed.

End BuildKeeps.

Section Built.

Context {VA : VecArith}.

Lemma cornerTotal_snoc (pre : list Face) (f : Face) :
  cornerTotal (pre ++ [f]) = (cornerTotal pre + cornerCount (isQuad f))%nat.
Proof.
  unfold cornerTotal. induction pre as [|g pre IH]; [simpl; lia|].
  rewrite <- app_comm_cons, !fmap_cons. simpl. rewrite IH. lia.
Qed.

Lemma cornerTotal_bound (fs : list Face) :
  (3 * length fs ≤ cornerTotal fs ≤ 4 * length fs)%nat.
Proof.
  unfold cornerTotal. induction fs as [|f fs IH]; [simpl; lia|].
  rewrite fmap_cons. simpl.
  destruct (cornerCount_cases (isQuad f)); lia.
Qed.

Lemma wellBuilt_empty (mesh : Mesh) : wellBuilt mesh [] emptyModel.
Proof.
  unfold wellBuilt. split_and!; simpl; try lia; try by constructor.
  - intros p i. simpl. rewrite lookup_empty. split; [done|].
    intros (k & _ & Hk). unfold snapshotPositions in Hk. done.
  - intros p i. simpl. rewrite lookup_empty. split; [done|].
    intros (k & _ & Hk). unfold endpoints in Hk. done.
  - intros j r i Hj. done.
  - intros k Hk. simpl in Hk. lia.
  - exists []. done.
Qed.

Lemma addFace_wellBuilt (mesh : Mesh) (pre : list Face) (f : Face)
    (m m' : Model) :
  wellBuilt mesh pre m →
  addFace mesh f m = (Done (), m') →
  wellBuilt mesh (pre ++ [f]) m'.
Proof.
  intros ((HS & HN & HB) & (HES & HER & HEK) & (HR & HL & HSh) & HP
          & Hends & Hsides & Hused & Hplaced & (css & Hcss & Hsnap) & HLV & HLE)
         Hface.
  pose proof (addFace_vertices _ _ _ _ Hface HS HN HB) as (HS' & HN' & HB').
  pose proof (addFace_edges _ _ _ _ Hface HES HER HEK) as (HES' & HER' & HEK').
  destruct (addFace_incidence _ _ _ _ Hface HS HN HB HR HL)
    as (HR' & HL' & r & Hfs & Hshape & _).
  destruct (addFace_pairs _ _ _ _ Hface HP HES') as (HP' & _).
  destruct (addFace_more _ _ _ _ Hface HN HS HB)
    as ((cs & Hcs & Hsnap') & HsubP & HsubE & HgV & HgE & Hends' & r' & Hfs'
        & Hq & Hplace & Hside & Hnewv).
  assert (r' = r) as ->.
  { rewrite Hfs in Hfs'. by apply app_inj_tail in Hfs' as [_ ->]. }
  unfold wellBuilt. split_and!; try done.
  - rewrite Hfs. apply Forall_app.
    split; [done | constructor; [done | constructor]].
  - by apply Hends'.
  - intros j r0 i Hj Hi. rewrite Hfs in Hj.
    apply lookup_app_Some in Hj as [Hj|[Hge Hj]].
    + destruct (Hsides j r0 i Hj Hi) as (pr & e & Hpr & He & Hfe).
      exists pr, e. split_and!; try done.
      eapply lookup_weaken; [exact He | exact HsubE].
    + apply list_lookup_singleton_Some in Hj as [_ <-].
      apply Hside. rewrite <- Hq. done.
  - intros k Hk.
    destruct (decide (k < length (vertices m))%nat) as [Hold|Hnew].
    + destruct (Hused k Hold) as (r0 & Hr0 & Hin). exists r0.
      split; [|done]. rewrite Hfs. apply elem_of_app. by left.
    + exists r. split; [rewrite Hfs; apply elem_of_app; right; by left|].
      apply Hnewv. lia.
  - unfold facesPlaced in *. rewrite Hfs. apply Forall2_app.
    + eapply Forall2_impl; [exact Hplaced|]. simpl.
      intros f0 r0 [Hq0 Hc]. split; [done|]. intros i Hi.
      destruct (Hc i Hi) as (p & x & Hp & Hx & Hpx). exists p, x.
      split_and!; try done. eapply lookup_weaken; [exact Hpx | exact HsubP].
    + constructor; [|constructor]. split; [done|]. apply Hplace.
  - exists (css ++ [cs]). split; [by apply collect_snoc|].
    rewrite Hsnap', Hsnap, concat_app. simpl. rewrite app_nil_r.
    unfold firsts. rewrite foldl_app. done.
  - rewrite cornerTotal_snoc. lia.
  - rewrite cornerTotal_snoc. lia.
Qed.

(** The model that [meshToModel] returns satisfies the invariant for all
    faces of the mesh. *)
Lemma meshToModel_wellBuilt (mesh : Mesh) (model : Model) :
  meshToModel mesh = Done model → wellBuilt mesh (mesh_faces mesh) model.
Proof.
  intros Hrun%meshToModel_Done. unfold buildModel in Hrun.
  apply (for_each_ind (addFace mesh) (wellBuilt mesh)
           (mesh_faces mesh) emptyModel model); [| |done].
  - apply wellBuilt_empty.
  - intros pre f suf m1 m2 _ Hw Hface. by eapply addFace_wellBuilt.
Qed.

Lemma wellBuilt_counts (mesh : Mesh) (pre : list Face) (m : Model) :
  wellBuilt mesh pre m → Forall (λ e, 0 ≤ face_count e) (edges m).
Proof.
  intros (_ & (_ & _ & HEK) & _). apply Forall_lookup. intros k e Hk.
  destruct (HEK k e Hk) as (_ & -> & _). unfold cappedCount. lia.
Qed.

Lemma build_succeeds (mesh : Mesh) (fs pre : list Face) (m : Model) :
  wellBuilt mesh pre m →
  Forall (faceIndexed mesh) fs →
  4 * Z.of_nat (length pre + length fs) ≤ 2 ^ 31 →
  ∃ m', for_each (addFace mesh) fs m = (Done (), m') ∧
        wellBuilt mesh (pre ++ fs) m'.
Proof.
  revert pre m. induction fs as [|f fs IH]; intros pre m Hw Hfs Hsize.
  - exists m. rewrite app_nil_r. done.
  - apply Forall_cons in Hfs as [Hf Hfs].
    pose proof Hw as ((_ & HN & _) & _ & _ & HP & _ & _ & _ & _ & _ & HLV & HLE).
    pose proof (cornerTotal_bound pre) as Hb. simpl in Hsize.
    destruct (addFace_succeeds mesh f m Hf HN HP) as [m1 H1]; [lia | lia | |].
    { by eapply wellBuilt_counts. }
    pose proof (addFace_wellBuilt _ _ _ _ _ Hw H1) as Hw1.
    destruct (IH (pre ++ [f]) m1 Hw1 Hfs) as (m' & Hrun & Hw').
    { rewrite length_app. simpl. lia. }
    exists m'. rewrite <- app_assoc in Hw'. split; [|done].
    simpl. unfold mthen. rewrite H1. done.
Qed.

Lemma meshToModel_succeeds (mesh : Mesh) :
  wellIndexed mesh →
  4 * Z.of_nat (length (mesh_faces mesh)) ≤ 2 ^ 31 →
  ∃ model, meshToModel mesh = Done model.
Proof.
  intros Hidx Hsize.
  destruct (build_succeeds mesh (mesh_faces mesh) [] emptyModel)
    as (model & Hrun & _); [apply wellBuilt_empty | done | simpl; lia |].
  exists model. apply meshToModel_Done. done.
Qed.

Lemma meshToModel_wellIndexed (mesh : Mesh) (model : Model) :
  meshToModel mesh = Done model → wellIndexed mesh.
Proof.
  intros Hrun. apply Forall_forall. intros f Hf.
  apply reads_faceIndexed. intros i Hi.
  destruct (meshToModel_reads_in_range mesh model f i Hrun Hf Hi)
    as (idx & Hidx & Hr).
  destruct (at_index_in_range (mesh_vertices mesh) idx Hr) as [v Hv].
  exists (position v). unfold meshCornerPosition.
  apply obind_Done. exists idx. split; [by apply at_index_nat|].
  apply obind_Done. exists v. done.
Qed.

End Built.

Section PassRuns.

Context {VA : VecArith}.

Lemma accumulate_succeeds {A S} (body : S → A → outcome S) (acc : S)
    (l : list A) :
  (∀ s a, a ∈ l → ∃ s', body s a = Done s') →
  ∃ r, accumulate body acc l = Done r.
Proof.
  revert acc. induction l as [|a l IH]; intros acc Hbody; [by exists acc|].
  destruct (Hbody acc a) as [s' Hs']; [left|].
  destruct (IH s') as [r Hr]; [intros s b Hb; apply Hbody; by right|].
  exists r. simpl. rewrite Hs'. done.
Qed.

Lemma occ_le (k : nat) (l : list Z) : (occ k l ≤ length l)%nat.
Proof. unfold occ. apply length_filter. Qed.

Lemma faceVertices_short (r : FaceRecord) : (length (faceVertices r) ≤ 4)%nat.
Proof.
  unfold faceVertices. rewrite length_take.
  destruct (cornerCount_cases (fr_isQuad r)); lia.
Qed.

Lemma vertexFaceEntries_elem (k : nat) (fs : list FaceRecord) (x : Z) :
  x ∈ vertexFaceEntries k fs →
  ∃ j r, fs !! j = Some r ∧ x = to_int (Z.of_nat j).
Proof.
  induction fs as [|r fs IH] using rev_ind; [by intros ?%elem_of_nil|].
  rewrite vertexFaceEntries_snoc, elem_of_app. intros [Hx|Hx].
  - destruct (IH Hx) as (j & r' & Hj & ->). exists j, r'.
    split; [|done]. by apply lookup_app_l_Some.
  - apply elem_of_replicate in Hx as [-> _]. exists (length fs), r.
    split; [|done]. rewrite lookup_app_r by lia. by rewrite Nat.sub_diag.
Qed.

Lemma vertexFaceEntries_length (k : nat) (fs : list FaceRecord) :
  (length (vertexFaceEntries k fs) ≤ 4 * length fs)%nat.
Proof.
  induction fs as [|r fs IH] using rev_ind; [simpl; lia|].
  rewrite vertexFaceEntries_snoc, !length_app, length_replicate. simpl.
  pose proof (occ_le k (faceVertices r)). pose proof (faceVertices_short r). lia.
Qed.

Lemma vertexFaceEntries_used (k : nat) (fs : list FaceRecord) (r : FaceRecord) :
  r ∈ fs → Z.of_nat k ∈ faceVertices r →
  (1 ≤ length (vertexFaceEntries k fs))%nat.
Proof.
  induction fs as [|r' fs IH] using rev_ind; [by intros ?%elem_of_nil|].
  rewrite vertexFaceEntries_snoc, length_app, length_replicate.
  intros [Hr|Hr]%elem_of_app Hin.
  - specialize (IH Hr Hin). lia.
  - apply list_elem_of_singleton in Hr as ->. apply occ_pos in Hin. lia.
Qed.

Lemma edgeEntries_elem (k : nat) (sts ens es : list Z) (x : Z) :
  x ∈ edgeEntries k sts ens es → x ∈ es.
Proof.
  revert ens es. induction sts as [|a sts IH]; intros ens es; [by intros ?%elem_of_nil|].
  destruct ens as [|b ens]; [by intros ?%elem_of_nil|].
  destruct es as [|e es]; [by intros ?%elem_of_nil|].
  simpl. rewrite !elem_of_app. intros [Hx|[Hx|Hx]].
  - case_decide; [|by apply elem_of_nil in Hx].
    apply list_elem_of_singleton in Hx as ->. left.
  - case_decide; [|by apply elem_of_nil in Hx].
    apply list_elem_of_singleton in Hx as ->. left.
  - right. by eapply IH.
Qed.

Lemma vertexEdgeEntries_elem (k : nat) (fs : list FaceRecord) (x : Z) :
  x ∈ vertexEdgeEntries k fs → ∃ r, r ∈ fs ∧ x ∈ faceEdges r.
Proof.
  induction fs as [|r fs IH] using rev_ind; [by intros ?%elem_of_nil|].
  rewrite vertexEdgeEntries_snoc, elem_of_app. intros [Hx|Hx].
  - destruct (IH Hx) as (r' & Hr' & Hin). exists r'.
    split; [|done]. apply elem_of_app. by left.
  - exists r. split; [apply elem_of_app; right; by left|].
    unfold faceEdgeEntries in Hx. by eapply edgeEntries_elem.
Qed.

Lemma face_corner_reads (mesh : Mesh) (pre : list Face) (m : Model)
    (r : FaceRecord) (j : nat) :
  wellBuilt mesh pre m → r ∈ faces m → (j < cornerCount (fr_isQuad r))%nat →
  ∃ vj, fr_vertices r !! j = Some vj ∧ faceVertices r !! j = Some vj ∧
        0 ≤ vj < Z.of_nat (length (vertices m)).
Proof.
  intros (_ & _ & (HR & _ & HSh) & _) Hr Hj.
  rewrite Forall_forall in HSh. destruct (HSh r Hr) as [Hlen _].
  destruct (lookup_lt_is_Some_2 (faceVertices r) j) as [vj Hvj]; [lia|].
  exists vj. split; [|split; [done|]].
  - unfold faceVertices in Hvj. apply lookup_take_Some in Hvj as [Hvj _]. done.
  - unfold faceVerticesInRange in HR. rewrite Forall_forall in HR.
    specialize (HR r Hr). rewrite Forall_lookup in HR. exact (HR j vj Hvj).
Qed.

Lemma vertexPosition_in_range (m : Model) (i : Z) :
  0 ≤ i < Z.of_nat (length (vertices m)) → ∃ p, vertexPosition m i = Done p.
Proof.
  intros Hi. destruct (at_index_in_range (vertices m) i Hi) as [v Hv].
  exists (vr_position v). unfold vertexPosition. rewrite Hv. done.
Qed.

Lemma facePoints_succeed (mesh : Mesh) (pre : list Face) (m : Model) :
  wellBuilt mesh pre m →
  ∃ fp, computeFacePoints m = Done fp ∧ length fp = length (faces m).
Proof.
  intros Hw.
  destruct (collect_succeeds (facePoint m) (faces m)) as [fp Hfp].
  - intros r Hr. unfold facePoint.
    destruct (accumulate_succeeds
                (λ (sum : Vec3) (j : nat),
                   vj ← at_index (fr_vertices r) (Z.of_nat j);
                   p ← vertexPosition m vj; mret (vadd sum p))
                vzero (seq 0 (cornerCount (fr_isQuad r)))) as [s Hs].
    + intros sum j Hj%seq_elem.
      destruct (face_corner_reads _ _ _ r j Hw Hr Hj) as (vj & Hvj & _ & Hin).
      destruct (vertexPosition_in_range m vj Hin) as [p Hp].
      exists (vadd sum p). apply obind_Done. exists vj.
      split; [by apply at_index_nat|]. rewrite Hp. done.
    + rewrite Hs. eexists. done.
  - exists fp. split; [done|]. by eapply collect_length.
Qed.

Lemma edge_ends_read (mesh : Mesh) (pre : list Face) (m : Model)
    (e : EdgeRecord) :
  wellBuilt mesh pre m → e ∈ edges m →
  0 ≤ low_vertex e < Z.of_nat (length (vertices m)) ∧
  0 ≤ high_vertex e < Z.of_nat (length (vertices m)).
Proof.
  intros (_ & _ & _ & _ & Hends & _) He.
  unfold edgeEndsInRange in Hends. rewrite Forall_forall in Hends.
  specialize (Hends e He). lia.
Qed.

Lemma edgePoints_succeed (mesh : Mesh) (pre : list Face) (m : Model)
    (fp : list Vec3) :
  wellBuilt mesh pre m →
  Z.of_nat (length (faces m)) ≤ 2 ^ 31 →
  length fp = length (faces m) →
  ∃ ep, computeEdgePoints m fp = Done ep ∧ length ep = length (edges m).
Proof.
  intros Hw Hsize Hlen.
  destruct (collect_succeeds (edgePoint m fp) (edges m)) as [ep Hep].
  - intros e He.
    destruct (edge_ends_read _ _ _ e Hw He) as [Hlo Hhi].
    destruct (vertexPosition_in_range m _ Hlo) as [p0 Hp0].
    destruct (vertexPosition_in_range m _ Hhi) as [p1 Hp1].
    unfold edgePoint. case_decide as Hc.
    { eexists. apply obind_Done. exists p0. split; [done|].
      apply obind_Done. exists p1. split; [done|]. reflexivity. }
    assert (Hc2 : face_count e = 2)
      by (destruct (decide (face_count e = 2)); [done | tauto]).
    apply list_elem_of_lookup in He as [k Hk].
    destruct Hw as (_ & (_ & _ & HEK) & _).
    destruct (HEK k e Hk) as (_ & Hcount & Hfaces).
    rewrite Hc2 in Hcount. unfold cappedCount in Hcount.
    destruct (touching k (faces m)) as [|x0 [|x1 inc']] eqn:Einc;
      simpl in Hcount; try lia.
    assert (Hx : ∀ x, x ∈ touching k (faces m) → ∃ q, at_index fp x = Done q).
    { intros x Hin. apply at_index_in_range.
      apply touching_elem in Hin as (j & r & Hj & -> & _).
      apply lookup_lt_Some in Hj. rewrite to_int_small by lia. lia. }
    rewrite Einc in Hx.
    destruct (Hx x0) as [q0 Hq0]; [left|].
    destruct (Hx x1) as [q1 Hq1]; [right; left|].
    eexists. apply obind_Done. exists p0. split; [done|].
    apply obind_Done. exists p1. split; [done|].
    apply obind_Done. exists x0. split; [rewrite Hfaces; reflexivity|].
    apply obind_Done. exists q0. split; [done|].
    apply obind_Done. exists x1. split; [rewrite Hfaces; reflexivity|].
    apply obind_Done. exists q1. split; [done|]. reflexivity.
  - exists ep. split; [done|]. by eapply collect_length.
Qed.

End PassRuns.

Section PassRuns2.

Context {VA : VecArith}.

Lemma newPositionOf_succeeds (mesh : Mesh) (pre : list Face) (m : Model)
    (fp : list Vec3) (i : nat) :
  wellBuilt mesh pre m →
  4 * Z.of_nat (length (faces m)) < 2 ^ 31 →
  length fp = length (faces m) →
  (i < length (vertices m))%nat →
  ∃ p, newPositionOf fp (snapshotPositions m) i m = Done p.
Proof.
  intros Hw Hsize Hfp Hi.
  pose proof Hw as (_ & (_ & HER & _) & (_ & HL & _) & _).
  destruct (lookup_lt_is_Some_2 (vertices m) i Hi) as [v Hv].
  destruct (HL i v Hv) as [Hedges Hfaces].
  pose proof (vertexFaceEntries_length i (faces m)) as Hflen.
  rewrite <- Hfaces in Hflen.
  unfold newPositionOf.
  assert (Hat : at_index (vertices m) (Z.of_nat i) = Done v) by by apply at_index_nat.
  rewrite Hat. simpl.
  rewrite to_int_small by lia.
  rewrite decide_False by (unfold int_min; lia).
  destruct (accumulate_succeeds
              (λ (sum : Vec3) (j : nat),
                 fj ← at_index (vr_faces v) (Z.of_nat j);
                 q ← at_index fp fj; mret (vadd sum q))
              vzero (seq 0 (Z.to_nat (Z.of_nat (length (vr_faces v))))))
    as [faceSum HfaceSum].
  { intros sum j Hj%seq_elem. rewrite Nat2Z.id in Hj.
    destruct (lookup_lt_is_Some_2 (vr_faces v) j Hj) as [fj Hfj].
    assert (Hin : fj ∈ vertexFaceEntries i (faces m)).
    { rewrite <- Hfaces. by eapply list_elem_of_lookup_2. }
    apply vertexFaceEntries_elem in Hin as (j' & r & Hj' & ->).
    apply lookup_lt_Some in Hj'.
    destruct (at_index_in_range fp (to_int (Z.of_nat j'))) as [q Hq].
    { rewrite to_int_small by lia. lia. }
    exists (vadd sum q). apply obind_Done. eexists.
    split; [by apply at_index_nat|]. rewrite Hq. done. }
  destruct (accumulate_succeeds
              (λ (sum : Vec3) (edgeIndex : Z),
                 edge ← at_index (edges m) edgeIndex;
                 pl ← at_index (snapshotPositions m) (low_vertex edge);
                 ph ← at_index (snapshotPositions m) (high_vertex edge);
                 mret (vadd sum (smul half (vadd pl ph))))
              vzero (vr_edges v))
    as [edgeSum HedgeSum].
  { intros sum x Hx. rewrite Hedges in Hx.
    apply vertexEdgeEntries_elem in Hx as (r & Hr & Hx).
    unfold faceEdgesInRange in HER. rewrite Forall_forall in HER.
    specialize (HER r Hr). rewrite Forall_forall in HER. specialize (HER x Hx).
    destruct (at_index_in_range (edges m) x HER) as [e He].
    assert (Hein : e ∈ edges m).
    { apply at_index_Done in He as [_ He]. by eapply list_elem_of_lookup_2. }
    destruct (edge_ends_read _ _ _ e Hw Hein) as [Hlo Hhi].
    assert (Hlen : length (snapshotPositions m) = length (vertices m))
      by apply length_fmap.
    destruct (at_index_in_range (snapshotPositions m) (low_vertex e)) as [pl Hpl];
      [lia|].
    destruct (at_index_in_range (snapshotPositions m) (high_vertex e)) as [ph Hph];
      [lia|].
    eexists. rewrite He. simpl. rewrite Hpl. simpl. rewrite Hph. done. }
  unfold sumFacePoints, sumEdgeMids. rewrite HfaceSum. simpl.
  rewrite HedgeSum. simpl.
  destruct (at_index_in_range (snapshotPositions m) (Z.of_nat i)) as [old Hold].
  { unfold snapshotPositions. rewrite length_fmap. lia. }
  rewrite Hold. eexists. done.
Qed.

Lemma for_each_runs_or_throws {A} (body : A → ModelM unit)
    (I : list A → Model → Prop) (l : list A) (m : Model) :
  I [] m →
  (∀ pre a suf m1, l = pre ++ a :: suf → I pre m1 →
     (∃ m2, body a m1 = (Done (), m2) ∧ I (pre ++ [a]) m2) ∨
     (∃ m2, body a m1 = (Fail RuntimeError, m2))) →
  (∃ m', for_each body l m = (Done (), m') ∧ I l m') ∨
  (∃ m', for_each body l m = (Fail RuntimeError, m')).
Proof.
  revert I m. induction l as [|a l IH]; intros I m H0 Hstep.
  - left. exists m. done.
  - destruct (Hstep [] a l m eq_refl H0) as [(m2 & Hb & HI)|(m2 & Hb)].
    + destruct (IH (λ pre, I (a :: pre)) m2 HI) as [(m' & Hrun & HI')|(m' & Hrun)].
      * intros pre b suf m1 -> Hpre.
        apply (Hstep (a :: pre) b suf m1); done.
      * left. exists m'. split; [|done]. simpl. unfold mthen. rewrite Hb. done.
      * right. exists m'. simpl. unfold mthen. rewrite Hb. done.
    + right. exists m2. simpl. unfold mthen. rewrite Hb. done.
Qed.

(** The loop that moves the vertices ends, or throws the exception of
    [moveVertex]. *)
Lemma repositionVertices_runs (mesh : Mesh) (pre : list Face) (m : Model)
    (fp : list Vec3) :
  wellBuilt mesh pre m →
  4 * Z.of_nat (length (faces m)) < 2 ^ 31 →
  length fp = length (faces m) →
  (∃ moved, repositionVertices fp (snapshotPositions m) m = (Done (), moved)) ∨
  (∃ m', repositionVertices fp (snapshotPositions m) m = (Fail RuntimeError, m')).
Proof.
  intros Hw Hsize Hfp.
  pose proof Hw as ((HS & _) & _).
  unfold repositionVertices.
  destruct (for_each_runs_or_throws
              (repositionVertex fp (snapshotPositions m))
              (λ done mk,
                 edges mk = edges m ∧
                 length (vertices mk) = length (vertices m) ∧
                 ∀ k, (length done ≤ k)%nat → vertices mk !! k = vertices m !! k)
              (seq 0 (length (vertices m))) m)
    as [(moved & Hrun & _)|(m' & Hrun)]; [done | | eauto | eauto].
  intros done i suf mk Hl (HE & HLk & Hsame).
  apply seq_split in Hl as [-> Hi].
  destruct (newPositionOf_succeeds mesh pre m fp (length done) Hw Hsize Hfp Hi)
    as [p Hp].
  assert (Hp' : newPositionOf fp (snapshotPositions m) (length done) mk = Done p).
  { rewrite <- Hp. apply newPositionOf_frame; [|done]. apply Hsame. lia. }
  assert (Hbody : ∀ res, moveVertex (Z.of_nat (length done)) p mk = res →
            repositionVertex fp (snapshotPositions m) (length done) mk = res).
  { intros res <-. unfold repositionVertex.
    unfold mbind, ModelM_bind, mthen, inspect. rewrite Hp'.
    rewrite to_int_small by lia. done. }
  destruct (moveVertex_cases (Z.of_nat (length done)) p mk)
    as [(e & He & _)|(v & Hv & [[_ Hthrow]|[_ Hdone]])].
  - exfalso. destruct (at_index_in_range (vertices mk) (Z.of_nat (length done)))
      as [v Hv]; [lia | congruence].
  - right. eexists. apply Hbody. exact Hthrow.
  - left. eexists. split; [apply Hbody; exact Hdone|]. simpl.
    rewrite length_insert, length_app. simpl. split_and!; try done.
    intros k Hk. rewrite list_lookup_insert_ne by lia. apply Hsame. lia.
Qed.

End PassRuns2.

Section NewMeshRuns.

Context {VA : VecArith}.

Lemma for_accumulate_succeeds {A S} (body : S → A → ModelM S)
    (J : Model → Prop) (l : list A) (acc : S) (m : Model) :
  J m →
  (∀ s a m1, a ∈ l → J m1 → ∃ s' m2, body s a m1 = (Done s', m2) ∧ J m2) →
  ∃ r m', for_accumulate body acc l m = (Done r, m') ∧ J m'.
Proof.
  revert acc m. induction l as [|a l IH]; intros acc m HJ Hbody.
  - exists acc, m. done.
  - destruct (Hbody acc a m) as (s' & m2 & Hb & HJ2); [left | done |].
    destruct (IH s' m2 HJ2) as (r & m' & Hrun & HJ').
    { intros s b m1 Hb'. apply Hbody. by right. }
    exists r, m'. split; [|done]. simpl. unfold mthen. rewrite Hb. done.
Qed.

Lemma cornerPosition_runs (mesh : Mesh) (pre : list Face) (m moved : Model)
    (r : FaceRecord) (c : nat) :
  wellBuilt mesh pre m → movedFrom m moved → r ∈ faces m →
  (c < cornerCount (fr_isQuad r))%nat →
  ∃ p, cornerPosition r (Z.of_nat c) moved = (Done p, moved).
Proof.
  intros Hw (_ & _ & _ & HLV) Hr Hc.
  destruct (face_corner_reads _ _ _ r c Hw Hr Hc) as (vc & Hvc & _ & Hin).
  destruct (vertexPosition_in_range moved vc) as [p Hp]; [lia|].
  exists p. unfold cornerPosition. apply inspect_Done. split; [|done].
  apply obind_Done. exists vc. split; [by apply at_index_nat | done].
Qed.

Lemma edgePointBetween_runs (mesh : Mesh) (pre : list Face) (m moved : Model)
    (ep : list Vec3) (j : nat) (r : FaceRecord) (i : nat) :
  wellBuilt mesh pre m → movedFrom m moved →
  length ep = length (edges m) →
  faces m !! j = Some r →
  (i < cornerCount (fr_isQuad r))%nat →
  ∃ q, edgePointBetween ep r (Z.of_nat i)
         (Z.of_nat ((i + 1) mod cornerCount (fr_isQuad r))) moved
       = (Done q, moved).
Proof.
  intros Hw (_ & _ & HM & _) Hep Hj Hi.
  pose proof Hw as (_ & (HES & _) & _ & HP & _ & Hsides & _).
  destruct (Hsides j r i Hj Hi) as (pr & e & Hside & He & _).
  unfold faceSide in Hside.
  destruct (faceVertices r !! i) as [va|] eqn:Ha; [|done]. simpl in Hside.
  destruct (faceVertices r !! ((i + 1) mod cornerCount (fr_isQuad r))%nat)
    as [vb|] eqn:Hb; [|done].
  simpl in Hside. injection Hside as <-.
  unfold faceVertices in Ha, Hb.
  apply lookup_take_Some in Ha as [Ha _]. apply lookup_take_Some in Hb as [Hb _].
  destruct (pairs_in_range m _ e HP HES He) as [Hin _].
  destruct (at_index_in_range ep e) as [q Hq]; [lia|].
  exists q. unfold edgePointBetween.
  apply mbind_Done. exists va, moved.
  split; [apply inspect_Done; split; [by apply at_index_nat | done]|].
  apply mbind_Done. exists vb, moved.
  split; [apply inspect_Done; split; [by apply at_index_nat | done]|].
  apply mbind_Done. exists e, moved. split.
  { unfold getEdgeIndex. rewrite HM, He. done. }
  apply inspect_Done. done.
Qed.

Lemma emitFace_runs (mesh : Mesh) (pre : list Face) (m moved : Model)
    (fp ep : list Vec3) (acc : Mesh) (fi : nat) :
  wellBuilt mesh pre m → movedFrom m moved →
  length fp = length (faces m) →
  length ep = length (edges m) →
  (fi < length (faces m))%nat →
  ∃ acc', emitFace fp ep acc fi moved = (Done acc', moved).
Proof.
  intros Hw Hmoved Hfp Hep Hfi.
  destruct (lookup_lt_is_Some_2 (faces m) fi Hfi) as [r Hr].
  assert (Hrin : r ∈ faces m) by by eapply list_elem_of_lookup_2.
  pose proof (cornerPosition_runs mesh pre m moved r) as Hcorner.
  pose proof (edgePointBetween_runs mesh pre m moved ep fi r) as Hedge.
  destruct (at_index_in_range fp (Z.of_nat fi)) as [fpt Hfpt]; [lia|].
  assert (Hface : inspect (λ m0, at_index (faces m0) (Z.of_nat fi)) moved
                  = (Done r, moved)).
  { apply inspect_Done. split; [|done]. apply at_index_nat.
    destruct Hmoved as (_ & -> & _). done. }
  unfold emitFace.
  destruct (fr_isQuad r) eqn:Hq.
  - destruct (Hcorner 0%nat Hw Hmoved Hrin) as [va Hva]; [simpl; lia|].
    destruct (Hcorner 1%nat Hw Hmoved Hrin) as [vb Hvb]; [simpl; lia|].
    destruct (Hcorner 2%nat Hw Hmoved Hrin) as [vc Hvc]; [simpl; lia|].
    destruct (Hcorner 3%nat Hw Hmoved Hrin) as [vd Hvd]; [simpl; lia|].
    destruct (Hedge 0%nat Hw Hmoved Hep Hr) as [eab Heab]; [simpl; lia|].
    destruct (Hedge 1%nat Hw Hmoved Hep Hr) as [ebc Hebc]; [simpl; lia|].
    destruct (Hedge 2%nat Hw Hmoved Hep Hr) as [ecd Hecd]; [simpl; lia|].
    destruct (Hedge 3%nat Hw Hmoved Hep Hr) as [eda Heda]; [simpl; lia|].
    eexists. apply mbind_Done. exists r, moved. split; [exact Hface|].
    rewrite Hq.
    apply mbind_Done. exists va, moved. split; [exact Hva|].
    apply mbind_Done. exists vb, moved. split; [exact Hvb|].
    apply mbind_Done. exists vc, moved. split; [exact Hvc|].
    apply mbind_Done. exists vd, moved. split; [exact Hvd|].
    apply mbind_Done. exists eab, moved. split; [exact Heab|].
    apply mbind_Done. exists ebc, moved. split; [exact Hebc|].
    apply mbind_Done. exists ecd, moved. split; [exact Hecd|].
    apply mbind_Done. exists eda, moved. split; [exact Heda|].
    apply mbind_Done. exists fpt, moved. split; [by apply inspect_Done|].
    reflexivity.
  - destruct (Hcorner 0%nat Hw Hmoved Hrin) as [va Hva]; [simpl; lia|].
    destruct (Hcorner 1%nat Hw Hmoved Hrin) as [vb Hvb]; [simpl; lia|].
    destruct (Hcorner 2%nat Hw Hmoved Hrin) as [vc Hvc]; [simpl; lia|].
    destruct (Hedge 0%nat Hw Hmoved Hep Hr) as [eab Heab]; [simpl; lia|].
    destruct (Hedge 1%nat Hw Hmoved Hep Hr) as [ebc Hebc]; [simpl; lia|].
    destruct (Hedge 2%nat Hw Hmoved Hep Hr) as [eca Heca]; [simpl; lia|].
    eexists. apply mbind_Done. exists r, moved. split; [exact Hface|].
    rewrite Hq.
    apply mbind_Done. exists va, moved. split; [exact Hva|].
    apply mbind_Done. exists vb, moved. split; [exact Hvb|].
    apply mbind_Done. exists vc, moved. split; [exact Hvc|].
    apply mbind_Done. exists eab, moved. split; [exact Heab|].
    apply mbind_Done. exists ebc, moved. split; [exact Hebc|].
    apply mbind_Done. exists eca, moved. split; [exact Heca|].
    apply mbind_Done. exists fpt, moved. split; [by apply inspect_Done|].
    reflexivity.
Qed.

Lemma buildNewMesh_runs (mesh : Mesh) (pre : list Face) (m moved : Model)
    (fp ep : list Vec3) :
  wellBuilt mesh pre m → movedFrom m moved →
  length fp = length (faces m) →
  length ep = length (edges m) →
  ∃ out, buildNewMesh fp ep moved = (Done out, moved).
Proof.
  intros Hw Hmoved Hfp Hep. unfold buildNewMesh.
  destruct (for_accumulate_succeeds (emitFace fp ep) (λ mm, mm = moved)
              (seq 0 (length (faces moved))) emptyMesh moved eq_refl)
    as (out & m' & Hrun & ->); [|eauto].
  intros acc fi m1 Hfi%seq_elem ->.
  destruct (emitFace_runs mesh pre m moved fp ep acc fi Hw Hmoved Hfp Hep)
    as [acc' Hacc'].
  { destruct Hmoved as (_ & <- & _). done. }
  eauto.
Qed.

Lemma repositionVertices_movedFrom (fp op : list Vec3) (m moved : Model) :
  Z.of_nat (length (vertices m)) ≤ 2 ^ 31 →
  repositionVertices fp op m = (Done (), moved) →
  movedFrom m moved.
Proof.
  intros Hsize Hrun.
  destruct (repositionVertices_spec fp op m moved Hsize Hrun)
    as (HE & HF & HQ & HL & _).
  done.
Qed.

(** One pass on the model of a mesh ends with a mesh, or with the
    exception of [moveVertex]. *)
Lemma once_runs (mesh : Mesh) (pre : list Face) (model : Model) :
  wellBuilt mesh pre model →
  4 * Z.of_nat (length (faces model)) < 2 ^ 31 →
  (∃ out, applyCatmullClarkSubdivisionOnce model = Done out) ∨
  applyCatmullClarkSubdivisionOnce model = Fail RuntimeError.
Proof.
  intros Hw Hsize.
  pose proof Hw as ((HS & _) & _).
  destruct (facePoints_succeed mesh pre model Hw) as (fp & Hfp & Hlfp).
  destruct (edgePoints_succeed mesh pre model fp Hw) as (ep & Hep & Hlep);
    [lia | done |].
  unfold applyCatmullClarkSubdivisionOnce. rewrite Hfp. simpl.
  rewrite Hep. simpl.
  unfold subdivideModel, mbind, ModelM_bind, mthen.
  destruct (repositionVertices_runs mesh pre model fp Hw Hsize Hlfp)
    as [(moved & Hmove)|(m' & Hmove)]; rewrite Hmove; [|by right].
  pose proof (repositionVertices_movedFrom _ _ _ _ HS Hmove) as Hmoved.
  destruct (buildNewMesh_runs mesh pre model moved fp ep Hw Hmoved Hlfp Hlep)
    as [out Hout].
  rewrite Hout. left. eauto.
Qed.

Lemma meshToModel_face_count (mesh : Mesh) (model : Model) :
  meshToModel mesh = Done model →
  length (faces model) = length (mesh_faces mesh).
Proof.
  intros Hrun. symmetry. eapply Forall2_length. by apply meshToModel_faces.
Qed.

Lemma subdivisionStep_runs (mesh : Mesh) :
  wellIndexed mesh →
  4 * Z.of_nat (length (mesh_faces mesh)) < 2 ^ 31 →
  (∃ out, subdivisionStep mesh = Done out) ∨
  subdivisionStep mesh = Fail RuntimeError.
Proof.
  intros Hidx Hsize.
  destruct (meshToModel_succeeds mesh Hidx) as [model Hmodel]; [lia|].
  unfold subdivisionStep. rewrite Hmodel. simpl.
  apply (once_runs mesh (mesh_faces mesh)).
  - by apply meshToModel_wellBuilt.
  - rewrite (meshToModel_face_count _ _ Hmodel). done.
Qed.

End NewMeshRuns.

Section PassOutput.

Context {VA : VecArith}.

Lemma placedBelow_more (a b : nat) (q : Face) :
  (a ≤ b)%nat → placedBelow a q → placedBelow b q.
Proof.
  intros Hab (Hq & Hl & Hall). split_and!; try done.
  eapply Forall_impl; [exact Hall|]. simpl. intros idx (x & -> & Hx).
  exists x. split; [done | lia].
Qed.

Lemma claimedFaceQuads_placed (base : nat) (n : nat) :
  (0 < n)%nat →
  Forall (placedBelow (base + (2 * n + 1))) (claimedFaceQuads (Z.of_nat base) n) ∧
  length (claimedFaceQuads (Z.of_nat base) n) = n.
Proof.
  intros Hn. unfold claimedFaceQuads. rewrite length_fmap, length_seq.
  split; [|done]. apply Forall_fmap, Forall_forall. intros c Hc%seq_elem.
  pose proof (Nat.mod_upper_bound (c + n - 1) n ltac:(lia)) as Hmod.
  split_and!; try done. simpl.
  repeat constructor; eexists; (split; [reflexivity|]); lia.
Qed.

Lemma layout_counts (outl : list (list Vec3 * list Face)) (ns : list nat) :
  length outl = length ns →
  Forall (λ n, 0 < n)%nat ns →
  (∀ fi block quads n,
     outl !! fi = Some (block, quads) → ns !! fi = Some n →
     length block = (2 * n + 1)%nat ∧
     quads = claimedFaceQuads
               (Z.of_nat (length (concat ((take fi outl).*1)))) n) →
  length (concat (outl.*1)) = (2 * sum_list ns + length ns)%nat ∧
  length (concat (outl.*2)) = sum_list ns ∧
  Forall (placedBelow (length (concat (outl.*1)))) (concat (outl.*2)).
Proof.
  revert ns. induction outl as [|[block quads] outl IH] using rev_ind;
    intros ns Hlen Hpos Hall.
  - destruct ns; [|done]. simpl. split_and!; [done | done | constructor].
  - destruct ns as [|n ns _] using rev_ind.
    { rewrite length_app in Hlen. simpl in Hlen. lia. }
    rewrite !length_app in Hlen. simpl in Hlen.
    apply Forall_app in Hpos as [Hpos Hn%Forall_inv].
    destruct (IH ns) as (IHV & IHF & IHP); [lia | done | |].
    { intros fi b q k Hfi Hk.
      destruct (Hall fi b q k) as [H1 H2].
      - by apply lookup_app_l_Some.
      - by apply lookup_app_l_Some.
      - split; [done|]. rewrite H2. do 3 f_equal.
        rewrite take_app_le; [done|]. apply lookup_lt_Some in Hfi. lia. }
    destruct (Hall (length outl) block quads n) as [Hb Hq].
    { rewrite lookup_app_r by lia. by rewrite Nat.sub_diag. }
    { rewrite lookup_app_r by lia.
      replace (length outl - length ns)%nat with 0%nat by lia. done. }
    rewrite take_app_length in Hq.
    destruct (claimedFaceQuads_placed (length (concat (outl.*1))) n Hn)
      as [Hplaced Hnq].
    rewrite <- Hq in Hplaced, Hnq.
    rewrite !fmap_app, !concat_app, !length_app. simpl.
    rewrite !app_nil_r, !sum_list_with_app. simpl.
    rewrite IHV, IHF, Hb, Hnq.
    split_and!; [lia | lia |].
    apply Forall_app. split.
    + eapply Forall_impl; [exact IHP|]. intros q0. apply placedBelow_more. lia.
    + rewrite IHV in Hplaced. exact Hplaced.
Qed.

Lemma corner_counts_agree (fs : list Face) (rs : list FaceRecord) :
  Forall2 (λ f r, fr_isQuad r = isQuad f) fs rs →
  (λ r, cornerCount (fr_isQuad r)) <$> rs = (λ f, cornerCount (isQuad f)) <$> fs.
Proof.
  induction 1 as [|f r fs rs Hq _ IH]; [done|].
  rewrite !fmap_cons, IH, Hq. done.
Qed.

(** The sizes of the mesh that a pass returns, and the places that its
    faces name. *)
Lemma subdivisionStep_output (mesh out : Mesh) :
  subdivisionStep mesh = Done out →
  length (mesh_faces out) = cornerTotal (mesh_faces mesh) ∧
  length (mesh_vertices out)
    = (2 * cornerTotal (mesh_faces mesh) + length (mesh_faces mesh))%nat ∧
  Forall (placedBelow (length (mesh_vertices out))) (mesh_faces out).
Proof.
  intros Hstep.
  destruct (subdivisionStep_Done _ _ Hstep)
    as (model & moved & final & fp & ep & Hmodel & Hfp & Hep & Hmove & Hbuild).
  destruct (buildNewMesh_layout _ _ _ _ _ Hbuild) as (outl & Hlen & HV & HF & Hall).
  destruct (meshToModel_invariants _ _ Hmodel) as [(HS & _) _].
  destruct (repositionVertices_spec _ _ _ _ HS Hmove) as (_ & Hfaces & _).
  pose proof (meshToModel_faces _ _ Hmodel) as Hkinds.
  set (ns := (λ r, cornerCount (fr_isQuad r)) <$> faces moved).
  assert (Hns : ns = (λ f, cornerCount (isQuad f)) <$> mesh_faces mesh).
  { subst ns. rewrite Hfaces. by apply corner_counts_agree. }
  destruct (layout_counts outl ns) as (HcV & HcF & HcP).
  - subst ns. rewrite length_fmap. done.
  - subst ns. apply Forall_fmap, Forall_forall. intros r _. simpl.
    destruct (cornerCount_cases (fr_isQuad r)); lia.
  - intros fi block quads n Hfi Hn. subst ns.
    apply list_lookup_fmap_Some in Hn as (r & -> & Hr).
    destruct (Hall fi r block quads Hr Hfi) as (_ & Hb & Hq & _). done.
  - rewrite HV, HF, length_fmap, HcV, HcF, Hns, length_fmap.
    unfold cornerTotal. split_and!; try done.
    rewrite <- length_fmap with (f := λ f, cornerCount (isQuad f)).
    rewrite <- Hns, <- HcV. done.
Qed.

Lemma placedBelow_indexed (vs : list Vertex) (fs : list Face) (q : Face) :
  placedBelow (length vs) q →
  faceIndexed {| mesh_vertices := vs; mesh_faces := fs |} q.
Proof.
  intros (Hq & Hl & Hall). unfold faceIndexed. rewrite Hq, Hl. simpl.
  split; [lia|]. rewrite firstn_all2 by lia.
  eapply Forall_impl; [exact Hall|]. simpl. intros idx (x & -> & Hx).
  unfold to_u32.
  pose proof (Z.mod_pos_bound x (2 ^ 32) ltac:(lia)).
  pose proof (Z.mod_le x (2 ^ 32) ltac:(lia) ltac:(lia)). lia.
Qed.

(** The corners of the mesh that a pass returns name vertices of it. *)
Lemma subdivisionStep_wellIndexed (mesh out : Mesh) :
  subdivisionStep mesh = Done out → wellIndexed out.
Proof.
  intros Hstep.
  destruct (subdivisionStep_output _ _ Hstep) as (_ & _ & HP).
  unfold wellIndexed. eapply Forall_impl; [exact HP|]. intros q Hq.
  destruct out as [vs fs]. by apply placedBelow_indexed.
Qed.

End PassOutput.

Section Firsts.

Context {A : Type} `{EqDecision A}.

Lemma noteFirst_spec (seen : list A) (x : A) :
  (NoDup seen → NoDup (noteFirst seen x)) ∧
  ∀ y, y ∈ noteFirst seen x ↔ y ∈ seen ∨ y = x.
Proof.
  unfold noteFirst. case_decide as Hx; split.
  - done.
  - intros y. split; [by left | intros [?| ->]; done].
  - intros Hnd. apply NoDup_app. split_and!; [done | | apply NoDup_singleton].
    intros y Hy ->%list_elem_of_singleton. done.
  - intros y. rewrite elem_of_app, list_elem_of_singleton. done.
Qed.

Lemma foldl_noteFirst (seen l : list A) :
  (NoDup seen → NoDup (foldl noteFirst seen l)) ∧
  (∀ y, y ∈ foldl noteFirst seen l ↔ y ∈ seen ∨ y ∈ l) ∧
  ∃ more, foldl noteFirst seen l = seen ++ more.
Proof.
  revert seen. induction l as [|x l IH]; intros seen; simpl.
  - split_and!; [done | | exists []; by rewrite app_nil_r].
    intros y. split; [by left | intros [?|?%elem_of_nil]; done].
  - destruct (IH (noteFirst seen x)) as (IH1 & IH2 & more & IH3).
    destruct (noteFirst_spec seen x) as [Hn Hm]. split_and!.
    + intros Hnd. apply IH1, Hn, Hnd.
    + intros y. rewrite IH2, Hm, elem_of_cons. tauto.
    + rewrite IH3. unfold noteFirst. case_decide.
      * by exists more.
      * exists (x :: more). by rewrite <- app_assoc.
Qed.

(** [firsts] keeps one entry of each value, the first. *)
Lemma firsts_spec (l : list A) :
  NoDup (firsts l) ∧ ∀ y, y ∈ firsts l ↔ y ∈ l.
Proof.
  destruct (foldl_noteFirst [] l) as (H1 & H2 & _). split.
  - apply H1. constructor.
  - intros y. unfold firsts. rewrite H2. split; [|by right].
    intros [?%elem_of_nil|?]; done.
Qed.

Lemma firsts_snoc (l : list A) (x : A) :
  firsts (l ++ [x]) = if decide (x ∈ l) then firsts l else firsts l ++ [x].
Proof.
  unfold firsts. rewrite foldl_snoc. unfold noteFirst at 1.
  destruct (firsts_spec l) as [_ Hm]. unfold firsts in Hm.
  case_decide as H1; case_decide as H2; try done.
  - apply Hm in H1. done.
  - apply Hm in H2. done.
Qed.

End Firsts.

Section BuiltModelLaws.

Context {VA : VecArith}.

(** X8. [meshToModel] on a mesh with at most 2^29 faces returns a model
    exactly when every corner of every face names a vertex of the mesh;
    when one does not, the call ends in the unchecked access. *)
Theorem meshToModel_runs_iff_indexed (mesh : Mesh) :
  4 * Z.of_nat (length (mesh_faces mesh)) ≤ 2 ^ 31 →
  ((∃ model, meshToModel mesh = Done model) ↔ wellIndexed mesh) ∧
  (¬ wellIndexed mesh → meshToModel mesh = Fail OutOfBounds).
Proof.
  intros Hsize.
  assert (Hiff : (∃ model, meshToModel mesh = Done model) ↔ wellIndexed mesh).
  { split.
    - intros [model Hrun]. by eapply meshToModel_wellIndexed.
    - intros Hidx. by apply meshToModel_succeeds. }
  split; [exact Hiff|]. intros Hbad.
  destruct (meshToModel mesh) as [model|e] eqn:Hrun.
  - exfalso. apply Hbad, Hiff. eauto.
  - by rewrite (meshToModel_unchecked mesh e Hrun).
Qed.

Lemma snapshot_numbered (m : Model) (k : nat) (p : Vec3) :
  positionsNumbered m →
  Z.of_nat (length (vertices m)) ≤ 2 ^ 31 →
  snapshotPositions m !! k = Some p ↔
  positionToVertex m !! p = Some (Z.of_nat k).
Proof.
  intros Hnum Hsize. split.
  - intros Hk. pose proof (lookup_lt_Some _ _ _ Hk) as Hlt.
    unfold snapshotPositions in Hlt. rewrite length_fmap in Hlt.
    apply Hnum. exists k. split; [|done]. symmetry. apply to_int_small. lia.
  - intros Hp. destruct (numbered_in_range m p _ Hnum Hsize Hp) as [_ Hk].
    by rewrite Nat2Z.id in Hk.
Qed.

(** X9. The vertices of the model are the positions at the corners of the
    faces, in the order of their first appearance in the scan of the
    faces, each once; the map of positions gives the place of each; and
    every face record names, corner by corner, the vertex that has the
    position of the corner in the mesh. *)
Theorem vertices_by_first_appearance (mesh : Mesh) (model : Model) :
  meshToModel mesh = Done model →
  ∃ ps,
    cornerPositions mesh = Done ps ∧
    snapshotPositions model = firsts ps ∧
    NoDup (snapshotPositions model) ∧
    (∀ p, p ∈ snapshotPositions model ↔ p ∈ ps) ∧
    (∀ k p, snapshotPositions model !! k = Some p ↔
            positionToVertex model !! p = Some (Z.of_nat k)) ∧
    Forall2
      (λ f r, fr_isQuad r = isQuad f ∧
              ∀ i, (i < cornerCount (isQuad f))%nat →
                   ∃ p x v, meshCornerPosition mesh f i = Done p ∧
                            fr_vertices r !! i = Some x ∧
                            at_index (vertices model) x = Done v ∧
                            vr_position v = p)
      (mesh_faces mesh) (faces model).
Proof.
  intros Hrun.
  pose proof (meshToModel_wellBuilt _ _ Hrun)
    as ((HS & HN & _) & _ & _ & _ & _ & _ & _ & Hplaced & (css & Hcss & Hsnap) & _).
  pose proof (meshToModel_indexed _ _ Hrun) as Hidx.
  destruct (firsts_spec (concat css)) as [Hnd Hmem].
  exists (concat css). split_and!.
  - unfold cornerPositions. rewrite Hcss. done.
  - done.
  - rewrite Hsnap. done.
  - intros p. rewrite Hsnap. apply Hmem.
  - intros k p. by apply snapshot_numbered.
  - eapply Forall2_impl; [exact Hplaced|]. simpl.
    intros f r [Hq Hc]. split; [done|]. intros i Hi.
    destruct (Hc i Hi) as (p & x & Hp & Hx & Hpx).
    apply Hidx in Hpx as (v & Hv & Hpv).
    exists p, x, v. split_and!; try done.
    unfold faceVertices in Hx. by apply lookup_take_Some in Hx as [Hx _].
Qed.

Lemma endpoints_lookup (m : Model) (k : nat) (pr : Z * Z) :
  endpoints m !! k = Some pr ↔
  ∃ e, edges m !! k = Some e ∧ pr = (low_vertex e, high_vertex e).
Proof.
  unfold endpoints. rewrite list_lookup_fmap.
  destruct (edges m !! k) as [e|]; simpl; split.
  - intros [= <-]. eauto.
  - intros (e' & [= <-] & ->). done.
  - done.
  - intros (e' & [=] & _).
Qed.

(** X10. The edges of the model: no two edges have the same end points;
    the end points of an edge name vertices, the smaller index first; the
    map of vertex pairs gives the place of the edge; every edge is a side
    of a face; and every side of every face (corners [i] and [i + 1],
    cyclically) is the edge that the face lists at place [i]. *)
Theorem edges_are_face_sides (mesh : Mesh) (model : Model) :
  meshToModel mesh = Done model →
  NoDup (endpoints model) ∧
  (∀ k e, edges model !! k = Some e →
     0 ≤ low_vertex e ∧ low_vertex e ≤ high_vertex e ∧
     high_vertex e < Z.of_nat (length (vertices model)) ∧
     vertexPairToEdge model !! (low_vertex e, high_vertex e)
       = Some (Z.of_nat k) ∧
     ∃ j r i, faces model !! j = Some r ∧
              (i < cornerCount (fr_isQuad r))%nat ∧
              fr_edges r !! i = Some (Z.of_nat k)) ∧
  (∀ j r i, faces model !! j = Some r →
     (i < cornerCount (fr_isQuad r))%nat →
     ∃ a b k e,
       fr_vertices r !! i = Some a ∧
       fr_vertices r !! ((i + 1) mod cornerCount (fr_isQuad r))%nat = Some b ∧
       fr_edges r !! i = Some (Z.of_nat k) ∧
       edges model !! k = Some e ∧
       low_vertex e = Z.min a b ∧ high_vertex e = Z.max a b).
Proof.
  intros Hrun.
  pose proof (meshToModel_wellBuilt _ _ Hrun)
    as (_ & (HES & _ & HEK) & _ & HP & Hends & Hsides & _).
  assert (Hplace : ∀ k e, edges model !! k = Some e →
            vertexPairToEdge model !! (low_vertex e, high_vertex e)
              = Some (Z.of_nat k)).
  { intros k e Hk. pose proof (lookup_lt_Some _ _ _ Hk) as Hlt.
    apply HP. exists k. split; [symmetry; apply to_int_small; lia|].
    apply endpoints_lookup. eauto. }
  split_and!.
  - apply NoDup_alt. intros i j pr Hi Hj.
    apply endpoints_lookup in Hi as (e1 & He1 & ->).
    apply endpoints_lookup in Hj as (e2 & He2 & Heq).
    pose proof (Hplace _ _ He1) as H1. pose proof (Hplace _ _ He2) as H2.
    rewrite Heq in H1. rewrite H1 in H2. injection H2 as H2. lia.
  - intros k e Hk.
    unfold edgeEndsInRange in Hends. rewrite Forall_lookup in Hends.
    destruct (Hends k e Hk) as (H1 & H2 & H3).
    split_and!; try done; [by apply Hplace|].
    destruct (HEK k e Hk) as (Htouch & _).
    destruct (touching k (faces model)) as [|x inc] eqn:Einc; [done|].
    assert (Hx : x ∈ touching k (faces model)) by (rewrite Einc; left).
    apply touching_elem in Hx as (j & r & Hj & _ & Hin).
    apply list_elem_of_lookup in Hin as [i Hi].
    unfold faceEdges in Hi. apply lookup_take_Some in Hi as [Hi Hlt].
    exists j, r, i. done.
  - intros j r i Hj Hi.
    destruct (Hsides j r i Hj Hi) as (pr & x & Hside & Hx & Hfe).
    unfold faceSide in Hside.
    destruct (faceVertices r !! i) as [a|] eqn:Ha; [|done]. simpl in Hside.
    destruct (faceVertices r !! ((i + 1) mod cornerCount (fr_isQuad r))%nat)
      as [b|] eqn:Hb; [|done].
    simpl in Hside. injection Hside as <-.
    unfold faceVertices in Ha, Hb. unfold faceEdges in Hfe.
    apply lookup_take_Some in Ha as [Ha _]. apply lookup_take_Some in Hb as [Hb _].
    apply lookup_take_Some in Hfe as [Hfe _].
    destruct (pairs_in_range model _ x HP HES Hx) as [Hin Hend].
    apply endpoints_lookup in Hend as (e & He & Hpr).
    rewrite sortPair_min_max in Hpr. injection Hpr as Hlo Hhi.
    exists a, b, (Z.to_nat x), e. rewrite Z2Nat.id by lia.
    split_and!; done.
Qed.

(** X11. Every vertex of the model is a corner of a face: its face list
    has an entry and its edge list has two, so the two counts by which
    the new position of a vertex is divided are never zero; on a mesh with
    fewer than 2^29 faces the [int] taken from the face count is the
    count. *)
Theorem every_vertex_has_a_face (mesh : Mesh) (model : Model) (k : nat)
    (v : VertexRecord) :
  meshToModel mesh = Done model →
  vertices model !! k = Some v →
  (1 ≤ length (vr_faces v))%nat ∧
  (2 ≤ length (vr_edges v))%nat ∧
  (∃ r, r ∈ faces model ∧ Z.of_nat k ∈ faceVertices r) ∧
  (4 * Z.of_nat (length (mesh_faces mesh)) < 2 ^ 31 →
   to_int (Z.of_nat (length (vr_faces v))) = Z.of_nat (length (vr_faces v))).
Proof.
  intros Hrun Hv.
  pose proof (meshToModel_wellBuilt _ _ Hrun)
    as ((_ & _ & HB) & _ & (_ & HL & _) & _ & _ & _ & Hused & _).
  destruct (Hused k) as (r & Hr & Hin); [by eapply lookup_lt_Some|].
  destruct (HL k v Hv) as [_ Hfaces].
  pose proof (vertexFaceEntries_used k (faces model) r Hr Hin) as Hone.
  rewrite <- Hfaces in Hone.
  rewrite Forall_lookup in HB. pose proof (HB k v Hv) as Hbal.
  unfold balanced in Hbal.
  split_and!; [done | lia | eauto |].
  intros Hsize. apply to_int_small.
  pose proof (vertexFaceEntries_length k (faces model)) as Hlen.
  rewrite <- Hfaces, (meshToModel_face_count _ _ Hrun) in Hlen. lia.
Qed.

End BuiltModelLaws.

Section PassLaws.

Context {VA : VecArith}.

Lemma placedBelow_quad (total : nat) (q : Face) :
  placedBelow total q → isQuad q = true.
Proof. by intros (Hq & _). Qed.

Lemma subdivisionStep_facts (mesh out : Mesh) :
  subdivisionStep mesh = Done out →
  wellIndexed out ∧
  Forall (λ q, isQuad q = true) (mesh_faces out) ∧
  length (mesh_faces out) = cornerTotal (mesh_faces mesh) ∧
  length (mesh_vertices out)
    = (2 * cornerTotal (mesh_faces mesh) + length (mesh_faces mesh))%nat.
Proof.
  intros Hstep.
  destruct (subdivisionStep_output _ _ Hstep) as (HF & HV & HP).
  split_and!; try done.
  - by apply (subdivisionStep_wellIndexed mesh).
  - eapply Forall_impl; [exact HP|]. intros q. apply placedBelow_quad.
Qed.

(** X12. One pass on a mesh whose corners name vertices, with fewer than
    2^29 faces, returns a mesh or throws the exception of [moveVertex]:
    it never reads outside a vector.  The mesh it returns has one face for
    each corner of the input, all of them quads, two vertices for each
    corner and one for each face of the input, and its corners name
    vertices again. *)
Theorem pass_returns_or_throws (mesh : Mesh) :
  wellIndexed mesh →
  4 * Z.of_nat (length (mesh_faces mesh)) < 2 ^ 31 →
  ((∃ out, subdivisionStep mesh = Done out) ∨
   subdivisionStep mesh = Fail RuntimeError) ∧
  ∀ out, subdivisionStep mesh = Done out →
    wellIndexed out ∧
    Forall (λ q, isQuad q = true) (mesh_faces out) ∧
    length (mesh_faces out) = cornerTotal (mesh_faces mesh) ∧
    length (mesh_vertices out)
      = (2 * cornerTotal (mesh_faces mesh) + length (mesh_faces mesh))%nat.
Proof.
  intros Hidx Hsize. split.
  - by apply subdivisionStep_runs.
  - intros out Hstep. by apply subdivisionStep_facts.
Qed.

Lemma iterate_runs (k : nat) (mesh : Mesh) :
  wellIndexed mesh →
  4 ^ Z.of_nat k * Z.of_nat (length (mesh_faces mesh)) < 2 ^ 31 →
  (∃ out, iterateOutcome k subdivisionStep mesh = Done out ∧ wellIndexed out) ∨
  iterateOutcome k subdivisionStep mesh = Fail RuntimeError.
Proof.
  revert mesh. induction k as [|k IH]; intros mesh Hidx Hsize.
  - left. exists mesh. done.
  - rewrite Nat2Z.inj_succ, Z.pow_succ_r in Hsize by lia.
    assert (Hpos : 1 ≤ 4 ^ Z.of_nat k) by (apply Z.pow_pos_nonneg || lia; lia).
    assert (H4 : 4 * Z.of_nat (length (mesh_faces mesh)) < 2 ^ 31) by nia.
    rewrite iterateOutcome_S.
    destruct (subdivisionStep_runs mesh Hidx H4) as [[mid Hmid]|Hthrow].
    + rewrite Hmid. simpl.
      destruct (subdivisionStep_facts _ _ Hmid) as (Hidx' & _ & HF & _).
      apply IH; [done|]. rewrite HF.
      pose proof (cornerTotal_bound (mesh_faces mesh)) as Hb. nia.
    + rewrite Hthrow. by right.
Qed.

Lemma driver_runs (ndebug : bool) (mesh : Mesh) (n : Z) :
  wellIndexed mesh →
  0 ≤ n →
  4 ^ n * Z.of_nat (length (mesh_faces mesh)) < 2 ^ 31 →
  (∃ out, applyCatmullClarkSubdivision ndebug mesh n = Done out ∧
          wellIndexed out) ∨
  applyCatmullClarkSubdivision ndebug mesh n = Fail RuntimeError.
Proof.
  intros Hidx Hn Hsize. unfold applyCatmullClarkSubdivision.
  rewrite bool_decide_eq_false_2 by lia. rewrite andb_false_r.
  apply iterate_runs; [done|]. rewrite Z2Nat.id by lia. done.
Qed.

(** X13. The driver on a mesh whose corners name vertices, with a count
    [n] that is not negative and [4^n] times the face count below 2^31:
    the call returns a mesh whose corners name vertices or throws the
    exception of [moveVertex], in either build. *)
Theorem subdivision_returns_or_throws (ndebug : bool) (mesh : Mesh) (n : Z) :
  wellIndexed mesh →
  0 ≤ n →
  4 ^ n * Z.of_nat (length (mesh_faces mesh)) < 2 ^ 31 →
  (∃ out, applyCatmullClarkSubdivision ndebug mesh n = Done out ∧
          wellIndexed out) ∨
  applyCatmullClarkSubdivision ndebug mesh n = Fail RuntimeError.
Proof.
  intros Hidx Hn Hsize. by apply driver_runs.
Qed.

Lemma cornerTotal_quads (fs : list Face) :
  Forall (λ q, isQuad q = true) fs → cornerTotal fs = (4 * length fs)%nat.
Proof.
  unfold cornerTotal. induction 1 as [|q fs Hq _ IH]; [done|].
  rewrite fmap_cons. simpl. rewrite IH, Hq. simpl. lia.
Qed.

Lemma iterate_growth (k : nat) (mesh out : Mesh) :
  iterateOutcome (S k) subdivisionStep mesh = Done out →
  Forall (λ q, isQuad q = true) (mesh_faces out) ∧
  Z.of_nat (length (mesh_faces out))
    = 4 ^ Z.of_nat k * Z.of_nat (cornerTotal (mesh_faces mesh)) ∧
  (k = 0%nat →
   length (mesh_vertices out)
     = (2 * cornerTotal (mesh_faces mesh) + length (mesh_faces mesh))%nat) ∧
  ((1 ≤ k)%nat →
   4 * Z.of_nat (length (mesh_vertices out))
     = 9 * Z.of_nat (length (mesh_faces out))).
Proof.
  revert mesh. induction k as [|k IH]; intros mesh Hrun.
  - rewrite iterateOutcome_S in Hrun.
    apply obind_Done in Hrun as (mid & Hmid & [= ->]).
    destruct (subdivisionStep_output _ _ Hmid) as (HF & HV & HP).
    split_and!; [|rewrite HF; simpl; lia | done | lia].
    eapply Forall_impl; [exact HP|]. intros q. apply placedBelow_quad.
  - rewrite iterateOutcome_S in Hrun.
    apply obind_Done in Hrun as (mid & Hmid & Hrest).
    destruct (subdivisionStep_output _ _ Hmid) as (HF & HV & HP).
    assert (Hquads : Forall (λ q, isQuad q = true) (mesh_faces mid)).
    { eapply Forall_impl; [exact HP|]. intros q. apply placedBelow_quad. }
    pose proof (cornerTotal_quads _ Hquads) as HC.
    destruct (IH mid Hrest) as (IHq & IHF & IH0 & IH1).
    split_and!; [done | | lia |].
    + rewrite IHF, HC, HF, Nat2Z.inj_succ, Z.pow_succ_r by lia. lia.
    + intros _. destruct k as [|k].
      * rewrite (IH0 eq_refl), IHF, HC. simpl. lia.
      * apply IH1. lia.
Qed.

(** X14. How the mesh grows: after [n] passes, [n] at least one, every
    face is a quad and the face count is [4^(n-1)] times the number of
    corners of the input (3 for a triangle, 4 for a quad); one pass
    gives two vertices for each corner and one for each face of the
    input; from the second pass on there are nine vertices for four
    faces. *)
Theorem subdivision_growth (ndebug : bool) (mesh out : Mesh) (n : Z) :
  1 ≤ n →
  applyCatmullClarkSubdivision ndebug mesh n = Done out →
  Forall (λ q, isQuad q = true) (mesh_faces out) ∧
  Z.of_nat (length (mesh_faces out))
    = 4 ^ (n - 1) * Z.of_nat (cornerTotal (mesh_faces mesh)) ∧
  (n = 1 →
   length (mesh_vertices out)
     = (2 * cornerTotal (mesh_faces mesh) + length (mesh_faces mesh))%nat) ∧
  (2 ≤ n →
   4 * Z.of_nat (length (mesh_vertices out))
     = 9 * Z.of_nat (length (mesh_faces out))).
Proof.
  intros Hn Hrun. unfold applyCatmullClarkSubdivision in Hrun.
  rewrite bool_decide_eq_false_2 in Hrun by lia. rewrite andb_false_r in Hrun.
  replace (Z.to_nat n) with (S (Z.to_nat (n - 1))) in Hrun by lia.
  destruct (iterate_growth _ _ _ Hrun) as (Hq & HF & H0 & H1).
  rewrite Z2Nat.id in HF by lia.
  split_and!; [done | done | |].
  - intros ->. by apply H0.
  - intros H2. apply H1. lia.
Qed.

End PassLaws.

Section LoaderLaws.

Context {VA : VecArith}.

Lemma loadMesh_snoc (faces : list LoadedFace) (f : LoadedFace) :
  loadMesh (faces ++ [f]) = loadFace (loadMesh faces) f.
Proof. unfold loadMesh. apply foldl_snoc. Qed.

Lemma loadFace_vertices (mesh : Mesh) (f : LoadedFace) :
  mesh_vertices (loadFace mesh f)
  = mesh_vertices mesh ++ (Build_Vertex <$> loadedCorners f).
Proof.
  unfold loadFace, loadedCorners. destruct (is_quad f); simpl; [|done].
  rewrite <- app_assoc. done.
Qed.

Lemma loadFace_faces (mesh : Mesh) (f : LoadedFace) :
  ∃ g, mesh_faces (loadFace mesh f) = mesh_faces mesh ++ [g] ∧
       isQuad g = is_quad f ∧
       length (indices g) = 4%nat ∧
       take (cornerCount (isQuad g)) (indices g)
       = (λ k : nat, to_u32 (Z.of_nat (length (mesh_vertices mesh) + k)))
           <$> seq 0 (cornerCount (is_quad f)).
Proof.
  unfold loadFace. destruct (is_quad f); simpl; eexists; (split; [reflexivity|]);
    simpl; split_and!; try done; rewrite ?Nat.add_0_r, ?Nat2Z.inj_add, ?to_u32_add;
    done.
Qed.

Lemma meshCornerPosition_reads (mesh : Mesh) (g : Face) (i : nat) (idx : Z)
    (v : Vertex) :
  indices g !! i = Some idx → 0 ≤ idx →
  mesh_vertices mesh !! Z.to_nat idx = Some v →
  meshCornerPosition mesh g i = Done (position v).
Proof.
  intros Hi Hidx Hv. unfold meshCornerPosition.
  apply obind_Done. exists idx. split; [by apply at_index_nat|].
  apply obind_Done. exists v. split; [|done]. by apply at_index_Done.
Qed.

Lemma meshCornerPosition_more (mesh mesh' : Mesh) (more : list Vertex)
    (g : Face) (i : nat) (p : Vec3) :
  mesh_vertices mesh' = mesh_vertices mesh ++ more →
  meshCornerPosition mesh g i = Done p →
  meshCornerPosition mesh' g i = Done p.
Proof.
  unfold meshCornerPosition. intros HV H.
  apply obind_Done in H as (idx & Hidx & H).
  apply obind_Done in H as (v & Hv & [= <-]).
  rewrite Hidx. simpl.
  apply at_index_Done in Hv as [H0 Hv].
  assert (at_index (mesh_vertices mesh') idx = Done v) as ->; [|done].
  apply at_index_Done. split; [done|]. rewrite HV. by apply lookup_app_l_Some.
Qed.

(** The mesh that [loadMesh] makes of the faces [faces]. *)
Lemma loadMesh_spec (faces : list LoadedFace) :
  let mesh := loadMesh faces in
  position <$> mesh_vertices mesh = concat (loadedCorners <$> faces) ∧
  Forall2 (λ lf g, isQuad g = is_quad lf ∧ length (indices g) = 4%nat)
          faces (mesh_faces mesh) ∧
  (Z.of_nat (length (mesh_vertices mesh)) ≤ 2 ^ 32 →
   concat ((λ g, take (cornerCount (isQuad g)) (indices g)) <$> mesh_faces mesh)
   = Z.of_nat <$> seq 0 (length (mesh_vertices mesh))).
Proof.
  induction faces as [|f faces IH] using rev_ind; [done|].
  rewrite loadMesh_snoc. destruct IH as (IHV & IHF & IHI).
  destruct (loadFace_faces (loadMesh faces) f) as (g & Hg & Hq & Hl & Hidx).
  cbv zeta. rewrite loadFace_vertices, Hg. split_and!.
  - rewrite (fmap_app position), IHV, (fmap_app loadedCorners), concat_app.
    simpl. rewrite app_nil_r. f_equal.
    apply list_eq. intros i. rewrite !list_lookup_fmap.
    destruct (loadedCorners f !! i); done.
  - apply Forall2_app; [done|]. constructor; [done | constructor].
  - rewrite length_app, length_fmap. unfold loadedCorners.
    rewrite length_fmap, length_seq. intros Hsize.
    rewrite fmap_app, concat_app. simpl. rewrite app_nil_r.
    rewrite IHI by lia. rewrite Hidx, seq_app, fmap_app. f_equal.
    rewrite (Nat.add_comm 0), <- fmap_add_seq, <- list_fmap_compose.
    apply Forall_fmap_ext. apply Forall_forall. intros k Hk%seq_elem. simpl.
    unfold to_u32. apply Z.mod_small. lia.
Qed.

Lemma loadedCorners_lookup (f : LoadedFace) (i : nat) :
  (i < cornerCount (is_quad f))%nat →
  loadedCorners f !! i = Some (lf_position f i).
Proof.
  intros Hi. unfold loadedCorners. rewrite list_lookup_fmap.
  rewrite lookup_seq_lt by done. done.
Qed.

(** Every corner of a loaded mesh reads the position that was loaded. *)
Lemma loadMesh_reads (faces : list LoadedFace) :
  Z.of_nat (length (mesh_vertices (loadMesh faces))) ≤ 2 ^ 32 →
  Forall2
    (λ lf g, isQuad g = is_quad lf ∧
             ∀ i, (i < cornerCount (is_quad lf))%nat →
                  meshCornerPosition (loadMesh faces) g i
                  = Done (lf_position lf i))
    faces (mesh_faces (loadMesh faces)).
Proof.
  induction faces as [|f faces IH] using rev_ind; [constructor|].
  rewrite loadMesh_snoc.
  destruct (loadFace_faces (loadMesh faces) f) as (g & Hg & Hq & Hl & Hidx).
  rewrite Hg. pose proof (loadFace_vertices (loadMesh faces) f) as HV.
  rewrite HV, length_app, length_fmap. unfold loadedCorners at 1.
  rewrite length_fmap, length_seq. intros Hsize.
  apply Forall2_app.
  - eapply Forall2_impl; [apply IH; lia|]. simpl.
    intros lf g0 [Hq0 Hread]. split; [done|]. intros i Hi.
    specialize (Hread i Hi).
    by apply (meshCornerPosition_more (loadMesh faces) _ _ _ _ _ HV).
  - constructor; [|constructor]. split; [done|]. intros i Hi.
    assert (Hi' : indices g !! i
                  = Some (Z.of_nat (length (mesh_vertices (loadMesh faces)) + i))).
    { assert (take (cornerCount (isQuad g)) (indices g) !! i
              = Some (to_u32 (Z.of_nat (length (mesh_vertices (loadMesh faces)) + i))))
        as Ht.
      { rewrite Hidx, list_lookup_fmap, lookup_seq_lt by done. done. }
      apply lookup_take_Some in Ht as [Ht _]. rewrite Ht. f_equal.
      unfold to_u32. apply Z.mod_small. lia. }
    rewrite (meshCornerPosition_reads _ g i _
               {| position := lf_position f i |} Hi'); [done | lia |].
    rewrite HV, Nat2Z.id, lookup_app_r by lia.
    replace (length (mesh_vertices (loadMesh faces)) + i
             - length (mesh_vertices (loadMesh faces)))%nat with i by lia.
    rewrite list_lookup_fmap, loadedCorners_lookup by done. done.
Qed.

Lemma loadMesh_size (faces : list LoadedFace) :
  (length (mesh_vertices (loadMesh faces)) ≤ 4 * length faces)%nat ∧
  length (mesh_faces (loadMesh faces)) = length faces.
Proof.
  induction faces as [|f faces [IH1 IH2]] using rev_ind; [simpl; lia|].
  rewrite loadMesh_snoc, loadFace_vertices.
  destruct (loadFace_faces (loadMesh faces) f) as (g & -> & _).
  rewrite !length_app, length_fmap. unfold loadedCorners.
  rewrite length_fmap, length_seq. simpl.
  destruct (cornerCount_cases (is_quad f)); lia.
Qed.

Lemma loadMesh_corners (faces : list LoadedFace) :
  Z.of_nat (length (mesh_vertices (loadMesh faces))) ≤ 2 ^ 32 →
  wellIndexed (loadMesh faces) ∧
  cornerPositions (loadMesh faces) = Done (concat (loadedCorners <$> faces)).
Proof.
  intros Hsize. pose proof (loadMesh_reads faces Hsize) as Hreads. split.
  - unfold wellIndexed. apply Forall_forall. intros g Hg.
    apply list_elem_of_lookup in Hg as [j Hj].
    destruct (Forall2_lookup_r _ _ _ _ _ Hreads Hj) as (lf & _ & Hq & Hread).
    apply reads_faceIndexed. intros i Hi. rewrite Hq in Hi. eauto.
  - unfold cornerPositions.
    assert (collect (faceCorners (loadMesh faces)) (mesh_faces (loadMesh faces))
            = Done (loadedCorners <$> faces)) as ->; [|done].
    apply collect_Done. apply Forall2_fmap_r, Forall2_flip.
    eapply Forall2_impl; [exact Hreads|]. simpl. intros lf g [Hq Hread].
    unfold faceCorners, loadedCorners. rewrite Hq.
    apply collect_Done. apply Forall2_fmap_r.
    apply Forall2_same_length_lookup. split; [done|].
    intros i a b Ha Hb. assert (a = b) as -> by congruence.
    apply lookup_seq in Ha as [-> Hlt]. apply Hread. done.
Qed.

(** X15. [loadMesh] gives every corner of every loaded face a vertex of
    its own: the vertex list is the list of the loaded corner positions
    in order, the faces keep their kind, and (with at most 2^32 vertices,
    so that no index wraps) the corners name the vertices 0, 1, 2, ... in
    order, each once, and read back the position that was loaded. *)
Theorem loadMesh_one_vertex_per_corner (faces : list LoadedFace) :
  let mesh := loadMesh faces in
  length (mesh_faces mesh) = length faces ∧
  position <$> mesh_vertices mesh = concat (loadedCorners <$> faces) ∧
  Forall2 (λ lf g, isQuad g = is_quad lf ∧ length (indices g) = 4%nat)
          faces (mesh_faces mesh) ∧
  (Z.of_nat (length (mesh_vertices mesh)) ≤ 2 ^ 32 →
   concat ((λ g, take (cornerCount (isQuad g)) (indices g)) <$> mesh_faces mesh)
   = Z.of_nat <$> seq 0 (length (mesh_vertices mesh)) ∧
   wellIndexed mesh ∧
   Forall2
     (λ lf g, ∀ i, (i < cornerCount (is_quad lf))%nat →
                   meshCornerPosition mesh g i = Done (lf_position lf i))
     faces (mesh_faces mesh)).
Proof.
  intros mesh. subst mesh.
  destruct (loadMesh_spec faces) as (HV & HF & HI).
  destruct (loadMesh_size faces) as [_ HL].
  split_and!; try done.
  intros Hsize. split_and!.
  - by apply HI.
  - by apply loadMesh_corners.
  - eapply Forall2_impl; [by apply loadMesh_reads|]. simpl. by intros lf g [_ H].
Qed.

(** X16. A loaded mesh can be subdivided: with at most 2^29 faces its
    model exists and has one vertex for each distinct loaded position, in
    the order of first appearance, so the corners that [loadMesh] kept
    apart are merged; and the driver returns a mesh or throws the exception
    of [moveVertex], for every count [n] that is not negative with [4^n]
    times the face count below 2^31. *)
Theorem loaded_mesh_subdivides (ndebug : bool) (faces : list LoadedFace) :
  4 * Z.of_nat (length faces) ≤ 2 ^ 31 →
  (∃ model,
     meshToModel (loadMesh faces) = Done model ∧
     snapshotPositions model = firsts (concat (loadedCorners <$> faces))) ∧
  ∀ n, 0 ≤ n → 4 ^ n * Z.of_nat (length faces) < 2 ^ 31 →
    (∃ out, applyCatmullClarkSubdivision ndebug (loadMesh faces) n = Done out ∧
            wellIndexed out) ∨
    applyCatmullClarkSubdivision ndebug (loadMesh faces) n = Fail RuntimeError.
Proof.
  intros Hsize.
  destruct (loadMesh_size faces) as [HLV HLF].
  assert (H32 : 2 ^ 32 = 2 * 2 ^ 31) by reflexivity.
  destruct (loadMesh_corners faces) as [Hidx Hcorners]; [lia|].
  split.
  - destruct (meshToModel_succeeds (loadMesh faces) Hidx) as [model Hmodel];
      [rewrite HLF; lia|].
    exists model. split; [done|].
    pose proof (meshToModel_wellBuilt _ _ Hmodel)
      as (_ & _ & _ & _ & _ & _ & _ & _ & (css & Hcss & Hsnap) & _).
    unfold cornerPositions in Hcorners. rewrite Hcss in Hcorners.
    injection Hcorners as <-. done.
  - intros n Hn Hbound. apply driver_runs; try done.
    rewrite HLF. done.
Qed.

End LoaderLaws.

Section WireSimulation.

Context `{RA : RenderArith}.

Lemma accumulate_snoc {A S} (body : S → A → outcome S) (acc : S) (l : list A)
    (a : A) (s s' : S) :
  accumulate body acc l = Done s → body s a = Done s' →
  accumulate body acc (l ++ [a]) = Done s'.
Proof.
  revert acc. induction l as [|x l IH]; intros acc Hl Ha; simpl in *.
  - injection Hl as ->. rewrite Ha. done.
  - apply obind_Done in Hl as (y & Hy & Hl). rewrite Hy. simpl. by apply IH.
Qed.

(** The lambda of the renderer and the member function of the model do
    the same on the same vertex list and map. *)
Lemma getVertexIndex_sim (p : Vec3) (m m' : Model) (w : Renderer.WirePass)
    (r : Z) :
  Renderer.wp_vertices w = snapshotPositions m →
  Renderer.wp_positionToVertex w = positionToVertex m →
  getVertexIndex p m = (Done r, m') →
  ∃ w', Renderer.getVertexIndex p w = (r, w') ∧
        Renderer.wp_vertices w' = snapshotPositions m' ∧
        Renderer.wp_positionToVertex w' = positionToVertex m' ∧
        Renderer.isEdgeAdded w' = Renderer.isEdgeAdded w ∧
        Renderer.wireframeData w' = Renderer.wireframeData w.
Proof.
  intros HV HM Hget. unfold Renderer.getVertexIndex. rewrite HM.
  destruct (getVertexIndex_cases p m) as [(i & Hi & Heq) | [Hnone Heq]];
    rewrite Heq in Hget; injection Hget as <- <-.
  - rewrite Hi. exists w. done.
  - rewrite Hnone.
    assert (Hlen : length (Renderer.wp_vertices w) = length (vertices m))
      by (rewrite HV; apply length_fmap).
    rewrite Hlen. eexists. split; [reflexivity|]. simpl.
    rewrite HV. unfold snapshotPositions. simpl. rewrite fmap_app. done.
Qed.

Lemma resolveAll_snoc (ps : list Vec3) (p : Vec3) (w : Renderer.WirePass) :
  resolveAll (ps ++ [p]) w
  = let '(i, w') := Renderer.getVertexIndex p (resolveAll ps w).2 in
    ((resolveAll ps w).1 ++ [i], w').
Proof. unfold resolveAll. by rewrite foldl_snoc. Qed.

(** The first loop of the face body against the calls of the lambda. *)
Lemma resolveCorners_sim (mesh : Mesh) (f : Face) (l : list nat)
    (m m1 : Model) (vi : list Z) (w : Renderer.WirePass) :
  for_collect (resolveCorner mesh f) l m = (Done vi, m1) →
  Renderer.wp_vertices w = snapshotPositions m →
  Renderer.wp_positionToVertex w = positionToVertex m →
  ∃ ps w1,
    collect (meshCornerPosition mesh f) l = Done ps ∧
    resolveAll ps w = (vi, w1) ∧
    Renderer.wp_vertices w1 = snapshotPositions m1 ∧
    Renderer.wp_positionToVertex w1 = positionToVertex m1 ∧
    Renderer.isEdgeAdded w1 = Renderer.isEdgeAdded w ∧
    Renderer.wireframeData w1 = Renderer.wireframeData w.
Proof.
  intros Hrun HV HM.
  apply (for_collect_ind (resolveCorner mesh f)
           (λ pre rs mm,
              ∃ ps w1,
                collect (meshCornerPosition mesh f) pre = Done ps ∧
                resolveAll ps w = (rs, w1) ∧
                Renderer.wp_vertices w1 = snapshotPositions mm ∧
                Renderer.wp_positionToVertex w1 = positionToVertex mm ∧
                Renderer.isEdgeAdded w1 = Renderer.isEdgeAdded w ∧
                Renderer.wireframeData w1 = Renderer.wireframeData w)
           l m m1 vi) in Hrun; [done | by exists [], w |].
  clear Hrun. intros pre rs a suf mm b mm' _
    (ps & w1 & Hps & Hall & HV1 & HM1 & HE1 & HD1) Hbody.
  apply resolveCorner_Done in Hbody as (idx & v & Hidx & Hv & Hget).
  assert (Hp : meshCornerPosition mesh f a = Done (position v)).
  { unfold meshCornerPosition. rewrite Hidx. simpl. rewrite Hv. done. }
  destruct (getVertexIndex_sim _ _ _ w1 _ HV1 HM1 Hget)
    as (w2 & Hw2 & HV2 & HM2 & HE2 & HD2).
  exists (ps ++ [position v]), w2. split_and!; try done.
  - by apply collect_snoc.
  - rewrite resolveAll_snoc, Hall. simpl. rewrite Hw2. done.
  - congruence.
  - congruence.
Qed.

Lemma swap_sortPair (a b : Z) :
  (if decide (a > b) then (b, a) else (a, b)) = sortPair (a, b).
Proof.
  unfold sortPair. simpl. repeat case_decide; try done; try lia.
  f_equal; lia.
Qed.

Lemma pairSegment_more (ps more : list Vec3) (pr : Z * Z) :
  0 ≤ pr.1 < Z.of_nat (length ps) → 0 ≤ pr.2 < Z.of_nat (length ps) →
  pairSegment (ps ++ more) pr = pairSegment ps pr.
Proof.
  intros H1 H2. unfold pairSegment.
  destruct (at_index_in_range ps pr.1 H1) as [a Ha].
  destruct (at_index_in_range ps pr.2 H2) as [b Hb].
  rewrite Ha, Hb.
  assert (∀ i x, at_index ps i = Done x → at_index (ps ++ more) i = Done x) as Hm.
  { intros i x [Hi Hx]%at_index_Done. apply at_index_Done.
    split; [done|]. by apply lookup_app_l_Some. }
  rewrite (Hm _ _ Ha), (Hm _ _ Hb). done.
Qed.

Lemma endpoints_in_range (m : Model) (pr : Z * Z) :
  edgeEndsInRange m → pr ∈ endpoints m →
  0 ≤ pr.1 < Z.of_nat (length (snapshotPositions m)) ∧
  0 ≤ pr.2 < Z.of_nat (length (snapshotPositions m)).
Proof.
  intros Hends Hpr. unfold snapshotPositions. rewrite length_fmap.
  apply list_elem_of_lookup in Hpr as [k Hk].
  apply endpoints_lookup in Hk as (e & He & ->). simpl.
  unfold edgeEndsInRange in Hends. rewrite Forall_lookup in Hends.
  specialize (Hends k e He). lia.
Qed.

(** The line list stays when vertices are appended. *)
Lemma segments_stable (m m' : Model) (more : list Vec3) :
  edgeEndsInRange m →
  endpoints m' = endpoints m →
  snapshotPositions m' = snapshotPositions m ++ more →
  segments m' = segments m.
Proof.
  intros Hends HE HS. unfold segments. rewrite HE, HS. f_equal.
  apply Forall_fmap_ext, Forall_forall. intros pr Hpr.
  destruct (endpoints_in_range m pr Hends Hpr).
  by apply pairSegment_more.
Qed.

Lemma snapshot_push (vs : list VertexRecord) (a : Z) (va : VertexRecord)
    (g : VertexRecord → VertexRecord) :
  at_index vs a = Done va →
  (∀ v, vr_position (g v) = vr_position v) →
  vr_position <$> <[Z.to_nat a := g va]> vs = vr_position <$> vs.
Proof.
  intros [_ Ha]%at_index_Done Hg. rewrite list_fmap_insert, Hg.
  apply list_insert_id. rewrite list_lookup_fmap, Ha. done.
Qed.

Lemma addEdge_unfold (a b : Z) (w : Renderer.WirePass) :
  Renderer.addEdge a b w
  = if decide (sortPair (a, b) ∈ Renderer.isEdgeAdded w) then Done w
    else
      p0 ← at_index (Renderer.wp_vertices w) (sortPair (a, b)).1;
      p1 ← at_index (Renderer.wp_vertices w) (sortPair (a, b)).2;
      mret {| Renderer.wp_vertices := Renderer.wp_vertices w;
              Renderer.wp_positionToVertex := Renderer.wp_positionToVertex w;
              Renderer.isEdgeAdded :=
                {[ sortPair (a, b) ]} ∪ Renderer.isEdgeAdded w;
              Renderer.wireframeData := Renderer.wireframeData w ++ [p0; p1] |}.
Proof.
  unfold Renderer.addEdge. cbv zeta. rewrite swap_sortPair.
  destruct (sortPair (a, b)) as [x y]. done.
Qed.

Lemma getEdgeIndex_effect (pr : Z * Z) (m mg : Model) (r : Z) :
  getEdgeIndex pr m = (Done r, mg) →
  (is_Some (vertexPairToEdge m !! sortPair pr) ∧
   vertexPairToEdge mg = vertexPairToEdge m ∧ endpoints mg = endpoints m) ∨
  (vertexPairToEdge m !! sortPair pr = None ∧
   vertexPairToEdge mg = <[sortPair pr := r]> (vertexPairToEdge m) ∧
   endpoints mg = endpoints m ++ [sortPair pr]).
Proof.
  intros Hget.
  destruct (getEdgeIndex_cases pr m) as [(i0 & Hi0 & Heq) | [Hnone Heq]];
    rewrite Heq in Hget; injection Hget as <- <-.
  - left. eauto.
  - right. split_and!; try done. unfold endpoints. simpl.
    rewrite fmap_app. simpl. by destruct (sortPair pr).
Qed.

(** One pass of the second loop of the face body against [addEdge]. *)
Lemma resolveEdge_sim (n : nat) (vi : list Z) (i : nat) (m m' : Model)
    (r : Z) (w : Renderer.WirePass) :
  resolveEdge n vi i m = (Done r, m') →
  wireOf m w → edgeEndsInRange m →
  ∃ a b w',
    vi !! i = Some a ∧ vi !! ((i + 1) mod n)%nat = Some b ∧
    Renderer.addEdge a b w = Done w' ∧
    wireOf m' w' ∧ edgeEndsInRange m'.
Proof.
  intros Hbody (HV & HM & HE & HD) Hends.
  apply resolveEdge_Done in Hbody
    as (a & b & mg & va & vb & Ha & Hb & Hget & Hva & Hvb & Hm').
  apply at_index_nat in Ha, Hb.
  destruct (getEdgeIndex_vertices _ _ _ _ Hget) as (Hvg & _ & Hpg).
  pose proof (at_index_range _ _ _ Hva) as Hra.
  pose proof (at_index_range _ _ _ Hvb) as Hrb.
  rewrite length_insert in Hrb. rewrite Hvg in Hra, Hrb.
  assert (Hsnap : snapshotPositions m' = snapshotPositions m).
  { subst m'. unfold snapshotPositions. simpl.
    rewrite (snapshot_push _ b vb (push_edge r) Hvb) by done.
    rewrite (snapshot_push _ a va (push_edge r) Hva) by done.
    rewrite Hvg. done. }
  assert (HP' : positionToVertex m' = positionToVertex m) by (by subst m').
  assert (HQ' : vertexPairToEdge m' = vertexPairToEdge mg) by (by subst m').
  assert (HE' : endpoints m' = endpoints mg) by (by subst m').
  assert (HL' : length (vertices m') = length (vertices m)).
  { subst m'. simpl. rewrite !length_insert. by rewrite Hvg. }
  clear Hm' Hva Hvb.
  assert (Hlen : length (snapshotPositions m) = length (vertices m))
    by apply length_fmap.
  assert (Hold : Forall (λ pr : Z * Z,
                    0 ≤ pr.1 ∧ pr.1 ≤ pr.2 ∧ pr.2 < Z.of_nat (length (vertices m)))
                   (endpoints m)).
  { unfold endpoints. apply Forall_fmap. exact Hends. }
  assert (Hends_of : ∀ mm, Forall (λ pr : Z * Z,
                       0 ≤ pr.1 ∧ pr.1 ≤ pr.2 ∧
                       pr.2 < Z.of_nat (length (vertices mm))) (endpoints mm) →
                     edgeEndsInRange mm).
  { intros mm H. unfold endpoints in H. by apply Forall_fmap in H. }
  exists a, b. rewrite addEdge_unfold.
  destruct (getEdgeIndex_effect _ _ _ _ Hget)
    as [(Hsome & HQ & HEd) | (Hnone & HQ & HEd)].
  - exists w. rewrite decide_True by (rewrite HE; by apply elem_of_dom).
    split_and!; try done.
    + unfold wireOf, segments. rewrite Hsnap, HP', HQ', HE', HQ, HEd. done.
    + apply Hends_of. rewrite HE', HEd, HL'. done.
  - rewrite decide_False by (rewrite HE; by apply not_elem_of_dom).
    pose proof (sortPair_bounds a b _ Hra Hrb) as (Hb1 & Hb2 & Hb3).
    destruct (at_index_in_range (Renderer.wp_vertices w) (sortPair (a, b)).1)
      as [p0 Hp0]; [rewrite HV, Hlen; lia|].
    destruct (at_index_in_range (Renderer.wp_vertices w) (sortPair (a, b)).2)
      as [p1 Hp1]; [rewrite HV, Hlen; lia|].
    rewrite Hp0. simpl. rewrite Hp1. simpl.
    eexists. split_and!; try done.
    + unfold wireOf. simpl. rewrite Hsnap, HP', HQ', HQ. split_and!; try done.
      * rewrite HE. by rewrite dom_insert_L.
      * unfold segments. rewrite Hsnap, HE', HEd.
        rewrite fmap_app, concat_app. simpl. rewrite app_nil_r.
        fold (segments m). rewrite HD. f_equal.
        unfold pairSegment. rewrite <- HV, Hp0, Hp1. done.
    + apply Hends_of. rewrite HE', HEd, HL'.
      apply Forall_app. split; [done|]. constructor; [|constructor]. lia.
Qed.

Lemma sidePairs_snoc (vi : list Z) (l : list nat) (i : nat) (a b : Z) :
  vi !! i = Some a → vi !! ((i + 1) mod length vi)%nat = Some b →
  sidePairs vi (l ++ [i]) = sidePairs vi l ++ [(a, b)].
Proof.
  intros Ha Hb. unfold sidePairs. rewrite omap_app. f_equal.
  simpl. rewrite Ha. simpl. rewrite Hb. done.
Qed.

(** The second loop of the face body against the calls of [addEdge]. *)
Lemma resolveEdges_sim (n : nat) (vi : list Z) (l : list nat)
    (m1 m2 : Model) (ei : list Z) (w1 : Renderer.WirePass) :
  for_collect (resolveEdge n vi) l m1 = (Done ei, m2) →
  length vi = n →
  wireOf m1 w1 → edgeEndsInRange m1 →
  ∃ w2, addEdges (sidePairs vi l) w1 = Done w2 ∧
        wireOf m2 w2 ∧ edgeEndsInRange m2.
Proof.
  intros Hrun Hlen Hw Hends.
  apply (for_collect_ind (resolveEdge n vi)
           (λ pre rs mm,
              ∃ w2, addEdges (sidePairs vi pre) w1 = Done w2 ∧
                    wireOf mm w2 ∧ edgeEndsInRange mm)
           l m1 m2 ei) in Hrun; [done | by exists w1 |].
  clear Hrun. intros pre rs i suf mm r mm' _ (w2 & Hw2 & Hwire & Hends2) Hbody.
  destruct (resolveEdge_sim _ _ _ _ _ _ w2 Hbody Hwire Hends2)
    as (a & b & w3 & Ha & Hb & Hadd & Hwire3 & Hends3).
  exists w3. split_and!; try done.
  rewrite <- Hlen in Hb. rewrite (sidePairs_snoc _ _ _ _ _ Ha Hb).
  unfold addEdges in *. by eapply accumulate_snoc.
Qed.

Opaque Renderer.getVertexIndex Renderer.addEdge meshCornerPosition.

(** The body of the wireframe loop, with the reads of the corners first
    and the calls of the lambdas as loops. *)
Lemma wireFace_loops (mesh : Mesh) (w : Renderer.WirePass) (f : Face) :
  Renderer.wireFace mesh w f
  = ps ← faceCorners mesh f;
    addEdges (sidePairs (resolveAll ps w).1 (seq 0 (cornerCount (isQuad f))))
             (resolveAll ps w).2.
Proof.
  unfold Renderer.wireFace, faceCorners.
  destruct (isQuad f); simpl.
  - destruct (meshCornerPosition mesh f 0) as [p0|e0]; simpl; [|done].
    destruct (meshCornerPosition mesh f 1) as [p1|e1]; simpl.
    2:{ by destruct (Renderer.getVertexIndex p0 w). }
    destruct (meshCornerPosition mesh f 2) as [p2|e2]; simpl.
    2:{ destruct (Renderer.getVertexIndex p0 w) as [a w1].
        by destruct (Renderer.getVertexIndex p1 w1). }
    destruct (meshCornerPosition mesh f 3) as [p3|e3]; simpl.
    2:{ destruct (Renderer.getVertexIndex p0 w) as [a w1].
        destruct (Renderer.getVertexIndex p1 w1) as [b w2].
        by destruct (Renderer.getVertexIndex p2 w2). }
    unfold resolveAll. simpl.
    destruct (Renderer.getVertexIndex p0 w) as [a w1]. simpl.
    destruct (Renderer.getVertexIndex p1 w1) as [b w2]. simpl.
    destruct (Renderer.getVertexIndex p2 w2) as [c w3]. simpl.
    destruct (Renderer.getVertexIndex p3 w3) as [d w4]. simpl.
    unfold addEdges. simpl.
    destruct (Renderer.addEdge a b w4) as [w5|]; simpl; [|done].
    destruct (Renderer.addEdge b c w5) as [w6|]; simpl; [|done].
    destruct (Renderer.addEdge c d w6) as [w7|]; simpl; [|done].
    by destruct (Renderer.addEdge d a w7).
  - destruct (meshCornerPosition mesh f 0) as [p0|e0]; simpl; [|done].
    destruct (meshCornerPosition mesh f 1) as [p1|e1]; simpl.
    2:{ by destruct (Renderer.getVertexIndex p0 w). }
    destruct (meshCornerPosition mesh f 2) as [p2|e2]; simpl.
    2:{ destruct (Renderer.getVertexIndex p0 w) as [a w1].
        by destruct (Renderer.getVertexIndex p1 w1). }
    unfold resolveAll. simpl.
    destruct (Renderer.getVertexIndex p0 w) as [a w1]. simpl.
    destruct (Renderer.getVertexIndex p1 w1) as [b w2]. simpl.
    destruct (Renderer.getVertexIndex p2 w2) as [c w3]. simpl.
    unfold addEdges. simpl.
    destruct (Renderer.addEdge a b w3) as [w5|]; simpl; [|done].
    destruct (Renderer.addEdge b c w5) as [w6|]; simpl; [|done].
    by destruct (Renderer.addEdge c a w6).
Qed.

Transparent Renderer.getVertexIndex Renderer.addEdge meshCornerPosition.

Lemma noteFaceOnEdges_endpoints (ei : list Z) (fi : Z) (l : list nat)
    (m m' : Model) :
  for_each (noteFaceOnEdge ei fi) l m = (Done (), m') →
  endpoints m' = endpoints m.
Proof.
  intros Hrun.
  apply (for_each_preserves (λ mm, endpoints mm = endpoints m)
           (noteFaceOnEdge ei fi) l m m'); [|done|done].
  intros i mm mm' Hmm Hbody.
  apply noteFaceOnEdge_Done in Hbody as (x & e & _ & He & ->).
  rewrite <- Hmm. unfold endpoints. simpl.
  apply at_index_Done in He as [_ He].
  rewrite list_fmap_insert. apply list_insert_id.
  rewrite list_lookup_fmap, He. simpl.
  destruct (bump_endpoints fi e) as [-> ->]. done.
Qed.

(** The body of the wireframe loop does to the locals of [setMesh] what
    the face body of [meshToModel] does to the model. *)
Lemma addFace_wire (mesh : Mesh) (pre : list Face) (f : Face) (m m' : Model)
    (w : Renderer.WirePass) :
  wellBuilt mesh pre m →
  addFace mesh f m = (Done (), m') →
  wireOf m w →
  ∃ w', Renderer.wireFace mesh w f = Done w' ∧ wireOf m' w'.
Proof.
  intros Hw Hface (HV & HM & HE & HD).
  pose proof Hw as (_ & _ & _ & _ & Hends & _).
  apply addFace_Done in Hface as (vi & m1 & ei & m2 & m3 & H1 & H2 & H3 & H4).
  set (n := cornerCount (isQuad f)) in *.
  destruct (resolveCorners_sim _ _ _ _ _ _ w H1 HV HM)
    as (ps & w1 & Hps & Hall & HV1 & HM1 & HE1 & HD1).
  destruct (resolveCorners_spec _ _ _ _ _ _ H1)
    as (HEd1 & _ & HP1 & (news & HVs1 & _ & _) & _ & _).
  pose proof (for_collect_length _ _ _ _ _ H1) as Hlvi.
  rewrite length_seq in Hlvi.
  assert (Hends1 : edgeEndsInRange m1).
  { unfold edgeEndsInRange in *. rewrite HEd1, HVs1, length_app.
    eapply Forall_impl; [exact Hends|]. simpl. intros e. lia. }
  assert (Hwire1 : wireOf m1 w1).
  { unfold wireOf. split_and!; try done.
    - rewrite HE1, HE, HP1. done.
    - rewrite HD1, HD. symmetry.
      apply (segments_stable m m1 (vr_position <$> news)); [done | |].
      + unfold endpoints. by rewrite HEd1.
      + unfold snapshotPositions. rewrite HVs1, fmap_app. done. }
  destruct (resolveEdges_sim _ _ _ _ _ _ w1 H2 Hlvi Hwire1 Hends1)
    as (w2 & Hadd & (HV2 & HM2 & HE2 & HD2) & _).
  exists w2. split.
  - rewrite wireFace_loops. unfold faceCorners. fold n. rewrite Hps. simpl.
    rewrite Hall. done.
  - destruct (noteFaceOnVertices_spec _ _ _ _ _ H3)
      as (HP3 & _ & HE3 & HM3 & HL3 & Hpos3).
    destruct (noteFaceOnEdges_frame _ _ _ _ _ H4) as (HV4 & _ & HP4 & HM4 & _).
    pose proof (noteFaceOnEdges_endpoints _ _ _ _ _ H4) as HEnd4.
    simpl in HP3, HE3, HM3, HL3, Hpos3.
    assert (Hsnap : snapshotPositions m' = snapshotPositions m2).
    { unfold snapshotPositions at 1. rewrite HV4. fold (snapshotPositions m3).
      apply snapshot_same; [done|]. intros k v Hk.
      destruct (Hpos3 k v Hk) as (v' & Hv' & Hp & _). eauto. }
    unfold wireOf, segments. rewrite Hsnap, HP4, HP3, HM4, HM3, HEnd4.
    unfold endpoints at 1. rewrite HE3. done.
Qed.

(** The wireframe loop of [setMesh] against the loop of [meshToModel]. *)
Lemma build_wire (mesh : Mesh) (fs pre : list Face) (m m' : Model)
    (w : Renderer.WirePass) :
  wellBuilt mesh pre m →
  for_each (addFace mesh) fs m = (Done (), m') →
  wireOf m w →
  ∃ w', accumulate (Renderer.wireFace mesh) w fs = Done w' ∧ wireOf m' w'.
Proof.
  revert pre m w. induction fs as [|f fs IH]; intros pre m w Hw Hrun Hwire.
  - injection Hrun as <-. exists w. done.
  - simpl in Hrun. apply mthen_Done in Hrun as ([] & m1 & Hface & Hrest).
    destruct (addFace_wire _ _ _ _ _ w Hw Hface Hwire) as (w1 & Hw1 & Hwire1).
    pose proof (addFace_wellBuilt _ _ _ _ _ Hw Hface) as Hw'.
    destruct (IH _ _ w1 Hw' Hrest Hwire1) as (w' & Hacc & Hwire').
    exists w'. split; [|done]. simpl. rewrite Hw1. done.
Qed.

Lemma wireOf_empty : wireOf emptyModel Renderer.emptyWire.
Proof. unfold wireOf. split_and!; done. Qed.

End WireSimulation.

Section RendererLaws.

Context `{RA : RenderArith}.

Lemma quadsOf_cons (f : Face) (fs : list Face) :
  quadsOf (f :: fs) = ((if isQuad f then 1 else 0) + quadsOf fs)%nat ∧
  trianglesOf (f :: fs) = ((if isQuad f then 0 else 1) + trianglesOf fs)%nat.
Proof.
  unfold quadsOf, trianglesOf. rewrite !filter_cons.
  destruct (isQuad f); simpl; done.
Qed.

Lemma kinds_total (fs : list Face) :
  (quadsOf fs + trianglesOf fs = length fs)%nat.
Proof.
  induction fs as [|f fs IH]; [done|].
  destruct (quadsOf_cons f fs) as [-> ->]. simpl. destruct (isQuad f); lia.
Qed.

Lemma increment_Done (c : Z) : c < 2 ^ 31 - 1 → Renderer.increment c = Done (c + 1).
Proof. intros Hc. unfold Renderer.increment. by rewrite decide_True. Qed.

(** The first loop of [setMesh]. *)
Lemma solid_runs (mesh : Mesh) (fs : list Face) (s : Renderer.SolidPass) :
  Forall (faceIndexed mesh) fs →
  0 ≤ Renderer.quads s → 0 ≤ Renderer.triangles s →
  Renderer.quads s + Renderer.triangles s + Z.of_nat (length fs) < 2 ^ 31 →
  ∃ s', accumulate (Renderer.solidFace mesh) s fs = Done s' ∧
        Renderer.quads s' = Renderer.quads s + Z.of_nat (quadsOf fs) ∧
        Renderer.triangles s' = Renderer.triangles s + Z.of_nat (trianglesOf fs) ∧
        length (Renderer.vertex_data s')
        = (length (Renderer.vertex_data s)
           + 6 * quadsOf fs + 3 * trianglesOf fs)%nat.
Proof.
  revert s. induction fs as [|f fs IH]; intros s Hfs Hq Ht Hsize.
  - exists s. unfold quadsOf, trianglesOf. simpl. split_and!; try done; lia.
  - apply Forall_cons in Hfs as [Hf Hfs]. simpl in Hsize.
    destruct (quadsOf_cons f fs) as [HQ HT]. rewrite HQ, HT.
    pose proof (faceIndexed_reads mesh f) as Hread.
    assert (Hstep : ∃ s1, Renderer.solidFace mesh s f = Done s1 ∧
              Renderer.quads s1
                = Renderer.quads s + (if isQuad f then 1 else 0) ∧
              Renderer.triangles s1
                = Renderer.triangles s + (if isQuad f then 0 else 1) ∧
              length (Renderer.vertex_data s1)
                = (length (Renderer.vertex_data s)
                   + (if isQuad f then 6 else 3))%nat).
    { unfold Renderer.solidFace. destruct (isQuad f) eqn:Hquad.
      - destruct (Hread 0%nat Hf) as [v0 H0]; [simpl; lia|].
        destruct (Hread 1%nat Hf) as [v1 H1]; [simpl; lia|].
        destruct (Hread 2%nat Hf) as [v2 H2]; [simpl; lia|].
        destruct (Hread 3%nat Hf) as [v3 H3]; [simpl; lia|].
        rewrite H0, H1, H2, H3. simpl.
        rewrite increment_Done by lia. simpl.
        eexists. split; [reflexivity|]. simpl. rewrite length_app. simpl.
        split_and!; lia.
      - destruct (Hread 0%nat Hf) as [v0 H0]; [simpl; lia|].
        destruct (Hread 1%nat Hf) as [v1 H1]; [simpl; lia|].
        destruct (Hread 2%nat Hf) as [v2 H2]; [simpl; lia|].
        rewrite H0, H1, H2. simpl.
        rewrite increment_Done by lia. simpl.
        eexists. split; [reflexivity|]. simpl. rewrite length_app. simpl.
        split_and!; lia. }
    destruct Hstep as (s1 & Hs1 & Hq1 & Ht1 & Hl1).
    destruct (IH s1 Hfs) as (s' & Hs' & Hq' & Ht' & Hl').
    { rewrite Hq1. destruct (isQuad f); lia. }
    { rewrite Ht1. destruct (isQuad f); lia. }
    { rewrite Hq1, Ht1. destruct (isQuad f); lia. }
    exists s'. simpl. rewrite Hs1. simpl. split; [done|].
    rewrite Hq', Ht', Hl', Hq1, Ht1, Hl1.
    destruct (isQuad f); split_and!; lia.
Qed.

Lemma obind_Fail {A B} (x : outcome A) (k : A → outcome B) (e : failure) :
  x ≫= k = Fail e → x = Fail e ∨ ∃ a, x = Done a ∧ k a = Fail e.
Proof. destruct x as [a|e']; simpl; intros H; [right; eauto | left; congruence]. Qed.

Lemma meshCornerPosition_fail (mesh : Mesh) (f : Face) (i : nat) (e : failure) :
  meshCornerPosition mesh f i = Fail e → e = OutOfBounds.
Proof.
  unfold meshCornerPosition. intros H.
  apply obind_Fail in H as [H|(idx & _ & H)]; [by eapply at_index_fail|].
  apply obind_Fail in H as [H|(v & _ & H)]; [by eapply at_index_fail | done].
Qed.

Lemma accumulate_fail {A S} (body : S → A → outcome S) (acc : S) (l : list A)
    (e : failure) :
  (∀ s a e', body s a = Fail e' → e' = OutOfBounds) →
  accumulate body acc l = Fail e → e = OutOfBounds.
Proof.
  intros Hbody. revert acc. induction l as [|a l IH]; intros acc H; [done|].
  simpl in H. apply obind_Fail in H as [H|(s & _ & H)]; eauto.
Qed.

Lemma collect_fail {A B} (body : A → outcome B) (l : list A) (e : failure) :
  (∀ a e', body a = Fail e' → e' = OutOfBounds) →
  collect body l = Fail e → e = OutOfBounds.
Proof.
  intros Hbody. induction l as [|a l IH]; intros H; [done|].
  simpl in H. apply obind_Fail in H as [H|(b & _ & H)]; [eauto|].
  apply obind_Fail in H as [H|(bs & _ & H)]; [eauto | done].
Qed.

Lemma increment_fail (c : Z) (e : failure) :
  Renderer.increment c = Fail e → e = OutOfBounds.
Proof. unfold Renderer.increment. case_decide; congruence. Qed.

Lemma solidFace_fail (mesh : Mesh) (s : Renderer.SolidPass) (f : Face)
    (e : failure) :
  Renderer.solidFace mesh s f = Fail e → e = OutOfBounds.
Proof.
  unfold Renderer.solidFace. intros H.
  destruct (isQuad f);
    repeat (apply obind_Fail in H as [H|(? & _ & H)];
            [by eapply meshCornerPosition_fail|]);
    (apply obind_Fail in H as [H|(? & _ & H)]; [by eapply increment_fail | done]).
Qed.

Lemma addEdge_fail (a b : Z) (w : Renderer.WirePass) (e : failure) :
  Renderer.addEdge a b w = Fail e → e = OutOfBounds.
Proof.
  rewrite addEdge_unfold. case_decide as Hin; [done|]. intros H.
  apply obind_Fail in H as [H|(? & _ & H)]; [by eapply at_index_fail|].
  apply obind_Fail in H as [H|(? & _ & H)]; [by eapply at_index_fail | done].
Qed.

Lemma wireFace_fail (mesh : Mesh) (w : Renderer.WirePass) (f : Face)
    (e : failure) :
  Renderer.wireFace mesh w f = Fail e → e = OutOfBounds.
Proof.
  rewrite wireFace_loops. intros H.
  apply obind_Fail in H as [H|(ps & _ & H)].
  - unfold faceCorners in H. eapply collect_fail; [|exact H].
    intros i e'. apply meshCornerPosition_fail.
  - unfold addEdges in H. eapply accumulate_fail; [|exact H].
    intros w0 pr e'. apply addEdge_fail.
Qed.

Lemma solidFace_reads (mesh : Mesh) (s s' : Renderer.SolidPass) (f : Face) :
  Renderer.solidFace mesh s f = Done s' → faceIndexed mesh f.
Proof.
  unfold Renderer.solidFace. intros H. apply reads_faceIndexed. intros i Hi.
  destruct (isQuad f); simpl in Hi.
  - apply obind_Done in H as (v0 & H0 & H).
    apply obind_Done in H as (v1 & H1 & H).
    apply obind_Done in H as (v2 & H2 & H).
    apply obind_Done in H as (v3 & H3 & H).
    destruct i as [|[|[|[|i]]]]; eauto. lia.
  - apply obind_Done in H as (v0 & H0 & H).
    apply obind_Done in H as (v1 & H1 & H).
    apply obind_Done in H as (v2 & H2 & H).
    destruct i as [|[|[|i]]]; eauto. lia.
Qed.

Lemma solid_reads (mesh : Mesh) (fs : list Face) (s s' : Renderer.SolidPass) :
  accumulate (Renderer.solidFace mesh) s fs = Done s' →
  Forall (faceIndexed mesh) fs.
Proof.
  revert s. induction fs as [|f fs IH]; intros s H; [constructor|].
  simpl in H. apply obind_Done in H as (s1 & H1 & H).
  constructor; [by eapply solidFace_reads | by eapply IH].
Qed.

Lemma pairs_dom (m : Model) :
  pairsNumbered m → dom (vertexPairToEdge m) = list_to_set (endpoints m).
Proof.
  intros HP. apply set_eq. intros pr.
  rewrite elem_of_dom, elem_of_list_to_set, list_elem_of_lookup. split.
  - intros [i Hi]. apply HP in Hi as (k & _ & Hk). eauto.
  - intros [k Hk]. exists (to_int (Z.of_nat k)). apply HP. eauto.
Qed.

Lemma built_endpoints_NoDup (mesh : Mesh) (pre : list Face) (m : Model) :
  wellBuilt mesh pre m → NoDup (endpoints m).
Proof.
  intros (_ & (HES & _) & _ & HP & _).
  apply NoDup_alt. intros i j pr Hi Hj.
  pose proof (lookup_lt_Some _ _ _ Hi) as Hli.
  pose proof (lookup_lt_Some _ _ _ Hj) as Hlj.
  unfold endpoints in Hli, Hlj. rewrite length_fmap in Hli, Hlj.
  assert (H1 : vertexPairToEdge m !! pr = Some (to_int (Z.of_nat i)))
    by (apply HP; eauto).
  assert (H2 : vertexPairToEdge m !! pr = Some (to_int (Z.of_nat j)))
    by (apply HP; eauto).
  rewrite H1 in H2. injection H2 as H2.
  rewrite !to_int_small in H2 by lia. lia.
Qed.

Lemma segments_length (m : Model) :
  edgeEndsInRange m → length (segments m) = (2 * length (edges m))%nat.
Proof.
  intros Hends. unfold segments.
  assert (Hall : Forall (λ l, length l = 2%nat)
                   (pairSegment (snapshotPositions m) <$> endpoints m)).
  { apply Forall_fmap, Forall_forall. intros pr Hpr. simpl.
    destruct (endpoints_in_range m pr Hends Hpr) as [H1 H2].
    unfold pairSegment.
    destruct (at_index_in_range _ _ H1) as [a ->].
    destruct (at_index_in_range _ _ H2) as [b ->]. done. }
  assert (Hlen : length (pairSegment (snapshotPositions m) <$> endpoints m)
                 = length (edges m)).
  { unfold endpoints. by rewrite !length_fmap. }
  rewrite <- Hlen. clear Hlen.
  induction Hall as [|l ls Hl _ IH]; [done|].
  simpl. rewrite length_app, IH, Hl. lia.
Qed.

End RendererLaws.

Section RendererTheorems.

Context `{RA : RenderArith}.

(** What [setMesh] stores for a mesh that has a model. *)
Lemma setMesh_facts (mesh : Mesh) (model : Model) (r : Renderer.Renderer) :
  meshToModel mesh = Done model →
  4 * Z.of_nat (length (mesh_faces mesh)) < 2 ^ 31 →
  ∃ r',
    Renderer.setMesh mesh r = Done r' ∧
    Renderer.vertexCount_ r' = Z.of_nat (length (vertices model)) ∧
    Renderer.edgeCount_ r' = Z.of_nat (length (edges model)) ∧
    Renderer.quadCount_ r' = Z.of_nat (quadsOf (mesh_faces mesh)) ∧
    Renderer.triangleCount_ r' = Z.of_nat (trianglesOf (mesh_faces mesh)) ∧
    Renderer.wireframeBuffer_ r' = segments model ∧
    length (Renderer.solidBuffer_ r')
    = (6 * quadsOf (mesh_faces mesh) + 3 * trianglesOf (mesh_faces mesh))%nat ∧
    (Renderer.world_ r', Renderer.viewProj_ r', Renderer.wireframe_ r',
     Renderer.solidVSTransform_ r', Renderer.wireframeVSTransform_ r')
    = (Renderer.world_ r, Renderer.viewProj_ r, Renderer.wireframe_ r,
       Renderer.solidVSTransform_ r, Renderer.wireframeVSTransform_ r).
Proof.
  intros Hmodel Hsize.
  pose proof (meshToModel_wellBuilt _ _ Hmodel) as Hw.
  pose proof (meshToModel_wellIndexed _ _ Hmodel) as Hidx.
  pose proof Hw as (_ & _ & _ & HP & _ & _ & _ & _ & _ & HLV & HLE).
  pose proof (cornerTotal_bound (mesh_faces mesh)) as Hb.
  destruct (solid_runs mesh (mesh_faces mesh)
              {| Renderer.vertex_data := []; Renderer.triangles := 0;
                 Renderer.quads := 0 |} Hidx)
    as (s & Hs & Hq & Ht & Hl); [simpl; lia | simpl; lia | simpl; lia |].
  simpl in Hq, Ht, Hl.
  apply meshToModel_Done in Hmodel. unfold buildModel in Hmodel.
  destruct (build_wire mesh (mesh_faces mesh) [] emptyModel model
              Renderer.emptyWire (wellBuilt_empty mesh) Hmodel wireOf_empty)
    as (w & Hwrun & (HV & HM & HE & HD)).
  unfold Renderer.setMesh. rewrite Hs. simpl. rewrite Hwrun. simpl.
  eexists. split; [reflexivity|]. simpl. split_and!; try done.
  - rewrite HV. unfold snapshotPositions. rewrite length_fmap.
    apply to_int_small. lia.
  - rewrite HE, (pairs_dom _ HP).
    rewrite size_list_to_set by (by eapply built_endpoints_NoDup).
    unfold endpoints. rewrite length_fmap. apply to_int_small. lia.
Qed.

(** X17. [setMesh] on a mesh that has a model, with fewer than 2^29
    faces: the call returns; the vertex count and the edge count it stores
    are the numbers of vertices and of edges of the model of
    [meshToModel]; the quad and triangle counts are those of the mesh; the
    wireframe buffer holds, for each edge of the model in order, the
    positions of its two ends, so every edge is drawn once; the solid
    buffer holds six vertices for a quad and three for a triangle; the
    transforms and the wireframe flag stay. *)
Theorem setMesh_shows_the_model (mesh : Mesh) (model : Model)
    (r : Renderer.Renderer) :
  meshToModel mesh = Done model →
  4 * Z.of_nat (length (mesh_faces mesh)) < 2 ^ 31 →
  ∃ r',
    Renderer.setMesh mesh r = Done r' ∧
    Renderer.getVertexCount r' = Z.of_nat (length (vertices model)) ∧
    Renderer.getEdgeCount r' = Z.of_nat (length (edges model)) ∧
    Renderer.getQuadCount r' = Z.of_nat (quadsOf (mesh_faces mesh)) ∧
    Renderer.getTriangleCount r' = Z.of_nat (trianglesOf (mesh_faces mesh)) ∧
    Renderer.getQuadCount r' + Renderer.getTriangleCount r'
    = Z.of_nat (length (faces model)) ∧
    Renderer.wireframeBuffer_ r' = segments model ∧
    length (Renderer.wireframeBuffer_ r') = (2 * length (edges model))%nat ∧
    NoDup (endpoints model) ∧
    length (Renderer.solidBuffer_ r')
    = (6 * quadsOf (mesh_faces mesh) + 3 * trianglesOf (mesh_faces mesh))%nat ∧
    (Renderer.world_ r', Renderer.viewProj_ r', Renderer.wireframe_ r',
     Renderer.solidVSTransform_ r', Renderer.wireframeVSTransform_ r')
    = (Renderer.world_ r, Renderer.viewProj_ r, Renderer.wireframe_ r,
       Renderer.solidVSTransform_ r, Renderer.wireframeVSTransform_ r).
Proof.
  intros Hmodel Hsize.
  destruct (setMesh_facts mesh model r Hmodel Hsize)
    as (r' & Hrun & HV & HE & HQ & HT & HW & HS & Hkeep).
  pose proof (meshToModel_wellBuilt _ _ Hmodel) as Hw.
  pose proof Hw as (_ & _ & _ & _ & Hends & _).
  exists r'. unfold Renderer.getVertexCount, Renderer.getEdgeCount,
    Renderer.getQuadCount, Renderer.getTriangleCount.
  split_and!; try done.
  - rewrite HQ, HT, (meshToModel_face_count _ _ Hmodel).
    pose proof (kinds_total (mesh_faces mesh)). lia.
  - rewrite HW. by apply segments_length.
  - by eapply built_endpoints_NoDup.
Qed.

(** X18. [setMesh] takes the meshes that [meshToModel] takes: with fewer
    than 2^29 faces the call returns exactly when every corner of every
    face names a vertex of the mesh, and it can end in no other way than
    the unchecked access. *)
Theorem setMesh_runs_iff_indexed (mesh : Mesh) (r : Renderer.Renderer) :
  4 * Z.of_nat (length (mesh_faces mesh)) < 2 ^ 31 →
  ((∃ r', Renderer.setMesh mesh r = Done r') ↔ wellIndexed mesh) ∧
  ((∃ r', Renderer.setMesh mesh r = Done r') ↔
   (∃ model, meshToModel mesh = Done model)) ∧
  (∀ e, Renderer.setMesh mesh r = Fail e → e = OutOfBounds).
Proof.
  intros Hsize.
  assert (Hiff : (∃ r', Renderer.setMesh mesh r = Done r') ↔ wellIndexed mesh).
  { split.
    - intros [r' Hrun]. unfold Renderer.setMesh in Hrun.
      apply obind_Done in Hrun as (s & Hs & _). by eapply solid_reads.
    - intros Hidx.
      destruct (meshToModel_succeeds mesh Hidx) as [model Hmodel]; [lia|].
      destruct (setMesh_facts mesh model r Hmodel Hsize) as (r' & Hrun & _).
      eauto. }
  split_and!; [exact Hiff | |].
  - rewrite Hiff. split.
    + intros Hidx. apply meshToModel_succeeds; [done | lia].
    + intros [model Hmodel]. by eapply meshToModel_wellIndexed.
  - intros e Hrun. unfold Renderer.setMesh in Hrun.
    apply obind_Fail in Hrun as [Hrun|(s & _ & Hrun)].
    { eapply accumulate_fail; [|exact Hrun]. intros s f e'.
      apply solidFace_fail. }
    apply obind_Fail in Hrun as [Hrun|(w & _ & Hrun)]; [|done].
    eapply accumulate_fail; [|exact Hrun]. intros w f e'. apply wireFace_fail.
Qed.

Lemma iterate_last (k : nat) (mesh out : Mesh) :
  iterateOutcome (S k) subdivisionStep mesh = Done out →
  ∃ mid, subdivisionStep mid = Done out.
Proof.
  revert mesh. induction k as [|k IH]; intros mesh Hrun;
    rewrite iterateOutcome_S in Hrun;
    apply obind_Done in Hrun as (mid & Hmid & Hrest).
  - injection Hrest as <-. eauto.
  - by eapply IH.
Qed.

Lemma trianglesOf_quads (fs : list Face) :
  Forall (λ q, isQuad q = true) fs →
  trianglesOf fs = 0%nat ∧ quadsOf fs = length fs.
Proof.
  induction 1 as [|q fs Hq _ [IH1 IH2]]; [done|].
  destruct (quadsOf_cons q fs) as [-> ->]. rewrite Hq, IH1, IH2. done.
Qed.

(** X19. The result of the driver in the renderer: a mesh returned for a
    count of at least one, with fewer than 2^29 faces, is taken by
    [setMesh], which then shows no triangle, as many quads as the mesh has
    faces, and six solid vertices for each. *)
Theorem subdivided_mesh_is_shown (ndebug : bool) (mesh out : Mesh) (n : Z)
    (r : Renderer.Renderer) :
  1 ≤ n →
  applyCatmullClarkSubdivision ndebug mesh n = Done out →
  4 * Z.of_nat (length (mesh_faces out)) < 2 ^ 31 →
  ∃ r' model,
    meshToModel out = Done model ∧
    Renderer.setMesh out r = Done r' ∧
    Renderer.getTriangleCount r' = 0 ∧
    Renderer.getQuadCount r' = Z.of_nat (length (mesh_faces out)) ∧
    length (Renderer.solidBuffer_ r') = (6 * length (mesh_faces out))%nat ∧
    Renderer.getVertexCount r' = Z.of_nat (length (vertices model)) ∧
    Renderer.getEdgeCount r' = Z.of_nat (length (edges model)).
Proof.
  intros Hn Hrun Hsize. unfold applyCatmullClarkSubdivision in Hrun.
  rewrite bool_decide_eq_false_2 in Hrun by lia. rewrite andb_false_r in Hrun.
  replace (Z.to_nat n) with (S (Z.to_nat (n - 1))) in Hrun by lia.
  destruct (iterate_last _ _ _ Hrun) as [mid Hmid].
  destruct (subdivisionStep_facts _ _ Hmid) as (Hidx & Hquads & _).
  destruct (meshToModel_succeeds out Hidx) as [model Hmodel]; [lia|].
  destruct (setMesh_facts out model r Hmodel Hsize)
    as (r' & Hset & HV & HE & HQ & HT & _ & HS & _).
  destruct (trianglesOf_quads _ Hquads) as [Ht Hq].
  exists r', model. unfold Renderer.getVertexCount, Renderer.getEdgeCount,
    Renderer.getQuadCount, Renderer.getTriangleCount.
  rewrite HT, HQ, HS, Ht, Hq. split_and!; try done; lia.
Qed.

(** X20. The two setters of the transforms commute, and after both the
    constant buffers hold the product of the world matrix and the
    view-projection matrix that were set, with the world matrix beside it
    for the solid shader; the buffers of the mesh and the counts stay. *)
Theorem transform_setters_commute (world viewProj : Mat4)
    (r : Renderer.Renderer) :
  let r1 := Renderer.setCameraViewProj viewProj
              (Renderer.setWorldTransform world r) in
  let r2 := Renderer.setWorldTransform world
              (Renderer.setCameraViewProj viewProj r) in
  r1 = r2 ∧
  Renderer.solidVSTransform_ r1 = (mmul world viewProj, world) ∧
  Renderer.wireframeVSTransform_ r1 = mmul world viewProj ∧
  Renderer.world_ r1 = world ∧ Renderer.viewProj_ r1 = viewProj ∧
  Renderer.solidBuffer_ r1 = Renderer.solidBuffer_ r ∧
  Renderer.wireframeBuffer_ r1 = Renderer.wireframeBuffer_ r ∧
  Renderer.getVertexCount r1 = Renderer.getVertexCount r ∧
  Renderer.getEdgeCount r1 = Renderer.getEdgeCount r.
Proof. intros r1 r2. subst r1 r2. split_and!; reflexivity. Qed.

End RendererTheorems.

(* ================================================================== *)
(** * The further statements on the sample meshes *)

Module MoreExamples.
Import Binary32 Binary32Render Samples MoreSamples.

Ltac by_computation := apply (bool_decide_unpack _); vm_compute; exact I.

Lemma twoTriangles_model : meshToModel twoTriangles = Done twoTrianglesModel.
Proof. by_computation. Qed.

Lemma twoTriangles_indexed : wellIndexed twoTriangles.
Proof. exact (meshToModel_wellIndexed _ _ twoTriangles_model). Qed.

Lemma twoTriangles_pass :
  applyCatmullClarkSubdivision false twoTriangles 1 = Done twoTrianglesNewMesh.
Proof. by_computation. Qed.

Lemma twoTriangles_lifted :
  moveVertex 0 (vec 0 0 7) twoTrianglesModel = (Done (), twoTrianglesLifted).
Proof. by_computation. Qed.

(** X1 on the model of the two triangles: the position of vertex 2. *)
Lemma getVertexIndex_finds_or_adds_witness :
  positionsIndexed twoTrianglesModel ∧
  ∃ i m', getVertexIndex (vec 4 4 0) twoTrianglesModel = (Done i, m') ∧
          getVertexIndex (vec 4 4 0) m' = (Done i, m').
Proof.
  pose proof (meshToModel_indexed _ _ twoTriangles_model) as Hidx.
  destruct (getVertexIndex_finds_or_adds (VA := arith) (vec 4 4 0)
              twoTrianglesModel Hidx)
    as (i & m' & Hrun & _ & _ & Hagain & _); [simpl; lia|].
  split; [exact Hidx|]. exists i, m'. split; [exact Hrun | exact Hagain].
Defined.


(** X4 on the model of the two triangles: vertex 0 lifted and put back. *)
Lemma moveVertex_there_and_back_witness :
  let v0 := {| vr_position := vec 0 0 0; vr_edges := [0; 2; 2; 4];
               vr_faces := [0; 1] |} in
  at_index (vertices twoTrianglesModel) 0 = Done v0 ∧
  moveVertex 0 (vec 0 0 7) twoTrianglesModel = (Done (), twoTrianglesLifted) ∧
  moveVertex 0 (vec 0 0 0) twoTrianglesLifted = (Done (), twoTrianglesModel).
Proof.
  intros v0.
  assert (H0 : at_index (vertices twoTrianglesModel) 0 = Done v0)
    by by_computation.
  split_and!; [exact H0 | exact twoTriangles_lifted |].
  exact (moveVertex_there_and_back twoTrianglesModel twoTrianglesLifted 0 v0
           (vec 0 0 7) (meshToModel_indexed _ _ twoTriangles_model) H0
           twoTriangles_lifted).
Defined.

(** X5 on three vertices without a face. *)
Lemma no_faces_empty_mesh_witness :
  mesh_faces looseVertices = [] ∧
  applyCatmullClarkSubdivision false looseVertices 3 = Done emptyMesh.
Proof.
  destruct (no_faces_empty_mesh false looseVertices 3 eq_refl) as (_ & _ & H);
    [lia|].
  split; [reflexivity | exact H].
Defined.

(** X6 on one square: two passes are one pass after one pass. *)
Lemma subdivision_composes_witness :
  applyCatmullClarkSubdivision false oneQuad (1 + 1)
  = mid ← applyCatmullClarkSubdivision false oneQuad 1;
    applyCatmullClarkSubdivision false mid 1.
Proof. apply (subdivision_composes false oneQuad 1 1); lia. Defined.

(** X7 on the two triangles with unshared corners. *)
Lemma subdivision_reads_corners_witness :
  sameCorners twoTrianglesUnshared twoTriangles ∧
  applyCatmullClarkSubdivision false twoTriangles 2
  = applyCatmullClarkSubdivision false twoTrianglesUnshared 2.
Proof.
  destruct (subdivision_reads_corners false twoTrianglesUnshared twoTriangles 2
              Examples.sameCorners_unshared) as (_ & H & _); [lia|].
  split; [exact Examples.sameCorners_unshared | exact H].
Defined.

(** X8 on the cube. *)
Lemma meshToModel_runs_iff_indexed_witness :
  (∃ model, meshToModel cube = Done model) ↔ wellIndexed cube.
Proof.
  apply (meshToModel_runs_iff_indexed cube). simpl. lia.
Defined.

(** X9 on the two triangles: six corners, four positions. *)
Lemma vertices_by_first_appearance_witness :
  meshToModel twoTriangles = Done twoTrianglesModel ∧
  ∃ ps, cornerPositions twoTriangles = Done ps ∧
        snapshotPositions twoTrianglesModel = firsts ps ∧
        length ps = 6%nat ∧
        length (snapshotPositions twoTrianglesModel) = 4%nat.
Proof.
  destruct (vertices_by_first_appearance _ _ twoTriangles_model)
    as (ps & Hps & Hsnap & _).
  split; [exact twoTriangles_model|]. exists ps.
  split_and!; [exact Hps | exact Hsnap | | reflexivity].
  assert (Hc : cornerPositions twoTriangles
               = Done [vec 0 0 0; vec 4 0 0; vec 4 4 0;
                       vec 0 0 0; vec 4 4 0; vec 0 4 0]) by by_computation.
  rewrite Hc in Hps. injection Hps as <-. reflexivity.
Defined.

(** X10 on the two triangles: five edges for six sides. *)
Lemma edges_are_face_sides_witness :
  meshToModel twoTriangles = Done twoTrianglesModel ∧
  NoDup (endpoints twoTrianglesModel) ∧
  endpoints twoTrianglesModel = [(0, 1); (1, 2); (0, 2); (2, 3); (0, 3)].
Proof.
  destruct (edges_are_face_sides _ _ twoTriangles_model) as (Hnd & _).
  split_and!; [exact twoTriangles_model | exact Hnd | by_computation].
Defined.

(** X11 on the two triangles: vertex 1 is a corner of the first face only. *)
Lemma every_vertex_has_a_face_witness :
  let v := {| vr_position := vec 4 0 0; vr_edges := [0; 1]; vr_faces := [0] |} in
  meshToModel twoTriangles = Done twoTrianglesModel ∧
  vertices twoTrianglesModel !! 1%nat = Some v ∧
  (1 ≤ length (vr_faces v))%nat ∧ (2 ≤ length (vr_edges v))%nat.
Proof.
  intros v.
  assert (Hv : vertices twoTrianglesModel !! 1%nat = Some v) by by_computation.
  destruct (every_vertex_has_a_face _ _ 1 v twoTriangles_model Hv)
    as (H1 & H2 & _).
  split_and!; [exact twoTriangles_model | exact Hv | exact H1 | exact H2].
Defined.

(** X12 on the two triangles. *)
Lemma pass_returns_or_throws_witness :
  wellIndexed twoTriangles ∧
  ((∃ out, subdivisionStep twoTriangles = Done out) ∨
   subdivisionStep twoTriangles = Fail RuntimeError).
Proof.
  destruct (pass_returns_or_throws twoTriangles twoTriangles_indexed) as [H _];
    [simpl; lia|].
  split; [exact twoTriangles_indexed | exact H].
Defined.

(** X13 on the two triangles and two passes. *)
Lemma subdivision_returns_or_throws_witness :
  wellIndexed twoTriangles ∧
  ((∃ out, applyCatmullClarkSubdivision false twoTriangles 2 = Done out ∧
           wellIndexed out) ∨
   applyCatmullClarkSubdivision false twoTriangles 2 = Fail RuntimeError).
Proof.
  split; [exact twoTriangles_indexed|].
  apply (subdivision_returns_or_throws false twoTriangles 2 twoTriangles_indexed);
    simpl; lia.
Defined.

(** X14 on the two triangles: six corners give six quads and fourteen
    vertices. *)
Lemma subdivision_growth_witness :
  applyCatmullClarkSubdivision false twoTriangles 1 = Done twoTrianglesNewMesh ∧
  Z.of_nat (length (mesh_faces twoTrianglesNewMesh))
  = 4 ^ (1 - 1) * Z.of_nat (cornerTotal (mesh_faces twoTriangles)) ∧
  length (mesh_vertices twoTrianglesNewMesh) = 14%nat.
Proof.
  destruct (subdivision_growth false twoTriangles twoTrianglesNewMesh 1)
    as (_ & HF & HV & _); [lia | exact twoTriangles_pass |].
  split_and!; [exact twoTriangles_pass | exact HF |].
  rewrite (HV eq_refl). reflexivity.
Defined.

(** X16 on the two triangles as loaded: six vertices in the mesh, four in
    the model. *)
Lemma loaded_mesh_subdivides_witness :
  length (mesh_vertices (loadMesh loadedTriangles)) = 6%nat ∧
  ∃ model,
    meshToModel (loadMesh loadedTriangles) = Done model ∧
    snapshotPositions model
    = firsts (concat (loadedCorners <$> loadedTriangles)) ∧
    firsts (concat (loadedCorners <$> loadedTriangles))
    = [vec 0 0 0; vec 4 0 0; vec 4 4 0; vec 0 4 0].
Proof.
  destruct (loaded_mesh_subdivides false loadedTriangles) as [(model & Hm & Hs) _];
    [simpl; lia|].
  split; [reflexivity|]. exists model.
  split_and!; [exact Hm | exact Hs | by_computation].
Defined.

(** X17 on the two triangles: four vertices, five edges, two triangles. *)
Lemma setMesh_shows_the_model_witness :
  meshToModel twoTriangles = Done twoTrianglesModel ∧
  ∃ r', Renderer.setMesh twoTriangles freshRenderer = Done r' ∧
        Renderer.getVertexCount r' = 4 ∧
        Renderer.getEdgeCount r' = 5 ∧
        Renderer.getQuadCount r' = 0 ∧
        Renderer.getTriangleCount r' = 2 ∧
        length (Renderer.wireframeBuffer_ r') = 10%nat ∧
        length (Renderer.solidBuffer_ r') = 6%nat.
Proof.
  destruct (setMesh_shows_the_model twoTriangles twoTrianglesModel freshRenderer
              twoTriangles_model)
    as (r' & Hrun & HV & HE & HQ & HT & _ & _ & HW & _ & HS & _); [simpl; lia|].
  split; [exact twoTriangles_model|]. exists r'.
  split_and!; [exact Hrun | exact HV | exact HE | exact HQ | exact HT
              | exact HW | exact HS].
Defined.

(** X18 on the two triangles and on the triangle with a corner that names
    no vertex. *)
Lemma setMesh_runs_iff_indexed_witness :
  ((∃ r', Renderer.setMesh twoTriangles freshRenderer = Done r') ↔
   wellIndexed twoTriangles) ∧
  (∀ e, Renderer.setMesh dangling freshRenderer = Fail e → e = OutOfBounds).
Proof.
  destruct (setMesh_runs_iff_indexed twoTriangles freshRenderer) as (H1 & _);
    [simpl; lia|].
  destruct (setMesh_runs_iff_indexed dangling freshRenderer) as (_ & _ & H2);
    [simpl; lia|].
  split; [exact H1 | exact H2].
Defined.

(** X19 on the two triangles after one pass: six quads. *)
Lemma subdivided_mesh_is_shown_witness :
  applyCatmullClarkSubdivision false twoTriangles 1 = Done twoTrianglesNewMesh ∧
  ∃ r', Renderer.setMesh twoTrianglesNewMesh freshRenderer = Done r' ∧
        Renderer.getTriangleCount r' = 0 ∧
        Renderer.getQuadCount r' = 6.
Proof.
  destruct (subdivided_mesh_is_shown false twoTriangles twoTrianglesNewMesh 1
              freshRenderer)
    as (r' & model & _ & Hrun & HT & HQ & _);
    [lia | exact twoTriangles_pass | simpl; lia |].
  split; [exact twoTriangles_pass|]. exists r'.
  split_and!; [exact Hrun | exact HT | exact HQ].
Defined.

End MoreExamples.
